(** * Statement lowering of the LDC backend (gen/statements.cpp)

    A shallow embedding of [ToIRVisitor]: every [visit] overload becomes a
    state transformer on the lowering state of the function being compiled
    (block builder, scope stack, loop targets, label resolver), and the
    properties the specification states about the lowering are proved about
    these transformers. *)

From Stdlib Require Import ZArith Lia Sorted.
From stdpp Require Import base option list strings gmap.

Local Open Scope string_scope.
Local Open Scope list_scope.

(** ** Values, expressions and instructions *)

(** [llvm::BasicBlock *]: a block is named by its creation index inside the
    function. *)
Abbreviation BB := nat.

(** Identity of a statement node (the [Statement *] the scope stack uses as
    a key). *)
Abbreviation StmtId := nat.

(** Identity of a stack slot returned by an alloca. *)
Abbreviation Slot := nat.

Record VarDeclaration := {
  vd_init : option Z;      (* [_init], with its folded value when present *)
  vd_isConst : bool        (* [isConst()] *)
}.

(** The expression forms the statement lowering inspects ([exp->op]); every
    other expression is opaque and only carries an identity. *)
Inductive Expression :=
| IntegerExp (value : Z)
| StringExp (str : list Z)                   (* code units *)
| VarExp (var : option VarDeclaration)       (* [var->isVarDeclaration()] *)
| NullExp
| OtherExp (id : nat) (inPlace : bool).

Inductive LLValue :=
| VExp (e : Expression)                      (* value of a lowered expression *)
| VConstInt (z : Z)
| VConstUint (n : nat)
| VConstString (s : list Z)
| VNullValue
| VLoadSlot (s : Slot)
| VLoad (v : LLValue)                        (* [DtoLoad(v)] *)
| VBitCast (v : LLValue)                     (* cast to the return type *)
| VICmpEq (a b : LLValue)
| VCall (fn : string) (table arg : LLValue)
| VStringTable (inits : list (list Z))
| VCatchPad (cs : BB)
| VBoolTrue
| VOther (what : string).

#[global] Instance VarDeclaration_eq_dec : EqDecision VarDeclaration.
Proof. solve_decision. Defined.
#[global] Instance Expression_eq_dec : EqDecision Expression.
Proof. solve_decision. Defined.
#[global] Instance LLValue_eq_dec : EqDecision LLValue.
Proof. solve_decision. Defined.

(** A pending cleanup: the block its code starts in and the block that was
    current when it was registered. *)
Record CleanupScope := { beginBlock : BB; endBlock : BB }.

(** An active catch: the class it matches ([None] for the catch switch of
    the funclet scheme) and its handler block. *)
Record CatchScope := { classInfoPtr : option nat; bodyBlock : BB }.

#[global] Instance CleanupScope_eq_dec : EqDecision CleanupScope.
Proof. solve_decision. Defined.
#[global] Instance CatchScope_eq_dec : EqDecision CatchScope.
Proof. solve_decision. Defined.

Inductive Instr :=
| IExp (e : Expression)                      (* code of [toElemDtor(e)] *)
| IInPlace (e : Expression)                  (* code of [toInPlaceConstruction] *)
| ISretStore (e : Expression)
| IPostblit (e : Expression)
| IStore (v : LLValue) (s : Slot)
| IVarDecl (what : string)
| IOther (what : string)                     (* loads, stores, arithmetic *)
| ICleanup (c : CleanupScope)                (* code of one cleanup *)
| ICall (fn : string) (args : list LLValue)  (* with what an exception of *)
    (unwind : list CatchScope)               (* the callee unwinds through *)
    (cleanups : list CleanupScope)
| ICatchPad (cs : BB) (flags : nat)
| ICmp (a b : LLValue)                       (* [CreateICmp(ICMP_EQ, a, b)] *)
| IAsm
| Br (target : BB)
| CondBr (cond : LLValue) (iftrue iffalse : BB)
| Ret (v : LLValue)
| RetVoid
| Unreachable
| Switch (cond : LLValue) (default : BB) (cases : list (LLValue * BB))
| CatchSwitch (unwindTo : bool) (reserved : nat)  (* handlers added by *)
    (handlers : list BB)                          (* [addHandler], in order *)
| CatchRet (pad : BB) (target : BB).

Definition isTerminator (i : Instr) : bool :=
  match i with
  | Br _ | CondBr _ _ _ | Ret _ | RetVoid | Unreachable
  | Switch _ _ _ | CatchSwitch _ _ _ | CatchRet _ _ => true
  | _ => false
  end.

Record BasicBlock := { bbName : string; bbInstrs : list Instr }.

(** [getTerminator()]: the last instruction, when it is a terminator. *)
Definition getTerminator (b : BasicBlock) : option Instr :=
  match last (bbInstrs b) with
  | Some i => if isTerminator i then Some i else None
  | None => None
  end.

(** ** Lowering state *)

(** An entry of the loop target stack. [continueBlock] is absent for a
    switch, which is only a break target. *)
Record LoopTarget := {
  targetStatement : StmtId;
  continueBlock : option BB;
  breakBlock : BB;
  cleanupScope : nat
}.

#[global] Instance LoopTarget_eq_dec : EqDecision LoopTarget.
Proof. solve_decision. Defined.

Record LabelTarget := { labelBlock : BB; labelScope : nat }.

(** A goto whose label was not known yet. *)
Record GotoJump := {
  sourceBlock : BB;
  tentativeTarget : BB;
  targetLabel : string;
  gotoScope : nat
}.

(** Scratch fields the lowering keeps on a case or default node. *)
Record CaseState := { bodyBB : option BB; llvmIdx : option LLValue }.

(** Calls into the debug-info, coverage and profile collaborators. *)
Inductive Hook :=
| PGO_setCurrentStmt
| PGO_emitCounterIncrement
| PGO_branchWeights
| DBG_EmitStopPoint
| DBG_EmitBlockStart
| DBG_EmitBlockEnd
| COV_LinecountInc.

#[local] Set Primitive Projections.

Record IRState := {
  blocks : list BasicBlock;
  scopebb : BB;
  cleanupScopes : list CleanupScope;     (* innermost first *)
  catchScopes : list CatchScope;         (* most recently pushed first *)
  loopTargets : list LoopTarget;         (* innermost first *)
  labelTargets : list (string * LabelTarget);
  gotoJumps : list GotoJump;
  retBlock : option BB;
  retValSlot : option Slot;
  allocas : nat;
  caseStates : gmap nat CaseState;
  asmBlock : option (list string);
  hooks : list Hook                      (* most recent first *)
}.

#[local] Unset Primitive Projections.

(** The LLVM type of a value about to be returned, as far as the return
    statement looks at it: the return type of the function, a pointer type
    other than the return type (to a value of the return type or to
    something else), or any other type. *)
Inductive ValueType :=
| TyReturn
| TyPointer (toReturn : bool)
| TyOther.

#[global] Instance ValueType_eq_dec : EqDecision ValueType.
Proof. solve_decision. Defined.

(** Per-function and per-compilation facts the lowering consults, and the
    static facts about the expressions of the function it asks the
    frontend and the ABI for. *)
Record Config := {
  isMainFunc : bool;      (* [llFunc == irs->mainFunc] *)
  fdIsMain : bool;        (* [fd->isMain()] *)
  retTypeIsVoid : bool;   (* LLVM return type of the function is void *)
  funcIsRef : bool;       (* [f->type->isref] *)
  hasSretArg : bool;      (* [getIrFunc(fd)->sretArg] is set *)
  sretRewrite : bool;     (* [f->irFty.arg_sret->rewrite] is set *)
  nrvo : bool;            (* [fd->nrvo_can && fd->nrvo_var] *)
  retInMemoryOnly : bool; (* [DtoIsInMemoryOnly(f->type->next)] *)
  isSretLVal : Expression -> bool;
    (* [e->isLVal() && DtoLVal(e) == sretPointer] for the value [e] of the
       expression: NRVO already built it at the sret pointer *)
  isResultVar : Expression -> bool;
    (* [ve->var->isResult()] for a variable expression *)
  putRetType : Expression -> ValueType;
    (* the type of [irFty.putRet(dval)] for the value of the expression *)
  genInstrProf : bool;    (* [global.params.genInstrProf] *)
  useMSVCEH : bool        (* funclet-based exception handling *)
}.

(** ** Fatal errors *)

Inductive Abort :=
| FatalError (msg : string)          (* [error(...); fatal();] *)
| AssertionFailed (what : string)    (* a failed [assert] *)
| Crash (what : string).             (* a null pointer handed to LLVM *)

Inductive Result (A : Type) :=
| Ok (a : A)
| Aborted (e : Abort).
Arguments Ok {A} a.
Arguments Aborted {A} e.

Definition bind {A B} (m : Result A) (k : A -> Result B) : Result B :=
  match m with
  | Ok a => k a
  | Aborted e => Aborted e
  end.

Notation "x <-- m ;; k" := (bind m (fun x => k))
  (at level 100, m at next level, right associativity).

Definition Lower := IRState -> Result IRState.

Definition assert (c : bool) (what : string) : Result unit :=
  if c then Ok tt else Aborted (AssertionFailed what).

(** ** Field updates *)

Definition set_blocks (f : list BasicBlock -> list BasicBlock) (s : IRState) :=
  {| blocks := f (blocks s); scopebb := scopebb s;
     cleanupScopes := cleanupScopes s; catchScopes := catchScopes s;
     loopTargets := loopTargets s; labelTargets := labelTargets s;
     gotoJumps := gotoJumps s; retBlock := retBlock s;
     retValSlot := retValSlot s; allocas := allocas s;
     caseStates := caseStates s; asmBlock := asmBlock s; hooks := hooks s |}.

Definition set_scopebb (b : BB) (s : IRState) :=
  {| blocks := blocks s; scopebb := b;
     cleanupScopes := cleanupScopes s; catchScopes := catchScopes s;
     loopTargets := loopTargets s; labelTargets := labelTargets s;
     gotoJumps := gotoJumps s; retBlock := retBlock s;
     retValSlot := retValSlot s; allocas := allocas s;
     caseStates := caseStates s; asmBlock := asmBlock s; hooks := hooks s |}.

Definition set_cleanupScopes (c : list CleanupScope) (s : IRState) :=
  {| blocks := blocks s; scopebb := scopebb s;
     cleanupScopes := c; catchScopes := catchScopes s;
     loopTargets := loopTargets s; labelTargets := labelTargets s;
     gotoJumps := gotoJumps s; retBlock := retBlock s;
     retValSlot := retValSlot s; allocas := allocas s;
     caseStates := caseStates s; asmBlock := asmBlock s; hooks := hooks s |}.

Definition set_catchScopes (c : list CatchScope) (s : IRState) :=
  {| blocks := blocks s; scopebb := scopebb s;
     cleanupScopes := cleanupScopes s; catchScopes := c;
     loopTargets := loopTargets s; labelTargets := labelTargets s;
     gotoJumps := gotoJumps s; retBlock := retBlock s;
     retValSlot := retValSlot s; allocas := allocas s;
     caseStates := caseStates s; asmBlock := asmBlock s; hooks := hooks s |}.

Definition set_loopTargets (l : list LoopTarget) (s : IRState) :=
  {| blocks := blocks s; scopebb := scopebb s;
     cleanupScopes := cleanupScopes s; catchScopes := catchScopes s;
     loopTargets := l; labelTargets := labelTargets s;
     gotoJumps := gotoJumps s; retBlock := retBlock s;
     retValSlot := retValSlot s; allocas := allocas s;
     caseStates := caseStates s; asmBlock := asmBlock s; hooks := hooks s |}.

Definition set_labelTargets (l : list (string * LabelTarget)) (s : IRState) :=
  {| blocks := blocks s; scopebb := scopebb s;
     cleanupScopes := cleanupScopes s; catchScopes := catchScopes s;
     loopTargets := loopTargets s; labelTargets := l;
     gotoJumps := gotoJumps s; retBlock := retBlock s;
     retValSlot := retValSlot s; allocas := allocas s;
     caseStates := caseStates s; asmBlock := asmBlock s; hooks := hooks s |}.

Definition set_gotoJumps (g : list GotoJump) (s : IRState) :=
  {| blocks := blocks s; scopebb := scopebb s;
     cleanupScopes := cleanupScopes s; catchScopes := catchScopes s;
     loopTargets := loopTargets s; labelTargets := labelTargets s;
     gotoJumps := g; retBlock := retBlock s;
     retValSlot := retValSlot s; allocas := allocas s;
     caseStates := caseStates s; asmBlock := asmBlock s; hooks := hooks s |}.

Definition set_retBlock (r : option BB) (s : IRState) :=
  {| blocks := blocks s; scopebb := scopebb s;
     cleanupScopes := cleanupScopes s; catchScopes := catchScopes s;
     loopTargets := loopTargets s; labelTargets := labelTargets s;
     gotoJumps := gotoJumps s; retBlock := r;
     retValSlot := retValSlot s; allocas := allocas s;
     caseStates := caseStates s; asmBlock := asmBlock s; hooks := hooks s |}.

Definition set_retValSlot (r : option Slot) (s : IRState) :=
  {| blocks := blocks s; scopebb := scopebb s;
     cleanupScopes := cleanupScopes s; catchScopes := catchScopes s;
     loopTargets := loopTargets s; labelTargets := labelTargets s;
     gotoJumps := gotoJumps s; retBlock := retBlock s;
     retValSlot := r; allocas := allocas s;
     caseStates := caseStates s; asmBlock := asmBlock s; hooks := hooks s |}.

Definition set_allocas (n : nat) (s : IRState) :=
  {| blocks := blocks s; scopebb := scopebb s;
     cleanupScopes := cleanupScopes s; catchScopes := catchScopes s;
     loopTargets := loopTargets s; labelTargets := labelTargets s;
     gotoJumps := gotoJumps s; retBlock := retBlock s;
     retValSlot := retValSlot s; allocas := n;
     caseStates := caseStates s; asmBlock := asmBlock s; hooks := hooks s |}.

Definition set_caseStates (c : gmap nat CaseState) (s : IRState) :=
  {| blocks := blocks s; scopebb := scopebb s;
     cleanupScopes := cleanupScopes s; catchScopes := catchScopes s;
     loopTargets := loopTargets s; labelTargets := labelTargets s;
     gotoJumps := gotoJumps s; retBlock := retBlock s;
     retValSlot := retValSlot s; allocas := allocas s;
     caseStates := c; asmBlock := asmBlock s; hooks := hooks s |}.

Definition set_asmBlock (a : option (list string)) (s : IRState) :=
  {| blocks := blocks s; scopebb := scopebb s;
     cleanupScopes := cleanupScopes s; catchScopes := catchScopes s;
     loopTargets := loopTargets s; labelTargets := labelTargets s;
     gotoJumps := gotoJumps s; retBlock := retBlock s;
     retValSlot := retValSlot s; allocas := allocas s;
     caseStates := caseStates s; asmBlock := a; hooks := hooks s |}.

(** A collaborator hook: it leaves the lowering state alone and is only
    recorded. *)
Definition hook (h : Hook) (s : IRState) :=
  {| blocks := blocks s; scopebb := scopebb s;
     cleanupScopes := cleanupScopes s; catchScopes := catchScopes s;
     loopTargets := loopTargets s; labelTargets := labelTargets s;
     gotoJumps := gotoJumps s; retBlock := retBlock s;
     retValSlot := retValSlot s; allocas := allocas s;
     caseStates := caseStates s; asmBlock := asmBlock s;
     hooks := h :: hooks s |}.

(** ** Block builder *)

(** [llvm::BasicBlock::Create]: a new empty block at the end of the
    function; the current block does not change. *)
Definition BasicBlock_Create (name : string) (s : IRState) : BB * IRState :=
  (length (blocks s),
   set_blocks (fun bs => bs ++ [{| bbName := name; bbInstrs := [] |}]) s).

Definition appendInstr (i : Instr) (b : BasicBlock) : BasicBlock :=
  {| bbName := bbName b; bbInstrs := bbInstrs b ++ [i] |}.

(** Inserting an instruction at the end of block [bb]. LLVM performs no
    check: the instruction is appended even after a terminator. *)
Definition insertAtEnd (i : Instr) (bb : BB) (s : IRState) : IRState :=
  set_blocks (alter (appendInstr i) bb) s.

(** The builder of the current scope ([irs->ir->Create...]). *)
Definition emit (i : Instr) (s : IRState) : IRState :=
  insertAtEnd i (scopebb s) s.

Definition blockInstrs (s : IRState) (bb : BB) : list Instr :=
  match blocks s !! bb with
  | Some b => bbInstrs b
  | None => []
  end.

Definition blockTerminated (s : IRState) (bb : BB) : bool :=
  match blocks s !! bb with
  | Some b => bool_decide (is_Some (getTerminator b))
  | None => false
  end.

(** Modelled from the spec: [IRState::scopereturned] (gen/irstate.cpp is not
    among the sources), "the current block is already terminated". *)
Definition scopereturned (s : IRState) : bool :=
  blockTerminated s (scopebb s).

(** Modelled from the spec: [irs->scope() = IRScope(bb)], switching the
    single current insertion point to [bb]. *)
Definition setScope (bb : BB) (s : IRState) : IRState := set_scopebb bb s.

(** Modelled from the spec: [toElemDtor] (gen/toir.cpp is not among the
    sources), the opaque "lower expression to value" operation with all its
    side effects and temporary cleanups folded in. *)
Definition toElemDtor (e : Expression) (s : IRState) : LLValue * IRState :=
  (VExp e, emit (IExp e) s).

(** Modelled from the spec: [IRState::CreateCallOrInvoke] (gen/irstate.cpp is
    not among the sources). The call is emitted in the current block; the
    catch regions active at the call, in probing order, are what an exception
    raised by the callee is matched against, and the cleanups pending at the
    call are what it runs on the way out. *)
Definition CreateCallOrInvoke (fn : string) (args : list LLValue)
    (s : IRState) : IRState :=
  emit (ICall fn args (catchScopes s) (cleanupScopes s)) s.

(** ** Scope stack (cleanups and catches) *)

(** Modelled from the spec: [ScopeStack::currentCleanupScope]
    (ir/irfunction.cpp is not among the sources), the cleanup cursor: how
    many cleanups are currently pending. *)
Definition currentCleanupScope (s : IRState) : nat :=
  length (cleanupScopes s).

(** Modelled from the spec: [ScopeStack::pushCleanup], "appends to the
    stack; returns nothing, increases depth". *)
Definition pushCleanup (beginBlock endBlock : BB) (s : IRState) : IRState :=
  set_cleanupScopes
    ({| beginBlock := beginBlock; endBlock := endBlock |} :: cleanupScopes s) s.

(** The cleanups above the cursor [downTo], innermost first. *)
Definition cleanupsAbove (downTo : nat) (s : IRState) : list CleanupScope :=
  take (length (cleanupScopes s) - downTo) (cleanupScopes s).

(** Modelled from the spec: [ScopeStack::popCleanups], "removes entries
    without emitting code". *)
Definition popCleanups (downTo : nat) (s : IRState) : IRState :=
  set_cleanupScopes
    (drop (length (cleanupScopes s) - downTo) (cleanupScopes s)) s.

(** Emits the code of the cleanups [cs] in the order given, chaining each
    into a fresh block, and finally branches into [target]. *)
Fixpoint executeCleanups (cs : list CleanupScope) (target : BB)
    (s : IRState) : IRState :=
  match cs with
  | [] => emit (Br target) s
  | c :: rest =>
      let s := emit (ICleanup c) s in
      let '(next, s) := BasicBlock_Create "cleanup.cont" s in
      let s := emit (Br next) s in
      executeCleanups rest target (setScope next s)
  end.

(** Modelled from the spec: [ScopeStack::runCleanups], "emits, in reverse
    (innermost-first) order, the code for every cleanup above [downTo],
    chaining each into a fresh block, and finally branches into [target]".
    The current insertion point is left where it was. *)
Definition runCleanups (downTo : nat) (target : BB) (s : IRState) : IRState :=
  setScope (scopebb s) (executeCleanups (cleanupsAbove downTo s) target s).

(** Modelled from the spec: [ScopeStack::runAllCleanups], running the
    cleanups down to the function level. *)
Definition runAllCleanups (target : BB) (s : IRState) : IRState :=
  runCleanups 0 target s.

(** Modelled from the spec: [ScopeStack::currentCatchScope]. *)
Definition currentCatchScope (s : IRState) : nat := length (catchScopes s).

(** Modelled from the spec: [ScopeStack::pushCatch], which "maintains the
    active catch-region stack; probing order for a thrown exception is stack
    order (most-recently-pushed innermost catch first)". *)
Definition pushCatch (classInfoPtr : option nat) (bodyBlock : BB)
    (s : IRState) : IRState :=
  set_catchScopes
    ({| classInfoPtr := classInfoPtr; bodyBlock := bodyBlock |}
       :: catchScopes s) s.

(** Modelled from the spec: [ScopeStack::popCatch]; popping an empty
    catch-region stack is an internal error. *)
Definition popCatch : Lower := fun s =>
  match catchScopes s with
  | [] => Aborted (FatalError "catch-region already empty on pop")
  | _ :: rest => Ok (set_catchScopes rest s)
  end.

(** ** Loop and break targets *)

(** Modelled from the spec: [ScopeStack::pushLoopTarget]; the entry records
    the cleanup depth at which the loop was entered. *)
Definition pushLoopTarget (loopStatement : StmtId)
    (continueTarget breakTarget : BB) (s : IRState) : IRState :=
  set_loopTargets
    ({| targetStatement := loopStatement;
        continueBlock := Some continueTarget;
        breakBlock := breakTarget;
        cleanupScope := currentCleanupScope s |} :: loopTargets s) s.

(** Modelled from the spec: [ScopeStack::popLoopTarget]. *)
Definition popLoopTarget (s : IRState) : IRState :=
  set_loopTargets (tail (loopTargets s)) s.

(** Modelled from the spec: [ScopeStack::pushBreakTarget], the entry of a
    switch: a break target that is no continue target. *)
Definition pushBreakTarget (switchStatement : StmtId) (targetBlock : BB)
    (s : IRState) : IRState :=
  set_loopTargets
    ({| targetStatement := switchStatement;
        continueBlock := None;
        breakBlock := targetBlock;
        cleanupScope := currentCleanupScope s |} :: loopTargets s) s.

(** Modelled from the spec: [ScopeStack::popBreakTarget]. *)
Definition popBreakTarget (s : IRState) : IRState :=
  set_loopTargets (tail (loopTargets s)) s.

Definition isContinueTarget (t : LoopTarget) : bool :=
  bool_decide (is_Some (continueBlock t)).

(** Modelled from the spec: [ScopeStack::breakToClosest], "look up the
    matching entry in the Loop Target Stack, call [runCleanups] down to the
    cleanup depth recorded when that loop was entered, and branch to its
    break block"; a compile error without an enclosing target. *)
Definition breakToClosest : Lower := fun s =>
  match loopTargets s with
  | t :: _ => Ok (runCleanups (cleanupScope t) (breakBlock t) s)
  | [] => Aborted (FatalError "break is not inside a loop or switch")
  end.

(** Modelled from the spec: [ScopeStack::breakToStatement]. *)
Definition breakToStatement (target : StmtId) : Lower := fun s =>
  match
    List.find (fun t => bool_decide (targetStatement t = target))
      (loopTargets s)
  with
  | Some t => Ok (runCleanups (cleanupScope t) (breakBlock t) s)
  | None => Aborted (FatalError "target for labeled break not found")
  end.

(** Modelled from the spec: [ScopeStack::continueWithClosest]. *)
Definition continueWithClosest : Lower := fun s =>
  match List.find isContinueTarget (loopTargets s) with
  | Some {| continueBlock := Some c; cleanupScope := d |} =>
      Ok (runCleanups d c s)
  | _ => Aborted (FatalError "continue is not inside a loop")
  end.

(** Modelled from the spec: [ScopeStack::continueWithLoop]. *)
Definition continueWithLoop (target : StmtId) : Lower := fun s =>
  match
    List.find
      (fun t => isContinueTarget t && bool_decide (targetStatement t = target))
      (loopTargets s)
  with
  | Some {| continueBlock := Some c; cleanupScope := d |} =>
      Ok (runCleanups d c s)
  | _ => Aborted (FatalError "target for labeled continue not found")
  end.

(** ** Label resolver *)

Definition findLabel (id : string) (l : list (string * LabelTarget))
    : option LabelTarget :=
  snd <$> List.find (fun p => bool_decide (fst p = id)) l.

(** Modelled from the spec: [DtoGoto] (gen/llvmhelpers.cpp is not among the
    sources). A known label is branched to after running the cleanups down
    to the depth recorded for it; jumping into a scope with live cleanups is
    an error. For a label not known yet the branch goes to a dangling block
    and the jump is recorded for [addLabelTarget]. *)
Definition DtoGoto (label : string) : Lower := fun s =>
  match findLabel label (labelTargets s) with
  | Some t =>
      if bool_decide (labelScope t <= currentCleanupScope s)
      then Ok (runCleanups (labelScope t) (labelBlock t) s)
      else Aborted (FatalError "cannot goto into a scope with cleanups")
  | None =>
      let '(tentative, s1) := BasicBlock_Create "goto.unresolved" s in
      let s2 := emit (Br tentative) s1 in
      Ok (set_gotoJumps
            ({| sourceBlock := scopebb s; tentativeTarget := tentative;
                targetLabel := label;
                gotoScope := currentCleanupScope s |} :: gotoJumps s2) s2)
  end.

(** Redirects the branches of block [b] that go to [old]. *)
Definition retarget (old new : BB) (b : BasicBlock) : BasicBlock :=
  {| bbName := bbName b;
     bbInstrs :=
       map (fun i => match i with
                     | Br t => if bool_decide (t = old) then Br new else Br t
                     | _ => i
                     end) (bbInstrs b) |}.

(** Modelled from the spec: [ScopeStack::addLabelTarget], which "registers a
    label's block, resolving any previously recorded forward references to
    it by patching their (initially dangling) branch targets"; the deferred
    depth check rejects a goto that would enter a scope with live
    cleanups. *)
Definition addLabelTarget (id : string) (block : BB) : Lower := fun s =>
  let depth := currentCleanupScope s in
  let s1 :=
    set_labelTargets
      ((id, {| labelBlock := block; labelScope := depth |})
         :: labelTargets s) s in
  let mine :=
    filter (fun g => targetLabel g = id) (gotoJumps s1) in
  let others :=
    filter (fun g => targetLabel g <> id) (gotoJumps s1) in
  if forallb (fun g => bool_decide (depth <= gotoScope g)) mine
  then
    Ok (set_gotoJumps others
          (foldr (fun g => set_blocks
                    (alter (retarget (tentativeTarget g) block)
                       (sourceBlock g))) s1 mine))
  else Aborted (FatalError "cannot goto into a scope with cleanups").

(** The idiom [if (!irs->scopereturned()) BranchInst::Create(bb, irs->scopebb())]. *)
Definition branchIfOpen (target : BB) (s : IRState) : IRState :=
  if scopereturned s then s else insertAtEnd (Br target) (scopebb s) s.

(** ** Case and default scratch state *)

Definition caseState (id : nat) (s : IRState) : CaseState :=
  default {| bodyBB := None; llvmIdx := None |} (caseStates s !! id).

Definition set_bodyBB (id : nat) (b : option BB) (s : IRState) : IRState :=
  set_caseStates
    (<[id := {| bodyBB := b; llvmIdx := llvmIdx (caseState id s) |}]>
       (caseStates s)) s.

Definition set_llvmIdx (id : nat) (v : option LLValue) (s : IRState)
    : IRState :=
  set_caseStates
    (<[id := {| bodyBB := bodyBB (caseState id s); llvmIdx := v |}]>
       (caseStates s)) s.

(** Modelled from the spec: [toConstElem] (gen/toconstelem.cpp is not among
    the sources) on the case labels that are compile-time constants. *)
Definition toConstElem (e : Expression) : option LLValue :=
  match e with
  | IntegerExp z => Some (VConstInt z)
  | StringExp str => Some (VConstString str)
  | VarExp (Some {| vd_init := Some z |}) => Some (VConstInt z)
  | _ => None
  end.

(** [isaConstantInt]: a dynamic cast that yields null for anything that is
    no integer constant. *)
Definition isaConstantInt (v : option LLValue) : option LLValue :=
  match v with
  | Some (VConstInt z) => Some (VConstInt z)
  | Some (VConstUint n) => Some (VConstUint n)
  | _ => None
  end.

(** ** The visitor *)

Section Visitor.

Variable cfg : Config.

(** [visit(CompoundStatement)]: the children in order, null ones
    skipped. *)
Fixpoint acceptAll (statements : list (option Lower)) : Lower := fun irs =>
  match statements with
  | [] => Ok irs
  | None :: rest => acceptAll rest irs
  | Some s :: rest => irs <-- s irs ;; acceptAll rest irs
  end.

Definition visit_CompoundStatement (statements : list (option Lower))
    : Lower := fun irs =>
  let irs := hook PGO_setCurrentStmt irs in
  acceptAll statements irs.

(** Modelled from the spec: [toInPlaceConstruction] (gen/toir.cpp is not
    among the sources); whether the expression can be built directly in the
    return slot is a property of the expression. *)
Definition toInPlaceConstruction (e : Expression) (s : IRState)
    : bool * IRState :=
  match e with
  | OtherExp _ true => (true, emit (IInPlace e) s)
  | _ => (false, s)
  end.

(** [DtoLoad] of the value when the function returns a struct or a static
    array and the value is a pointer of another type than the return type;
    the value and its type afterwards. *)
Definition loadForReturn (v : LLValue) (ty : ValueType)
    : LLValue * ValueType :=
  match ty with
  | TyPointer toReturn =>
      if retInMemoryOnly cfg
      then (VLoad v, if toReturn then TyReturn else TyOther)
      else (v, ty)
  | _ => (v, ty)
  end.

(** The value whose type still differs from the return type: the null
    constant in the main function, a bitcast elsewhere. *)
Definition castForReturn (v : LLValue) (ty : ValueType) : LLValue :=
  if bool_decide (ty = TyReturn) then v
  else if isMainFunc cfg then VNullValue else VBitCast v.

(** The first half of [visit(ReturnStatement)]: the LLVM value to return,
    or [None] for void returns. The loads and casts of the value are part
    of the value handle, as in [DtoLoad(f->retValSlot)] below. *)
Definition returnValueOf (exp : option Expression) (irs : IRState)
    : Result (option LLValue * IRState) :=
  if bool_decide (is_Some exp) || isMainFunc cfg then
    if retTypeIsVoid cfg then
      (* the function returns through the sret pointer *)
      _ <-- assert (negb (funcIsRef cfg)) "!f->type->isref" ;;
      _ <-- assert (hasSretArg cfg) "sretPointer" ;;
      _ <-- assert (negb (sretRewrite cfg))
              "ABI shouldn't have to rewrite sret returns" ;;
      match exp with
      | None => Aborted (Crash "stmt->exp")
      | Some e =>
          let initialCleanupScope := currentCleanupScope irs in
          let '(constructed, irs) := toInPlaceConstruction e irs in
          if constructed then
            if bool_decide (currentCleanupScope irs <> initialCleanupScope)
            then
              let '(endbb, irs) :=
                BasicBlock_Create "inPlaceSretConstruct.success" irs in
              let irs := runCleanups initialCleanupScope endbb irs in
              let irs := popCleanups initialCleanupScope irs in
              Ok (None, setScope endbb irs)
            else Ok (None, irs)
          else
            let '(_, irs) := toElemDtor e irs in
            (* store the return value unless NRVO already used the sret
               pointer *)
            if negb (isSretLVal cfg e) then
              let doPostblit :=
                negb (nrvo cfg)
                && negb match e with
                        | VarExp _ => isResultVar cfg e
                        | _ => false
                        end in
              let irs := emit (ISretStore e) irs in
              Ok (None, if doPostblit then emit (IPostblit e) irs else irs)
            else Ok (None, irs)
      end
    else
      (* a normal "register" return *)
      let '(returnValue, ty, irs) :=
        match exp with
        | None => (VNullValue, TyReturn, irs)
        | Some e =>
            let '(dval, irs) := toElemDtor e irs in
            let irs :=
              if funcIsRef cfg then irs else emit (IPostblit e) irs in
            (dval, putRetType cfg e, irs)
        end in
      let '(returnValue, ty) := loadForReturn returnValue ty in
      Ok (Some (castForReturn returnValue ty), irs)
  else
    _ <-- assert (retTypeIsVoid cfg) "llFunc->getReturnType() == void" ;;
    Ok (None, irs).

(** Modelled from the spec: [DtoRawAlloca] (gen/llvmhelpers.cpp is not among
    the sources), a new stack slot in the entry block of the function. *)
Definition DtoRawAlloca (s : IRState) : Slot * IRState :=
  (allocas s, set_allocas (S (allocas s)) s).

(** The second half of [visit(ReturnStatement)]: the return instruction
    itself, directly or through the shared return block. *)
Definition emitReturn (linnum : nat) (returnValue : option LLValue)
    : Lower := fun irs =>
  let useRetValSlot := negb (Nat.eqb (currentCleanupScope irs) 0) in
  let sharedRetBlockExists := bool_decide (is_Some (retBlock irs)) in
  irs <--
    (if useRetValSlot then
       let '(retbb, irs) :=
         match retBlock irs with
         | Some bb => (bb, irs)
         | None =>
             let '(bb, irs) := BasicBlock_Create "return" irs in
             let irs := set_retBlock (Some bb) irs in
             match returnValue with
             | Some _ =>
                 let '(slot, irs) := DtoRawAlloca irs in
                 (bb, set_retValSlot (Some slot) irs)
             | None => (bb, irs)
             end
         end in
       (* the store to the slot, before the cleanups are run *)
       irs <--
         match returnValue with
         | Some v =>
             match retValSlot irs with
             | Some slot => Ok (emit (IStore v slot) irs)
             | None => Aborted (Crash "f->retValSlot")
             end
         | None => Ok irs
         end ;;
       let irs := runAllCleanups retbb irs in
       Ok (setScope retbb irs)
     else Ok irs) ;;
  (* the actual return instruction, when it still has to be emitted *)
  irs <--
    (if negb useRetValSlot || negb sharedRetBlockExists then
       match returnValue with
       | Some v =>
           let irs :=
             if fdIsMain cfg && Nat.eqb linnum 0
             then hook DBG_EmitStopPoint irs else irs in
           if useRetValSlot then
             match retValSlot irs with
             | Some slot => Ok (emit (Ret (VLoadSlot slot)) irs)
             | None => Aborted (Crash "f->retValSlot")
             end
           else Ok (emit (Ret v) irs)
       | None => Ok (emit RetVoid irs)
       end
     else Ok irs) ;;
  let '(bb, irs) := BasicBlock_Create "dummy.afterreturn" irs in
  Ok (setScope bb irs).

Definition visit_ReturnStatement (exp : option Expression) (linnum : nat)
    : Lower := fun irs =>
  let irs := hook PGO_setCurrentStmt irs in
  let irs := hook DBG_EmitStopPoint irs in
  let irs := hook COV_LinecountInc irs in
  rv <-- returnValueOf exp irs ;;
  emitReturn linnum (fst rv) (snd rv).

Definition visit_ExpStatement (exp : option Expression) : Lower := fun irs =>
  let irs := hook PGO_setCurrentStmt irs in
  let irs := hook DBG_EmitStopPoint irs in
  let irs := hook COV_LinecountInc irs in
  match exp with
  | Some e => Ok (snd (toElemDtor e irs))
  | None => Ok irs
  end.

Definition visit_IfStatement (hasMatch : bool) (condition : Expression)
    (ifbody elsebody : option Lower) : Lower := fun irs =>
  let irs := hook PGO_setCurrentStmt irs in
  let irs := hook DBG_EmitBlockStart irs in
  let irs := hook COV_LinecountInc irs in
  let irs := if hasMatch then emit (IVarDecl "match") irs else irs in
  let '(cond_val, irs) := toElemDtor condition irs in
  let '(ifbb, irs) := BasicBlock_Create "if" irs in
  let '(endbb, irs) := BasicBlock_Create "endif" irs in
  let '(elsebb, irs) :=
    match elsebody with
    | Some _ => BasicBlock_Create "else" irs
    | None => (endbb, irs)
    end in
  let irs := insertAtEnd (CondBr cond_val ifbb elsebb) (scopebb irs) irs in
  let irs := hook PGO_branchWeights irs in
  let irs := setScope ifbb irs in
  irs <--
    match ifbody with
    | Some body =>
        let irs := hook DBG_EmitBlockStart irs in
        let irs := hook PGO_emitCounterIncrement irs in
        irs <-- body irs ;;
        Ok (hook DBG_EmitBlockEnd irs)
    | None => Ok irs
    end ;;
  let irs := branchIfOpen endbb irs in
  irs <--
    match elsebody with
    | Some body =>
        let irs := setScope elsebb irs in
        let irs := hook DBG_EmitBlockStart irs in
        irs <-- body irs ;;
        let irs := branchIfOpen endbb irs in
        Ok (hook DBG_EmitBlockEnd irs)
    | None => Ok irs
    end ;;
  let irs := hook DBG_EmitBlockEnd irs in
  Ok (setScope endbb irs).

Definition visit_ScopeStatement (statement : option Lower) : Lower :=
  fun irs =>
  let irs := hook PGO_setCurrentStmt irs in
  match statement with
  | Some s =>
      let irs := hook DBG_EmitBlockStart irs in
      irs <-- s irs ;;
      Ok (hook DBG_EmitBlockEnd irs)
  | None => Ok irs
  end.

Definition acceptOpt (s : option Lower) : Lower := fun irs =>
  match s with
  | Some s => s irs
  | None => Ok irs
  end.

Definition visit_WhileStatement (stmt : StmtId) (condition : Expression)
    (_body : option Lower) : Lower := fun irs =>
  let irs := hook PGO_setCurrentStmt irs in
  let irs := hook DBG_EmitBlockStart irs in
  let '(whilebb, irs) := BasicBlock_Create "whilecond" irs in
  let '(whilebodybb, irs) := BasicBlock_Create "whilebody" irs in
  let '(endbb, irs) := BasicBlock_Create "endwhile" irs in
  let irs := emit (Br whilebb) irs in
  let irs := setScope whilebb irs in
  let irs := hook COV_LinecountInc irs in
  let '(cond_val, irs) := toElemDtor condition irs in
  let irs := insertAtEnd (CondBr cond_val whilebodybb endbb) (scopebb irs) irs in
  let irs := hook PGO_branchWeights irs in
  let irs := setScope whilebodybb irs in
  let irs := pushLoopTarget stmt whilebb endbb irs in
  let irs := hook PGO_emitCounterIncrement irs in
  irs <-- acceptOpt _body irs ;;
  let irs := popLoopTarget irs in
  let irs := branchIfOpen whilebb irs in
  let irs := setScope endbb irs in
  Ok (hook DBG_EmitBlockEnd irs).

Definition visit_DoStatement (stmt : StmtId) (condition : Expression)
    (_body : option Lower) : Lower := fun irs =>
  let irs := hook PGO_setCurrentStmt irs in
  let irs := hook DBG_EmitBlockStart irs in
  let '(dowhilebb, irs) := BasicBlock_Create "dowhile" irs in
  let '(condbb, irs) := BasicBlock_Create "dowhilecond" irs in
  let '(endbb, irs) := BasicBlock_Create "enddowhile" irs in
  _ <-- assert (negb (scopereturned irs)) "!irs->scopereturned()" ;;
  let irs := insertAtEnd (Br dowhilebb) (scopebb irs) irs in
  let irs := setScope dowhilebb irs in
  let irs := pushLoopTarget stmt condbb endbb irs in
  let irs := hook PGO_emitCounterIncrement irs in
  irs <-- acceptOpt _body irs ;;
  let irs := popLoopTarget irs in
  let irs := insertAtEnd (Br condbb) (scopebb irs) irs in
  let irs := setScope condbb irs in
  let irs := hook COV_LinecountInc irs in
  let '(cond_val, irs) := toElemDtor condition irs in
  let irs := insertAtEnd (CondBr cond_val dowhilebb endbb) (scopebb irs) irs in
  let irs := hook PGO_branchWeights irs in
  let irs := setScope endbb irs in
  Ok (hook DBG_EmitBlockEnd irs).

(** [scopeStart] is the statement [getRelatedLabeled()] leads to once the
    scope statements around it are stripped. *)
Definition visit_ForStatement (scopeStart : StmtId) (_init : option Lower)
    (condition increment : option Expression) (_body : option Lower)
    : Lower := fun irs =>
  let irs := hook PGO_setCurrentStmt irs in
  let irs := hook DBG_EmitBlockStart irs in
  let '(forbb, irs) := BasicBlock_Create "forcond" irs in
  let '(forbodybb, irs) := BasicBlock_Create "forbody" irs in
  let '(forincbb, irs) := BasicBlock_Create "forinc" irs in
  let '(endbb, irs) := BasicBlock_Create "endfor" irs in
  irs <-- acceptOpt _init irs ;;
  _ <-- assert (negb (scopereturned irs)) "!irs->scopereturned()" ;;
  let irs := insertAtEnd (Br forbb) (scopebb irs) irs in
  let irs := pushLoopTarget scopeStart forincbb endbb irs in
  let irs := setScope forbb irs in
  let '(cond_val, irs) :=
    match condition with
    | Some c =>
        let irs := hook COV_LinecountInc irs in
        toElemDtor c irs
    | None => (VBoolTrue, irs)
    end in
  _ <-- assert (negb (scopereturned irs)) "!irs->scopereturned()" ;;
  let irs := insertAtEnd (CondBr cond_val forbodybb endbb) (scopebb irs) irs in
  let irs := hook PGO_branchWeights irs in
  let irs := setScope forbodybb irs in
  let irs := hook PGO_emitCounterIncrement irs in
  irs <-- acceptOpt _body irs ;;
  let irs := branchIfOpen forincbb irs in
  let irs := setScope forincbb irs in
  let irs :=
    match increment with
    | Some inc =>
        let irs := hook COV_LinecountInc irs in
        snd (toElemDtor inc irs)
    | None => irs
    end in
  let irs := branchIfOpen forbb irs in
  let irs := popLoopTarget irs in
  let irs := setScope endbb irs in
  Ok (hook DBG_EmitBlockEnd irs).

(** [target] is the statement a labelled break refers to, once the scope
    statements around it are stripped; [None] for a break without label. *)
Definition visit_BreakStatement (target : option StmtId) : Lower := fun irs =>
  let irs := hook PGO_setCurrentStmt irs in
  (* don't emit two terminators in a row *)
  if scopereturned irs then Ok irs else
  let irs := hook DBG_EmitStopPoint irs in
  let irs := hook COV_LinecountInc irs in
  irs <--
    match target with
    | Some targetStatement => breakToStatement targetStatement irs
    | None => breakToClosest irs
    end ;;
  let '(bb, irs) := BasicBlock_Create "afterbreak" irs in
  Ok (setScope bb irs).

Definition visit_ContinueStatement (target : option StmtId) : Lower :=
  fun irs =>
  let irs := hook PGO_setCurrentStmt irs in
  let irs := hook DBG_EmitStopPoint irs in
  let irs := hook COV_LinecountInc irs in
  irs <--
    match target with
    | Some targetLoopStatement => continueWithLoop targetLoopStatement irs
    | None => continueWithClosest irs
    end ;;
  let '(bb, irs) := BasicBlock_Create "afterbreak" irs in
  Ok (setScope bb irs).

Definition visit_OnScopeStatement : Lower := fun _ =>
  Aborted (FatalError
    "Internal Compiler Error: OnScopeStatement should have been lowered by frontend.").

Definition visit_TryFinallyStatement (_body finalbody : option Lower)
    : Lower := fun irs =>
  let irs := hook PGO_setCurrentStmt irs in
  let irs := hook DBG_EmitStopPoint irs in
  match _body, finalbody with
  | Some body, None | None, Some body =>
      let irs := hook DBG_EmitBlockStart irs in
      irs <-- body irs ;;
      Ok (hook DBG_EmitBlockEnd irs)
  | None, None => Ok irs
  | Some body, Some final =>
      let trybb := scopebb irs in
      (* the finally block and the cleanup scope for it *)
      let '(finallybb, irs) := BasicBlock_Create "finally" irs in
      let irs := setScope finallybb irs in
      let irs := hook DBG_EmitBlockStart irs in
      irs <-- final irs ;;
      let irs := hook DBG_EmitBlockEnd irs in
      let cleanupBefore := currentCleanupScope irs in
      let irs := pushCleanup finallybb (scopebb irs) irs in
      (* the try block *)
      let irs := setScope trybb irs in
      let irs := hook DBG_EmitBlockStart irs in
      irs <-- body irs ;;
      let irs := hook DBG_EmitBlockEnd irs in
      let irs :=
        if scopereturned irs then irs
        else
          let '(successbb, irs) := BasicBlock_Create "try.success" irs in
          let irs := runCleanups cleanupBefore successbb irs in
          let irs := setScope successbb irs in
          hook PGO_emitCounterIncrement irs in
      Ok (popCleanups cleanupBefore irs)
  end.

(** *** try/catch *)

Record Catch := {
  c_type : nat;            (* the class the catch matches *)
  c_hasVar : bool;         (* [ctch->var] *)
  c_nestedrefs : bool      (* [var->nestedrefs.dim] *)
}.

Record CatchBlock := { classdecl : option nat; BB_ : BB }.

(** [catchSwitchInst->addHandler(bb)]: the catch switch is the one the
    block [catchSwitchBlock] holds; the handler goes behind the ones it
    has. *)
Definition addHandler (catchSwitchBlock handler : BB) (s : IRState)
    : IRState :=
  set_blocks
    (alter
       (fun b =>
          {| bbName := bbName b;
             bbInstrs :=
               map (fun i => match i with
                             | CatchSwitch u n hs =>
                                 CatchSwitch u n (hs ++ [handler])
                             | _ => i
                             end) (bbInstrs b) |})
       catchSwitchBlock) s.

(** [emitBeginCatchMSVCEH]: the catch pad, which is added to the handlers
    of the catch switch, the return out of the funclet into a fresh handler
    block, and the call entering the catch. *)
Definition emitBeginCatchMSVCEH (ctch : Catch) (catchSwitchBlock : BB)
    (irs : IRState) : IRState :=
  let irs :=
    if c_hasVar ctch then hook DBG_EmitStopPoint irs else irs in
  let flags := if c_hasVar ctch then 0 else 64 in
  let irs := emit (ICatchPad catchSwitchBlock flags) irs in
  let irs := addHandler catchSwitchBlock (scopebb irs) irs in
  let irs :=
    if c_hasVar ctch && c_nestedrefs ctch
    then emit (IOther "copy exnObj") irs else irs in
  let '(catchhandler, irs) := BasicBlock_Create "catchhandler" irs in
  let irs := insertAtEnd (CatchRet catchSwitchBlock catchhandler)
               (scopebb irs) irs in
  let irs := setScope catchhandler irs in
  CreateCallOrInvoke "_d_eh_enter_catch" [VCatchPad catchSwitchBlock] irs.

(** One round of the loop over the catches of the funclet scheme. *)
Definition emitCatchBodyMSVC (endbb catchSwitchBlock : BB) (ctch : Catch)
    (handler : option Lower) : Lower := fun irs =>
  let '(catchBB, irs) := BasicBlock_Create "catch" irs in
  let irs := setScope catchBB irs in
  let irs := hook DBG_EmitBlockStart irs in
  let irs := hook PGO_emitCounterIncrement irs in
  let irs := emitBeginCatchMSVCEH ctch catchSwitchBlock irs in
  irs <-- acceptOpt handler irs ;;
  let irs := if scopereturned irs then irs else emit (Br endbb) irs in
  Ok (hook DBG_EmitBlockEnd irs).

Fixpoint emitCatchBodiesMSVC (endbb catchSwitchBlock : BB)
    (catches : list (Catch * option Lower)) : Lower := fun irs =>
  match catches with
  | [] => Ok irs
  | (ctch, handler) :: rest =>
      irs <-- emitCatchBodyMSVC endbb catchSwitchBlock ctch handler irs ;;
      emitCatchBodiesMSVC endbb catchSwitchBlock rest irs
  end.

(** One round of the loop over the catches of the landing-pad scheme: the
    catch block, the call entering the catch, the handler, and the record
    kept for the registration that follows the loop. *)
Definition emitCatchBody (endbb : BB) (ctch : Catch)
    (handler : option Lower) (irs : IRState)
    : Result (CatchBlock * IRState) :=
  let '(catchBB, irs) := BasicBlock_Create "catch" irs in
  let irs := setScope catchBB irs in
  let irs := hook DBG_EmitBlockStart irs in
  let irs := hook PGO_emitCounterIncrement irs in
  let irs := emit (IOther "load ehPtr") irs in
  let irs := emit (ICall "_d_eh_enter_catch" [] [] []) irs in
  let irs :=
    if c_hasVar ctch
    then emit (IOther "store throwable") (emit (IVarDecl "catch var") irs)
    else irs in
  irs <-- acceptOpt handler irs ;;
  let irs := if scopereturned irs then irs else emit (Br endbb) irs in
  let irs := hook DBG_EmitBlockEnd irs in
  Ok ({| classdecl := Some (c_type ctch); BB_ := catchBB |}, irs).

(** The loop itself; it is handed the catches in the order it visits
    them. *)
Fixpoint emitCatchBodies (endbb : BB) (catches : list (Catch * option Lower))
    (irs : IRState) : Result (list CatchBlock * IRState) :=
  match catches with
  | [] => Ok ([], irs)
  | (ctch, handler) :: rest =>
      r <-- emitCatchBody endbb ctch handler irs ;;
      r' <-- emitCatchBodies endbb rest (snd r) ;;
      Ok (fst r :: fst r', snd r')
  end.

(** The registration loop [for (const auto &cb : catchBlocks)]. *)
Definition pushCatches (catchBlocks : list CatchBlock) (irs : IRState)
    : IRState :=
  fold_left
    (fun irs cb =>
       let irs := hook PGO_branchWeights irs in
       pushCatch (classdecl cb) (BB_ cb) irs)
    catchBlocks irs.

(** The loop [for (i = 0; i < catchBlocks.size(); ++i) popCatch()]. *)
Fixpoint popCatches (n : nat) : Lower := fun irs =>
  match n with
  | 0 => Ok irs
  | S n => irs <-- popCatch irs ;; popCatches n irs
  end.

Definition visit_TryCatchStatement (_body : Lower)
    (catches : list (Catch * option Lower)) : Lower := fun irs =>
  let irs := hook PGO_setCurrentStmt irs in
  let irs := hook DBG_EmitStopPoint irs in
  let trybb := scopebb irs in
  let '(endbb, irs) := BasicBlock_Create "try.success.or.caught" irs in
  r <--
    (if useMSVCEH cfg then
       let '(catchSwitchBlock, irs) :=
         BasicBlock_Create "catch.dispatch" irs in
       let unwindto :=
         negb (Nat.eqb (currentCleanupScope irs) 0)
         || negb (Nat.eqb (currentCatchScope irs) 0) in
       let irs :=
         insertAtEnd (CatchSwitch unwindto (length catches) [])
           catchSwitchBlock irs in
       irs <-- emitCatchBodiesMSVC endbb catchSwitchBlock catches irs ;;
       let cb := {| classdecl := None; BB_ := catchSwitchBlock |} in
       Ok ([cb], pushCatch None catchSwitchBlock irs)
     else
       r <-- emitCatchBodies endbb (rev catches) irs ;;
       (* only after emitting all the catch bodies, register the catches *)
       Ok (fst r, pushCatches (fst r) (snd r))) ;;
  let '(catchBlocks, irs) := r in
  (* the try block *)
  let irs := setScope trybb irs in
  let irs := hook DBG_EmitBlockStart irs in
  irs <-- _body irs ;;
  let irs := hook DBG_EmitBlockEnd irs in
  let irs := branchIfOpen endbb irs in
  irs <-- popCatches (length catchBlocks) irs ;;
  let irs := setScope endbb irs in
  Ok (hook PGO_emitCounterIncrement irs).

Definition visit_ThrowStatement (exp : Expression) : Lower := fun irs =>
  let irs := hook PGO_setCurrentStmt irs in
  let irs := hook DBG_EmitStopPoint irs in
  let irs := hook COV_LinecountInc irs in
  let '(e, irs) := toElemDtor exp irs in
  let irs := CreateCallOrInvoke "_d_throw_exception" [e] irs in
  let irs := emit Unreachable irs in
  let '(bb, irs) := BasicBlock_Create "afterthrow" irs in
  Ok (setScope bb irs).

(** *** switch *)

(** Element type of a string switched on. *)
Inductive TY := Tchar | Twchar | Tdchar | Tother.

(** [struct Case], used to build the sorted list of cases. *)
Record Case := { str : list Z; index : nat }.

(** Modelled from the spec: [StringExp::compare] (the frontend is not among
    the sources); the case strings are ordered "lexicographically". *)
Fixpoint StringExp_compare (l r : list Z) : comparison :=
  match l, r with
  | [], [] => Eq
  | [], _ :: _ => Lt
  | _ :: _, [] => Gt
  | x :: l', y :: r' =>
      match Z.compare x y with
      | Eq => StringExp_compare l' r'
      | c => c
      end
  end.

(** [operator<(const Case &, const Case &)]. *)
Definition Case_lt (l r : Case) : bool :=
  match StringExp_compare (str l) (str r) with
  | Lt => true
  | _ => false
  end.

(** [std::sort(caseArray.begin(), caseArray.end())]: the ascending
    arrangement under [operator<], built by insertion. *)
Fixpoint insertCase (c : Case) (sorted : list Case) : list Case :=
  match sorted with
  | [] => [c]
  | x :: rest =>
      if Case_lt c x then c :: x :: rest else x :: insertCase c rest
  end.

Definition sortCases (caseArray : list Case) : list Case :=
  foldr insertCase [] caseArray.

(** A case of the switch as [stmt->cases] lists it: the node and its
    label. *)
Record CaseRef := { cs_id : nat; cs_exp : Expression }.

(** [call_string_switch_runtime]. *)
Definition call_string_switch_runtime (table : LLValue) (ty : TY)
    (e : Expression) (irs : IRState) : Result (LLValue * IRState) :=
  fname <--
    match ty with
    | Tchar => Ok "_d_switch_string"
    | Twchar => Ok "_d_switch_ustring"
    | Tdchar => Ok "_d_switch_dstring"
    | Tother => Aborted (AssertionFailed "not char/wchar/dchar")
    end ;;
  let '(llval, irs) := toElemDtor e irs in
  let irs := CreateCallOrInvoke fname [table; llval] irs in
  Ok (VCall fname table llval, irs).

(** The test of the first loop over the cases: the label is a variable
    that has no initializer or is not const. *)
Definition isRuntimeLabel (e : Expression) : bool :=
  match e with
  | VarExp (Some vd) =>
      negb (bool_decide (is_Some (vd_init vd))) || negb (vd_isConst vd)
  | _ => false
  end.

(** The first loop over the cases: a label that is no constant is
    evaluated on the spot and rules out the switch instruction. *)
Definition evalRuntimeLabels (cases : list CaseRef) (irs : IRState)
    : bool * IRState :=
  fold_left
    (fun '(useSwitchInst, irs) cs =>
       if isRuntimeLabel (cs_exp cs) then
         let '(v, irs) := toElemDtor (cs_exp cs) irs in
         (false, set_llvmIdx (cs_id cs) (Some v) irs)
       else (useSwitchInst, irs))
    cases (true, irs).

(** [caseArray], one entry per case with its position in [stmt->cases]. *)
Fixpoint buildCaseArray (i : nat) (cases : list CaseRef)
    : Result (list Case) :=
  match cases with
  | [] => Ok []
  | cs :: rest =>
      match cs_exp cs with
      | StringExp s =>
          r <-- buildCaseArray (S i) rest ;;
          Ok ({| str := s; index := i |} :: r)
      | _ => Aborted (AssertionFailed "cs->exp->op == TOKstring")
      end
  end.

(** The loop that hands out the indices: the case at position [i] of the
    sorted array gets index [i]. *)
Fixpoint assignIndices (i : nat) (sorted : list Case) (cases : list CaseRef)
    (irs : IRState) : Result (list (list Z) * IRState) :=
  match sorted with
  | [] => Ok ([], irs)
  | c :: rest =>
      match cases !! index c with
      | Some cs =>
          let irs := set_llvmIdx (cs_id cs) (Some (VConstUint i)) irs in
          r <-- assignIndices (S i) rest cases irs ;;
          Ok (str c :: fst r, snd r)
      | None => Aborted (Crash "stmt->cases->data[c.index]")
      end
  end.

(** The operands of [si->addCase] for every case, in source order. *)
Fixpoint switchCases (cases : list CaseRef) (irs : IRState)
    : Result (list (LLValue * BB)) :=
  match cases with
  | [] => Ok []
  | cs :: rest =>
      match isaConstantInt (llvmIdx (caseState (cs_id cs) irs)),
            bodyBB (caseState (cs_id cs) irs) with
      | Some v, Some bb =>
          r <-- switchCases rest irs ;;
          Ok ((v, bb) :: r)
      | None, _ => Aborted (Crash "isaConstantInt(cs->llvmIdx)")
      | _, None => Aborted (Crash "cs->bodyBB")
      end
  end.

(** The same with a counter block in front of every case body. *)
Fixpoint switchCasesInstr (cases : list CaseRef) (irs : IRState)
    : Result (list (LLValue * BB) * IRState) :=
  match cases with
  | [] => Ok ([], irs)
  | cs :: rest =>
      let '(casecntr, irs) := BasicBlock_Create "casecntr" irs in
      let irs := setScope casecntr irs in
      let irs := hook PGO_emitCounterIncrement irs in
      match isaConstantInt (llvmIdx (caseState (cs_id cs) irs)),
            bodyBB (caseState (cs_id cs) irs) with
      | Some v, Some bb =>
          let irs := insertAtEnd (Br bb) (scopebb irs) irs in
          r <-- switchCasesInstr rest irs ;;
          Ok ((v, casecntr) :: fst r, snd r)
      | None, _ => Aborted (Crash "isaConstantInt(cs->llvmIdx)")
      | _, None => Aborted (Crash "cs->bodyBB")
      end
  end.

(** The chain of comparisons of the fallback strategy, one round per case
    in source order. *)
Fixpoint compareChain (condVal : LLValue) (cases : list CaseRef) : Lower :=
  fun irs =>
  match cases with
  | [] => Ok irs
  | cs :: rest =>
      match llvmIdx (caseState (cs_id cs) irs),
            bodyBB (caseState (cs_id cs) irs) with
      | Some idx, Some body =>
          let irs := emit (ICmp idx condVal) irs in
          let cmp := VICmpEq idx condVal in
          let '(nextbb, irs) := BasicBlock_Create "checkcase" irs in
          let '(casejumptargetbb, irs) :=
            if genInstrProf cfg then
              let '(casecntr, irs) := BasicBlock_Create "casecntr" irs in
              let savedbb := scopebb irs in
              let irs := setScope casecntr irs in
              let irs := hook PGO_emitCounterIncrement irs in
              let irs := insertAtEnd (Br body) (scopebb irs) irs in
              (casecntr, setScope savedbb irs)
            else (body, irs) in
          let irs :=
            insertAtEnd (CondBr cmp casejumptargetbb nextbb)
              (scopebb irs) irs in
          let irs := hook PGO_branchWeights irs in
          compareChain condVal rest (setScope nextbb irs)
      | None, _ => Aborted (Crash "cs->llvmIdx")
      | _, None => Aborted (Crash "cs->bodyBB")
      end
  end.

Definition caseIsReset (id : nat) (irs : IRState) : bool :=
  bool_decide (bodyBB (caseState id irs) = None)
  && bool_decide (llvmIdx (caseState id irs) = None).

Definition resetCase (id : nat) (irs : IRState) : IRState :=
  set_llvmIdx id None (set_bodyBB id None irs).

(** The switch instruction of the table strategy, emitted in the block the
    switch statement started in; a string switch first maps the controlling
    value to the index of the matching string. *)
Definition emitSwitchInst (condition : Expression) (isintegral : bool)
    (ty : TY) (cases : list CaseRef) (defbb : option BB) (endbb : BB)
    : Lower := fun irs =>
  r <--
    (if isintegral then
       Ok (toElemDtor condition irs)
     else
       caseArray <-- buildCaseArray 0 cases ;;
       r <-- assignIndices 0 (sortCases caseArray) cases irs ;;
       call_string_switch_runtime (VStringTable (fst r)) ty condition
         (snd r)) ;;
  let '(condVal, irs) := r in
  irs <--
    (if negb (genInstrProf cfg) then
       sc <-- switchCases cases irs ;;
       Ok (insertAtEnd (Switch condVal (default endbb defbb) sc)
             (scopebb irs) irs)
     else
       let switchbb := scopebb irs in
       let '(defaultcntr, irs) := BasicBlock_Create "defaultcntr" irs in
       let irs := setScope defaultcntr irs in
       let irs := hook PGO_emitCounterIncrement irs in
       let irs :=
         insertAtEnd (Br (default endbb defbb)) (scopebb irs) irs in
       r <-- switchCasesInstr cases irs ;;
       Ok (insertAtEnd (Switch condVal defaultcntr (fst r)) switchbb
             (snd r))) ;;
  Ok (hook PGO_branchWeights irs).

(** The fallback strategy: no switch instruction, a bunch of branches
    instead. *)
Definition emitCompareBranches (condition : Expression)
    (cases : list CaseRef) (defbb : option BB) (endbb : BB) : Lower :=
  fun irs =>
  let '(condVal, irs) := toElemDtor condition irs in
  let '(nextbb, irs) := BasicBlock_Create "checkcase" irs in
  let irs := insertAtEnd (Br nextbb) (scopebb irs) irs in
  let '(defaultjumptarget, irs) :=
    if genInstrProf cfg then
      let '(defaultcntr, irs) := BasicBlock_Create "defaultcntr" irs in
      let irs := setScope defaultcntr irs in
      let irs := hook PGO_emitCounterIncrement irs in
      let irs :=
        insertAtEnd (Br (default endbb defbb)) (scopebb irs) irs in
      (defaultcntr, irs)
    else (default endbb defbb, irs) in
  let irs := setScope nextbb irs in
  irs <-- compareChain condVal cases irs ;;
  Ok (insertAtEnd (Br defaultjumptarget) (scopebb irs) irs).

Definition visit_SwitchStatement (stmt : StmtId) (condition : Expression)
    (isintegral : bool) (ty : TY) (cases : list CaseRef)
    (sdefault : option nat) (_body : Lower) : Lower := fun irs =>
  let irs := hook PGO_setCurrentStmt irs in
  let irs := hook DBG_EmitStopPoint irs in
  let irs := hook COV_LinecountInc irs in
  let oldbb := scopebb irs in
  _ <-- assert (forallb (fun cs => caseIsReset (cs_id cs) irs) cases)
          "cs->bodyBB == nullptr && cs->llvmIdx == nullptr" ;;
  _ <-- assert
          match sdefault with
          | Some d => bool_decide (bodyBB (caseState d irs) = None)
          | None => true
          end "stmt->sdefault->bodyBB == nullptr" ;;
  let '(useSwitchInst, irs) := evalRuntimeLabels cases irs in
  let '(bodybb, irs) := BasicBlock_Create "switchbody" irs in
  let '(endbb, irs) := BasicBlock_Create "switchend" irs in
  let irs := setScope endbb irs in
  let irs := hook PGO_emitCounterIncrement irs in
  let '(defbb, irs) :=
    match sdefault with
    | Some d =>
        let '(defbb, irs) := BasicBlock_Create "default" irs in
        (Some defbb, set_bodyBB d (Some defbb) irs)
    | None => (None, irs)
    end in
  (* the switch body *)
  let irs := setScope bodybb irs in
  let irs := pushBreakTarget stmt endbb irs in
  irs <-- _body irs ;;
  let irs := popBreakTarget irs in
  let irs := branchIfOpen endbb irs in
  let irs := setScope oldbb irs in
  irs <--
    (if useSwitchInst
     then emitSwitchInst condition isintegral ty cases defbb endbb irs
     else emitCompareBranches condition cases defbb endbb irs) ;;
  let irs := setScope endbb irs in
  (* reset the scratch state kept on the AST nodes *)
  let irs := foldr (fun cs => resetCase (cs_id cs)) irs cases in
  Ok match sdefault with
     | Some d => set_bodyBB d None irs
     | None => irs
     end.

Definition visit_CaseStatement (stmt : nat) (exp : Expression)
    (gototarget : bool) (statement : Lower) : Lower := fun irs =>
  let irs := hook PGO_setCurrentStmt irs in
  let '(nbb, irs) := BasicBlock_Create "case" irs in
  let irs :=
    match bodyBB (caseState stmt irs) with
    | Some bb =>
        if blockTerminated irs bb then irs else insertAtEnd (Br nbb) bb irs
    | None => irs
    end in
  let irs := set_bodyBB stmt (Some nbb) irs in
  let irs :=
    match llvmIdx (caseState stmt irs) with
    | None => set_llvmIdx stmt (isaConstantInt (toConstElem exp)) irs
    | Some _ => irs
    end in
  let irs := branchIfOpen nbb irs in
  let irs := setScope nbb irs in
  let irs := hook DBG_EmitBlockStart irs in
  let irs := hook COV_LinecountInc irs in
  let irs :=
    if gototarget then hook PGO_emitCounterIncrement irs else irs in
  irs <-- statement irs ;;
  Ok (hook DBG_EmitBlockEnd irs).

Definition visit_DefaultStatement (stmt : nat) (gototarget : bool)
    (statement : Lower) : Lower := fun irs =>
  let irs := hook PGO_setCurrentStmt irs in
  match bodyBB (caseState stmt irs) with
  | None => Aborted (AssertionFailed "stmt->bodyBB")
  | Some bb =>
      let '(nbb, irs) := BasicBlock_Create "default" irs in
      let irs :=
        if blockTerminated irs bb then irs else insertAtEnd (Br nbb) bb irs in
      let irs := set_bodyBB stmt (Some nbb) irs in
      let irs := branchIfOpen nbb irs in
      let irs := setScope nbb irs in
      let irs := hook DBG_EmitBlockStart irs in
      let irs := hook COV_LinecountInc irs in
      let irs :=
        if gototarget then hook PGO_emitCounterIncrement irs else irs in
      irs <-- statement irs ;;
      Ok (hook DBG_EmitBlockEnd irs)
  end.

(** *** unrolled loop *)

(** The loop creating one block per child statement. *)
Fixpoint createBlocks (name : string) (n : nat) (irs : IRState)
    : list BB * IRState :=
  match n with
  | 0 => ([], irs)
  | S n =>
      let '(bb, irs) := BasicBlock_Create name irs in
      let '(bbs, irs) := createBlocks name n irs in
      (bb :: bbs, irs)
  end.

(** One round of the loop over the children: child [i] is lowered in
    [blocks[i]] with continue going to the next child and break to the
    end. *)
Definition unrolledStep (stmt : StmtId) (blocks : list BB) (endbb : BB)
    (nstmt i : nat) (s : Lower) : Lower := fun irs =>
  let thisbb := nth i blocks 0 in
  let nextbb :=
    if Nat.eqb (i + 1) nstmt then endbb else nth (i + 1) blocks 0 in
  let irs := setScope thisbb irs in
  let irs := pushLoopTarget stmt nextbb endbb irs in
  irs <-- s irs ;;
  let irs := popLoopTarget irs in
  Ok (if scopereturned irs then irs else emit (Br nextbb) irs).

Fixpoint unrolledLoop (stmt : StmtId) (blocks : list BB) (endbb : BB)
    (nstmt i : nat) (stmts : list Lower) : Lower := fun irs =>
  match stmts with
  | [] => Ok irs
  | s :: rest =>
      irs <-- unrolledStep stmt blocks endbb nstmt i s irs ;;
      unrolledLoop stmt blocks endbb nstmt (S i) rest irs
  end.

Definition visit_UnrolledLoopStatement (stmt : StmtId)
    (statements : option (list Lower)) : Lower := fun irs =>
  let irs := hook PGO_setCurrentStmt irs in
  match statements with
  | None | Some [] => Ok irs
  | Some stmts =>
      let irs := hook DBG_EmitBlockStart irs in
      let nstmt := length stmts in
      let '(blocks, irs) := createBlocks "unrolledstmt" nstmt irs in
      let '(endbb, irs) := BasicBlock_Create "unrolledend" irs in
      let irs :=
        if scopereturned irs then irs else emit (Br (nth 0 blocks 0)) irs in
      irs <-- unrolledLoop stmt blocks endbb nstmt 0 stmts irs ;;
      let irs := if scopereturned irs then irs else emit (Br endbb) irs in
      let irs := setScope endbb irs in
      Ok (hook DBG_EmitBlockEnd irs)
  end.

(** *** foreach *)

Inductive ForeachOp := TOKforeach | TOKforeach_reverse.

Definition visit_ForeachStatement (stmt : StmtId) (op : ForeachOp)
    (hasKey valueIsRef : bool) (aggr : Expression) (_body : option Lower)
    : Lower := fun irs =>
  let irs := hook PGO_setCurrentStmt irs in
  let irs := hook DBG_EmitBlockStart irs in
  let irs := emit (IVarDecl (if hasKey then "key" else "foreachkey")) irs in
  let irs := if valueIsRef then irs else emit (IVarDecl "value") irs in
  let '(_, irs) := toElemDtor aggr irs in
  let irs := insertAtEnd (IOther "store key") (scopebb irs) irs in
  let '(condbb, irs) := BasicBlock_Create "foreachcond" irs in
  let '(bodybb, irs) := BasicBlock_Create "foreachbody" irs in
  let '(nextbb, irs) := BasicBlock_Create "foreachnext" irs in
  let '(endbb, irs) := BasicBlock_Create "foreachend" irs in
  let irs := insertAtEnd (Br condbb) (scopebb irs) irs in
  let irs := setScope condbb irs in
  let irs := emit (IOther "load key") irs in
  let irs :=
    match op with
    | TOKforeach => emit (IOther "icmp ult") irs
    | TOKforeach_reverse =>
        emit (IOther "store key") (emit (IOther "sub")
          (emit (IOther "icmp ugt") irs))
    end in
  let irs :=
    insertAtEnd (CondBr (VOther "done") bodybb endbb) (scopebb irs) irs in
  let irs := hook PGO_branchWeights irs in
  let irs := setScope bodybb irs in
  let irs := hook PGO_emitCounterIncrement irs in
  let irs := emit (IOther "gep") (emit (IOther "load key") irs) in
  let irs :=
    if valueIsRef then emit (IVarDecl "value") irs
    else emit (IOther "assign value") irs in
  let irs := pushLoopTarget stmt nextbb endbb irs in
  irs <-- acceptOpt _body irs ;;
  let irs := popLoopTarget irs in
  let irs := branchIfOpen nextbb irs in
  let irs := setScope nextbb irs in
  let irs :=
    match op with
    | TOKforeach => emit (IOther "increment key") irs
    | TOKforeach_reverse => irs
    end in
  let irs := insertAtEnd (Br condbb) (scopebb irs) irs in
  let irs := hook DBG_EmitBlockEnd irs in
  Ok (setScope endbb irs).

Definition visit_ForeachRangeStatement (stmt : StmtId) (op : ForeachOp)
    (lwr upr : Expression) (_body : option Lower) : Lower := fun irs =>
  let irs := hook PGO_setCurrentStmt irs in
  let irs := hook DBG_EmitBlockStart irs in
  let '(_, irs) := toElemDtor lwr irs in
  let '(_, irs) := toElemDtor upr irs in
  let irs := emit (IVarDecl "key") irs in
  let irs := emit (IOther "store key") irs in
  let '(condbb, irs) := BasicBlock_Create "foreachrange_cond" irs in
  let '(bodybb, irs) := BasicBlock_Create "foreachrange_body" irs in
  let '(nextbb, irs) := BasicBlock_Create "foreachrange_next" irs in
  let '(endbb, irs) := BasicBlock_Create "foreachrange_end" irs in
  let irs := insertAtEnd (Br condbb) (scopebb irs) irs in
  let irs := setScope condbb irs in
  let irs := emit (IOther "icmp") (emit (IOther "load key") irs) in
  let irs :=
    insertAtEnd (CondBr (VOther "cond") bodybb endbb) (scopebb irs) irs in
  let irs := hook PGO_branchWeights irs in
  let irs := setScope bodybb irs in
  let irs := hook PGO_emitCounterIncrement irs in
  let irs :=
    match op with
    | TOKforeach_reverse => emit (IOther "decrement key") irs
    | TOKforeach => irs
    end in
  let irs := pushLoopTarget stmt nextbb endbb irs in
  irs <-- acceptOpt _body irs ;;
  let irs := popLoopTarget irs in
  let irs := branchIfOpen nextbb irs in
  let irs := setScope nextbb irs in
  let irs :=
    match op with
    | TOKforeach => emit (IOther "increment key") irs
    | TOKforeach_reverse => irs
    end in
  let irs := insertAtEnd (Br condbb) (scopebb irs) irs in
  let irs := hook DBG_EmitBlockEnd irs in
  Ok (setScope endbb irs).

(** *** labels and jumps *)

Definition visit_LabelStatement (ident : string) (statement : option Lower)
    : Lower := fun irs =>
  let irs := hook PGO_setCurrentStmt irs in
  irs <--
    match asmBlock irs with
    | Some labels =>
        (* an inline asm label: no block, the label goes into the asm *)
        Ok (set_asmBlock (Some (ident :: labels)) irs)
    | None =>
        let '(labelBB, irs) := BasicBlock_Create "label" irs in
        irs <-- addLabelTarget ident labelBB irs ;;
        let irs := branchIfOpen labelBB irs in
        Ok (setScope labelBB irs)
    end ;;
  let irs := hook PGO_emitCounterIncrement irs in
  acceptOpt statement irs.

Definition visit_GotoStatement (label : string) : Lower := fun irs =>
  let irs := hook PGO_setCurrentStmt irs in
  let irs := hook DBG_EmitStopPoint irs in
  let irs := hook COV_LinecountInc irs in
  irs <-- DtoGoto label irs ;;
  let '(bb, irs) := BasicBlock_Create "aftergoto" irs in
  Ok (setScope bb irs).

(** [sdefault] is the default statement of the switch the goto belongs
    to. *)
Definition visit_GotoDefaultStatement (sdefault : nat) : Lower := fun irs =>
  let irs := hook PGO_setCurrentStmt irs in
  let irs := hook DBG_EmitStopPoint irs in
  let irs := hook COV_LinecountInc irs in
  _ <-- assert (negb (scopereturned irs)) "!irs->scopereturned()" ;;
  match bodyBB (caseState sdefault irs) with
  | None => Aborted (AssertionFailed "stmt->sw->sdefault->bodyBB")
  | Some bodyBB =>
      let irs := insertAtEnd (Br bodyBB) (scopebb irs) irs in
      let '(bb, irs) := BasicBlock_Create "aftergotodefault" irs in
      Ok (setScope bb irs)
  end.

(** [cs] is the case statement the goto leads to. *)
Definition visit_GotoCaseStatement (cs : nat) : Lower := fun irs =>
  let irs := hook PGO_setCurrentStmt irs in
  let irs := hook DBG_EmitStopPoint irs in
  let irs := hook COV_LinecountInc irs in
  _ <-- assert (negb (scopereturned irs)) "!irs->scopereturned()" ;;
  let '(bodyBB, irs) :=
    match bodyBB (caseState cs irs) with
    | Some bb => (bb, irs)
    | None =>
        let '(bb, irs) := BasicBlock_Create "goto_case" irs in
        (bb, set_bodyBB cs (Some bb) irs)
    end in
  let irs := insertAtEnd (Br bodyBB) (scopebb irs) irs in
  let '(bb, irs) := BasicBlock_Create "aftergotocase" irs in
  Ok (setScope bb irs).

(** *** the remaining statements *)

Definition visit_WithStatement (exp : Expression) (wthis : bool)
    (_body : option Lower) : Lower := fun irs =>
  let irs := hook PGO_setCurrentStmt irs in
  let irs := hook DBG_EmitBlockStart irs in
  let irs :=
    if wthis then
      let irs := emit (IVarDecl "wthis") irs in
      let '(_, irs) := toElemDtor exp irs in
      emit (IOther "store wthis") irs
    else irs in
  irs <-- acceptOpt _body irs ;;
  Ok (hook DBG_EmitBlockEnd irs).

Definition visit_SwitchErrorStatement : Lower := fun irs =>
  let irs := hook PGO_setCurrentStmt irs in
  Ok (CreateCallOrInvoke "_d_switch_error"
        [VOther "moduleInfo"; VOther "linnum"] irs).

(** Modelled from the spec: [AsmStatement_toIR] and
    [CompoundAsmStatement_toIR] (declared, not defined, in the source):
    inline assembly is opaque and forwarded. *)
Definition AsmStatement_toIR : Lower := fun irs => Ok (emit IAsm irs).

Definition visit_AsmStatement : Lower := AsmStatement_toIR.

Definition visit_CompoundAsmStatement : Lower := AsmStatement_toIR.

Definition visit_ImportStatement : Lower := fun irs => Ok irs.

Definition visit_Statement : Lower := fun _ =>
  Aborted (FatalError "Statement type Statement not implemented").

Definition visit_PragmaStatement : Lower := fun _ =>
  Aborted (FatalError "Statement type PragmaStatement not implemented").

End Visitor.

(** ** The statement tree *)

#[local] Unset Elimination Schemes.

Inductive Statement :=
| CompoundStatement (statements : list (option Statement))
| ReturnStatement (exp : option Expression) (linnum : nat)
| ExpStatement (exp : option Expression)
| IfStatement (hasMatch : bool) (condition : Expression)
    (ifbody elsebody : option Statement)
| ScopeStatement (statement : option Statement)
| WhileStatement (id : StmtId) (condition : Expression)
    (_body : option Statement)
| DoStatement (id : StmtId) (condition : Expression)
    (_body : option Statement)
| ForStatement (scopeStart : StmtId) (_init : option Statement)
    (condition increment : option Expression) (_body : option Statement)
| BreakStatement (target : option StmtId)
| ContinueStatement (target : option StmtId)
| OnScopeStatement
| TryFinallyStatement (_body finalbody : option Statement)
| TryCatchStatement (_body : Statement)
    (catches : list (Catch * option Statement))
| ThrowStatement (exp : Expression)
| SwitchStatement (id : StmtId) (condition : Expression) (isintegral : bool)
    (ty : TY) (cases : list CaseRef) (sdefault : option nat)
    (_body : Statement)
| CaseStatement (id : nat) (exp : Expression) (gototarget : bool)
    (statement : Statement)
| DefaultStatement (id : nat) (gototarget : bool) (statement : Statement)
| UnrolledLoopStatement (id : StmtId) (statements : option (list Statement))
| ForeachStatement (id : StmtId) (op : ForeachOp) (hasKey valueIsRef : bool)
    (aggr : Expression) (_body : option Statement)
| ForeachRangeStatement (id : StmtId) (op : ForeachOp) (lwr upr : Expression)
    (_body : option Statement)
| LabelStatement (ident : string) (statement : option Statement)
| GotoStatement (label : string)
| GotoDefaultStatement (sdefault : nat)
| GotoCaseStatement (cs : nat)
| WithStatement (exp : Expression) (wthis : bool) (_body : option Statement)
| SwitchErrorStatement
| AsmStatement
| CompoundAsmStatement
| ImportStatement
| PragmaStatement
| OtherStatement.

#[local] Set Elimination Schemes.

(** [Statement_toIR]: the dispatch of [s->accept(&v)]. *)
Fixpoint Statement_toIR (cfg : Config) (s : Statement) {struct s} : Lower :=
  let accept := Statement_toIR cfg in
  match s with
  | CompoundStatement statements =>
      visit_CompoundStatement (map (option_map accept) statements)
  | ReturnStatement exp linnum => visit_ReturnStatement cfg exp linnum
  | ExpStatement exp => visit_ExpStatement exp
  | IfStatement hasMatch condition ifbody elsebody =>
      visit_IfStatement hasMatch condition (option_map accept ifbody)
        (option_map accept elsebody)
  | ScopeStatement statement =>
      visit_ScopeStatement (option_map accept statement)
  | WhileStatement id condition _body =>
      visit_WhileStatement id condition (option_map accept _body)
  | DoStatement id condition _body =>
      visit_DoStatement id condition (option_map accept _body)
  | ForStatement scopeStart _init condition increment _body =>
      visit_ForStatement scopeStart (option_map accept _init) condition
        increment (option_map accept _body)
  | BreakStatement target => visit_BreakStatement target
  | ContinueStatement target => visit_ContinueStatement target
  | OnScopeStatement => visit_OnScopeStatement
  | TryFinallyStatement _body finalbody =>
      visit_TryFinallyStatement (option_map accept _body)
        (option_map accept finalbody)
  | TryCatchStatement _body catches =>
      visit_TryCatchStatement cfg (accept _body)
        (map (fun c => (fst c, option_map accept (snd c))) catches)
  | ThrowStatement exp => visit_ThrowStatement exp
  | SwitchStatement id condition isintegral ty cases sdefault _body =>
      visit_SwitchStatement cfg id condition isintegral ty cases sdefault
        (accept _body)
  | CaseStatement id exp gototarget statement =>
      visit_CaseStatement id exp gototarget (accept statement)
  | DefaultStatement id gototarget statement =>
      visit_DefaultStatement id gototarget (accept statement)
  | UnrolledLoopStatement id statements =>
      visit_UnrolledLoopStatement id (option_map (map accept) statements)
  | ForeachStatement id op hasKey valueIsRef aggr _body =>
      visit_ForeachStatement id op hasKey valueIsRef aggr
        (option_map accept _body)
  | ForeachRangeStatement id op lwr upr _body =>
      visit_ForeachRangeStatement id op lwr upr (option_map accept _body)
  | LabelStatement ident statement =>
      visit_LabelStatement ident (option_map accept statement)
  | GotoStatement label => visit_GotoStatement label
  | GotoDefaultStatement sdefault => visit_GotoDefaultStatement sdefault
  | GotoCaseStatement cs => visit_GotoCaseStatement cs
  | WithStatement exp wthis _body =>
      visit_WithStatement exp wthis (option_map accept _body)
  | SwitchErrorStatement => visit_SwitchErrorStatement
  | AsmStatement => visit_AsmStatement
  | CompoundAsmStatement => visit_CompoundAsmStatement
  | ImportStatement => visit_ImportStatement
  | PragmaStatement => visit_PragmaStatement
  | OtherStatement => visit_Statement
  end.

(** The state in which the lowering of a function body starts: one empty
    entry block and nothing pending. *)
Definition initialState : IRState :=
  {| blocks := [{| bbName := "entry"; bbInstrs := [] |}];
     scopebb := 0;
     cleanupScopes := []; catchScopes := []; loopTargets := [];
     labelTargets := []; gotoJumps := [];
     retBlock := None; retValSlot := None; allocas := 0;
     caseStates := ∅; asmBlock := None; hooks := [] |}.

(** ** Observations on the emitted block graph *)

(** The cleanups executed when control runs through [code] and on along
    unconditional branches until it enters [target]; [None] when the path
    ends elsewhere. *)
Fixpoint cleanupsOnPath (fuel : nat) (bs : list BasicBlock) (target : BB)
    (code : list Instr) {struct fuel} : option (list CleanupScope) :=
  match fuel with
  | 0 => None
  | S fuel =>
      (fix walk (code : list Instr) : option (list CleanupScope) :=
         match code with
         | [] => None
         | ICleanup c :: rest => cons c <$> walk rest
         | Br t :: _ =>
             if bool_decide (t = target) then Some []
             else
               match bs !! t with
               | Some b => cleanupsOnPath fuel bs target (bbInstrs b)
               | None => None
               end
         | i :: rest => if isTerminator i then None else walk rest
         end) code
  end.

(** The code a lowering step appended to block [bb]. *)
Definition emittedIn (before after : IRState) (bb : BB) : list Instr :=
  drop (length (blockInstrs before bb)) (blockInstrs after bb).

(** A block is well terminated when no instruction follows a terminator. *)
Definition wellTerminated (code : list Instr) : bool :=
  forallb (fun i => negb (isTerminator i)) (removelast code).

Definition wellFormed (s : IRState) : Prop :=
  Forall (fun b => wellTerminated (bbInstrs b) = true) (blocks s).

(** The current block exists in the function. *)
Definition scopeValid (s : IRState) : Prop := scopebb s < length (blocks s).

(** What a lowering step leaves alone: blocks are only ever added, the
    current block stays an existing one, and the cleanup, catch and loop
    target stacks are the ones it started with. *)
Record Preserves (s s' : IRState) : Prop := {
  pres_length : length (blocks s) <= length (blocks s');
  pres_scope : scopeValid s -> scopeValid s';
  pres_cleanups : cleanupScopes s' = cleanupScopes s;
  pres_catches : catchScopes s' = catchScopes s;
  pres_loops : loopTargets s' = loopTargets s
}.

Definition Balanced (h : Lower) : Prop :=
  forall s s', h s = Ok s' -> Preserves s s'.

(** The same for a child that may be absent. *)
Definition BalancedOpt (o : option Lower) : Prop :=
  forall h, o = Some h -> Balanced h.

(** [Preserves] without the promise about the current block. *)
Definition Grows (s s' : IRState) : Prop :=
  length (blocks s) <= length (blocks s') /\
  cleanupScopes s' = cleanupScopes s /\
  catchScopes s' = catchScopes s /\
  loopTargets s' = loopTargets s.

(** The steps that only touch the scratch state of the cases. *)
Definition SameGraph (s s' : IRState) : Prop :=
  blocks s' = blocks s /\ scopebb s' = scopebb s /\
  cleanupScopes s' = cleanupScopes s /\ catchScopes s' = catchScopes s /\
  loopTargets s' = loopTargets s.

(** The catch region registered for a lowered catch body. *)
Definition catchScopeOf (cb : CatchBlock) : CatchScope :=
  {| classInfoPtr := classdecl cb; bodyBlock := BB_ cb |}.

(** The statements that end in a terminating instruction. *)
Definition isJump (s : Statement) : bool :=
  match s with
  | ReturnStatement _ _ | BreakStatement _ | ContinueStatement _
  | GotoStatement _ | GotoDefaultStatement _ | GotoCaseStatement _
  | ThrowStatement _ => true
  | _ => false
  end.

(** *** Running the dispatch of a switch *)


(** Following the comparison chain from block [b]: a conditional branch on
    an equality goes by the values [eval] gives the operands, an
    unconditional branch is taken, and the walk ends on entering a block
    [stop] accepts. *)
Fixpoint runChain (fuel : nat) (bs : list BasicBlock)
    (eval : LLValue -> Z) (stop : BB -> bool) (b : BB) : option BB :=
  match fuel with
  | 0 => None
  | S fuel =>
      if stop b then Some b
      else
        match bbInstrs <$> bs !! b with
        | Some code =>
            match last code with
            | Some (Br t) => runChain fuel bs eval stop t
            | Some (CondBr (VICmpEq x y) t f) =>
                if Z.eqb (eval x) (eval y)
                then runChain fuel bs eval stop t
                else runChain fuel bs eval stop f
            | _ => None
            end
        | None => None
        end
  end.

(** The block the chain should end in: the body of the first case, in
    source order, whose label equals the controlling value, else the
    fallback. *)
Fixpoint firstMatch (eval : LLValue -> Z) (condVal : LLValue)
    (labels : list (LLValue * BB)) (fallback : BB) : BB :=
  match labels with
  | [] => fallback
  | (idx, body) :: rest =>
      if Z.eqb (eval idx) (eval condVal) then body
      else firstMatch eval condVal rest fallback
  end.


(** The labels of a string switch. *)
Definition caseString (cs : CaseRef) : option (list Z) :=
  match cs_exp cs with
  | StringExp s => Some s
  | _ => None
  end.


(** *** What running cleanups leaves in the block graph *)

Definition appendInstrs (code : list Instr) (b : BasicBlock) : BasicBlock :=
  {| bbName := bbName b; bbInstrs := bbInstrs b ++ code |}.

(** What [executeCleanups] appends to the block it starts in, when [n] is
    the number of blocks of the function at that point. *)
Definition chainHead (cs : list CleanupScope) (target n : nat) : list Instr :=
  match cs with
  | [] => [Br target]
  | c :: _ => [ICleanup c; Br n]
  end.

(** The blocks [executeCleanups] adds to the function. *)
Fixpoint chainTail (cs : list CleanupScope) (target n : nat)
    : list BasicBlock :=
  match cs with
  | [] => []
  | _ :: rest =>
      {| bbName := "cleanup.cont"; bbInstrs := chainHead rest target (S n) |}
        :: chainTail rest target (S n)
  end.

Definition isReturn (i : Instr) : bool :=
  match i with
  | Ret _ | RetVoid => true
  | _ => false
  end.

(** The return instructions of the function, block by block. *)
Definition returnsOf (bs : list BasicBlock) : list Instr :=
  List.filter isReturn (concat (map bbInstrs bs)).

(** The store of the return value, when there is one. *)
Definition storeOf (returnValue : option LLValue) (slot : option Slot)
    : list Instr :=
  match returnValue, slot with
  | Some v, Some slot => [IStore v slot]
  | _, _ => []
  end.

(** What a jump leaves behind: a new, empty current block at the end of
    the function, the block the jump was lowered in terminated, and no
    block with an instruction after a terminator. *)
Definition afterJump (irs irs' : IRState) : Prop :=
  length (blocks irs) <= scopebb irs' /\
  length (blocks irs') = S (scopebb irs') /\
  blockInstrs irs' (scopebb irs') = [] /\
  blockTerminated irs' (scopebb irs) = true /\
  wellFormed irs'.


(** The configuration and the statements of the examples. *)
Definition exampleConfig : Config :=
  {| isMainFunc := false; fdIsMain := false; retTypeIsVoid := false;
     funcIsRef := false; hasSretArg := false; sretRewrite := false;
     nrvo := false; retInMemoryOnly := false;
     isSretLVal := fun _ => false; isResultVar := fun _ => false;
     putRetType := fun _ => TyReturn;
     genInstrProf := false; useMSVCEH := false |}.

(** A function that returns through the sret pointer. *)
Definition sretConfig : Config :=
  {| isMainFunc := false; fdIsMain := false; retTypeIsVoid := true;
     funcIsRef := false; hasSretArg := true; sretRewrite := false;
     nrvo := false; retInMemoryOnly := false;
     isSretLVal := fun _ => false; isResultVar := fun _ => false;
     putRetType := fun _ => TyReturn;
     genInstrProf := false; useMSVCEH := false |}.

(** The same with funclet-based exception handling. *)
Definition funcletConfig : Config :=
  {| isMainFunc := false; fdIsMain := false; retTypeIsVoid := true;
     funcIsRef := false; hasSretArg := true; sretRewrite := false;
     nrvo := false; retInMemoryOnly := false;
     isSretLVal := fun _ => false; isResultVar := fun _ => false;
     putRetType := fun _ => TyReturn;
     genInstrProf := false; useMSVCEH := true |}.

(** A function compiled with profile instrumentation. *)
Definition profiledConfig : Config :=
  {| isMainFunc := false; fdIsMain := false; retTypeIsVoid := false;
     funcIsRef := false; hasSretArg := false; sretRewrite := false;
     nrvo := false; retInMemoryOnly := false;
     isSretLVal := fun _ => false; isResultVar := fun _ => false;
     putRetType := fun _ => TyReturn;
     genInstrProf := true; useMSVCEH := false |}.

(** The main function, declared void, whose LLVM return type is [i32]: a
    returned value of another type is thrown away. *)
Definition mainConfig : Config :=
  {| isMainFunc := true; fdIsMain := true; retTypeIsVoid := false;
     funcIsRef := false; hasSretArg := false; sretRewrite := false;
     nrvo := false; retInMemoryOnly := false;
     isSretLVal := fun _ => false; isResultVar := fun _ => false;
     putRetType := fun _ => TyOther;
     genInstrProf := false; useMSVCEH := false |}.


(** A case label the first loop of the switch leaves alone: a compile-time
    constant. *)
Definition isConstantLabel (cs : CaseRef) : bool :=
  negb (isRuntimeLabel (cs_exp cs)).

(** The value compared against and the body of every case, in source
    order, as the scratch state of the cases holds them. *)
Definition caseLabels (cases : list CaseRef) (s : IRState)
    : list (LLValue * BB) :=
  omap (fun cs =>
          match llvmIdx (caseState (cs_id cs) s),
                bodyBB (caseState (cs_id cs) s) with
          | Some idx, Some body => Some (idx, body)
          | _, _ => None
          end) cases.

(** The last instruction of block [b]. *)
Definition lastOf (bs : list BasicBlock) (b : BB) : option Instr :=
  match bs !! b with
  | Some blk => last (bbInstrs blk)
  | None => None
  end.

(** Block [t] is [target] or a block that only branches on to it. *)
Definition leadsTo (bs : list BasicBlock) (stop : BB -> bool) (t target : BB)
    : Prop :=
  t = target \/ (stop t = false /\ lastOf bs t = Some (Br target)).

(** The comparison chain starting in block [b]: one conditional branch per
    label, and the branch to the fallback at the end. *)
Fixpoint chainFrom (bs : list BasicBlock) (stop : BB -> bool)
    (condVal : LLValue) (b : BB) (labels : list (LLValue * BB))
    (fallback : BB) : Prop :=
  stop b = false /\
  match labels with
  | [] => exists t, lastOf bs b = Some (Br t) /\ leadsTo bs stop t fallback
  | (idx, body) :: rest =>
      exists t next,
        lastOf bs b = Some (CondBr (VICmpEq idx condVal) t next) /\
        leadsTo bs stop t body /\
        chainFrom bs stop condVal next rest fallback
  end.

(** A switch over two cases, the first of them with a label that is no
    compile-time constant. *)
Definition runtimeSwitchExample : Statement :=
  SwitchStatement 1 (OtherExp 0 false) true Tother
    [{| cs_id := 10;
        cs_exp := VarExp (Some {| vd_init := None; vd_isConst := false |}) |};
     {| cs_id := 11; cs_exp := IntegerExp 1 |}]
    None
    (CompoundStatement
       [Some (CaseStatement 10
                (VarExp (Some {| vd_init := None; vd_isConst := false |}))
                false (ExpStatement (Some (OtherExp 5 false))));
        Some (CaseStatement 11 (IntegerExp 1) false
                (ExpStatement (Some (OtherExp 6 false))))]).

(** A switch over one case, whose label is no compile-time constant, and
    a default. *)
Definition defaultSwitchExample : Statement :=
  SwitchStatement 1 (OtherExp 0 false) true Tother
    [{| cs_id := 10;
        cs_exp := VarExp (Some {| vd_init := None; vd_isConst := false |}) |}]
    (Some 12)
    (CompoundStatement
       [Some (CaseStatement 10
                (VarExp (Some {| vd_init := None; vd_isConst := false |}))
                false (ExpStatement (Some (OtherExp 5 false))));
        Some (DefaultStatement 12 false
                (ExpStatement (Some (OtherExp 7 false))))]).


(** The state of a return with pending cleanups when it has stored the
    value and run the cleanups into the return block [rb]. *)
Definition afterCleanups (rv : option LLValue) (rb : BB) (s : IRState)
    : IRState :=
  setScope rb
    (runAllCleanups rb
       match rv, retValSlot s with
       | Some v, Some slot => emit (IStore v slot) s
       | _, _ => s
       end).

(** ** The path of the executable (driver/exe_path.cpp) *)

Module exe_path.

Section ExePath.

(** [llvm::sys::fs::getMainExecutable], [llvm::sys::path::parent_path] and
    [llvm::sys::path::append] are library functions. *)
Variable getMainExecutable : string -> string.
Variable parent_path : string -> string.
Variable append : string -> string -> string.

Definition empty (s : string) : bool := bool_decide (s = "").

(** The state is the file-local [exePath]. *)
Definition initialize (arg0 : string) (exePath : string) : Result string :=
  _ <-- assert (empty exePath) "exePath.empty()" ;;
  Ok (getMainExecutable arg0).

Definition getExePath (exePath : string) : Result string :=
  _ <-- assert (negb (empty exePath)) "!exePath.empty()" ;;
  Ok exePath.

Definition getBinDir (exePath : string) : Result string :=
  _ <-- assert (negb (empty exePath)) "!exePath.empty()" ;;
  Ok (parent_path exePath).

Definition getBaseDir (exePath : string) : Result string :=
  binDir <-- getBinDir exePath ;;
  _ <-- assert (negb (empty binDir)) "!binDir.empty()" ;;
  Ok (parent_path binDir).

Definition prependBinDir (suffix : string) (exePath : string)
    : Result string :=
  r <-- getBinDir exePath ;;
  Ok (append r suffix).

End ExePath.

End exe_path.

(** * Properties *)

(** ** Basic facts about the block builder *)

Lemma bind_Ok {A B} (m : Result A) (k : A -> Result B) (b : B) :
  bind m k = Ok b -> exists a, m = Ok a /\ k a = Ok b.
Proof. destruct m as [a|e]; simpl; [eauto | discriminate]. Qed.

Lemma assert_Ok c what : assert c what = Ok tt -> c = true.
Proof. destruct c; [reflexivity | discriminate]. Qed.

Lemma blockInstrs_insertAtEnd_eq i bb s :
  bb < length (blocks s) ->
  blockInstrs (insertAtEnd i bb s) bb = blockInstrs s bb ++ [i].
Proof.
  intros Hlt. unfold blockInstrs, insertAtEnd. simpl.
  rewrite list_lookup_alter_eq.
  destruct (lookup_lt_is_Some_2 _ _ Hlt) as [b Hb]. rewrite Hb. reflexivity.
Qed.

Lemma blockInstrs_insertAtEnd_ne i bb b s :
  bb <> b -> blockInstrs (insertAtEnd i bb s) b = blockInstrs s b.
Proof.
  intros Hne. unfold blockInstrs, insertAtEnd. simpl.
  rewrite list_lookup_alter_ne by exact Hne. reflexivity.
Qed.

Lemma length_blocks_insertAtEnd i bb s :
  length (blocks (insertAtEnd i bb s)) = length (blocks s).
Proof. unfold insertAtEnd. simpl. apply length_alter. Qed.

Lemma blockInstrs_Create_old name s b :
  b < length (blocks s) ->
  blockInstrs (snd (BasicBlock_Create name s)) b = blockInstrs s b.
Proof.
  intros Hlt. unfold blockInstrs. simpl.
  rewrite lookup_app_l by exact Hlt. reflexivity.
Qed.

Lemma blockInstrs_Create_new name s :
  blockInstrs (snd (BasicBlock_Create name s)) (length (blocks s)) = [].
Proof.
  unfold blockInstrs. simpl.
  rewrite lookup_app_r by lia. rewrite Nat.sub_diag. reflexivity.
Qed.

Lemma blockInstrs_ge s b : length (blocks s) <= b -> blockInstrs s b = [].
Proof.
  intros Hge. unfold blockInstrs.
  rewrite (lookup_ge_None_2 _ _ Hge). reflexivity.
Qed.

Lemma getTerminator_snoc name code i :
  getTerminator {| bbName := name; bbInstrs := code ++ [i] |}
  = if isTerminator i then Some i else None.
Proof. unfold getTerminator. simpl. rewrite last_snoc. reflexivity. Qed.

Lemma blockTerminated_spec s bb :
  blockTerminated s bb = true <->
  exists i, last (blockInstrs s bb) = Some i /\ isTerminator i = true.
Proof.
  unfold blockTerminated, blockInstrs, getTerminator.
  destruct (blocks s !! bb) as [b|]; simpl.
  - destruct (last (bbInstrs b)) as [i|]; simpl.
    + destruct (isTerminator i) eqn:Hi; simpl.
      * split; [eauto | reflexivity].
      * split; [discriminate |]. intros (j & Hj & Ht). congruence.
    + split; [discriminate |]. intros (j & Hj & _). discriminate.
  - split; [discriminate |]. intros (j & Hj & _). discriminate.
Qed.

Lemma blockTerminated_false_spec s bb :
  blockTerminated s bb = false <->
  forall i, last (blockInstrs s bb) = Some i -> isTerminator i = false.
Proof.
  split.
  - intros Hf i Hi. destruct (isTerminator i) eqn:Ht; [| reflexivity].
    assert (blockTerminated s bb = true) by (apply blockTerminated_spec; eauto).
    congruence.
  - intros H. destruct (blockTerminated s bb) eqn:Hb; [| reflexivity].
    apply blockTerminated_spec in Hb. destruct Hb as (i & Hi & Ht).
    rewrite (H i Hi) in Ht. discriminate.
Qed.

(** ** Running cleanups *)

Lemma executeCleanups_shape cs target s :
  exists bs b,
    executeCleanups cs target s = set_scopebb b (set_blocks (fun _ => bs) s).
Proof.
  revert s. induction cs as [|c rest IH]; intros s; simpl.
  - exists (alter (appendInstr (Br target)) (scopebb s) (blocks s)), (scopebb s).
    reflexivity.
  - match goal with |- context [executeCleanups rest target ?s4] =>
      destruct (IH s4) as (bs & b & ->) end.
    exists bs, b. reflexivity.
Qed.

Lemma runCleanups_shape downTo target s :
  runCleanups downTo target s
  = set_blocks (fun _ => blocks (runCleanups downTo target s)) s.
Proof.
  unfold runCleanups.
  destruct (executeCleanups_shape (cleanupsAbove downTo s) target s)
    as (bs & b & ->).
  reflexivity.
Qed.

Lemma blockInstrs_lookup s b :
  b < length (blocks s) ->
  exists blk, blocks s !! b = Some blk /\ bbInstrs blk = blockInstrs s b.
Proof.
  intros Hlt. destruct (lookup_lt_is_Some_2 _ _ Hlt) as [blk Hb].
  exists blk. unfold blockInstrs. rewrite Hb. auto.
Qed.

Lemma blockInstrs_eq_lookup s s' b :
  blocks s' !! b = blocks s !! b -> blockInstrs s' b = blockInstrs s b.
Proof. unfold blockInstrs. intros ->. reflexivity. Qed.

Lemma executeCleanups_blocks cs target s :
  scopeValid s -> target < length (blocks s) ->
  let s' := executeCleanups cs target s in
  length (blocks s) <= length (blocks s') /\
  (forall b, b < length (blocks s) -> b <> scopebb s ->
             blocks s' !! b = blocks s !! b) /\
  exists code,
    blockInstrs s' (scopebb s) = blockInstrs s (scopebb s) ++ code /\
    cleanupsOnPath (S (length cs)) (blocks s') target code = Some cs.
Proof.
  revert s. induction cs as [|c rest IH]; intros s Hv Ht; simpl.
  - split; [rewrite length_alter; lia |]. split.
    + intros b _ Hne. apply list_lookup_alter_ne. congruence.
    + exists [Br target]. split.
      * apply (blockInstrs_insertAtEnd_eq (Br target) (scopebb s) s Hv).
      * simpl. rewrite bool_decide_eq_true_2; reflexivity.
  - set (s1 := emit (ICleanup c) s).
    set (s4 := setScope _ _).
    assert (Hl4 : length (blocks s4) = S (length (blocks s))).
    { subst s4 s1. simpl. rewrite length_alter, length_app, length_alter.
      simpl. lia. }
    assert (Hs4 : scopebb s4 = length (blocks s)).
    { subst s4 s1. simpl. rewrite length_alter. reflexivity. }
    destruct (IH s4) as (Hlen & Hframe & code' & Hcode' & Hpath).
    { unfold scopeValid. lia. }
    { lia. }
    unfold scopeValid in Hv.
    split; [lia |]. split.
    + intros b Hb Hne. rewrite Hframe by lia.
      subst s4 s1. simpl.
      rewrite list_lookup_alter_ne by lia.
      rewrite lookup_app_l by (rewrite length_alter; lia).
      apply list_lookup_alter_ne. congruence.
    + exists ([ICleanup c; Br (length (blocks s))] ++ []); simpl. split.
      * rewrite (blockInstrs_eq_lookup s4) by (apply Hframe; lia).
        subst s4 s1. unfold blockInstrs. simpl.
        rewrite list_lookup_alter_eq.
        rewrite lookup_app_l by (rewrite length_alter; lia).
        rewrite list_lookup_alter_eq.
        destruct (lookup_lt_is_Some_2 _ _ Hv) as [blk Hblk]. rewrite Hblk.
        simpl. rewrite <- app_assoc. simpl. rewrite length_alter. reflexivity.
      * rewrite bool_decide_eq_false_2 by lia.
        destruct (blockInstrs_lookup (executeCleanups rest target s4)
                    (length (blocks s))) as (blk & Hblk & Hi); [lia |].
        rewrite Hblk, Hi. rewrite Hs4 in Hcode'. rewrite Hcode'.
        assert (Hnil : blockInstrs s4 (length (blocks s)) = []).
        { subst s4 s1. unfold blockInstrs. simpl.
          rewrite list_lookup_alter_ne by lia.
          rewrite lookup_app_r by (rewrite length_alter; lia).
          rewrite length_alter, Nat.sub_diag. reflexivity. }
        rewrite Hnil. simpl. simpl in Hpath. rewrite Hpath. reflexivity.
Qed.

(** ** Stack discipline of the lowering *)

Lemma executeCleanups_length cs target s :
  length (blocks s) <= length (blocks (executeCleanups cs target s)).
Proof.
  revert s. induction cs as [|c rest IH]; intros s; simpl.
  - rewrite length_alter. lia.
  - etransitivity; [| apply IH]. simpl.
    rewrite length_alter, length_app, length_alter. lia.
Qed.

Lemma runCleanups_ex downTo target s :
  exists bs,
    runCleanups downTo target s = set_blocks (fun _ => bs) s /\
    length (blocks s) <= length bs.
Proof.
  exists (blocks (runCleanups downTo target s)). split.
  - apply runCleanups_shape.
  - unfold runCleanups. apply executeCleanups_length.
Qed.

Lemma branchIfOpen_ex target s :
  exists bs,
    branchIfOpen target s = set_blocks (fun _ => bs) s /\
    length bs = length (blocks s).
Proof.
  unfold branchIfOpen. destruct (scopereturned s).
  - exists (blocks s). split; reflexivity.
  - eexists. split; [reflexivity |]. apply length_alter.
Qed.

Lemma Ok_inj {A} (a b : A) : Ok a = Ok b -> a = b.
Proof. congruence. Qed.

Lemma Preserves_refl s : Preserves s s.
Proof. constructor; auto. Qed.

Lemma Preserves_trans s1 s2 s3 :
  Preserves s1 s2 -> Preserves s2 s3 -> Preserves s1 s3.
Proof.
  intros [] []. constructor; try congruence; [lia | auto].
Qed.

Ltac inv_bind H :=
  let a := fresh "irs" in
  let H1 := fresh "Hstep" in
  apply bind_Ok in H; destruct H as (a & H1 & H).

(** Reduction of the state plumbing only. *)
Ltac red_all :=
  lazy beta iota zeta delta
    [blocks scopebb cleanupScopes catchScopes loopTargets labelTargets
     gotoJumps retBlock retValSlot allocas caseStates asmBlock hooks
     set_blocks set_scopebb set_cleanupScopes set_catchScopes set_loopTargets
     set_labelTargets set_gotoJumps set_retBlock set_retValSlot set_allocas
     set_caseStates set_asmBlock hook
     BasicBlock_Create insertAtEnd emit setScope toElemDtor
     CreateCallOrInvoke addHandler currentCleanupScope currentCatchScope
     pushCleanup popCleanups pushCatch pushLoopTarget popLoopTarget
     pushBreakTarget popBreakTarget DtoRawAlloca set_bodyBB set_llvmIdx
     runAllCleanups fst snd scopeValid negb orb andb] in *.

Ltac elim_rc d t s :=
  let bs := fresh "bs" in
  let E := fresh "E" in
  let L := fresh "Lrc" in
  destruct (runCleanups_ex d t s) as (bs & E & L);
  rewrite E in *; clear E.

Ltac elim_bio t s :=
  let bs := fresh "bs" in
  let E := fresh "E" in
  let L := fresh "Lbio" in
  destruct (branchIfOpen_ex t s) as (bs & E & L);
  rewrite E in *; clear E.

Ltac crunch :=
  repeat match goal with
         | H : bind _ _ = Ok _ |- _ => inv_bind H
         | H : Ok _ = Ok ?y |- _ => apply Ok_inj in H; subst y
         | H : Aborted _ = Ok _ |- _ => discriminate H
         | H : assert _ _ = Ok _ |- _ => clear H
         | H : context [runCleanups ?d ?t ?s] |- _ => elim_rc d t s
         | |- context [runCleanups ?d ?t ?s] => elim_rc d t s
         | H : context [branchIfOpen ?t ?s] |- _ => elim_bio t s
         | |- context [branchIfOpen ?t ?s] => elim_bio t s
         | _ => progress red_all
         | |- context [if scopereturned ?x then _ else _] =>
             destruct (scopereturned x) eqn:?
         | H : context [if scopereturned ?x then _ else _] |- _ =>
             destruct (scopereturned x) eqn:?
         | H : match ?x with _ => _ end = Ok _ |- _ => destruct x eqn:?
         end.

Lemma acceptOpt_Balanced o : BalancedOpt o -> Balanced (acceptOpt o).
Proof.
  intros HB s s' H. destruct o as [h|]; simpl in H.
  - exact (HB h eq_refl s s' H).
  - injection H as <-. apply Preserves_refl.
Qed.

Ltac use_balanced HB H :=
  let P := fresh "P" in
  pose proof (HB _ _ H) as P; destruct P as [? ? ? ? ?].

Ltac bal_sub :=
  repeat match goal with
         | HB : BalancedOpt (Some ?h), Hs : ?h ?e = Ok ?r |- _ =>
             use_balanced (HB h eq_refl) Hs; clear Hs
         | HB : Balanced ?h, Hs : ?h ?e = Ok ?r |- _ =>
             use_balanced HB Hs; clear Hs
         | HB : BalancedOpt ?o, Hs : acceptOpt ?o ?e = Ok ?r |- _ =>
             use_balanced (acceptOpt_Balanced _ HB) Hs; clear Hs
         end.

Ltac lens :=
  repeat rewrite ?length_alter, ?length_app in *; simpl length in *.

Ltac close :=
  lazymatch goal with
  | |- _ <= _ => lens; lia
  | |- _ < _ => lens; lia
  | |- _ -> _ => lens; intros; lia
  | |- _ = _ =>
      first [ assumption
            | (repeat match goal with
                      | H : _ = _ |- _ => rewrite H; clear H
                      end); reflexivity ]
  end.

Ltac finish := constructor; crunch; close.

Ltac balanced_by := crunch; bal_sub; finish.

Lemma acceptAll_Balanced ss :
  Forall BalancedOpt ss -> Balanced (acceptAll ss).
Proof.
  induction 1 as [|o ss Ho Hss IH]; intros s s' H; simpl in H.
  - injection H as <-. apply Preserves_refl.
  - destruct o as [h|].
    + inv_bind H. eapply Preserves_trans; [exact (Ho h eq_refl _ _ Hstep) |].
      exact (IH _ _ H).
    + exact (IH _ _ H).
Qed.

Lemma visit_CompoundStatement_Balanced ss :
  Forall BalancedOpt ss -> Balanced (visit_CompoundStatement ss).
Proof.
  intros HB s s' H. unfold visit_CompoundStatement in H.
  use_balanced (acceptAll_Balanced _ HB) H. finish.
Qed.

Lemma visit_ExpStatement_Balanced exp : Balanced (visit_ExpStatement exp).
Proof.
  intros s s' H. unfold visit_ExpStatement in H.
  destruct exp; balanced_by.
Qed.

Lemma visit_WhileStatement_Balanced stmt cond body :
  BalancedOpt body -> Balanced (visit_WhileStatement stmt cond body).
Proof.
  intros HB s s' H. unfold visit_WhileStatement in H. balanced_by.
Qed.

Lemma visit_IfStatement_Balanced hasMatch cond ifbody elsebody :
  BalancedOpt ifbody -> BalancedOpt elsebody ->
  Balanced (visit_IfStatement hasMatch cond ifbody elsebody).
Proof.
  intros HB1 HB2 s s' H. unfold visit_IfStatement in H.
  destruct hasMatch, elsebody as [eb|], ifbody as [ib|]; balanced_by.
Qed.

Lemma visit_ScopeStatement_Balanced statement :
  BalancedOpt statement -> Balanced (visit_ScopeStatement statement).
Proof.
  intros HB s s' H. unfold visit_ScopeStatement in H.
  destruct statement; balanced_by.
Qed.

Lemma visit_DoStatement_Balanced stmt cond body :
  BalancedOpt body -> Balanced (visit_DoStatement stmt cond body).
Proof.
  intros HB s s' H. unfold visit_DoStatement in H. balanced_by.
Qed.

Lemma visit_ForStatement_Balanced stmt init cond inc body :
  BalancedOpt init -> BalancedOpt body ->
  Balanced (visit_ForStatement stmt init cond inc body).
Proof.
  intros HB1 HB2 s s' H. unfold visit_ForStatement in H.
  destruct cond, inc; balanced_by.
Qed.

Lemma visit_ForeachStatement_Balanced stmt op hasKey valueIsRef aggr body :
  BalancedOpt body ->
  Balanced (visit_ForeachStatement stmt op hasKey valueIsRef aggr body).
Proof.
  intros HB s s' H. unfold visit_ForeachStatement in H.
  destruct op, hasKey, valueIsRef; balanced_by.
Qed.

Lemma visit_ForeachRangeStatement_Balanced stmt op lwr upr body :
  BalancedOpt body ->
  Balanced (visit_ForeachRangeStatement stmt op lwr upr body).
Proof.
  intros HB s s' H. unfold visit_ForeachRangeStatement in H.
  destruct op; balanced_by.
Qed.

Lemma visit_WithStatement_Balanced exp wthis body :
  BalancedOpt body -> Balanced (visit_WithStatement exp wthis body).
Proof.
  intros HB s s' H. unfold visit_WithStatement in H.
  destruct wthis; balanced_by.
Qed.

Lemma visit_ThrowStatement_Balanced exp : Balanced (visit_ThrowStatement exp).
Proof.
  intros s s' H. unfold visit_ThrowStatement in H. balanced_by.
Qed.

Lemma visit_SwitchErrorStatement_Balanced :
  Balanced visit_SwitchErrorStatement.
Proof.
  intros s s' H. unfold visit_SwitchErrorStatement in H. balanced_by.
Qed.

Lemma visit_AsmStatement_Balanced : Balanced visit_AsmStatement.
Proof.
  intros s s' H. unfold visit_AsmStatement, AsmStatement_toIR in H.
  balanced_by.
Qed.

Lemma visit_ImportStatement_Balanced : Balanced visit_ImportStatement.
Proof. intros s s' H. injection H as <-. apply Preserves_refl. Qed.

Lemma visit_GotoDefaultStatement_Balanced d :
  Balanced (visit_GotoDefaultStatement d).
Proof.
  intros s s' H. unfold visit_GotoDefaultStatement in H.
  inv_bind H. destruct (bodyBB _); [| discriminate]. balanced_by.
Qed.

Lemma visit_GotoCaseStatement_Balanced cs :
  Balanced (visit_GotoCaseStatement cs).
Proof.
  intros s s' H. unfold visit_GotoCaseStatement in H.
  inv_bind H. destruct (bodyBB _); balanced_by.
Qed.

Lemma emitReturn_Balanced cfg linnum rv :
  Balanced (emitReturn cfg linnum rv).
Proof.
  intros s s' H. unfold emitReturn in H.
  destruct (fdIsMain cfg && Nat.eqb linnum 0), (retBlock s) as [rb|],
    rv as [v|];
    balanced_by.
Qed.

Lemma toInPlaceConstruction_cases e s :
  toInPlaceConstruction e s = (false, s) \/
  toInPlaceConstruction e s = (true, emit (IInPlace e) s).
Proof. destruct e as [| | | |? []]; simpl; auto. Qed.

Lemma returnValueOf_Preserves cfg exp s r :
  returnValueOf cfg exp s = Ok r ->
  Preserves s (snd r) /\ scopebb (snd r) = scopebb s.
Proof.
  unfold returnValueOf. intros H.
  destruct (bool_decide (is_Some exp) || isMainFunc cfg).
  - destruct (retTypeIsVoid cfg).
    + inv_bind H. inv_bind H. inv_bind H.
      destruct exp as [e|]; [| discriminate].
      destruct (toInPlaceConstruction_cases e s) as [E | E]; rewrite E in H;
        clear E.
      * destruct (isSretLVal cfg e), (negb (nrvo cfg) && _);
          crunch; (split; [finish | reflexivity]).
      * red_all.
        rewrite bool_decide_eq_false_2 in H by (intros Hne; apply Hne; reflexivity).
        crunch. split; [finish | reflexivity].
    + destruct exp as [e|], (funcIsRef cfg);
        lazy beta iota zeta delta [toElemDtor] in H;
        destruct (loadForReturn _ _ _); crunch;
        (split; [finish | reflexivity]).
  - crunch. split; [apply Preserves_refl | reflexivity].
Qed.

Lemma visit_ReturnStatement_Balanced cfg exp linnum :
  Balanced (visit_ReturnStatement cfg exp linnum).
Proof.
  intros s s' H. unfold visit_ReturnStatement in H. inv_bind H.
  apply returnValueOf_Preserves in Hstep. destruct Hstep as [P1 _].
  apply emitReturn_Balanced in H.
  eapply Preserves_trans; [| exact H].
  eapply Preserves_trans; [| exact P1]. finish.
Qed.

Lemma visit_BreakStatement_Balanced target :
  Balanced (visit_BreakStatement target).
Proof.
  intros s s' H. unfold visit_BreakStatement in H.
  destruct (scopereturned _); [balanced_by |].
  destruct target as [t|]; inv_bind H.
  - unfold breakToStatement in Hstep. destruct (List.find _ _);
      balanced_by.
  - unfold breakToClosest in Hstep. balanced_by.
Qed.

Lemma visit_ContinueStatement_Balanced target :
  Balanced (visit_ContinueStatement target).
Proof.
  intros s s' H. unfold visit_ContinueStatement in H.
  destruct target as [t|]; inv_bind H.
  - unfold continueWithLoop in Hstep.
    destruct (List.find _ _) as [[? [c|] ? ?]|]; balanced_by.
  - unfold continueWithClosest in Hstep.
    destruct (List.find _ _) as [[? [c|] ? ?]|]; balanced_by.
Qed.

Lemma DtoGoto_Balanced label : Balanced (DtoGoto label).
Proof.
  intros s s' H. unfold DtoGoto in H.
  destruct (findLabel _ _); [destruct (bool_decide _) |]; balanced_by.
Qed.

Lemma visit_GotoStatement_Balanced label :
  Balanced (visit_GotoStatement label).
Proof.
  intros s s' H. unfold visit_GotoStatement in H. inv_bind H.
  apply DtoGoto_Balanced in Hstep. destruct Hstep. balanced_by.
Qed.

Lemma foldr_retarget_length (mine : list GotoJump) block s :
  let s' :=
    foldr (fun g => set_blocks
             (alter (retarget (tentativeTarget g) block) (sourceBlock g)))
      s mine in
  length (blocks s') = length (blocks s) /\
  scopebb s' = scopebb s /\ cleanupScopes s' = cleanupScopes s /\
  catchScopes s' = catchScopes s /\ loopTargets s' = loopTargets s.
Proof.
  induction mine as [|g mine IH]; simpl; [auto |].
  destruct IH as (? & ? & ? & ? & ?).
  rewrite length_alter. auto.
Qed.

Lemma addLabelTarget_Balanced id block : Balanced (addLabelTarget id block).
Proof.
  intros s s' H. unfold addLabelTarget in H.
  destruct (forallb _ _); [| discriminate].
  apply Ok_inj in H. subst s'.
  match goal with |- Preserves _ (set_gotoJumps _ (foldr ?f ?s0 ?m)) =>
    pose proof (foldr_retarget_length m block s0) as Hf end.
  simpl in Hf. destruct Hf as (Hl & Hs & Hc & Hca & Hlo).
  constructor; unfold scopeValid; red_all.
  - simpl in *. lia.
  - simpl in *. intros. rewrite Hs, Hl. simpl. assumption.
  - rewrite Hc. reflexivity.
  - rewrite Hca. reflexivity.
  - rewrite Hlo. reflexivity.
Qed.

Lemma visit_LabelStatement_Balanced ident statement :
  BalancedOpt statement -> Balanced (visit_LabelStatement ident statement).
Proof.
  intros HB s s' H. unfold visit_LabelStatement in H. inv_bind H.
  apply (acceptOpt_Balanced _ HB) in H.
  eapply Preserves_trans; [| exact H]. clear H.
  destruct (asmBlock _).
  - balanced_by.
  - red_all. inv_bind Hstep. apply addLabelTarget_Balanced in Hstep0.
    destruct Hstep0. balanced_by.
Qed.

Lemma visit_TryFinallyStatement_Balanced body final :
  BalancedOpt body -> BalancedOpt final ->
  Balanced (visit_TryFinallyStatement body final).
Proof.
  intros HB1 HB2 s s' H. unfold visit_TryFinallyStatement in H.
  destruct body as [b|], final as [f|]; try solve [balanced_by].
  red_all. inv_bind H. inv_bind H.
  use_balanced (HB2 f eq_refl) Hstep. use_balanced (HB1 b eq_refl) Hstep0.
  clear Hstep Hstep0.
  destruct (scopereturned _); crunch.
  all: constructor; crunch.
  all: try solve [close].
  all: repeat match goal with H : cleanupScopes _ = _ |- _ => rewrite H; clear H end.
  all: simpl; rewrite ?Nat.sub_succ_l, ?Nat.sub_diag by lia; reflexivity.
Qed.

Lemma visit_CaseStatement_Balanced stmt exp gototarget statement :
  Balanced statement ->
  Balanced (visit_CaseStatement stmt exp gototarget statement).
Proof.
  intros HB s s' H. unfold visit_CaseStatement in H. red_all.
  destruct (bodyBB (caseState stmt _)) as [bb|];
    [destruct (blockTerminated _ bb) |];
    (destruct (llvmIdx (caseState stmt _)));
    destruct gototarget; balanced_by.
Qed.

Lemma visit_DefaultStatement_Balanced stmt gototarget statement :
  Balanced statement ->
  Balanced (visit_DefaultStatement stmt gototarget statement).
Proof.
  intros HB s s' H. unfold visit_DefaultStatement in H. red_all.
  destruct (bodyBB (caseState stmt _)) as [bb|]; [| discriminate].
  red_all. destruct (blockTerminated _ bb); destruct gototarget; balanced_by.
Qed.

Lemma Grows_refl s : Grows s s.
Proof. repeat split; auto. Qed.

Lemma Grows_trans s1 s2 s3 : Grows s1 s2 -> Grows s2 s3 -> Grows s1 s3.
Proof.
  intros (? & ? & ? & ?) (? & ? & ? & ?).
  repeat split; try congruence. lia.
Qed.

Lemma Preserves_Grows s s' : Preserves s s' -> Grows s s'.
Proof. intros []. repeat split; auto. Qed.

Ltac grows := repeat split; crunch; close.

(** *** try/catch *)

Lemma pushCatches_spec cbs s :
  exists hk,
    pushCatches cbs s
    = set_catchScopes (rev (map catchScopeOf cbs) ++ catchScopes s)
        {| blocks := blocks s; scopebb := scopebb s;
           cleanupScopes := cleanupScopes s; catchScopes := catchScopes s;
           loopTargets := loopTargets s; labelTargets := labelTargets s;
           gotoJumps := gotoJumps s; retBlock := retBlock s;
           retValSlot := retValSlot s; allocas := allocas s;
           caseStates := caseStates s; asmBlock := asmBlock s;
           hooks := hk |}.
Proof.
  unfold pushCatches. revert s.
  induction cbs as [|cb cbs IH]; intros s; simpl.
  - exists (hooks s). reflexivity.
  - match goal with |- context [fold_left ?f cbs ?s1] =>
      destruct (IH s1) as (hk & ->) end.
    exists hk. red_all. simpl. rewrite <- app_assoc. reflexivity.
Qed.

Lemma popCatches_spec n s pre rest :
  catchScopes s = pre ++ rest -> length pre = n ->
  popCatches n s = Ok (set_catchScopes rest s).
Proof.
  revert s pre. induction n as [|n IH]; intros s pre Hs Hn.
  - destruct pre; [| discriminate]. simpl in Hs. simpl.
    rewrite <- Hs. reflexivity.
  - destruct pre as [|c pre]; [discriminate |]. simpl in *.
    unfold popCatch. rewrite Hs. simpl.
    rewrite (IH _ pre); [reflexivity | reflexivity | lia].
Qed.

Lemma emitCatchBody_Grows endbb ctch handler s r :
  BalancedOpt handler ->
  emitCatchBody endbb ctch handler s = Ok r -> Grows s (snd r).
Proof.
  intros HB H. unfold emitCatchBody in H.
  destruct (c_hasVar ctch); crunch; bal_sub; grows.
Qed.

Lemma emitCatchBodies_Grows endbb catches s r :
  Forall (fun c => BalancedOpt (snd c)) catches ->
  emitCatchBodies endbb catches s = Ok r ->
  Grows s (snd r) /\ length (fst r) = length catches.
Proof.
  intros HB. revert s r.
  induction HB as [|[ctch handler] catches Hc _ IH]; intros s r H; simpl in H.
  - apply Ok_inj in H. subst r. split; [apply Grows_refl | reflexivity].
  - inv_bind H. inv_bind H. apply Ok_inj in H. subst r. simpl.
    apply emitCatchBody_Grows in Hstep; [| exact Hc].
    apply IH in Hstep0. destruct Hstep0 as [G L].
    split; [eapply Grows_trans; eauto | congruence].
Qed.

Lemma emitCatchBodyMSVC_Grows endbb csb ctch handler s s' :
  BalancedOpt handler ->
  emitCatchBodyMSVC endbb csb ctch handler s = Ok s' -> Grows s s'.
Proof.
  intros HB H. unfold emitCatchBodyMSVC, emitBeginCatchMSVCEH in H.
  destruct (c_hasVar ctch), (c_nestedrefs ctch); crunch; bal_sub; grows.
Qed.

Lemma emitCatchBodiesMSVC_Grows endbb csb catches s s' :
  Forall (fun c => BalancedOpt (snd c)) catches ->
  emitCatchBodiesMSVC endbb csb catches s = Ok s' -> Grows s s'.
Proof.
  intros HB. revert s.
  induction HB as [|[ctch handler] catches Hc _ IH]; intros s H; simpl in H.
  - apply Ok_inj in H. subst s'. apply Grows_refl.
  - inv_bind H. apply emitCatchBodyMSVC_Grows in Hstep; [| exact Hc].
    eapply Grows_trans; eauto.
Qed.

Lemma visit_TryCatchStatement_Balanced cfg body catches :
  Balanced body -> Forall (fun c => BalancedOpt (snd c)) catches ->
  Balanced (visit_TryCatchStatement cfg body catches).
Proof.
  intros HB HC s s' H. unfold visit_TryCatchStatement in H.
  red_all. inv_bind H.
  assert (Hr : exists pre,
             length pre = length (fst irs) /\
             catchScopes (snd irs) = pre ++ catchScopes s /\
             cleanupScopes (snd irs) = cleanupScopes s /\
             loopTargets (snd irs) = loopTargets s /\
             length (blocks s) < length (blocks (snd irs))).
  { destruct (useMSVCEH cfg).
    - red_all. inv_bind Hstep.
      apply emitCatchBodiesMSVC_Grows in Hstep0; [| exact HC].
      destruct Hstep0 as (G1 & G2 & G3 & G4).
      apply Ok_inj in Hstep. subst irs. red_all.
      eexists [_]. split; [reflexivity |].
      split; [rewrite G3; reflexivity |].
      split; [assumption |]. split; [assumption |].
      rewrite length_alter, !length_app in G1. simpl in G1. lia.
    - inv_bind Hstep. apply emitCatchBodies_Grows in Hstep0.
      2:{ apply Forall_rev. exact HC. }
      destruct Hstep0 as ((G1 & G2 & G3 & G4) & L).
      destruct irs0 as [cbs st]. simpl in L, Hstep.
      apply Ok_inj in Hstep. subst irs.
      destruct (pushCatches_spec cbs st) as (hk & ->). red_all.
      exists (rev (map catchScopeOf cbs)).
      split; [rewrite length_rev, length_map; reflexivity |].
      split; [rewrite G3; reflexivity |].
      split; [assumption |]. split; [assumption |].
      rewrite length_app in G1. simpl in G1. lia. }
  clear Hstep. destruct irs as [catchBlocks irs]. simpl in Hr.
  destruct Hr as (pre & Hpre & Hca & Hcl & Hlo & Hlen).
  red_all. inv_bind H. inv_bind H.
  pose proof (HB _ _ Hstep) as [B1 B2 B3 B4 B5]. clear Hstep. crunch.
  match type of Hstep0 with popCatches _ ?X = _ =>
    rewrite (popCatches_spec _ X pre (catchScopes s)) in Hstep0 end.
  - crunch. constructor; crunch; close.
  - red_all. rewrite B4, Hca. reflexivity.
  - exact Hpre.
Qed.

(** *** unrolled loop *)

Lemma createBlocks_spec name n s :
  fst (createBlocks name n s) = seq (length (blocks s)) n /\
  length (blocks (snd (createBlocks name n s))) = length (blocks s) + n /\
  scopebb (snd (createBlocks name n s)) = scopebb s /\
  cleanupScopes (snd (createBlocks name n s)) = cleanupScopes s /\
  catchScopes (snd (createBlocks name n s)) = catchScopes s /\
  loopTargets (snd (createBlocks name n s)) = loopTargets s.
Proof.
  revert s. induction n as [|n IH]; intros s; simpl.
  - repeat split; auto.
  - match goal with |- context [createBlocks name n ?s1] =>
      specialize (IH s1); destruct (createBlocks name n s1) as [bbs s2] end.
    simpl in *. destruct IH as (I1 & I2 & I3 & I4 & I5 & I6).
    rewrite length_app in *. simpl in *.
    repeat split; try assumption.
    + rewrite I1. rewrite Nat.add_1_r. reflexivity.
    + lia.
Qed.

Lemma unrolledStep_Grows stmt bbs endbb nstmt i h s s' :
  Balanced h ->
  unrolledStep stmt bbs endbb nstmt i h s = Ok s' -> Grows s s'.
Proof.
  intros HB H. unfold unrolledStep in H. crunch; bal_sub; grows.
Qed.

Lemma unrolledLoop_Grows stmt bbs endbb nstmt stmts :
  Forall Balanced stmts ->
  forall i s s',
    unrolledLoop stmt bbs endbb nstmt i stmts s = Ok s' -> Grows s s'.
Proof.
  induction 1 as [|h stmts Hh _ IH]; intros i s s' H; simpl in H.
  - apply Ok_inj in H. subst s'. apply Grows_refl.
  - inv_bind H. eapply Grows_trans.
    + eapply unrolledStep_Grows; eauto.
    + eapply IH; eauto.
Qed.

Lemma visit_UnrolledLoopStatement_Balanced stmt statements :
  (forall l, statements = Some l -> Forall Balanced l) ->
  Balanced (visit_UnrolledLoopStatement stmt statements).
Proof.
  intros HB s s' H. unfold visit_UnrolledLoopStatement in H.
  destruct statements as [[|h l]|]; try solve [balanced_by].
  specialize (HB _ eq_refl). red_all.
  match type of H with context [createBlocks ?n ?k ?s0] =>
    pose proof (createBlocks_spec n k s0) as Hc;
    destruct (createBlocks n k s0) as [bbs s1] end.
  simpl in Hc. destruct Hc as (_ & C2 & C3 & C4 & C5 & C6).
  red_all. inv_bind H.
  apply (unrolledLoop_Grows _ _ _ _ _ HB) in Hstep.
  destruct Hstep as (G1 & G2 & G3 & G4).
  destruct (scopereturned _), (scopereturned _); crunch;
    constructor; crunch; close.
Qed.

(** *** switch *)

Lemma SameGraph_refl s : SameGraph s s.
Proof. repeat split. Qed.

Lemma SameGraph_trans s1 s2 s3 :
  SameGraph s1 s2 -> SameGraph s2 s3 -> SameGraph s1 s3.
Proof.
  intros (? & ? & ? & ? & ?) (? & ? & ? & ? & ?).
  repeat split; congruence.
Qed.

Lemma SameGraph_Grows s s' : SameGraph s s' -> Grows s s'.
Proof.
  intros (E & _ & ? & ? & ?). repeat split; try assumption.
  rewrite E. reflexivity.
Qed.

Lemma evalRuntimeLabels_Grows cases s :
  Grows s (snd (evalRuntimeLabels cases s)) /\
  scopebb (snd (evalRuntimeLabels cases s)) = scopebb s.
Proof.
  unfold evalRuntimeLabels. generalize true as u. revert s.
  induction cases as [|cs cases IH]; intros s u; simpl.
  - split; [apply Grows_refl | reflexivity].
  - destruct (isRuntimeLabel (cs_exp cs)).
    + match goal with |- context [fold_left ?f cases (?u1, ?s1)] =>
        destruct (IH s1 u1) as [G E] end.
      split; [| exact E].
      eapply Grows_trans; [| exact G]. grows.
    + apply IH.
Qed.

Lemma assignIndices_SameGraph sorted cases :
  forall i s r,
    assignIndices i sorted cases s = Ok r -> SameGraph s (snd r).
Proof.
  induction sorted as [|c sorted IH]; intros i s r H; simpl in H.
  - apply Ok_inj in H. subst r. apply SameGraph_refl.
  - destruct (cases !! index c) as [cs|]; [| discriminate].
    inv_bind H. apply Ok_inj in H. subst r. simpl.
    apply IH in Hstep. eapply SameGraph_trans; [| exact Hstep].
    repeat split.
Qed.

Lemma switchCasesInstr_Grows cases :
  forall s r, switchCasesInstr cases s = Ok r -> Grows s (snd r).
Proof.
  induction cases as [|cs cases IH]; intros s r H; simpl in H.
  - apply Ok_inj in H. subst r. apply Grows_refl.
  - red_all.
    destruct (isaConstantInt _); [| discriminate].
    destruct (bodyBB _); [| discriminate].
    inv_bind H. apply Ok_inj in H. subst r. simpl.
    apply IH in Hstep. eapply Grows_trans; [| exact Hstep]. grows.
Qed.

Lemma compareChain_Grows cfg condVal cases :
  forall s s', compareChain cfg condVal cases s = Ok s' -> Grows s s'.
Proof.
  induction cases as [|cs cases IH]; intros s s' H; simpl in H.
  - apply Ok_inj in H. subst s'. apply Grows_refl.
  - destruct (llvmIdx _); [| discriminate].
    destruct (bodyBB _); [| discriminate].
    destruct (genInstrProf cfg); red_all; apply IH in H;
      (eapply Grows_trans; [| exact H]); grows.
Qed.

Lemma emitSwitchInst_Grows cfg condition isintegral ty cases defbb endbb
    s s' :
  emitSwitchInst cfg condition isintegral ty cases defbb endbb s = Ok s' ->
  Grows s s'.
Proof.
  intros H. unfold emitSwitchInst in H. inv_bind H.
  assert (G1 : Grows s (snd irs)).
  { destruct isintegral.
    - apply Ok_inj in Hstep. subst irs. grows.
    - inv_bind Hstep. inv_bind Hstep.
      apply assignIndices_SameGraph, SameGraph_Grows in Hstep1.
      eapply Grows_trans; [exact Hstep1 |].
      unfold call_string_switch_runtime in Hstep. inv_bind Hstep.
      apply Ok_inj in Hstep. subst irs. grows. }
  clear Hstep. destruct irs as [condVal irs]. simpl in G1.
  eapply Grows_trans; [exact G1 |]. clear G1.
  red_all. inv_bind H. apply Ok_inj in H. subst s'.
  destruct (genInstrProf cfg); red_all.
  - inv_bind Hstep. apply switchCasesInstr_Grows in Hstep0.
    apply Ok_inj in Hstep. subst irs0.
    eapply Grows_trans; [| eapply Grows_trans; [exact Hstep0 |]]; grows.
  - inv_bind Hstep. apply Ok_inj in Hstep. subst irs0. grows.
Qed.

Lemma emitCompareBranches_Grows cfg condition cases defbb endbb s s' :
  emitCompareBranches cfg condition cases defbb endbb s = Ok s' ->
  Grows s s'.
Proof.
  intros H. unfold emitCompareBranches in H.
  destruct (genInstrProf cfg); red_all; inv_bind H;
    apply compareChain_Grows in Hstep; apply Ok_inj in H; subst s';
    (eapply Grows_trans; [| eapply Grows_trans; [exact Hstep |]]); grows.
Qed.

Lemma resetCases_SameGraph (cases : list CaseRef) s :
  SameGraph s (foldr (fun cs => resetCase (cs_id cs)) s cases).
Proof.
  induction cases as [|cs cases IH]; simpl; [apply SameGraph_refl |].
  eapply SameGraph_trans; [exact IH |]. repeat split.
Qed.

Lemma visit_SwitchStatement_Balanced cfg stmt condition isintegral ty cases
    sdefault body :
  Balanced body ->
  Balanced (visit_SwitchStatement cfg stmt condition isintegral ty cases
              sdefault body).
Proof.
  intros HB s s' H. unfold visit_SwitchStatement in H.
  inv_bind H. inv_bind H. clear Hstep Hstep0. red_all.
  match type of H with context [evalRuntimeLabels cases ?s0] =>
    destruct (evalRuntimeLabels_Grows cases s0) as [(E1 & E2 & E3 & E4) E5];
    destruct (evalRuntimeLabels cases s0) as [useSwitchInst s1] end.
  red_all.
  destruct sdefault as [d|]; red_all; inv_bind H;
    pose proof (HB _ _ Hstep) as [B1 B2 B3 B4 B5]; clear Hstep;
    inv_bind H;
    match type of Hstep with
    | (if _ then emitSwitchInst _ _ _ _ _ _ _ ?X else _) = Ok ?Y =>
        assert (G : Grows X Y)
          by (destruct useSwitchInst;
              [eapply emitSwitchInst_Grows | eapply emitCompareBranches_Grows];
              exact Hstep)
    end;
    clear Hstep; destruct G as (G1 & G2 & G3 & G4);
    apply Ok_inj in H; subst s';
    match goal with
    | |- context [foldr ?f ?x cases] =>
        destruct (resetCases_SameGraph cases x) as (R1 & R2 & R3 & R4 & R5);
        set (y := foldr f x cases) in *; clearbody y
    end.
  all: crunch.
  all: constructor; crunch.
  all: try solve [rewrite ?R1, ?R2, ?R3, ?R4, ?R5; red_all; lens; lia].
  all: try solve [rewrite ?R1, ?R2, ?R3, ?R4, ?R5; red_all; lens; intros; lia].
  all: rewrite ?R3, ?R4, ?R5; red_all;
    rewrite ?G2, ?G3, ?G4, ?B3, ?B4, ?B5, ?E2, ?E3, ?E4; reflexivity.
Qed.

(** *** every statement *)

Lemma BalancedOpt_map (f : Statement -> Lower) (o : option Statement) :
  (forall s, o = Some s -> Balanced (f s)) -> BalancedOpt (option_map f o).
Proof.
  intros H h Hh. destruct o as [s|]; simpl in Hh; [| discriminate].
  injection Hh as <-. apply H. reflexivity.
Qed.

Ltac balanced_opt IH :=
  match goal with
  | |- BalancedOpt (option_map _ ?o) =>
      let h := fresh "h" in
      let Hh := fresh "Hh" in
      destruct o; intros h Hh; simpl in Hh;
      [injection Hh as <-; apply IH | discriminate]
  end.

Theorem Statement_toIR_Balanced cfg :
  forall s, Balanced (Statement_toIR cfg s).
Proof.
  fix IH 1. intros s. destruct s; simpl.
  - apply visit_CompoundStatement_Balanced.
    revert statements. fix IHl 1. intros [|o l]; simpl; constructor.
    + balanced_opt IH.
    + apply IHl.
  - apply visit_ReturnStatement_Balanced.
  - apply visit_ExpStatement_Balanced.
  - apply visit_IfStatement_Balanced; balanced_opt IH.
  - apply visit_ScopeStatement_Balanced; balanced_opt IH.
  - apply visit_WhileStatement_Balanced; balanced_opt IH.
  - apply visit_DoStatement_Balanced; balanced_opt IH.
  - apply visit_ForStatement_Balanced; balanced_opt IH.
  - apply visit_BreakStatement_Balanced.
  - apply visit_ContinueStatement_Balanced.
  - intros st st' H. discriminate.
  - apply visit_TryFinallyStatement_Balanced; balanced_opt IH.
  - apply visit_TryCatchStatement_Balanced; [apply IH |].
    revert catches. fix IHl 1. intros [|[c o] l]; simpl; constructor.
    + simpl. balanced_opt IH.
    + apply IHl.
  - apply visit_ThrowStatement_Balanced.
  - apply visit_SwitchStatement_Balanced. apply IH.
  - apply visit_CaseStatement_Balanced. apply IH.
  - apply visit_DefaultStatement_Balanced. apply IH.
  - apply visit_UnrolledLoopStatement_Balanced.
    destruct statements as [l0|]; simpl; intros l Hl; [| discriminate].
    injection Hl as <-.
    revert l0. fix IHl 1. intros [|x l]; simpl; constructor.
    + apply IH.
    + apply IHl.
  - apply visit_ForeachStatement_Balanced; balanced_opt IH.
  - apply visit_ForeachRangeStatement_Balanced; balanced_opt IH.
  - apply visit_LabelStatement_Balanced; balanced_opt IH.
  - apply visit_GotoStatement_Balanced.
  - apply visit_GotoDefaultStatement_Balanced.
  - apply visit_GotoCaseStatement_Balanced.
  - apply visit_WithStatement_Balanced; balanced_opt IH.
  - apply visit_SwitchErrorStatement_Balanced.
  - apply visit_AsmStatement_Balanced.
  - apply visit_AsmStatement_Balanced.
  - apply visit_ImportStatement_Balanced.
  - intros st st' H. discriminate.
  - intros st st' H. discriminate.
Qed.

(** ** The closed form of a cleanup run *)

Lemma alter_app_last {A} (f : A -> A) (l : list A) (x : A) i :
  i = length l -> alter f i (l ++ [x]) = l ++ [f x].
Proof.
  intros ->. induction l as [|y l IH]; simpl; [reflexivity |].
  f_equal. exact IH.
Qed.

Lemma alter_app_lt {A} (f : A -> A) (l k : list A) i :
  i < length l -> alter f i (l ++ k) = alter f i l ++ k.
Proof.
  revert i. induction l as [|y l IH]; intros i Hi; simpl in *; [lia |].
  destruct i as [|i]; simpl; [reflexivity |].
  f_equal. apply IH. lia.
Qed.

Lemma alter_compose_same {A} (f g : A -> A) (l : list A) i :
  alter f i (alter g i l) = alter (fun x => f (g x)) i l.
Proof.
  revert i. induction l as [|y l IH]; intros [|i]; simpl; try reflexivity.
  f_equal. apply IH.
Qed.

Lemma executeCleanups_blocks_eq cs target s :
  scopeValid s ->
  blocks (executeCleanups cs target s)
  = alter (appendInstrs (chainHead cs target (length (blocks s))))
      (scopebb s) (blocks s)
    ++ chainTail cs target (length (blocks s)).
Proof.
  revert s. induction cs as [|c rest IH]; intros s Hv; simpl.
  - rewrite app_nil_r. reflexivity.
  - match goal with |- context [executeCleanups rest target ?x] =>
      set (s4 := x) end.
    assert (Hb4 : blocks s4
                  = alter (appendInstrs [ICleanup c; Br (length (blocks s))])
                      (scopebb s) (blocks s)
                    ++ [{| bbName := "cleanup.cont"; bbInstrs := [] |}]).
    { subst s4. simpl. rewrite length_alter.
      rewrite alter_app_lt by (rewrite length_alter; exact Hv).
      rewrite alter_compose_same. f_equal.
      apply list_alter_ext; [| reflexivity].
      intros b _. unfold appendInstr, appendInstrs. simpl.
      rewrite <- app_assoc. reflexivity. }
    assert (Hs4 : scopebb s4 = length (blocks s)).
    { subst s4. simpl. rewrite length_alter. reflexivity. }
    rewrite IH by (unfold scopeValid; rewrite Hs4, Hb4, length_app, length_alter;
                   simpl; lia).
    rewrite Hs4, Hb4, length_app, length_alter. simpl.
    rewrite Nat.add_1_r.
    rewrite alter_app_last by (rewrite length_alter; reflexivity).
    rewrite <- app_assoc. simpl.
    unfold appendInstrs at 1. simpl. reflexivity.
Qed.

Lemma runCleanups_eq downTo target s :
  scopeValid s ->
  runCleanups downTo target s
  = set_blocks
      (fun bs =>
         alter (appendInstrs
                  (chainHead (cleanupsAbove downTo s) target (length bs)))
           (scopebb s) bs
         ++ chainTail (cleanupsAbove downTo s) target (length bs)) s.
Proof.
  intros Hv. rewrite runCleanups_shape. unfold runCleanups.
  unfold setScope, set_scopebb, set_blocks. simpl.
  rewrite executeCleanups_blocks_eq by exact Hv. reflexivity.
Qed.

Lemma length_chainTail cs target n : length (chainTail cs target n) = length cs.
Proof.
  revert n. induction cs as [|c rest IH]; intros n; simpl; [reflexivity |].
  rewrite IH. reflexivity.
Qed.

(** Following the chain executes the cleanups in the order given. *)
Lemma cleanupsOnPath_chain cs target n bs :
  target < n ->
  (forall k, k < length cs -> bs !! (n + k) = chainTail cs target n !! k) ->
  cleanupsOnPath (S (length cs)) bs target (chainHead cs target n) = Some cs.
Proof.
  intros Ht. revert n Ht. induction cs as [|c rest IH]; intros n Ht Hbs.
  - simpl. rewrite bool_decide_eq_true_2 by reflexivity. reflexivity.
  - cbn [chainHead length].
    change (cleanupsOnPath (S (S (length rest))) bs target
              [ICleanup c; Br n])
      with (cons c <$>
              (if bool_decide (n = target) then Some []
               else match bs !! n with
                    | Some b =>
                        cleanupsOnPath (S (length rest)) bs target (bbInstrs b)
                    | None => None
                    end)).
    rewrite bool_decide_eq_false_2 by lia.
    pose proof (Hbs 0 ltac:(simpl; lia)) as H0.
    rewrite Nat.add_0_r in H0. rewrite H0. simpl.
    rewrite IH; [reflexivity | lia |].
    intros k Hk. specialize (Hbs (S k) ltac:(simpl; lia)).
    rewrite Nat.add_succ_r in Hbs. exact Hbs.
Qed.

(** An instruction that is neither a cleanup nor a terminator is passed
    over. *)
Lemma cleanupsOnPath_skip fuel bs target i code :
  isTerminator i = false -> (forall c, i <> ICleanup c) ->
  cleanupsOnPath (S fuel) bs target (i :: code)
  = cleanupsOnPath (S fuel) bs target code.
Proof.
  intros Hi Hc. destruct i; simpl in *; try reflexivity; try discriminate.
  exfalso. eapply Hc. reflexivity.
Qed.

Lemma returnsOf_app bs1 bs2 : returnsOf (bs1 ++ bs2) = returnsOf bs1 ++ returnsOf bs2.
Proof.
  unfold returnsOf. rewrite map_app, concat_app, List.filter_app. reflexivity.
Qed.

Lemma returnsOf_chainTail cs target n : returnsOf (chainTail cs target n) = [].
Proof.
  revert n. induction cs as [|c rest IH]; intros n; [reflexivity |].
  change (chainTail (c :: rest) target n)
    with ([{| bbName := "cleanup.cont";
              bbInstrs := chainHead rest target (S n) |}]
            ++ chainTail rest target (S n)).
  rewrite returnsOf_app, IH. destruct rest; reflexivity.
Qed.

Lemma returnsOf_alter code i bs :
  List.filter isReturn code = [] ->
  returnsOf (alter (appendInstrs code) i bs) = returnsOf bs.
Proof.
  intros Hc. revert i. induction bs as [|b bs IH]; intros i; [reflexivity |].
  destruct i as [|i].
  - unfold returnsOf. simpl. rewrite !List.filter_app, Hc, app_nil_r.
    reflexivity.
  - change (alter (appendInstrs code) (S i) (b :: bs))
      with ([b] ++ alter (appendInstrs code) i bs).
    change (b :: bs) with ([b] ++ bs).
    rewrite !returnsOf_app, IH. reflexivity.
Qed.

Lemma length_returnsOf_alter1 r i bs :
  i < length bs -> isReturn r = true ->
  length (returnsOf (alter (appendInstr r) i bs)) = S (length (returnsOf bs)).
Proof.
  intros Hi Hr. revert i Hi. induction bs as [|b bs IH]; intros i Hi;
    simpl in Hi; [lia |].
  destruct i as [|i].
  - unfold returnsOf. simpl. rewrite !List.filter_app, !length_app. simpl.
    rewrite Hr. simpl. lia.
  - change (alter (appendInstr r) (S i) (b :: bs))
      with ([b] ++ alter (appendInstr r) i bs).
    change (b :: bs) with ([b] ++ bs).
    rewrite !returnsOf_app, !length_app, IH by lia. lia.
Qed.

Lemma chainHead_no_return cs target n :
  List.filter isReturn (chainHead cs target n) = [].
Proof. destruct cs; reflexivity. Qed.

Lemma lookup_alter_appendInstrs code i bs :
  i < length bs ->
  bbInstrs <$> alter (appendInstrs code) i bs !! i
  = (fun c => c ++ code) <$> (bbInstrs <$> bs !! i).
Proof.
  intros Hi. rewrite list_lookup_alter_eq.
  destruct (lookup_lt_is_Some_2 _ _ Hi) as [b ->]. reflexivity.
Qed.

(** What a cleanup run does to the blocks, instruction-wise. *)
Lemma runCleanups_cur downTo target s :
  scopeValid s ->
  blockInstrs (runCleanups downTo target s) (scopebb s)
  = blockInstrs s (scopebb s)
    ++ chainHead (cleanupsAbove downTo s) target (length (blocks s)).
Proof.
  intros Hv. rewrite runCleanups_eq by exact Hv.
  unfold blockInstrs. simpl.
  rewrite lookup_app_l by (rewrite length_alter; exact Hv).
  rewrite list_lookup_alter_eq.
  destruct (lookup_lt_is_Some_2 _ _ Hv) as [b ->]. reflexivity.
Qed.

Lemma runCleanups_other downTo target s b :
  scopeValid s -> b < length (blocks s) -> b <> scopebb s ->
  blocks (runCleanups downTo target s) !! b = blocks s !! b.
Proof.
  intros Hv Hb Hne. rewrite runCleanups_eq by exact Hv. simpl.
  rewrite lookup_app_l by (rewrite length_alter; exact Hb).
  apply list_lookup_alter_ne. congruence.
Qed.

Lemma runCleanups_new downTo target s k :
  scopeValid s ->
  blocks (runCleanups downTo target s) !! (length (blocks s) + k)
  = chainTail (cleanupsAbove downTo s) target (length (blocks s)) !! k.
Proof.
  intros Hv. rewrite runCleanups_eq by exact Hv. simpl.
  rewrite lookup_app_r by (rewrite length_alter; lia).
  rewrite length_alter. f_equal. lia.
Qed.

Lemma runCleanups_length downTo target s :
  scopeValid s ->
  length (blocks (runCleanups downTo target s))
  = length (blocks s) + length (cleanupsAbove downTo s).
Proof.
  intros Hv. rewrite runCleanups_eq by exact Hv. simpl.
  rewrite length_app, length_alter, length_chainTail. reflexivity.
Qed.

Lemma runCleanups_returns downTo target s :
  scopeValid s ->
  returnsOf (blocks (runCleanups downTo target s)) = returnsOf (blocks s).
Proof.
  intros Hv. rewrite runCleanups_eq by exact Hv. simpl.
  rewrite returnsOf_app, returnsOf_chainTail, app_nil_r.
  apply returnsOf_alter. apply chainHead_no_return.
Qed.

Lemma runCleanups_fields downTo target s :
  let s' := runCleanups downTo target s in
  scopebb s' = scopebb s /\ cleanupScopes s' = cleanupScopes s /\
  catchScopes s' = catchScopes s /\ loopTargets s' = loopTargets s /\
  labelTargets s' = labelTargets s /\ gotoJumps s' = gotoJumps s /\
  retBlock s' = retBlock s /\ retValSlot s' = retValSlot s /\
  allocas s' = allocas s /\ caseStates s' = caseStates s /\
  asmBlock s' = asmBlock s /\ hooks s' = hooks s.
Proof.
  cbv zeta. rewrite runCleanups_shape. repeat split; reflexivity.
Qed.

(** The two forms of a projection of the state, made one. *)
Ltac pnorm :=
  lazy beta iota delta
    [blocks scopebb cleanupScopes catchScopes loopTargets labelTargets
     gotoJumps retBlock retValSlot allocas caseStates asmBlock hooks
     set_blocks set_scopebb set_cleanupScopes set_catchScopes set_loopTargets
     set_labelTargets set_gotoJumps set_retBlock set_retValSlot set_allocas
     set_caseStates set_asmBlock hook setScope scopeValid] in *.

Ltac plia := pnorm; lia.

Lemma cleanupsAbove_0 s : cleanupsAbove 0 s = cleanupScopes s.
Proof.
  unfold cleanupsAbove. rewrite Nat.sub_0_r. apply firstn_all.
Qed.

Lemma wellTerminated_after_terminator old i code :
  last old = Some i -> isTerminator i = true -> code <> [] ->
  wellTerminated (old ++ code) = false.
Proof.
  intros Hl Hi Hc. unfold wellTerminated.
  destruct (exists_last Hc) as (code' & j & ->).
  rewrite app_assoc, removelast_last, forallb_app.
  apply last_Some in Hl. destruct Hl as (old' & ->).
  rewrite forallb_app. simpl. rewrite Hi. simpl.
  rewrite andb_false_r. reflexivity.
Qed.

Lemma chainHead_nonempty cs target n : chainHead cs target n <> [].
Proof. destruct cs; discriminate. Qed.

Lemma emittedIn_app s s' b code :
  blockInstrs s' b = blockInstrs s b ++ code -> emittedIn s s' b = code.
Proof. unfold emittedIn. intros ->. apply drop_app_length. Qed.

(** C9: the statements the frontend should have rejected or lowered,
    an OnScopeStatement, a statement without lowering rule and a
    PragmaStatement, end the lowering with a fatal error and hand back no
    state at all, also when they sit in the middle of a compound; an
    ImportStatement succeeds and leaves the state as it was. *)
Theorem C9_unsupported_statements_are_fatal cfg irs :
  Statement_toIR cfg OnScopeStatement irs
  = Aborted (FatalError
      "Internal Compiler Error: OnScopeStatement should have been lowered by frontend.") /\
  Statement_toIR cfg OtherStatement irs
  = Aborted (FatalError "Statement type Statement not implemented") /\
  Statement_toIR cfg PragmaStatement irs
  = Aborted (FatalError "Statement type PragmaStatement not implemented") /\
  (forall s rest,
     s = OnScopeStatement \/ s = OtherStatement \/ s = PragmaStatement ->
     Statement_toIR cfg (CompoundStatement (Some s :: rest)) irs
     = Statement_toIR cfg s irs) /\
  Statement_toIR cfg ImportStatement irs = Ok irs.
Proof.
  repeat split; try reflexivity.
  intros s rest [-> | [-> | ->]]; reflexivity.
Qed.

(** C10: a break lowered while the current block is already terminated is
    ignored: the lowering succeeds, and blocks, current block, cleanups,
    catches, loop targets, labels, pending jumps, return block and slot and
    the case scratch state are what they were (only the profiling hook that
    precedes the guard is recorded). A continue lowered in the same
    situation is not guarded: whenever it succeeds it has appended the
    cleanup chain and branch of its target after the terminator of the
    current block, and it has opened a new block. *)
Theorem C10_break_is_guarded_continue_is_not cfg target irs :
  scopereturned irs = true ->
  (exists irs',
     Statement_toIR cfg (BreakStatement target) irs = Ok irs' /\
     blocks irs' = blocks irs /\ scopebb irs' = scopebb irs /\
     cleanupScopes irs' = cleanupScopes irs /\
     catchScopes irs' = catchScopes irs /\
     loopTargets irs' = loopTargets irs /\
     labelTargets irs' = labelTargets irs /\
     gotoJumps irs' = gotoJumps irs /\
     retBlock irs' = retBlock irs /\ retValSlot irs' = retValSlot irs /\
     allocas irs' = allocas irs /\ caseStates irs' = caseStates irs /\
     asmBlock irs' = asmBlock irs /\
     hooks irs' = PGO_setCurrentStmt :: hooks irs) /\
  (scopeValid irs ->
   forall irs',
     Statement_toIR cfg (ContinueStatement target) irs = Ok irs' ->
     exists t c,
       In t (loopTargets irs) /\ continueBlock t = Some c /\
       blockInstrs irs' (scopebb irs)
       = blockInstrs irs (scopebb irs)
         ++ chainHead (cleanupsAbove (cleanupScope t) irs) c
              (length (blocks irs)) /\
       wellTerminated (blockInstrs irs' (scopebb irs)) = false /\
       length (blocks irs) <= scopebb irs' /\
       length (blocks irs') = S (scopebb irs')).
Proof.
  intros Hret. split.
  - exists (hook PGO_setCurrentStmt irs).
    change (Statement_toIR cfg (BreakStatement target) irs)
      with (visit_BreakStatement target irs).
    unfold visit_BreakStatement.
    change (scopereturned (hook PGO_setCurrentStmt irs))
      with (scopereturned irs).
    rewrite Hret. repeat split; reflexivity.
  - intros Hv irs' H.
    change (Statement_toIR cfg (ContinueStatement target) irs)
      with (visit_ContinueStatement target irs) in H.
    unfold visit_ContinueStatement in H.
    set (s0 := hook COV_LinecountInc _) in H.
    assert (Hs0 : exists t c,
               In t (loopTargets irs) /\ continueBlock t = Some c /\
               (irs0 <-- Ok (runCleanups (cleanupScope t) c s0) ;;
                (let '(bb, irs1) := BasicBlock_Create "afterbreak" irs0 in
                 Ok (setScope bb irs1))) = Ok irs').
    { destruct target as [tg|]; simpl in H.
      - unfold continueWithLoop in H.
        destruct (List.find _ (loopTargets s0)) as [t|] eqn:Hf;
          [| discriminate H].
        apply List.find_some in Hf. destruct Hf as [Hin _].
        destruct t as [ts [c|] bb d]; [| discriminate H].
        eexists _, c. split; [exact Hin |]. split; [reflexivity |]. exact H.
      - unfold continueWithClosest in H.
        destruct (List.find _ (loopTargets s0)) as [t|] eqn:Hf;
          [| discriminate H].
        apply List.find_some in Hf. destruct Hf as [Hin _].
        destruct t as [ts [c|] bb d]; [| discriminate H].
        eexists _, c. split; [exact Hin |]. split; [reflexivity |]. exact H. }
    clear H. destruct Hs0 as (t & c & Hin & Hc & H).
    exists t, c. split; [exact Hin |]. split; [exact Hc |].
    assert (E : irs'
                = setScope (length (blocks (runCleanups (cleanupScope t) c s0)))
                    (snd (BasicBlock_Create "afterbreak"
                            (runCleanups (cleanupScope t) c s0))))
      by (apply Ok_inj in H; symmetry; exact H).
    clear H. subst irs'.
    assert (Hv0 : scopeValid s0) by exact Hv.
    assert (Hcur : blockInstrs
                     (setScope (length (blocks (runCleanups (cleanupScope t) c s0)))
                        (snd (BasicBlock_Create "afterbreak"
                                (runCleanups (cleanupScope t) c s0))))
                     (scopebb irs)
                   = blockInstrs irs (scopebb irs)
                     ++ chainHead (cleanupsAbove (cleanupScope t) irs) c
                          (length (blocks irs))).
    { change (blockInstrs (setScope ?b ?s) ?x) with (blockInstrs s x).
      rewrite blockInstrs_Create_old
        by (rewrite runCleanups_length by exact Hv0; subst s0; plia).
      exact (runCleanups_cur (cleanupScope t) c s0 Hv0). }
    split; [exact Hcur |]. split.
    + rewrite Hcur.
      unfold scopereturned in Hret. apply blockTerminated_spec in Hret.
      destruct Hret as (i & Hl & Hi).
      eapply wellTerminated_after_terminator; eauto using chainHead_nonempty.
    + pose proof (runCleanups_length (cleanupScope t) c s0 Hv0) as Hlen.
      clear Hcur. subst s0.
      set (R := runCleanups _ _ _) in *. clearbody R.
      change (length (blocks irs) <= length (blocks R) /\
              length (blocks R ++ [{| bbName := "afterbreak"; bbInstrs := [] |}])
              = S (length (blocks R))).
      rewrite length_app. simpl length. split; plia.
Qed.

Lemma C10_break_is_guarded_continue_is_not_witness :
  exists irs',
    Statement_toIR
      sretConfig
      (BreakStatement None)
      (emit (Br 0) (pushLoopTarget 7 0 0 initialState)) = Ok irs' /\
    blocks irs' = blocks (emit (Br 0) (pushLoopTarget 7 0 0 initialState)).
Proof.
  destruct (C10_break_is_guarded_continue_is_not
              sretConfig
              None (emit (Br 0) (pushLoopTarget 7 0 0 initialState)))
    as [(irs' & H & Hb & _) _].
  - vm_compute. reflexivity.
  - exists irs'. split; [exact H | exact Hb].
Defined.

Lemma blockInstrs_setScope b s x : blockInstrs (setScope b s) x = blockInstrs s x.
Proof. reflexivity. Qed.

Lemma blockInstrs_hook h s x : blockInstrs (hook h s) x = blockInstrs s x.
Proof. reflexivity. Qed.

Lemma scopereturned_false_open s :
  scopereturned s = false ->
  forall i, last (blockInstrs s (scopebb s)) = Some i -> isTerminator i = false.
Proof. intros H. apply blockTerminated_false_spec. exact H. Qed.

(** C1: the lowering of goto case and of goto default runs no cleanup.
    Lowered in an open block while cleanups are pending, each succeeds, and
    all it appends to the current block is the branch to the body of the
    case (of the default): the path from the jump to its target executes no
    cleanup at all, although the pending ones are still registered
    afterwards. *)
Theorem C1_goto_case_and_default_run_no_cleanup cfg cs irs body :
  scopeValid irs -> scopereturned irs = false ->
  bodyBB (caseState cs irs) = Some body ->
  cleanupScopes irs <> [] ->
  (exists irs',
     Statement_toIR cfg (GotoCaseStatement cs) irs = Ok irs' /\
     emittedIn irs irs' (scopebb irs) = [Br body] /\
     cleanupsOnPath (S (length (cleanupScopes irs))) (blocks irs') body
       (emittedIn irs irs' (scopebb irs)) = Some [] /\
     cleanupScopes irs' = cleanupScopes irs) /\
  (exists irs',
     Statement_toIR cfg (GotoDefaultStatement cs) irs = Ok irs' /\
     emittedIn irs irs' (scopebb irs) = [Br body] /\
     cleanupsOnPath (S (length (cleanupScopes irs))) (blocks irs') body
       (emittedIn irs irs' (scopebb irs)) = Some [] /\
     cleanupScopes irs' = cleanupScopes irs).
Proof.
  intros Hv Hopen Hbody Hpending.
  assert (Hcode : forall name,
            emittedIn irs
              (setScope (length (blocks irs))
                 (snd (BasicBlock_Create name
                         (insertAtEnd (Br body) (scopebb irs) irs))))
              (scopebb irs) = [Br body]).
  { intros name. apply emittedIn_app.
    rewrite blockInstrs_setScope.
    rewrite blockInstrs_Create_old
      by (rewrite length_blocks_insertAtEnd; exact Hv).
    apply blockInstrs_insertAtEnd_eq. exact Hv. }
  split.
  - eexists. split.
    + change (Statement_toIR cfg (GotoCaseStatement cs) irs)
        with (visit_GotoCaseStatement cs irs).
      unfold visit_GotoCaseStatement.
      change (scopereturned (hook COV_LinecountInc
                (hook DBG_EmitStopPoint (hook PGO_setCurrentStmt irs))))
        with (scopereturned irs).
      rewrite Hopen.
      change (bodyBB (caseState cs (hook COV_LinecountInc
                (hook DBG_EmitStopPoint (hook PGO_setCurrentStmt irs)))))
        with (bodyBB (caseState cs irs)).
      rewrite Hbody. reflexivity.
    + split; [| split].
      * exact (Hcode "aftergotocase").
      * change (emittedIn irs _ (scopebb irs))
          with (emittedIn irs
                  (setScope (length (blocks irs))
                     (snd (BasicBlock_Create "aftergotocase"
                             (insertAtEnd (Br body) (scopebb irs) irs))))
                  (scopebb irs)).
        rewrite Hcode. simpl.
        rewrite bool_decide_eq_true_2 by reflexivity. reflexivity.
      * reflexivity.
  - eexists. split.
    + change (Statement_toIR cfg (GotoDefaultStatement cs) irs)
        with (visit_GotoDefaultStatement cs irs).
      unfold visit_GotoDefaultStatement.
      change (scopereturned (hook COV_LinecountInc
                (hook DBG_EmitStopPoint (hook PGO_setCurrentStmt irs))))
        with (scopereturned irs).
      rewrite Hopen.
      change (bodyBB (caseState cs (hook COV_LinecountInc
                (hook DBG_EmitStopPoint (hook PGO_setCurrentStmt irs)))))
        with (bodyBB (caseState cs irs)).
      rewrite Hbody. reflexivity.
    + split; [| split].
      * exact (Hcode "aftergotodefault").
      * change (emittedIn irs _ (scopebb irs))
          with (emittedIn irs
                  (setScope (length (blocks irs))
                     (snd (BasicBlock_Create "aftergotodefault"
                             (insertAtEnd (Br body) (scopebb irs) irs))))
                  (scopebb irs)).
        rewrite Hcode. simpl.
        rewrite bool_decide_eq_true_2 by reflexivity. reflexivity.
      * reflexivity.
Qed.

Lemma C1_goto_case_and_default_run_no_cleanup_witness :
  exists irs',
    Statement_toIR
      exampleConfig
      (GotoCaseStatement 11)
      (pushCleanup 1 1
         (set_bodyBB 11 (Some 2)
            (snd (BasicBlock_Create "case"
                    (snd (BasicBlock_Create "finally" initialState))))))
    = Ok irs' /\
    blockInstrs irs' 0 = [Br 2] /\
    cleanupScopes irs' = [{| beginBlock := 1; endBlock := 1 |}].
Proof.
  destruct (C1_goto_case_and_default_run_no_cleanup
              exampleConfig
              11
              (pushCleanup 1 1
                 (set_bodyBB 11 (Some 2)
                    (snd (BasicBlock_Create "case"
                            (snd (BasicBlock_Create "finally" initialState))))))
              2)
    as [(irs' & H & Hcode & _ & Hcs) _].
  - vm_compute. lia.
  - vm_compute. reflexivity.
  - vm_compute. reflexivity.
  - discriminate.
  - exists irs'. split; [exact H |]. split; [exact Hcode | exact Hcs].
Defined.

(** ** Return *)

Lemma emitReturn_direct cfg linnum rv irs :
  cleanupScopes irs = [] ->
  emitReturn cfg linnum rv irs
  = Ok (setScope (length (blocks irs))
          (snd (BasicBlock_Create "dummy.afterreturn"
                  (emit match rv with Some v => Ret v | None => RetVoid end
                     (match rv with
                      | Some _ =>
                          if fdIsMain cfg && Nat.eqb linnum 0
                          then hook DBG_EmitStopPoint irs
                          else irs
                      | None => irs
                      end))))).
Proof.
  intros Hcs. unfold emitReturn, currentCleanupScope. rewrite Hcs.
  destruct rv as [v|]; simpl; [destruct (fdIsMain cfg && Nat.eqb linnum 0) |];
    simpl; rewrite length_alter; reflexivity.
Qed.

Lemma bind_Ok_l {A B} (m : Result A) (k : A -> Result B) (a : A) :
  m = Ok a -> bind m k = k a.
Proof. intros ->. reflexivity. Qed.

Lemma emitReturn_first cfg linnum rv irs :
  cleanupScopes irs <> [] -> retBlock irs = None ->
  let s1 := set_retBlock (Some (length (blocks irs)))
              (snd (BasicBlock_Create "return" irs)) in
  let s2 := match rv with
            | Some _ => set_retValSlot (Some (allocas irs))
                          (snd (DtoRawAlloca s1))
            | None => s1
            end in
  let s3 := afterCleanups rv (length (blocks irs)) s2 in
  let s4 := match rv with
            | Some _ =>
                emit (Ret (VLoadSlot (allocas irs)))
                  (if fdIsMain cfg && Nat.eqb linnum 0
                   then hook DBG_EmitStopPoint s3 else s3)
            | None => emit RetVoid s3
            end in
  emitReturn cfg linnum rv irs
  = Ok (setScope (length (blocks s4))
          (snd (BasicBlock_Create "dummy.afterreturn" s4))).
Proof.
  intros Hcs Hrb. unfold emitReturn, currentCleanupScope.
  destruct (cleanupScopes irs) as [|c cs] eqn:Ecs; [congruence |].
  rewrite Hrb. cbv zeta.
  destruct rv as [v|].
  - rewrite (bind_Ok_l _ _
               (afterCleanups (Some v) (length (blocks irs))
                  (set_retValSlot (Some (allocas irs))
                     (snd (DtoRawAlloca
                             (set_retBlock (Some (length (blocks irs)))
                                (snd (BasicBlock_Create "return" irs))))))))
      by reflexivity.
    unfold afterCleanups, runAllCleanups.
    match goal with |- context [runCleanups ?d ?t ?s] =>
      rewrite (runCleanups_shape d t s);
      generalize (blocks (runCleanups d t s)) end.
    intros R. destruct (fdIsMain cfg && Nat.eqb linnum 0); reflexivity.
  - rewrite (bind_Ok_l _ _
               (afterCleanups None (length (blocks irs))
                  (set_retBlock (Some (length (blocks irs)))
                     (snd (BasicBlock_Create "return" irs)))))
      by reflexivity.
    unfold afterCleanups, runAllCleanups.
    match goal with |- context [runCleanups ?d ?t ?s] =>
      rewrite (runCleanups_shape d t s);
      generalize (blocks (runCleanups d t s)) end.
    intros R. reflexivity.
Qed.

Lemma emitReturn_reuse cfg linnum rv irs rb :
  cleanupScopes irs <> [] -> retBlock irs = Some rb ->
  (is_Some rv -> is_Some (retValSlot irs)) ->
  let s3 := afterCleanups rv rb irs in
  emitReturn cfg linnum rv irs
  = Ok (setScope (length (blocks s3))
          (snd (BasicBlock_Create "dummy.afterreturn" s3))).
Proof.
  intros Hcs Hrb Hslot. unfold emitReturn, currentCleanupScope.
  destruct (cleanupScopes irs) as [|c cs] eqn:Ecs; [congruence |].
  rewrite Hrb. cbv zeta.
  rewrite (bind_Ok_l _ _ (afterCleanups rv rb irs)).
  - reflexivity.
  - unfold afterCleanups. destruct rv as [v|]; [| reflexivity].
    destruct (Hslot ltac:(eauto)) as [slot Hs]. rewrite Hs. reflexivity.
Qed.

Lemma afterCleanups_spec rv rb s :
  scopeValid s -> (is_Some rv -> is_Some (retValSlot s)) ->
  let a := afterCleanups rv rb s in
  let cs := cleanupScopes s in
  let n := length (blocks s) in
  blockInstrs a (scopebb s)
  = blockInstrs s (scopebb s) ++ storeOf rv (retValSlot s) ++ chainHead cs rb n /\
  (forall b, b < n -> b <> scopebb s -> blocks a !! b = blocks s !! b) /\
  (forall k, blocks a !! (n + k) = chainTail cs rb n !! k) /\
  length (blocks a) = n + length cs /\
  returnsOf (blocks a) = returnsOf (blocks s) /\
  scopebb a = rb /\ retBlock a = retBlock s /\ retValSlot a = retValSlot s.
Proof.
  intros Hv Hslot. cbv zeta. unfold afterCleanups, runAllCleanups.
  set (sS := match rv, retValSlot s with
             | Some v, Some slot => emit (IStore v slot) s
             | _, _ => s
             end).
  assert (HS : blockInstrs sS (scopebb s)
               = blockInstrs s (scopebb s) ++ storeOf rv (retValSlot s) /\
               length (blocks sS) = length (blocks s) /\
               scopebb sS = scopebb s /\ cleanupScopes sS = cleanupScopes s /\
               retBlock sS = retBlock s /\ retValSlot sS = retValSlot s /\
               returnsOf (blocks sS) = returnsOf (blocks s) /\
               (forall b, b <> scopebb s -> blocks sS !! b = blocks s !! b)).
  { subst sS. destruct rv as [v|].
    - destruct (Hslot ltac:(eauto)) as [slot Hs]. rewrite Hs.
      split; [apply blockInstrs_insertAtEnd_eq; exact Hv |].
      split; [apply length_blocks_insertAtEnd |].
      split; [reflexivity |]. split; [reflexivity |].
      split; [reflexivity |]. split; [exact Hs |]. split.
      + exact (returnsOf_alter [IStore v slot] (scopebb s) (blocks s) eq_refl).
      + intros b Hb. apply list_lookup_alter_ne. congruence.
    - simpl. rewrite app_nil_r. repeat split. }
  destruct HS as (HSi & HSl & HSs & HSc & HSr & HSv & HSret & HSo).
  assert (HvS : scopeValid sS) by (unfold scopeValid; rewrite HSs, HSl; exact Hv).
  assert (Hab : cleanupsAbove 0 sS = cleanupScopes s)
    by (rewrite cleanupsAbove_0; exact HSc).
  pose proof (runCleanups_fields 0 rb sS) as Hf. cbv zeta in Hf.
  destruct Hf as (Hf1 & Hf2 & Hf3 & Hf4 & Hf5 & Hf6 & Hf7 & Hf8 & _).
  split; [| split; [| split; [| split; [| split]]]].
  - rewrite blockInstrs_setScope. rewrite <- HSs.
    rewrite runCleanups_cur by exact HvS.
    rewrite HSs, HSi, Hab, HSl, <- app_assoc. reflexivity.
  - intros b Hb Hne.
    change (blocks (setScope rb (runCleanups 0 rb sS)) !! b)
      with (blocks (runCleanups 0 rb sS) !! b).
    rewrite runCleanups_other by (rewrite ?HSl, ?HSs; assumption).
    apply HSo. exact Hne.
  - intros k.
    change (blocks (setScope rb (runCleanups 0 rb sS)) !! (length (blocks s) + k))
      with (blocks (runCleanups 0 rb sS) !! (length (blocks s) + k)).
    rewrite <- HSl. rewrite runCleanups_new by exact HvS.
    rewrite Hab. reflexivity.
  - change (length (blocks (setScope rb (runCleanups 0 rb sS))))
      with (length (blocks (runCleanups 0 rb sS))).
    rewrite runCleanups_length by exact HvS. rewrite Hab, HSl. reflexivity.
  - change (returnsOf (blocks (setScope rb (runCleanups 0 rb sS))))
      with (returnsOf (blocks (runCleanups 0 rb sS))).
    rewrite runCleanups_returns by exact HvS. exact HSret.
  - split; [reflexivity |].
    change (retBlock (runCleanups 0 rb sS) = retBlock s /\
            retValSlot (runCleanups 0 rb sS) = retValSlot s).
    rewrite Hf7, Hf8. split; assumption.
Qed.

Lemma returnsOf_snoc_empty bs name :
  returnsOf (bs ++ [{| bbName := name; bbInstrs := [] |}]) = returnsOf bs.
Proof. rewrite returnsOf_app. apply app_nil_r. Qed.

Lemma cleanupsOnPath_storeOf fuel bs target rv slot code :
  cleanupsOnPath (S fuel) bs target (storeOf rv slot ++ code)
  = cleanupsOnPath (S fuel) bs target code.
Proof. destruct rv as [v|], slot as [sl|]; reflexivity. Qed.

Lemma emitReturn_spec cfg linnum rv irs :
  scopeValid irs ->
  (is_Some rv -> is_Some (retBlock irs) -> is_Some (retValSlot irs)) ->
  (forall rb, retBlock irs = Some rb -> rb < length (blocks irs)) ->
  exists irs',
    emitReturn cfg linnum rv irs = Ok irs' /\
    let cur := scopebb irs in
    let n := length (blocks irs) in
    let pending := cleanupScopes irs in
    (pending = [] ->
       emittedIn irs irs' cur
       = [match rv with Some v => Ret v | None => RetVoid end] /\
       retBlock irs' = retBlock irs /\ retValSlot irs' = retValSlot irs /\
       length (returnsOf (blocks irs')) = S (length (returnsOf (blocks irs)))) /\
    (pending <> [] -> retBlock irs = None ->
       retBlock irs' = Some n /\
       retValSlot irs'
       = match rv with
         | Some _ => Some (allocas irs)
         | None => retValSlot irs
         end /\
       blockInstrs irs' n
       = [match rv with
          | Some _ => Ret (VLoadSlot (allocas irs))
          | None => RetVoid
          end] /\
       emittedIn irs irs' cur
       = storeOf rv (retValSlot irs') ++ chainHead pending n (S n) /\
       cleanupsOnPath (S (length pending)) (blocks irs') n
         (emittedIn irs irs' cur) = Some pending /\
       length (returnsOf (blocks irs')) = S (length (returnsOf (blocks irs)))) /\
    (pending <> [] -> forall rb, retBlock irs = Some rb ->
       retBlock irs' = Some rb /\ retValSlot irs' = retValSlot irs /\
       (rb <> cur -> blocks irs' !! rb = blocks irs !! rb) /\
       emittedIn irs irs' cur
       = storeOf rv (retValSlot irs) ++ chainHead pending rb n /\
       cleanupsOnPath (S (length pending)) (blocks irs') rb
         (emittedIn irs irs' cur) = Some pending /\
       returnsOf (blocks irs') = returnsOf (blocks irs)).
Proof.
  intros Hv Hslot Hrb.
  destruct (cleanupScopes irs) as [|c0 cs0] eqn:Ecs.
  { (* no cleanup is pending *)
    eexists. split; [apply emitReturn_direct; exact Ecs |]. cbv zeta.
    split; [| split; intros Hne; congruence].
    intros _.
    set (r := match rv with Some v => Ret v | None => RetVoid end).
    set (s0 := match rv with
               | Some _ => if fdIsMain cfg && Nat.eqb linnum 0
                           then hook DBG_EmitStopPoint irs
                           else irs
               | None => irs
               end).
    assert (Hs0 : blocks s0 = blocks irs /\ scopebb s0 = scopebb irs /\
                  retBlock s0 = retBlock irs /\ retValSlot s0 = retValSlot irs).
    { subst s0. destruct rv; [destruct (fdIsMain cfg && Nat.eqb linnum 0) |]; repeat split. }
    destruct Hs0 as (Hb0 & Hc0 & Hr0 & Hl0).
    split; [| split; [exact Hr0 | split; [exact Hl0 |]]].
    - apply emittedIn_app. rewrite blockInstrs_setScope.
      rewrite blockInstrs_Create_old
        by (unfold emit; rewrite length_blocks_insertAtEnd, Hb0; exact Hv).
      unfold emit. rewrite Hc0.
      rewrite blockInstrs_insertAtEnd_eq by (rewrite Hb0; exact Hv).
      unfold blockInstrs. rewrite Hb0. reflexivity.
    - change (length (returnsOf
                (alter (appendInstr r) (scopebb s0) (blocks s0)
                 ++ [{| bbName := "dummy.afterreturn"; bbInstrs := [] |}]))
              = S (length (returnsOf (blocks irs)))).
      rewrite returnsOf_snoc_empty, Hc0, Hb0.
      apply length_returnsOf_alter1; [exact Hv |].
      subst r. destruct rv; reflexivity. }
  assert (Hpend : cleanupScopes irs <> []) by (rewrite Ecs; discriminate).
  rewrite <- Ecs. clear Ecs c0 cs0.
  destruct (retBlock irs) as [rb|] eqn:Erb.
  - (* the return block exists *)
    assert (Hsl : is_Some rv -> is_Some (retValSlot irs))
      by (intros H; apply Hslot; eauto).
    eexists. split; [apply (emitReturn_reuse cfg linnum rv irs rb Hpend Erb Hsl) |].
    cbv zeta.
    split; [intros H; congruence |].
    split; [intros _ H; discriminate H |].
    intros _ rb' Hrb'. injection Hrb' as <-.
    destruct (afterCleanups_spec rv rb irs Hv Hsl)
      as (Hcur & Hold & Hnew & Hlen & Hret & Hsc & Hrbk & Hrvs).
    set (a := afterCleanups rv rb irs) in *.
    assert (Hem : emittedIn irs
                    (setScope (length (blocks a))
                       (snd (BasicBlock_Create "dummy.afterreturn" a)))
                    (scopebb irs)
                  = storeOf rv (retValSlot irs)
                    ++ chainHead (cleanupScopes irs) rb (length (blocks irs))).
    { apply emittedIn_app. rewrite blockInstrs_setScope.
      rewrite blockInstrs_Create_old by (unfold scopeValid in Hv; lia).
      exact Hcur. }
    split; [rewrite <- Erb; exact Hrbk |]. split; [exact Hrvs |].
    split; [| split; [exact Hem | split]].
    + intros Hne.
      change (blocks (setScope (length (blocks a))
                        (snd (BasicBlock_Create "dummy.afterreturn" a))))
        with (blocks a
              ++ [{| bbName := "dummy.afterreturn"; bbInstrs := [] |}]).
      pose proof (Hrb rb eq_refl) as Hlt.
      rewrite lookup_app_l by lia. apply Hold; assumption.
    + rewrite Hem, cleanupsOnPath_storeOf.
      apply cleanupsOnPath_chain; [exact (Hrb rb eq_refl) |].
      intros k Hk.
      change (blocks (setScope (length (blocks a))
                        (snd (BasicBlock_Create "dummy.afterreturn" a))))
        with (blocks a
              ++ [{| bbName := "dummy.afterreturn"; bbInstrs := [] |}]).
      rewrite lookup_app_l by lia. apply Hnew.
    + change (blocks (setScope (length (blocks a))
                        (snd (BasicBlock_Create "dummy.afterreturn" a))))
        with (blocks a
              ++ [{| bbName := "dummy.afterreturn"; bbInstrs := [] |}]).
      rewrite returnsOf_snoc_empty. exact Hret.
  - (* the first return with pending cleanups *)
    eexists. split; [apply (emitReturn_first cfg linnum rv irs Hpend Erb) |].
    cbv zeta.
    split; [intros H; congruence |].
    split; [| intros _ rb H; discriminate H].
    intros _ _.
    set (n := length (blocks irs)).
    set (s1 := set_retBlock (Some n) (snd (BasicBlock_Create "return" irs))).
    set (s2 := match rv with
               | Some _ => set_retValSlot (Some (allocas irs))
                             (snd (DtoRawAlloca s1))
               | None => s1
               end).
    assert (H2 : blocks s2
                 = blocks irs ++ [{| bbName := "return"; bbInstrs := [] |}] /\
                 scopebb s2 = scopebb irs /\
                 cleanupScopes s2 = cleanupScopes irs /\
                 retBlock s2 = Some n /\
                 retValSlot s2
                 = match rv with
                   | Some _ => Some (allocas irs)
                   | None => retValSlot irs
                   end).
    { subst s2 s1. destruct rv; repeat split. }
    destruct H2 as (Hb2 & Hc2 & Hcs2 & Hr2 & Hsl2).
    assert (Hv2 : scopeValid s2).
    { unfold scopeValid. rewrite Hc2, Hb2, length_app. unfold scopeValid in Hv.
      simpl. lia. }
    assert (Hsome2 : is_Some rv -> is_Some (retValSlot s2)).
    { rewrite Hsl2. intros [v ->]. eauto. }
    destruct (afterCleanups_spec rv n s2 Hv2 Hsome2)
      as (Hcur & Hold & Hnew & Hlen & Hret & Hsc & Hrbk & Hrvs).
    rewrite Hc2, Hcs2 in *.
    assert (Hn2 : length (blocks s2) = S n)
      by (rewrite Hb2, length_app; simpl; lia).
    rewrite Hn2 in *.
    set (a := afterCleanups rv n s2) in *.
    set (r := match rv with
              | Some _ => Ret (VLoadSlot (allocas irs))
              | None => RetVoid
              end).
    set (s4 := match rv with
               | Some _ =>
                   emit (Ret (VLoadSlot (allocas irs)))
                     (if fdIsMain cfg && Nat.eqb linnum 0
                      then hook DBG_EmitStopPoint a else a)
               | None => emit RetVoid a
               end).
    assert (H4 : blocks s4 = alter (appendInstr r) n (blocks a) /\
                 retBlock s4 = retBlock a /\ retValSlot s4 = retValSlot a).
    { subst s4 r. rewrite <- Hsc.
      destruct rv; [destruct (fdIsMain cfg && Nat.eqb linnum 0) |]; repeat split. }
    destruct H4 as (Hb4 & Hr4 & Hsl4).
    change (blocks (setScope (length (blocks s4))
                      (snd (BasicBlock_Create "dummy.afterreturn" s4))))
      with (blocks s4 ++ [{| bbName := "dummy.afterreturn"; bbInstrs := [] |}]).
    change (retBlock (setScope (length (blocks s4))
                        (snd (BasicBlock_Create "dummy.afterreturn" s4))))
      with (retBlock s4).
    change (retValSlot (setScope (length (blocks s4))
                          (snd (BasicBlock_Create "dummy.afterreturn" s4))))
      with (retValSlot s4).
    unfold scopeValid in Hv.
    assert (Hne : n <> scopebb irs) by (subst n; lia).
    assert (Hcur4 : blockInstrs
                      (setScope (length (blocks s4))
                         (snd (BasicBlock_Create "dummy.afterreturn" s4)))
                      (scopebb irs)
                    = blockInstrs irs (scopebb irs)
                      ++ storeOf rv (retValSlot s2)
                      ++ chainHead (cleanupScopes irs) n (S n)).
    { rewrite blockInstrs_setScope.
      rewrite blockInstrs_Create_old by (rewrite Hb4, length_alter; lia).
      unfold blockInstrs at 1. rewrite Hb4.
      rewrite list_lookup_alter_ne by exact Hne.
      change (blockInstrs a (scopebb irs)
              = blockInstrs irs (scopebb irs)
                ++ storeOf rv (retValSlot s2)
                ++ chainHead (cleanupScopes irs) n (S n)).
      rewrite Hcur. f_equal. unfold blockInstrs. rewrite Hb2.
      rewrite lookup_app_l by lia. reflexivity. }
    apply emittedIn_app in Hcur4.
    rewrite Hr4, Hsl4, Hrbk, Hrvs, Hr2.
    split; [reflexivity |]. split; [exact Hsl2 |].
    split; [| split; [exact Hcur4 | split]].
    + rewrite blockInstrs_setScope.
      rewrite blockInstrs_Create_old by (rewrite Hb4, length_alter; lia).
      unfold blockInstrs. rewrite Hb4.
      rewrite list_lookup_alter_eq.
      rewrite Hold by lia. rewrite Hb2.
      rewrite lookup_app_r by (subst n; lia).
      replace (n - length (blocks irs)) with 0 by (subst n; lia).
      reflexivity.
    + rewrite Hcur4, cleanupsOnPath_storeOf.
      apply cleanupsOnPath_chain; [lia |].
      intros k Hk. rewrite Hb4.
      rewrite lookup_app_l by (rewrite length_alter; lia).
      rewrite list_lookup_alter_ne by lia. apply Hnew.
    + rewrite returnsOf_snoc_empty, Hb4.
      rewrite length_returnsOf_alter1
        by first [lia | subst r; destruct rv; reflexivity].
      rewrite Hret, Hb2, returnsOf_snoc_empty. reflexivity.
Qed.

(** C4: the return instruction of a return statement. Without pending
    cleanups the return instruction is all that is appended to the current
    block, and neither return block nor slot change. With pending cleanups
    and no return block yet, the block (and, for a value, the slot) are
    created, the current block receives the store followed by the cleanup
    chain, which executes every pending cleanup innermost first on the way
    into the return block, and the return block receives the one return
    instruction. With pending cleanups and a return block at hand, block and
    slot are reused, the store and the chain into the block are emitted as
    before, and no return instruction is added anywhere. *)
Theorem C4_return_lowering cfg linnum rv irs :
  scopeValid irs ->
  (is_Some rv -> is_Some (retBlock irs) -> is_Some (retValSlot irs)) ->
  (forall rb, retBlock irs = Some rb -> rb < length (blocks irs)) ->
  exists irs',
    emitReturn cfg linnum rv irs = Ok irs' /\
    let cur := scopebb irs in
    let n := length (blocks irs) in
    let pending := cleanupScopes irs in
    (pending = [] ->
       emittedIn irs irs' cur
       = [match rv with Some v => Ret v | None => RetVoid end] /\
       retBlock irs' = retBlock irs /\ retValSlot irs' = retValSlot irs /\
       length (returnsOf (blocks irs')) = S (length (returnsOf (blocks irs)))) /\
    (pending <> [] -> retBlock irs = None ->
       retBlock irs' = Some n /\
       retValSlot irs'
       = match rv with
         | Some _ => Some (allocas irs)
         | None => retValSlot irs
         end /\
       blockInstrs irs' n
       = [match rv with
          | Some _ => Ret (VLoadSlot (allocas irs))
          | None => RetVoid
          end] /\
       emittedIn irs irs' cur
       = storeOf rv (retValSlot irs') ++ chainHead pending n (S n) /\
       cleanupsOnPath (S (length pending)) (blocks irs') n
         (emittedIn irs irs' cur) = Some pending /\
       length (returnsOf (blocks irs')) = S (length (returnsOf (blocks irs)))) /\
    (pending <> [] -> forall rb, retBlock irs = Some rb ->
       retBlock irs' = Some rb /\ retValSlot irs' = retValSlot irs /\
       (rb <> cur -> blocks irs' !! rb = blocks irs !! rb) /\
       emittedIn irs irs' cur
       = storeOf rv (retValSlot irs) ++ chainHead pending rb n /\
       cleanupsOnPath (S (length pending)) (blocks irs') rb
         (emittedIn irs irs' cur) = Some pending /\
       returnsOf (blocks irs') = returnsOf (blocks irs)).
Proof. exact (emitReturn_spec cfg linnum rv irs). Qed.

Lemma C4_return_lowering_witness :
  exists irs',
    emitReturn
      exampleConfig
      1
      (Some (VConstInt 0))
      (pushCleanup 1 1 (snd (BasicBlock_Create "finally" initialState)))
    = Ok irs' /\
    retBlock irs' = Some 2 /\
    blockInstrs irs' 2 = [Ret (VLoadSlot 0)] /\
    blockInstrs irs' 0
    = [IStore (VConstInt 0) 0;
       ICleanup {| beginBlock := 1; endBlock := 1 |}; Br 3].
Proof.
  destruct (C4_return_lowering
              exampleConfig
              1
              (Some (VConstInt 0))
              (pushCleanup 1 1
                 (snd (BasicBlock_Create "finally" initialState))))
    as (irs' & H & _ & Hfirst & _).
  - vm_compute. lia.
  - intros _ [rb Hrb]. discriminate Hrb.
  - intros rb Hrb. discriminate Hrb.
  - destruct (Hfirst ltac:(discriminate) eq_refl)
      as (Hrb & Hslot & Hret & Hcode & _).
    exists irs'. split; [exact H |]. split; [exact Hrb |].
    split; [exact Hret |].
    unfold emittedIn in Hcode. rewrite Hslot in Hcode. exact Hcode.
Defined.

(** ** Terminated blocks stay as they are *)

Lemma open_all_nonterm code :
  wellTerminated code = true ->
  (forall i, last code = Some i -> isTerminator i = false) ->
  forallb (fun j => negb (isTerminator j)) code = true.
Proof.
  intros Hw Hl. destruct code as [|x code']; [reflexivity |].
  destruct (exists_last (l := x :: code') ltac:(discriminate)) as (c & i & E).
  rewrite E in *. unfold wellTerminated in Hw. rewrite removelast_last in Hw.
  rewrite forallb_app, Hw. simpl.
  rewrite (Hl i) by apply last_snoc. reflexivity.
Qed.

Lemma wellTerminated_open_app code code' :
  wellTerminated code = true ->
  (forall i, last code = Some i -> isTerminator i = false) ->
  wellTerminated code' = true ->
  wellTerminated (code ++ code') = true.
Proof.
  intros Hw Hl Hw'. pose proof (open_all_nonterm code Hw Hl) as Hall.
  destruct code' as [|x code'']; [rewrite app_nil_r; exact Hw |].
  destruct (exists_last (l := x :: code'') ltac:(discriminate)) as (c & i & E).
  rewrite E in *. unfold wellTerminated in *.
  rewrite app_assoc, removelast_last, forallb_app, Hall.
  rewrite removelast_last in Hw'. rewrite Hw'. reflexivity.
Qed.

Lemma wellFormed_iff s :
  wellFormed s <-> forall b, wellTerminated (blockInstrs s b) = true.
Proof.
  unfold wellFormed, blockInstrs. rewrite Forall_lookup. split.
  - intros H b. destruct (blocks s !! b) as [blk|] eqn:E; [| reflexivity].
    exact (H b blk E).
  - intros H b blk E. specialize (H b). rewrite E in H. exact H.
Qed.

Lemma blockTerminated_ext s s' b :
  blockInstrs s' b = blockInstrs s b ->
  blockTerminated s' b = blockTerminated s b.
Proof.
  intros E. destruct (blockTerminated s b) eqn:H.
  - apply blockTerminated_spec. apply blockTerminated_spec in H.
    rewrite E. exact H.
  - apply blockTerminated_false_spec.
    rewrite blockTerminated_false_spec in H. rewrite E. exact H.
Qed.

Lemma blockInstrs_Create name s b :
  blockInstrs (snd (BasicBlock_Create name s)) b = blockInstrs s b.
Proof.
  destruct (Nat.lt_ge_cases b (length (blocks s))) as [Hlt | Hge].
  - apply blockInstrs_Create_old. exact Hlt.
  - rewrite (blockInstrs_ge s b Hge).
    destruct (Nat.eq_dec b (length (blocks s))) as [-> | Hne].
    + apply blockInstrs_Create_new.
    + apply blockInstrs_ge. simpl. rewrite length_app. simpl. lia.
Qed.

Lemma wellFormed_Create name s :
  wellFormed s -> wellFormed (snd (BasicBlock_Create name s)).
Proof.
  rewrite !wellFormed_iff. intros H b. rewrite blockInstrs_Create. apply H.
Qed.

Lemma blockInstrs_insertAtEnd i bb s b :
  blockInstrs (insertAtEnd i bb s) b
  = if bool_decide (b = bb /\ bb < length (blocks s))
    then blockInstrs s b ++ [i] else blockInstrs s b.
Proof.
  destruct (bool_decide_reflect (b = bb /\ bb < length (blocks s)))
    as [[-> Hlt] | Hn].
  - apply blockInstrs_insertAtEnd_eq. exact Hlt.
  - destruct (Nat.eq_dec bb b) as [-> | Hne].
    + assert (Hge : length (blocks s) <= b).
      { destruct (Nat.lt_ge_cases b (length (blocks s))); [| assumption].
        exfalso. apply Hn. split; [reflexivity | assumption]. }
      rewrite !blockInstrs_ge;
        [reflexivity | assumption
        | rewrite length_blocks_insertAtEnd; assumption].
    + apply blockInstrs_insertAtEnd_ne. exact Hne.
Qed.

Lemma wellFormed_insertAtEnd i bb s :
  wellFormed s -> blockTerminated s bb = false ->
  wellFormed (insertAtEnd i bb s).
Proof.
  rewrite !wellFormed_iff. intros H Hopen b.
  rewrite blockInstrs_insertAtEnd.
  destruct (bool_decide_reflect (b = bb /\ bb < length (blocks s)))
    as [[-> Hlt] |]; [| apply H].
  apply wellTerminated_open_app; [apply H | | reflexivity].
  apply blockTerminated_false_spec. exact Hopen.
Qed.

Lemma blockTerminated_insertAtEnd_term i bb s :
  bb < length (blocks s) -> isTerminator i = true ->
  blockTerminated (insertAtEnd i bb s) bb = true.
Proof.
  intros Hlt Hi. apply blockTerminated_spec. exists i.
  rewrite blockInstrs_insertAtEnd_eq by exact Hlt.
  rewrite last_snoc. auto.
Qed.

Lemma blockTerminated_insertAtEnd_nonterm i bb s :
  isTerminator i = false -> blockTerminated s bb = false ->
  blockTerminated (insertAtEnd i bb s) bb = false.
Proof.
  intros Hi Hopen. apply blockTerminated_false_spec. intros j.
  rewrite blockInstrs_insertAtEnd.
  destruct (bool_decide _).
  - rewrite last_snoc. intros [= <-]. exact Hi.
  - apply blockTerminated_false_spec. exact Hopen.
Qed.

Lemma chainTail_lookup cs target n k blk :
  chainTail cs target n !! k = Some blk ->
  wellTerminated (bbInstrs blk) = true.
Proof.
  revert n k. induction cs as [|c rest IH]; intros n k H; [discriminate H |].
  destruct k as [|k].
  - injection H as <-. destruct rest; reflexivity.
  - exact (IH (S n) k H).
Qed.

Lemma chainHead_wellTerminated cs target n :
  wellTerminated (chainHead cs target n) = true.
Proof. destruct cs; reflexivity. Qed.

Lemma last_chainHead cs target n :
  exists t, last (chainHead cs target n) = Some (Br t).
Proof. destruct cs; eexists; reflexivity. Qed.

Lemma blockInstrs_runCleanups downTo target s b :
  scopeValid s ->
  b <> scopebb s ->
  wellTerminated (blockInstrs s b) = true ->
  wellTerminated (blockInstrs (runCleanups downTo target s) b) = true.
Proof.
  intros Hv Hne Hw.
  destruct (Nat.lt_ge_cases b (length (blocks s))) as [Hlt | Hge].
  - rewrite (blockInstrs_eq_lookup s)
      by (apply runCleanups_other; assumption).
    exact Hw.
  - unfold blockInstrs.
    replace b with (length (blocks s) + (b - length (blocks s))) by lia.
    rewrite runCleanups_new by exact Hv.
    destruct (chainTail _ _ _ !! _) as [blk|] eqn:E; [| reflexivity].
    eapply chainTail_lookup. exact E.
Qed.

Lemma wellFormed_runCleanups downTo target s :
  scopeValid s -> wellFormed s -> scopereturned s = false ->
  wellFormed (runCleanups downTo target s).
Proof.
  rewrite !wellFormed_iff. intros Hv H Hopen b.
  destruct (Nat.eq_dec b (scopebb s)) as [-> | Hne].
  - rewrite runCleanups_cur by exact Hv.
    apply wellTerminated_open_app;
      [apply H | | apply chainHead_wellTerminated].
    apply blockTerminated_false_spec. exact Hopen.
  - apply blockInstrs_runCleanups; [assumption | assumption | apply H].
Qed.

Lemma blockTerminated_runCleanups downTo target s :
  scopeValid s ->
  blockTerminated (runCleanups downTo target s) (scopebb s) = true.
Proof.
  intros Hv. apply blockTerminated_spec.
  rewrite runCleanups_cur by exact Hv.
  destruct (last_chainHead (cleanupsAbove downTo s) target (length (blocks s)))
    as (t & Ht).
  exists (Br t). split; [| reflexivity].
  rewrite last_app, Ht. reflexivity.
Qed.

Lemma jump_close name irs T m :
  scopeValid irs -> wellFormed T ->
  length (blocks irs) <= length (blocks T) ->
  blockTerminated T (scopebb irs) = true ->
  m = length (blocks T) ->
  afterJump irs (setScope m (snd (BasicBlock_Create name T))).
Proof.
  intros Hv Hw Hlen Hterm ->. unfold afterJump.
  split; [exact Hlen |].
  split; [simpl; rewrite length_app; simpl; lia |].
  split; [apply blockInstrs_Create_new |].
  split.
  - rewrite <- Hterm. apply blockTerminated_ext.
    rewrite blockInstrs_setScope. apply blockInstrs_Create.
  - apply (wellFormed_Create name T Hw).
Qed.

Lemma emit_nonterm_keeps i s :
  isTerminator i = false ->
  scopeValid s -> wellFormed s -> scopereturned s = false ->
  scopeValid (emit i s) /\ wellFormed (emit i s) /\
  scopereturned (emit i s) = false.
Proof.
  intros Hi Hv Hw Hopen. split; [| split].
  - unfold scopeValid, emit. rewrite length_blocks_insertAtEnd. exact Hv.
  - apply wellFormed_insertAtEnd; assumption.
  - apply (blockTerminated_insertAtEnd_nonterm i (scopebb s) s Hi Hopen).
Qed.

Lemma emit_term_closes i s :
  isTerminator i = true ->
  scopeValid s -> wellFormed s -> scopereturned s = false ->
  wellFormed (emit i s) /\ blockTerminated (emit i s) (scopebb s) = true.
Proof.
  intros Hi Hv Hw Hopen. split.
  - apply wellFormed_insertAtEnd; assumption.
  - apply blockTerminated_insertAtEnd_term; assumption.
Qed.

Lemma runCleanups_closes downTo target s :
  scopeValid s -> wellFormed s -> scopereturned s = false ->
  wellFormed (runCleanups downTo target s) /\
  length (blocks s) <= length (blocks (runCleanups downTo target s)) /\
  blockTerminated (runCleanups downTo target s) (scopebb s) = true.
Proof.
  intros Hv Hw Hopen. split; [| split].
  - apply wellFormed_runCleanups; assumption.
  - rewrite runCleanups_length by exact Hv. lia.
  - apply blockTerminated_runCleanups. exact Hv.
Qed.

Lemma visit_ThrowStatement_afterJump exp irs irs' :
  scopeValid irs -> wellFormed irs -> scopereturned irs = false ->
  visit_ThrowStatement exp irs = Ok irs' -> afterJump irs irs'.
Proof.
  intros Hv Hw Hopen H. unfold visit_ThrowStatement in H.
  set (s0 := hook COV_LinecountInc _) in H.
  change (afterJump s0 irs').
  assert (H0 : scopeValid s0 /\ wellFormed s0 /\ scopereturned s0 = false)
    by (split; [exact Hv | split; [exact Hw | exact Hopen]]).
  clearbody s0. clear Hv Hw Hopen irs.
  destruct H0 as (Hv0 & Hw0 & Ho0).
  pose proof (emit_nonterm_keeps (IExp exp) s0 eq_refl Hv0 Hw0 Ho0)
    as (Hv1 & Hw1 & Ho1).
  pose proof (emit_nonterm_keeps
                (ICall "_d_throw_exception" [VExp exp]
                   (catchScopes (emit (IExp exp) s0))
                   (cleanupScopes (emit (IExp exp) s0)))
                (emit (IExp exp) s0) eq_refl Hv1 Hw1 Ho1)
    as (Hv2 & Hw2 & Ho2).
  pose proof (emit_term_closes Unreachable _ eq_refl Hv2 Hw2 Ho2)
    as (Hw3 & Ht3).
  apply Ok_inj in H. subst irs'.
  eapply jump_close; [exact Hv0 | exact Hw3 | | exact Ht3 | reflexivity].
  red_all. lens. lia.
Qed.

Lemma visit_GotoDefaultStatement_afterJump d irs irs' :
  scopeValid irs -> wellFormed irs -> scopereturned irs = false ->
  visit_GotoDefaultStatement d irs = Ok irs' -> afterJump irs irs'.
Proof.
  intros Hv Hw Hopen H. unfold visit_GotoDefaultStatement in H.
  set (s0 := hook COV_LinecountInc _) in H.
  change (afterJump s0 irs').
  assert (H0 : scopeValid s0 /\ wellFormed s0 /\ scopereturned s0 = false)
    by (split; [exact Hv | split; [exact Hw | exact Hopen]]).
  clearbody s0. clear Hv Hw Hopen irs.
  destruct H0 as (Hv0 & Hw0 & Ho0).
  rewrite Ho0 in H.
  destruct (bodyBB (caseState d s0)) as [body|]; [| discriminate H].
  apply Ok_inj in H. subst irs'.
  pose proof (emit_term_closes (Br body) s0 eq_refl Hv0 Hw0 Ho0) as (Hw1 & Ht1).
  eapply jump_close; [exact Hv0 | exact Hw1 | | exact Ht1 | reflexivity].
  red_all. lens. lia.
Qed.

Lemma visit_GotoCaseStatement_afterJump cs irs irs' :
  scopeValid irs -> wellFormed irs -> scopereturned irs = false ->
  visit_GotoCaseStatement cs irs = Ok irs' -> afterJump irs irs'.
Proof.
  intros Hv Hw Hopen H. unfold visit_GotoCaseStatement in H.
  set (s0 := hook COV_LinecountInc _) in H.
  change (afterJump s0 irs').
  assert (H0 : scopeValid s0 /\ wellFormed s0 /\ scopereturned s0 = false)
    by (split; [exact Hv | split; [exact Hw | exact Hopen]]).
  clearbody s0. clear Hv Hw Hopen irs.
  destruct H0 as (Hv0 & Hw0 & Ho0).
  rewrite Ho0 in H.
  destruct (bodyBB (caseState cs s0)) as [body|].
  - apply Ok_inj in H. subst irs'.
    pose proof (emit_term_closes (Br body) s0 eq_refl Hv0 Hw0 Ho0)
      as (Hw1 & Ht1).
    eapply jump_close; [exact Hv0 | exact Hw1 | | exact Ht1 | reflexivity].
    red_all. lens. lia.
  - apply Ok_inj in H. subst irs'.
    set (s1 := set_bodyBB cs (Some (length (blocks s0)))
                 (snd (BasicBlock_Create "goto_case" s0))).
    assert (Hv1 : scopeValid s1)
      by (unfold scopeValid in *; simpl; rewrite length_app; simpl; lia).
    assert (Hw1 : wellFormed s1) by exact (wellFormed_Create "goto_case" s0 Hw0).
    assert (Ho1 : scopereturned s1 = false).
    { rewrite <- Ho0. apply blockTerminated_ext.
      apply (blockInstrs_Create "goto_case" s0). }
    pose proof (emit_term_closes (Br (length (blocks s0))) s1 eq_refl
                  Hv1 Hw1 Ho1) as (Hw2 & Ht2).
    eapply jump_close; [exact Hv0 | exact Hw2 | | exact Ht2 | reflexivity].
    subst s1. red_all. lens. lia.
Qed.

Lemma runCleanups_afterJump name downTo target s0 irs' :
  scopeValid s0 -> wellFormed s0 -> scopereturned s0 = false ->
  Ok (setScope (length (blocks (runCleanups downTo target s0)))
        (snd (BasicBlock_Create name (runCleanups downTo target s0))))
  = Ok irs' ->
  afterJump s0 irs'.
Proof.
  intros Hv0 Hw0 Ho0 H. apply Ok_inj in H. subst irs'.
  destruct (runCleanups_closes downTo target s0 Hv0 Hw0 Ho0) as (Hw & Hl & Ht).
  eapply jump_close; [exact Hv0 | exact Hw | exact Hl | | reflexivity].
  rewrite <- Ht. f_equal.
Qed.

Lemma visit_BreakStatement_afterJump target irs irs' :
  scopeValid irs -> wellFormed irs -> scopereturned irs = false ->
  visit_BreakStatement target irs = Ok irs' -> afterJump irs irs'.
Proof.
  intros Hv Hw Hopen H. unfold visit_BreakStatement in H.
  change (scopereturned (hook PGO_setCurrentStmt irs))
    with (scopereturned irs) in H.
  rewrite Hopen in H.
  set (s0 := hook COV_LinecountInc _) in H.
  change (afterJump s0 irs').
  assert (H0 : scopeValid s0 /\ wellFormed s0 /\ scopereturned s0 = false)
    by (split; [exact Hv | split; [exact Hw | exact Hopen]]).
  clearbody s0. clear Hv Hw Hopen irs.
  destruct H0 as (Hv0 & Hw0 & Ho0).
  destruct target as [tg|].
  - unfold breakToStatement in H.
    destruct (List.find _ (loopTargets s0)) as [t|]; [| discriminate H].
    exact (runCleanups_afterJump "afterbreak" (cleanupScope t) (breakBlock t)
             s0 irs' Hv0 Hw0 Ho0 H).
  - unfold breakToClosest in H.
    destruct (loopTargets s0) as [|t ?]; [discriminate H |].
    exact (runCleanups_afterJump "afterbreak" (cleanupScope t) (breakBlock t)
             s0 irs' Hv0 Hw0 Ho0 H).
Qed.

Lemma visit_ContinueStatement_afterJump target irs irs' :
  scopeValid irs -> wellFormed irs -> scopereturned irs = false ->
  visit_ContinueStatement target irs = Ok irs' -> afterJump irs irs'.
Proof.
  intros Hv Hw Hopen H. unfold visit_ContinueStatement in H.
  set (s0 := hook COV_LinecountInc _) in H.
  change (afterJump s0 irs').
  assert (H0 : scopeValid s0 /\ wellFormed s0 /\ scopereturned s0 = false)
    by (split; [exact Hv | split; [exact Hw | exact Hopen]]).
  clearbody s0. clear Hv Hw Hopen irs.
  destruct H0 as (Hv0 & Hw0 & Ho0).
  destruct target as [tg|].
  - unfold continueWithLoop in H.
    destruct (List.find _ (loopTargets s0)) as [[ts [c|] bb d]|];
      try discriminate H.
    exact (runCleanups_afterJump "afterbreak" d c s0 irs' Hv0 Hw0 Ho0 H).
  - unfold continueWithClosest in H.
    destruct (List.find _ (loopTargets s0)) as [[ts [c|] bb d]|];
      try discriminate H.
    exact (runCleanups_afterJump "afterbreak" d c s0 irs' Hv0 Hw0 Ho0 H).
Qed.

Lemma visit_GotoStatement_afterJump label irs irs' :
  scopeValid irs -> wellFormed irs -> scopereturned irs = false ->
  visit_GotoStatement label irs = Ok irs' -> afterJump irs irs'.
Proof.
  intros Hv Hw Hopen H. unfold visit_GotoStatement in H.
  set (s0 := hook COV_LinecountInc _) in H.
  change (afterJump s0 irs').
  assert (H0 : scopeValid s0 /\ wellFormed s0 /\ scopereturned s0 = false)
    by (split; [exact Hv | split; [exact Hw | exact Hopen]]).
  clearbody s0. clear Hv Hw Hopen irs.
  destruct H0 as (Hv0 & Hw0 & Ho0).
  unfold DtoGoto in H.
  destruct (findLabel label (labelTargets s0)) as [t|].
  - destruct (bool_decide _); [| discriminate H].
    exact (runCleanups_afterJump "aftergoto" (labelScope t) (labelBlock t)
             s0 irs' Hv0 Hw0 Ho0 H).
  - apply Ok_inj in H. subst irs'.
    set (s1 := snd (BasicBlock_Create "goto.unresolved" s0)).
    assert (Hv1 : scopeValid s1)
      by (unfold scopeValid in *; simpl; rewrite length_app; simpl; lia).
    assert (Hw1 : wellFormed s1)
      by exact (wellFormed_Create "goto.unresolved" s0 Hw0).
    assert (Ho1 : scopereturned s1 = false).
    { rewrite <- Ho0. apply blockTerminated_ext.
      apply (blockInstrs_Create "goto.unresolved" s0). }
    pose proof (emit_term_closes (Br (length (blocks s0))) s1 eq_refl
                  Hv1 Hw1 Ho1) as (Hw2 & Ht2).
    eapply jump_close; [exact Hv0 | exact Hw2 | | exact Ht2 | reflexivity].
    subst s1. red_all. lens. lia.
Qed.

Lemma returnValueOf_shape cfg exp s r :
  returnValueOf cfg exp s = Ok r ->
  exists code,
    Forall (fun i => isTerminator i = false) code /\
    snd r = fold_left (fun s i => emit i s) code s.
Proof.
  unfold returnValueOf. intros H.
  destruct (bool_decide (is_Some exp) || isMainFunc cfg).
  - destruct (retTypeIsVoid cfg).
    + do 3 inv_bind H. destruct exp as [e|]; [| discriminate].
      destruct (toInPlaceConstruction_cases e s) as [E | E]; rewrite E in H;
        clear E.
      * cbn [toElemDtor] in H.
        destruct (isSretLVal cfg e); cbn [negb] in H.
        -- apply Ok_inj in H. subst r. exists [IExp e].
           split; [repeat constructor | reflexivity].
        -- destruct (negb (nrvo cfg) && _); apply Ok_inj in H; subst r.
           ++ exists [IExp e; ISretStore e; IPostblit e].
              split; [repeat constructor | reflexivity].
           ++ exists [IExp e; ISretStore e].
              split; [repeat constructor | reflexivity].
      * unfold currentCleanupScope in H.
        change (cleanupScopes (emit (IInPlace e) s)) with (cleanupScopes s) in H.
        rewrite bool_decide_eq_false_2 in H
          by (intros Hne; apply Hne; reflexivity).
        apply Ok_inj in H. subst r. exists [IInPlace e].
        split; [repeat constructor | reflexivity].
    + destruct exp as [e|].
      * cbn [toElemDtor] in H. destruct (loadForReturn _ _) in H.
        destruct (funcIsRef cfg); apply Ok_inj in H; subst r.
        -- exists [IExp e]. split; [repeat constructor | reflexivity].
        -- exists [IExp e; IPostblit e].
           split; [repeat constructor | reflexivity].
      * destruct (loadForReturn _ _) in H. apply Ok_inj in H. subst r.
        exists []. split; [constructor | reflexivity].
  - inv_bind H. apply Ok_inj in H. subst r.
    exists []. split; [constructor | reflexivity].
Qed.

Lemma emits_nonterm_keep code : forall s,
  Forall (fun i => isTerminator i = false) code ->
  scopeValid s -> wellFormed s -> scopereturned s = false ->
  let s' := fold_left (fun s i => emit i s) code s in
  scopeValid s' /\ wellFormed s' /\ scopereturned s' = false /\
  scopebb s' = scopebb s /\ length (blocks s') = length (blocks s).
Proof.
  induction code as [|i code IH]; intros s Hc Hv Hw Ho; cbv zeta.
  - repeat split; assumption.
  - apply Forall_cons in Hc as [Hi Hc].
    destruct (emit_nonterm_keeps i s Hi Hv Hw Ho) as (Hv1 & Hw1 & Ho1).
    destruct (IH (emit i s) Hc Hv1 Hw1 Ho1) as (? & ? & ? & Hs & Hl).
    cbn [fold_left]. repeat split; try assumption.
    rewrite Hl. apply length_blocks_insertAtEnd.
Qed.

Lemma returnValueOf_keeps cfg exp s r :
  scopeValid s -> wellFormed s -> scopereturned s = false ->
  returnValueOf cfg exp s = Ok r ->
  scopeValid (snd r) /\ wellFormed (snd r) /\ scopereturned (snd r) = false /\
  scopebb (snd r) = scopebb s /\ length (blocks (snd r)) = length (blocks s).
Proof.
  intros Hv Hw Ho H.
  destruct (returnValueOf_shape cfg exp s r H) as (code & Hc & ->).
  exact (emits_nonterm_keep code s Hc Hv Hw Ho).
Qed.

Lemma afterCleanups_closes rv rb s :
  scopeValid s -> wellFormed s -> scopereturned s = false ->
  wellFormed (afterCleanups rv rb s) /\
  blockTerminated (afterCleanups rv rb s) (scopebb s) = true /\
  length (blocks s) <= length (blocks (afterCleanups rv rb s)).
Proof.
  intros Hv Hw Ho. unfold afterCleanups, runAllCleanups.
  set (sS := match rv, retValSlot s with
             | Some v, Some slot => emit (IStore v slot) s
             | _, _ => s
             end).
  assert (HS : scopeValid sS /\ wellFormed sS /\ scopereturned sS = false /\
               scopebb sS = scopebb s /\
               length (blocks sS) = length (blocks s)).
  { subst sS. destruct rv as [v|]; [destruct (retValSlot s) as [slot|] |];
      try (repeat split; assumption).
    destruct (emit_nonterm_keeps (IStore v slot) s eq_refl Hv Hw Ho)
      as (? & ? & ?).
    repeat split; try assumption. apply length_blocks_insertAtEnd. }
  destruct HS as (HvS & HwS & HoS & HsS & HlS).
  destruct (runCleanups_closes 0 rb sS HvS HwS HoS) as (Hw' & Hl' & Ht').
  split; [exact Hw' |]. split.
  - rewrite <- HsS. exact Ht'.
  - change (length (blocks s) <= length (blocks (runCleanups 0 rb sS))). lia.
Qed.

Lemma emitReturn_crash cfg linnum v irs rb :
  cleanupScopes irs <> [] -> retBlock irs = Some rb ->
  retValSlot irs = None ->
  emitReturn cfg linnum (Some v) irs = Aborted (Crash "f->retValSlot").
Proof.
  intros Hcs Hrb Hs. unfold emitReturn, currentCleanupScope.
  destruct (cleanupScopes irs) as [|c cs]; [congruence |].
  rewrite Hrb. cbv zeta. rewrite Hs. reflexivity.
Qed.

Lemma emitReturn_afterJump cfg linnum rv irs irs' :
  scopeValid irs -> wellFormed irs -> scopereturned irs = false ->
  emitReturn cfg linnum rv irs = Ok irs' -> afterJump irs irs'.
Proof.
  intros Hv Hw Ho H.
  destruct (cleanupScopes irs) as [|c0 cs0] eqn:Ecs.
  { rewrite (emitReturn_direct cfg linnum rv irs Ecs) in H.
    apply Ok_inj in H. subst irs'.
    set (r := match rv with Some v => Ret v | None => RetVoid end).
    set (s0 := match rv with
               | Some _ => if fdIsMain cfg && Nat.eqb linnum 0
                           then hook DBG_EmitStopPoint irs
                           else irs
               | None => irs
               end).
    assert (Hs0 : scopeValid s0 /\ wellFormed s0 /\ scopereturned s0 = false /\
                  scopebb s0 = scopebb irs /\ blocks s0 = blocks irs).
    { subst s0. destruct rv; [destruct (fdIsMain cfg && Nat.eqb linnum 0) |];
        repeat split; assumption. }
    destruct Hs0 as (Hv0 & Hw0 & Ho0 & Hc0 & Hb0).
    assert (Hr : isTerminator r = true) by (subst r; destruct rv; reflexivity).
    destruct (emit_term_closes r s0 Hr Hv0 Hw0 Ho0) as (Hw1 & Ht1).
    rewrite Hc0 in Ht1.
    eapply jump_close; [exact Hv | exact Hw1 | | exact Ht1 |].
    - unfold emit. rewrite length_blocks_insertAtEnd, Hb0. lia.
    - unfold emit. rewrite length_blocks_insertAtEnd, Hb0. reflexivity. }
  assert (Hpend : cleanupScopes irs <> []) by (rewrite Ecs; discriminate).
  clear Ecs c0 cs0.
  destruct (retBlock irs) as [rb|] eqn:Erb.
  - assert (Hsl : is_Some rv -> is_Some (retValSlot irs)).
    { intros [v ->]. destruct (retValSlot irs) as [slot|] eqn:Es; [eauto |].
      rewrite (emitReturn_crash cfg linnum v irs rb Hpend Erb Es) in H.
      discriminate H. }
    rewrite (emitReturn_reuse cfg linnum rv irs rb Hpend Erb Hsl) in H.
    apply Ok_inj in H. subst irs'.
    destruct (afterCleanups_closes rv rb irs Hv Hw Ho) as (Hw' & Ht' & Hl').
    eapply jump_close; [exact Hv | exact Hw' | exact Hl' | exact Ht'
                       | reflexivity].
  - rewrite (emitReturn_first cfg linnum rv irs Hpend Erb) in H.
    apply Ok_inj in H. subst irs'.
    set (n := length (blocks irs)).
    set (s1 := set_retBlock (Some n) (snd (BasicBlock_Create "return" irs))).
    set (s2 := match rv with
               | Some _ => set_retValSlot (Some (allocas irs))
                             (snd (DtoRawAlloca s1))
               | None => s1
               end).
    assert (H2 : blocks s2
                 = blocks irs ++ [{| bbName := "return"; bbInstrs := [] |}] /\
                 scopebb s2 = scopebb irs /\
                 (forall b, blockInstrs s2 b = blockInstrs irs b) /\
                 (is_Some rv -> is_Some (retValSlot s2))).
    { subst s2 s1. destruct rv; (split; [reflexivity |]);
        (split; [reflexivity |]);
        (split; [intros b; apply (blockInstrs_Create "return" irs) |]).
      - intros _. eexists. reflexivity.
      - intros [x Hx]. discriminate Hx. }
    destruct H2 as (Hb2 & Hc2 & Hi2 & Hsome2).
    unfold scopeValid in Hv.
    assert (Hv2 : scopeValid s2).
    { unfold scopeValid. rewrite Hc2, Hb2, length_app. simpl. lia. }
    assert (Hw2 : wellFormed s2).
    { apply wellFormed_iff. intros b. rewrite Hi2.
      apply wellFormed_iff. exact Hw. }
    assert (Ho2 : scopereturned s2 = false).
    { rewrite <- Ho. unfold scopereturned. rewrite Hc2.
      apply blockTerminated_ext. apply Hi2. }
    destruct (afterCleanups_closes rv n s2 Hv2 Hw2 Ho2) as (Hw3 & Ht3 & Hl3).
    destruct (afterCleanups_spec rv n s2 Hv2 Hsome2)
      as (_ & Hold & _ & _ & _ & Hsc & _).
    rewrite Hc2 in *.
    assert (Hn2 : length (blocks s2) = S n)
      by (rewrite Hb2, length_app; simpl; lia).
    rewrite Hn2 in *.
    set (a := afterCleanups rv n s2) in *.
    set (r := match rv with
              | Some _ => Ret (VLoadSlot (allocas irs))
              | None => RetVoid
              end).
    set (s4 := match rv with
               | Some _ =>
                   emit (Ret (VLoadSlot (allocas irs)))
                     (if fdIsMain cfg && Nat.eqb linnum 0
                      then hook DBG_EmitStopPoint a else a)
               | None => emit RetVoid a
               end).
    assert (H4 : forall b, blockInstrs s4 b = blockInstrs (insertAtEnd r n a) b).
    { subst s4 r. rewrite <- Hsc.
      destruct rv; [destruct (fdIsMain cfg && Nat.eqb linnum 0) |]; reflexivity. }
    assert (Hl4 : length (blocks s4) = length (blocks a)).
    { subst s4. destruct rv; [destruct (fdIsMain cfg && Nat.eqb linnum 0) |];
        apply length_alter. }
    assert (Hr : isTerminator r = true) by (subst r; destruct rv; reflexivity).
    assert (Hopen_n : blockTerminated a n = false).
    { apply blockTerminated_false_spec. intros i.
      rewrite (blockInstrs_eq_lookup s2) by (apply Hold; subst n; lia).
      rewrite Hi2, blockInstrs_ge by (subst n; lia). discriminate. }
    eapply jump_close; [exact Hv | | | | reflexivity].
    + apply wellFormed_iff. intros b. rewrite H4.
      apply wellFormed_iff. apply wellFormed_insertAtEnd; assumption.
    + lia.
    + rewrite (blockTerminated_ext (insertAtEnd r n a)) by apply H4.
      rewrite <- Ht3. apply blockTerminated_ext.
      apply blockInstrs_insertAtEnd_ne. subst n. lia.
Qed.

Lemma visit_ReturnStatement_afterJump cfg exp linnum irs irs' :
  scopeValid irs -> wellFormed irs -> scopereturned irs = false ->
  visit_ReturnStatement cfg exp linnum irs = Ok irs' -> afterJump irs irs'.
Proof.
  intros Hv Hw Ho H. unfold visit_ReturnStatement in H.
  set (s0 := hook COV_LinecountInc _) in H.
  change (afterJump s0 irs').
  assert (H0 : scopeValid s0 /\ wellFormed s0 /\ scopereturned s0 = false)
    by (split; [exact Hv | split; [exact Hw | exact Ho]]).
  clearbody s0. clear Hv Hw Ho irs.
  destruct H0 as (Hv0 & Hw0 & Ho0).
  inv_bind H.
  destruct (returnValueOf_keeps cfg exp s0 irs Hv0 Hw0 Ho0 Hstep)
    as (Hv1 & Hw1 & Ho1 & Hc1 & Hl1).
  pose proof (emitReturn_afterJump cfg linnum _ _ _ Hv1 Hw1 Ho1 H) as HJ.
  unfold afterJump in *. rewrite Hc1, Hl1 in HJ. exact HJ.
Qed.

(** C8: a return, break, continue, goto, goto case, goto default or throw
    lowered in an open block of a function whose blocks are well
    terminated leaves, whenever its lowering succeeds, the block it was
    lowered in terminated and a new block current: the last block of the
    function, created by this statement and still empty. No block of the
    function holds an instruction after a terminator afterwards. *)
Theorem C8_fresh_block_after_terminator cfg s irs irs' :
  isJump s = true ->
  scopeValid irs -> wellFormed irs -> scopereturned irs = false ->
  Statement_toIR cfg s irs = Ok irs' ->
  length (blocks irs) <= scopebb irs' /\
  length (blocks irs') = S (scopebb irs') /\
  blockInstrs irs' (scopebb irs') = [] /\
  blockTerminated irs' (scopebb irs) = true /\
  wellFormed irs'.
Proof.
  intros Hj Hv Hw Ho H.
  destruct s; try discriminate Hj; simpl in H.
  - exact (visit_ReturnStatement_afterJump cfg _ _ irs irs' Hv Hw Ho H).
  - exact (visit_BreakStatement_afterJump _ irs irs' Hv Hw Ho H).
  - exact (visit_ContinueStatement_afterJump _ irs irs' Hv Hw Ho H).
  - exact (visit_ThrowStatement_afterJump _ irs irs' Hv Hw Ho H).
  - exact (visit_GotoStatement_afterJump _ irs irs' Hv Hw Ho H).
  - exact (visit_GotoDefaultStatement_afterJump _ irs irs' Hv Hw Ho H).
  - exact (visit_GotoCaseStatement_afterJump _ irs irs' Hv Hw Ho H).
Qed.

Lemma C8_fresh_block_after_terminator_witness :
  exists irs',
    Statement_toIR
      exampleConfig
      (ThrowStatement (OtherExp 1 false)) initialState = Ok irs' /\
    scopebb irs' = 1 /\ blockInstrs irs' 1 = [] /\
    blockTerminated irs' 0 = true.
Proof.
  eexists. split; [reflexivity |].
  destruct (C8_fresh_block_after_terminator
              exampleConfig
              (ThrowStatement (OtherExp 1 false)) initialState _
              eq_refl ltac:(vm_compute; lia)
              ltac:(repeat constructor) eq_refl eq_refl)
    as (_ & _ & He & Ht & _).
  split; [reflexivity |]. split; [exact He | exact Ht].
Defined.

(** ** Unrolled loops *)


Lemma bind_ext_l {A B} (m m' : Result A) (k : A -> Result B) :
  m = m' -> bind m k = bind m' k.
Proof. intros ->. reflexivity. Qed.


Lemma cleanupsAbove_top s : cleanupsAbove (length (cleanupScopes s)) s = [].
Proof. unfold cleanupsAbove. rewrite Nat.sub_diag. reflexivity. Qed.


Lemma jump_emitted name downTo target s0 :
  scopeValid s0 ->
  emittedIn s0
    (setScope (length (blocks (runCleanups downTo target s0)))
       (snd (BasicBlock_Create name (runCleanups downTo target s0))))
    (scopebb s0)
  = chainHead (cleanupsAbove downTo s0) target (length (blocks s0)).
Proof.
  intros Hv. apply emittedIn_app. rewrite blockInstrs_setScope.
  rewrite blockInstrs_Create. apply runCleanups_cur. exact Hv.
Qed.




Lemma createBlocks_scopebb name n s :
  scopebb (snd (createBlocks name n s)) = scopebb s.
Proof. apply (createBlocks_spec name n s). Qed.




(** ** Jumps run the pending cleanups *)

Lemma runCleanups_jump_path name downTo target s0 :
  scopeValid s0 -> target < length (blocks s0) ->
  cleanupsOnPath (S (length (cleanupsAbove downTo s0)))
    (blocks (setScope (length (blocks (runCleanups downTo target s0)))
               (snd (BasicBlock_Create name (runCleanups downTo target s0)))))
    target
    (chainHead (cleanupsAbove downTo s0) target (length (blocks s0)))
  = Some (cleanupsAbove downTo s0).
Proof.
  intros Hv Ht. apply cleanupsOnPath_chain; [exact Ht |].
  intros k Hk.
  change (blocks (setScope ?m (snd (BasicBlock_Create name ?r))))
    with (blocks r ++ [{| bbName := name; bbInstrs := [] |}]).
  rewrite lookup_app_l by (rewrite runCleanups_length by exact Hv; lia).
  apply runCleanups_new. exact Hv.
Qed.

Lemma visit_BreakStatement_spec tgt s s' :
  scopeValid s -> scopereturned s = false ->
  visit_BreakStatement tgt s = Ok s' ->
  exists t,
    In t (loopTargets s) /\
    match tgt with
    | None => head (loopTargets s) = Some t
    | Some x => targetStatement t = x
    end /\
    emittedIn s s' (scopebb s)
    = chainHead (cleanupsAbove (cleanupScope t) s) (breakBlock t)
        (length (blocks s)) /\
    (breakBlock t < length (blocks s) ->
     cleanupsOnPath (S (length (cleanupsAbove (cleanupScope t) s)))
       (blocks s') (breakBlock t) (emittedIn s s' (scopebb s))
     = Some (cleanupsAbove (cleanupScope t) s)).
Proof.
  intros Hv Ho H. unfold visit_BreakStatement in H.
  change (scopereturned (hook PGO_setCurrentStmt s))
    with (scopereturned s) in H.
  rewrite Ho in H.
  set (s0 := hook COV_LinecountInc _) in H.
  assert (Ht : exists t,
             In t (loopTargets s) /\
             match tgt with
             | None => head (loopTargets s) = Some t
             | Some x => targetStatement t = x
             end /\
             s' = setScope
                    (length (blocks (runCleanups (cleanupScope t)
                                       (breakBlock t) s0)))
                    (snd (BasicBlock_Create "afterbreak"
                            (runCleanups (cleanupScope t) (breakBlock t) s0)))).
  { destruct tgt as [x|].
    - unfold breakToStatement in H.
      destruct (List.find _ (loopTargets s0)) as [t|] eqn:Hf;
        [| discriminate H].
      apply List.find_some in Hf. destruct Hf as [Hin Hx].
      apply bool_decide_eq_true_1 in Hx.
      exists t. split; [exact Hin |]. split; [exact Hx |].
      apply Ok_inj in H. symmetry. exact H.
    - unfold breakToClosest in H.
      change (loopTargets s0) with (loopTargets s) in H.
      destruct (loopTargets s) as [|t rest] eqn:El; [discriminate H |].
      exists t. split; [left; reflexivity |]. split; [reflexivity |].
      apply Ok_inj in H. symmetry. exact H. }
  clear H. destruct Ht as (t & Hin & Htgt & ->).
  exists t. split; [exact Hin |]. split; [exact Htgt |].
  assert (He : emittedIn s
                 (setScope
                    (length (blocks (runCleanups (cleanupScope t)
                                       (breakBlock t) s0)))
                    (snd (BasicBlock_Create "afterbreak"
                            (runCleanups (cleanupScope t) (breakBlock t) s0))))
                 (scopebb s)
               = chainHead (cleanupsAbove (cleanupScope t) s) (breakBlock t)
                   (length (blocks s)))
    by exact (jump_emitted "afterbreak" (cleanupScope t) (breakBlock t) s0 Hv).
  split; [exact He |].
  intros Hlt. rewrite He.
  exact (runCleanups_jump_path "afterbreak" (cleanupScope t) (breakBlock t)
           s0 Hv Hlt).
Qed.

Lemma visit_ContinueStatement_spec tgt s s' :
  scopeValid s ->
  visit_ContinueStatement tgt s = Ok s' ->
  exists t c,
    In t (loopTargets s) /\ continueBlock t = Some c /\
    match tgt with
    | None => True
    | Some x => targetStatement t = x
    end /\
    emittedIn s s' (scopebb s)
    = chainHead (cleanupsAbove (cleanupScope t) s) c (length (blocks s)) /\
    (c < length (blocks s) ->
     cleanupsOnPath (S (length (cleanupsAbove (cleanupScope t) s)))
       (blocks s') c (emittedIn s s' (scopebb s))
     = Some (cleanupsAbove (cleanupScope t) s)).
Proof.
  intros Hv H. unfold visit_ContinueStatement in H.
  set (s0 := hook COV_LinecountInc _) in H.
  assert (Ht : exists t c,
             In t (loopTargets s) /\ continueBlock t = Some c /\
             match tgt with
             | None => True
             | Some x => targetStatement t = x
             end /\
             s' = setScope
                    (length (blocks (runCleanups (cleanupScope t) c s0)))
                    (snd (BasicBlock_Create "afterbreak"
                            (runCleanups (cleanupScope t) c s0)))).
  { destruct tgt as [x|].
    - unfold continueWithLoop in H.
      destruct (List.find _ (loopTargets s0)) as [t|] eqn:Hf;
        [| discriminate H].
      apply List.find_some in Hf. destruct Hf as [Hin Hx].
      apply andb_prop in Hx. destruct Hx as [_ Hx].
      apply bool_decide_eq_true_1 in Hx.
      destruct t as [ts [c|] bb d]; [| discriminate H].
      eexists _, c. split; [exact Hin |]. split; [reflexivity |].
      split; [exact Hx |]. apply Ok_inj in H. symmetry. exact H.
    - unfold continueWithClosest in H.
      destruct (List.find _ (loopTargets s0)) as [t|] eqn:Hf;
        [| discriminate H].
      apply List.find_some in Hf. destruct Hf as [Hin _].
      destruct t as [ts [c|] bb d]; [| discriminate H].
      eexists _, c. split; [exact Hin |]. split; [reflexivity |].
      split; [exact I |]. apply Ok_inj in H. symmetry. exact H. }
  clear H. destruct Ht as (t & c & Hin & Hc & Htgt & ->).
  exists t, c. split; [exact Hin |]. split; [exact Hc |].
  split; [exact Htgt |].
  assert (He : emittedIn s
                 (setScope
                    (length (blocks (runCleanups (cleanupScope t) c s0)))
                    (snd (BasicBlock_Create "afterbreak"
                            (runCleanups (cleanupScope t) c s0))))
                 (scopebb s)
               = chainHead (cleanupsAbove (cleanupScope t) s) c
                   (length (blocks s)))
    by exact (jump_emitted "afterbreak" (cleanupScope t) c s0 Hv).
  split; [exact He |].
  intros Hlt. rewrite He.
  exact (runCleanups_jump_path "afterbreak" (cleanupScope t) c s0 Hv Hlt).
Qed.

Lemma cleanupsAbove_cons s c outer d :
  cleanupScopes s = c :: outer -> d <= length outer ->
  cleanupsAbove d s = c :: take (length outer - d) outer.
Proof.
  intros E Hd. unfold cleanupsAbove. rewrite E. simpl length.
  replace (S (length outer) - d) with (S (length outer - d)) by lia.
  reflexivity.
Qed.

Lemma visit_ThrowStatement_spec exp s :
  scopeValid s ->
  exists s',
    visit_ThrowStatement exp s = Ok s' /\
    emittedIn s s' (scopebb s)
    = [IExp exp;
       ICall "_d_throw_exception" [VExp exp] (catchScopes s) (cleanupScopes s);
       Unreachable].
Proof.
  intros Hv.
  set (s0 := hook COV_LinecountInc
               (hook DBG_EmitStopPoint (hook PGO_setCurrentStmt s))).
  set (T := emit Unreachable
              (emit (ICall "_d_throw_exception" [VExp exp] (catchScopes s)
                       (cleanupScopes s))
                 (emit (IExp exp) s0))).
  exists (setScope (length (blocks T)) (snd (BasicBlock_Create "afterthrow" T))).
  split; [reflexivity |].
  apply emittedIn_app. rewrite blockInstrs_setScope, blockInstrs_Create.
  change (blockInstrs T (scopebb s0)
          = blockInstrs s0 (scopebb s0)
            ++ [IExp exp;
                ICall "_d_throw_exception" [VExp exp] (catchScopes s)
                  (cleanupScopes s);
                Unreachable]).
  assert (Hv0 : scopeValid s0) by exact Hv.
  subst T. unfold emit at 1.
  rewrite blockInstrs_insertAtEnd_eq
    by (unfold emit; rewrite !length_blocks_insertAtEnd; exact Hv0).
  unfold emit at 1.
  rewrite blockInstrs_insertAtEnd_eq
    by (unfold emit; rewrite !length_blocks_insertAtEnd; exact Hv0).
  unfold emit at 1.
  rewrite blockInstrs_insertAtEnd_eq by exact Hv0.
  rewrite <- !app_assoc. reflexivity.
Qed.

Lemma emitReturn_Ok_slot cfg linnum rv s s' :
  emitReturn cfg linnum rv s = Ok s' -> cleanupScopes s <> [] ->
  is_Some rv -> is_Some (retBlock s) -> is_Some (retValSlot s).
Proof.
  intros H Hne [v ->] [rb Hrb].
  destruct (retValSlot s) as [slot|] eqn:Es; [eauto |].
  rewrite (emitReturn_crash cfg linnum v s rb Hne Hrb Es) in H. discriminate H.
Qed.

Lemma emitReturn_path cfg linnum rv s s' :
  scopeValid s -> cleanupScopes s <> [] ->
  (forall rb, retBlock s = Some rb -> rb < length (blocks s)) ->
  emitReturn cfg linnum rv s = Ok s' ->
  exists rb,
    retBlock s' = Some rb /\
    cleanupsOnPath (S (length (cleanupScopes s))) (blocks s') rb
      (emittedIn s s' (scopebb s)) = Some (cleanupScopes s).
Proof.
  intros Hv Hne Hrb H.
  destruct (emitReturn_spec cfg linnum rv s Hv)
    as (s'' & E & _ & Hfirst & Hreuse).
  - intros Hrv Hb. destruct (list_eq_dec (cleanupScopes s) []) as [E | E].
    + contradiction.
    + exact (emitReturn_Ok_slot cfg linnum rv s s' H E Hrv Hb).
  - exact Hrb.
  - rewrite E in H. apply Ok_inj in H. subst s''.
    destruct (retBlock s) as [rb|] eqn:Erb.
    + destruct (Hreuse Hne rb eq_refl) as (R1 & _ & _ & _ & R5 & _).
      exists rb. split; assumption.
    + destruct (Hfirst Hne eq_refl) as (R1 & _ & _ & _ & R5 & _).
      eexists. split; eassumption.
Qed.

(** C2: a try/finally with both bodies. The finally body is lowered
    first, in a new block, and the try body after it, in the block the
    statement started in, with the finally body as the one cleanup added to
    the pending ones. When the try body ends in an open block, the cleanup
    is run from there into a new success block, which becomes current: the
    path executes the finally body once. In either case the cleanup is
    popped again. While the cleanup is the innermost pending one, a break
    or continue to a target recorded outside of the statement and a return
    execute it once, before the outer cleanups they leave, on their way to
    the target, and a throw is emitted with it as the innermost cleanup to
    unwind through. *)
Theorem C2_try_finally cfg (body final : Lower) irs irs' :
  Balanced body -> Balanced final -> scopeValid irs ->
  visit_TryFinallyStatement (Some body) (Some final) irs = Ok irs' ->
  let finallybb := length (blocks irs) in
  let outer := cleanupScopes irs in
  exists s_f s_b,
    let c := {| beginBlock := finallybb; endBlock := scopebb s_f |} in
    let entry :=
      hook DBG_EmitBlockStart
        (setScope (scopebb irs)
           (pushCleanup finallybb (scopebb s_f) (hook DBG_EmitBlockEnd s_f))) in
    final (hook DBG_EmitBlockStart
             (setScope finallybb
                (snd (BasicBlock_Create "finally"
                        (hook DBG_EmitStopPoint
                           (hook PGO_setCurrentStmt irs))))))
    = Ok s_f /\
    body entry = Ok s_b /\
    cleanupScopes entry = c :: outer /\
    cleanupScopes s_b = c :: outer /\
    cleanupScopes irs' = outer /\
    (scopereturned s_b = false ->
     scopebb irs' = length (blocks s_b) /\
     blockInstrs irs' (scopebb irs') = [] /\
     emittedIn s_b irs' (scopebb s_b)
     = [ICleanup c; Br (S (length (blocks s_b)))] /\
     cleanupsOnPath 2 (blocks irs') (scopebb irs')
       (emittedIn s_b irs' (scopebb s_b)) = Some [c]) /\
    (scopereturned s_b = true ->
     blocks irs' = blocks s_b /\ scopebb irs' = scopebb s_b) /\
    (forall s,
       cleanupScopes s = c :: outer -> scopeValid s ->
       (forall tgt s',
          scopereturned s = false ->
          Statement_toIR cfg (BreakStatement tgt) s = Ok s' ->
          exists t,
            In t (loopTargets s) /\
            let run := c :: take (length outer - cleanupScope t) outer in
            (cleanupScope t <= length outer ->
             breakBlock t < length (blocks s) ->
             cleanupsOnPath (S (length run)) (blocks s') (breakBlock t)
               (emittedIn s s' (scopebb s)) = Some run)) /\
       (forall tgt s',
          Statement_toIR cfg (ContinueStatement tgt) s = Ok s' ->
          exists t b,
            In t (loopTargets s) /\ continueBlock t = Some b /\
            let run := c :: take (length outer - cleanupScope t) outer in
            (cleanupScope t <= length outer -> b < length (blocks s) ->
             cleanupsOnPath (S (length run)) (blocks s') b
               (emittedIn s s' (scopebb s)) = Some run)) /\
       (forall linnum rv s',
          (forall rb, retBlock s = Some rb -> rb < length (blocks s)) ->
          emitReturn cfg linnum rv s = Ok s' ->
          exists rb,
            retBlock s' = Some rb /\
            cleanupsOnPath (S (length (c :: outer))) (blocks s') rb
              (emittedIn s s' (scopebb s)) = Some (c :: outer)) /\
       (forall e,
          exists s',
            Statement_toIR cfg (ThrowStatement e) s = Ok s' /\
            In (ICall "_d_throw_exception" [VExp e] (catchScopes s)
                  (c :: outer))
              (emittedIn s s' (scopebb s)))).
Proof.
  intros HBb HBf Hv H finallybb outer.
  unfold visit_TryFinallyStatement in H.
  lazy beta iota zeta delta [BasicBlock_Create] in H.
  inv_bind H. rename irs0 into s_f. rename Hstep into Hf.
  inv_bind H. rename irs0 into s_b. rename Hstep into Hb.
  exists s_f, s_b. cbv zeta.
  pose proof (HBf _ _ Hf) as [Fl Fs Fc _ _].
  pose proof (HBb _ _ Hb) as [Bl Bs Bc _ _].
  assert (Fc' : cleanupScopes s_f = outer) by exact Fc.
  assert (Hvf : scopeValid s_f).
  { apply Fs. unfold scopeValid. simpl. rewrite length_app. simpl. lia. }
  assert (Fl' : S (length (blocks irs)) <= length (blocks s_f)).
  { etransitivity; [| exact Fl]. simpl. rewrite length_app. simpl. lia. }
  assert (Hvb : scopeValid s_b).
  { apply Bs. unfold scopeValid in *. simpl. lia. }
  assert (Bc' : cleanupScopes s_b
                = {| beginBlock := finallybb; endBlock := scopebb s_f |}
                    :: outer).
  { rewrite Bc. simpl. rewrite Fc'. reflexivity. }
  set (c := {| beginBlock := finallybb; endBlock := scopebb s_f |}) in *.
  split; [exact Hf |]. split; [exact Hb |].
  split; [simpl; rewrite Fc'; reflexivity |].
  split; [exact Bc' |].
  apply Ok_inj in H.
  change (scopereturned (hook DBG_EmitBlockEnd s_b))
    with (scopereturned s_b) in H.
  change (currentCleanupScope (hook DBG_EmitBlockEnd s_f))
    with (length (cleanupScopes s_f)) in H.
  rewrite Fc' in H.
  split; [| split; [| split]].
  - (* the cleanup is popped *)
    subst irs'. destruct (scopereturned s_b).
    + unfold popCleanups. simpl. rewrite Bc'. simpl.
      replace (S (length outer) - length outer) with 1 by lia. reflexivity.
    + unfold popCleanups.
      match goal with |- context [runCleanups ?d ?t ?s] =>
        rewrite (runCleanups_shape d t s);
        generalize (blocks (runCleanups d t s)) end.
      intros R. simpl. rewrite Bc'. simpl.
      replace (S (length outer) - length outer) with 1 by lia. reflexivity.
  - (* normal completion *)
    intros Hr. rewrite Hr in H. subst irs'.
    set (sX := set_blocks
                 (fun bs => bs ++ [{| bbName := "try.success"; bbInstrs := [] |}])
                 (hook DBG_EmitBlockEnd s_b)).
    assert (HvX : scopeValid sX).
    { unfold scopeValid in *. simpl. rewrite length_app. simpl. lia. }
    assert (HcX : cleanupsAbove (length outer) sX = [c]).
    { rewrite (cleanupsAbove_cons sX c outer) by (try exact Bc'; lia).
      rewrite Nat.sub_diag. reflexivity. }
    assert (HlX : length (blocks sX) = S (length (blocks s_b)))
      by (simpl; rewrite length_app; simpl; lia).
    pose proof (runCleanups_cur (length outer) (length (blocks s_b)) sX HvX)
      as Hcur.
    pose proof (runCleanups_new (length outer) (length (blocks s_b)) sX 0 HvX)
      as Hnew.
    pose proof (runCleanups_other (length outer) (length (blocks s_b)) sX
                  (length (blocks s_b)) HvX) as Hold.
    rewrite HcX, HlX in *.
    set (R := runCleanups (length outer) (length (blocks s_b)) sX) in *.
    change (scopebb
              (popCleanups (length outer)
                 (hook PGO_emitCounterIncrement
                    (setScope (length (blocks s_b)) R))))
      with (length (blocks s_b)).
    change (blocks
              (popCleanups (length outer)
                 (hook PGO_emitCounterIncrement
                    (setScope (length (blocks s_b)) R))))
      with (blocks R).
    assert (He : emittedIn s_b
                   (popCleanups (length outer)
                      (hook PGO_emitCounterIncrement
                         (setScope (length (blocks s_b)) R)))
                   (scopebb s_b)
                 = [ICleanup c; Br (S (length (blocks s_b)))]).
    { apply emittedIn_app.
      change (blockInstrs R (scopebb sX)
              = blockInstrs s_b (scopebb s_b)
                ++ [ICleanup c; Br (S (length (blocks s_b)))]).
      rewrite Hcur. f_equal.
      apply (blockInstrs_Create "try.success" (hook DBG_EmitBlockEnd s_b)). }
    split; [reflexivity |]. split; [| split; [exact He |]].
    + change (blockInstrs R (length (blocks s_b)) = []).
      rewrite (blockInstrs_eq_lookup sX)
        by (apply Hold; unfold scopeValid in Hvb;
            change (scopebb sX) with (scopebb s_b); lia).
      apply (blockInstrs_Create_new "try.success" (hook DBG_EmitBlockEnd s_b)).
    + match goal with |- cleanupsOnPath _ _ _ ?e = _ =>
        replace e with [ICleanup c; Br (S (length (blocks s_b)))]
          by (symmetry; exact He) end.
      apply (cleanupsOnPath_chain [c] (length (blocks s_b))
               (S (length (blocks s_b))) (blocks R)); [lia |].
      intros k Hk. simpl in Hk. replace k with 0 by lia.
      rewrite Nat.add_0_r in Hnew |- *. exact Hnew.
  - (* the try body ended in a terminated block *)
    intros Hr. rewrite Hr in H. subst irs'. split; reflexivity.
  - (* leaving the try body early *)
    intros s Hcs Hvs. split; [| split; [| split]].
    + intros tgt s' Ho Hbr.
      destruct (visit_BreakStatement_spec tgt s s' Hvs Ho Hbr)
        as (t & Hin & _ & _ & Hpath).
      exists t. split; [exact Hin |]. cbv zeta. intros Hd Hlt.
      rewrite <- (cleanupsAbove_cons s c outer (cleanupScope t) Hcs Hd).
      exact (Hpath Hlt).
    + intros tgt s' Hct.
      destruct (visit_ContinueStatement_spec tgt s s' Hvs Hct)
        as (t & b & Hin & Hcb & _ & _ & Hpath).
      exists t, b. split; [exact Hin |]. split; [exact Hcb |].
      cbv zeta. intros Hd Hlt.
      rewrite <- (cleanupsAbove_cons s c outer (cleanupScope t) Hcs Hd).
      exact (Hpath Hlt).
    + intros linnum rv s' Hrb Hret.
      rewrite <- Hcs.
      apply (emitReturn_path cfg linnum rv s s' Hvs); try assumption.
      rewrite Hcs. discriminate.
    + intros e.
      destruct (visit_ThrowStatement_spec e s Hvs) as (s' & E & Hem).
      exists s'. split; [exact E |].
      rewrite Hem, Hcs. right. left. reflexivity.
Qed.

Lemma C2_try_finally_witness :
  exists irs',
    visit_TryFinallyStatement
      (Some (Statement_toIR exampleConfig
               (ExpStatement (Some (OtherExp 1 false)))))
      (Some (Statement_toIR exampleConfig
               (ExpStatement (Some (OtherExp 2 false)))))
      initialState = Ok irs' /\
    cleanupScopes irs' = [].
Proof.
  destruct (visit_TryFinallyStatement
              (Some (Statement_toIR exampleConfig
                       (ExpStatement (Some (OtherExp 1 false)))))
              (Some (Statement_toIR exampleConfig
                       (ExpStatement (Some (OtherExp 2 false)))))
              initialState) as [irs'|] eqn:E;
    [| vm_compute in E; discriminate E].
  destruct (C2_try_finally exampleConfig _ _ initialState irs'
              (Statement_toIR_Balanced exampleConfig
                 (ExpStatement (Some (OtherExp 1 false))))
              (Statement_toIR_Balanced exampleConfig
                 (ExpStatement (Some (OtherExp 2 false))))
              ltac:(vm_compute; lia) E)
    as (s_f & s_b & _ & _ & _ & _ & Hpop & _).
  exists irs'. split; [reflexivity | exact Hpop].
Defined.
(** ** try/catch *)

Lemma bind_ext_Ok {A B} (m : Result A) (k k' : A -> Result B) :
  (forall a, m = Ok a -> k a = k' a) -> bind m k = bind m k'.
Proof. intros H. destruct m; simpl; [apply H; reflexivity | reflexivity]. Qed.








(** ** switch: the choice of the strategy and the comparison chain *)

Lemma evalRuntimeLabels_fold cases flag s :
  fst (fold_left
         (fun '(useSwitchInst, irs) cs =>
            if isRuntimeLabel (cs_exp cs) then
              let '(v, irs) := toElemDtor (cs_exp cs) irs in
              (false, set_llvmIdx (cs_id cs) (Some v) irs)
            else (useSwitchInst, irs))
         cases (flag, s))
  = flag && forallb isConstantLabel cases.
Proof.
  revert flag s. induction cases as [|cs cases IH]; intros flag s; simpl.
  - rewrite andb_true_r. reflexivity.
  - unfold isConstantLabel at 1.
    destruct (isRuntimeLabel (cs_exp cs)); simpl.
    + rewrite IH. rewrite andb_false_r. reflexivity.
    + rewrite IH. reflexivity.
Qed.

Lemma evalRuntimeLabels_flag cases s :
  fst (evalRuntimeLabels cases s) = forallb isConstantLabel cases.
Proof. unfold evalRuntimeLabels. apply evalRuntimeLabels_fold. Qed.

Lemma lastOf_blockInstrs s b :
  lastOf (blocks s) b = last (blockInstrs s b).
Proof. unfold lastOf, blockInstrs. destruct (blocks s !! b); reflexivity. Qed.

Lemma lastOf_ext bs bs' b : bs' !! b = bs !! b -> lastOf bs' b = lastOf bs b.
Proof. unfold lastOf. intros ->. reflexivity. Qed.

Lemma runChain_leadsTo bs eval stop t target fuel :
  leadsTo bs stop t target -> stop target = true -> 2 <= fuel ->
  runChain fuel bs eval stop t = Some target.
Proof.
  intros [-> | [Hs Hl]] Ht Hf.
  - destruct fuel as [|f]; [lia |]. simpl. rewrite Ht. reflexivity.
  - destruct fuel as [|[|f]]; try lia.
    cbn [runChain]. rewrite Hs.
    unfold lastOf in Hl. destruct (bs !! t) as [blk|]; [| discriminate Hl].
    cbn [fmap option_fmap option_map]. rewrite Hl. rewrite Ht. reflexivity.
Qed.

Lemma runChain_chainFrom bs eval stop condVal labels fallback :
  stop fallback = true ->
  Forall (fun l => stop (snd l) = true) labels ->
  forall b fuel,
    chainFrom bs stop condVal b labels fallback ->
    2 * length labels + 3 <= fuel ->
    runChain fuel bs eval stop b
    = Some (firstMatch eval condVal labels fallback).
Proof.
  intros Hfb Hl. induction Hl as [|[idx body] rest Hb _ IH];
    intros b fuel Hc Hf.
  - destruct Hc as (Hs & t & Hlast & Hlead).
    destruct fuel as [|f]; [simpl in Hf; lia |].
    cbn [runChain firstMatch]. rewrite Hs.
    unfold lastOf in Hlast.
    destruct (bs !! b) as [blk|]; [| discriminate Hlast].
    cbn [fmap option_fmap option_map]. rewrite Hlast.
    apply runChain_leadsTo; [exact Hlead | exact Hfb | simpl in Hf; lia].
  - destruct Hc as (Hs & t & next & Hlast & Hlead & Hrest).
    destruct fuel as [|f]; [simpl in Hf; lia |].
    cbn [runChain firstMatch]. rewrite Hs.
    unfold lastOf in Hlast.
    destruct (bs !! b) as [blk|]; [| discriminate Hlast].
    cbn [fmap option_fmap option_map]. rewrite Hlast.
    destruct (Z.eqb (eval idx) (eval condVal)).
    + apply runChain_leadsTo; [exact Hlead | exact Hb |].
      simpl in Hf. lia.
    + apply IH; [exact Hrest |]. simpl in Hf. simpl. lia.
Qed.

Lemma caseLabels_ext cases s s' :
  caseStates s' = caseStates s -> caseLabels cases s' = caseLabels cases s.
Proof.
  intros E. unfold caseLabels, caseState. rewrite E. reflexivity.
Qed.

Lemma lastOf_insertAtEnd_eq i bb s :
  bb < length (blocks s) -> lastOf (blocks (insertAtEnd i bb s)) bb = Some i.
Proof.
  intros Hlt. rewrite lastOf_blockInstrs, blockInstrs_insertAtEnd_eq by exact Hlt.
  apply last_snoc.
Qed.

Lemma lookup_insertAtEnd_ne i bb s b :
  b <> bb -> blocks (insertAtEnd i bb s) !! b = blocks s !! b.
Proof. intros Hne. apply list_lookup_alter_ne. congruence. Qed.

Lemma lookup_Create_old name s b :
  b < length (blocks s) ->
  blocks (snd (BasicBlock_Create name s)) !! b = blocks s !! b.
Proof. intros Hlt. simpl. apply lookup_app_l. exact Hlt. Qed.

Lemma length_Create name s :
  length (blocks (snd (BasicBlock_Create name s))) = S (length (blocks s)).
Proof. simpl. rewrite length_app. simpl. lia. Qed.

(** One round of the comparison chain: the state the next round starts
    in. *)
Lemma compareChain_step cfg condVal cs rest s s' idx body :
  llvmIdx (caseState (cs_id cs) s) = Some idx ->
  bodyBB (caseState (cs_id cs) s) = Some body ->
  scopeValid s ->
  compareChain cfg condVal (cs :: rest) s = Ok s' ->
  exists s2 target,
    compareChain cfg condVal rest s2 = Ok s' /\
    caseStates s2 = caseStates s /\
    scopebb s2 = length (blocks s) /\
    length (blocks s) < length (blocks s2) /\
    (forall b, b < length (blocks s) -> b <> scopebb s ->
               blocks s2 !! b = blocks s !! b) /\
    lastOf (blocks s2) (scopebb s)
    = Some (CondBr (VICmpEq idx condVal) target (length (blocks s))) /\
    (target = body \/
     (length (blocks s) < target < length (blocks s2) /\
      lastOf (blocks s2) target = Some (Br body))).
Proof.
  intros Hi Hb Hv H. cbn [compareChain] in H. rewrite Hi, Hb in H.
  set (sA := emit (ICmp idx condVal) s) in *.
  assert (HlA : length (blocks sA) = length (blocks s))
    by apply length_blocks_insertAtEnd.
  set (sB := snd (BasicBlock_Create "checkcase" sA)).
  assert (HlB : length (blocks sB) = S (length (blocks s)))
    by (subst sB; rewrite length_Create, HlA; reflexivity).
  destruct (genInstrProf cfg).
  - (* with a counter block in front of the case body *)
    set (sC := snd (BasicBlock_Create "casecntr" sB)).
    set (sD := insertAtEnd (Br body) (length (blocks sB))
                 (hook PGO_emitCounterIncrement
                    (setScope (length (blocks sB)) sC))).
    set (sF := insertAtEnd
                 (CondBr (VICmpEq idx condVal) (length (blocks sB))
                    (length (blocks sA)))
                 (scopebb s) (setScope (scopebb s) sD)).
    exists (setScope (length (blocks sA)) (hook PGO_branchWeights sF)),
      (length (blocks sB)).
    assert (HlC : length (blocks sC) = S (S (length (blocks s))))
      by (subst sC; rewrite length_Create, HlB; reflexivity).
    assert (HlD : length (blocks sD) = S (S (length (blocks s))))
      by (subst sD; rewrite length_blocks_insertAtEnd; exact HlC).
    assert (HlF : length (blocks sF) = S (S (length (blocks s))))
      by (subst sF; rewrite length_blocks_insertAtEnd; exact HlD).
    unfold scopeValid in Hv.
    split; [exact H |]. split; [reflexivity |]. split; [exact HlA |].
    split; [change (length (blocks s) < length (blocks sF)); lia |].
    split; [| split].
    + intros b Hlt Hne.
      change (blocks sF !! b = blocks s !! b). subst sF.
      rewrite lookup_insertAtEnd_ne by exact Hne.
      change (blocks sD !! b = blocks s !! b). subst sD.
      rewrite lookup_insertAtEnd_ne by lia.
      change (blocks sC !! b = blocks s !! b). subst sC.
      rewrite lookup_Create_old by lia. subst sB.
      rewrite lookup_Create_old by lia. subst sA.
      apply lookup_insertAtEnd_ne. exact Hne.
    + change (lastOf (blocks sF) (scopebb s)
              = Some (CondBr (VICmpEq idx condVal) (length (blocks sB))
                        (length (blocks s)))).
      rewrite <- HlA. subst sF. apply lastOf_insertAtEnd_eq.
      change (scopebb s < length (blocks sD)). lia.
    + right. split; [change (length (blocks s) < length (blocks sB)
                             < length (blocks sF)); lia |].
      change (lastOf (blocks sF) (length (blocks sB)) = Some (Br body)).
      subst sF. rewrite (lastOf_ext (blocks (setScope (scopebb s) sD)))
        by (apply lookup_insertAtEnd_ne; lia).
      change (lastOf (blocks sD) (length (blocks sB)) = Some (Br body)).
      subst sD. apply lastOf_insertAtEnd_eq.
      change (length (blocks sB) < length (blocks sC)). lia.
  - set (sF := insertAtEnd
                 (CondBr (VICmpEq idx condVal) body (length (blocks sA)))
                 (scopebb s) sB).
    exists (setScope (length (blocks sA)) (hook PGO_branchWeights sF)), body.
    assert (HlF : length (blocks sF) = S (length (blocks s)))
      by (subst sF; rewrite length_blocks_insertAtEnd; exact HlB).
    unfold scopeValid in Hv.
    split; [exact H |]. split; [reflexivity |]. split; [exact HlA |].
    split; [change (length (blocks s) < length (blocks sF)); lia |].
    split; [| split; [| left; reflexivity]].
    + intros b Hlt Hne.
      change (blocks sF !! b = blocks s !! b). subst sF.
      rewrite lookup_insertAtEnd_ne by exact Hne. subst sB.
      rewrite lookup_Create_old by lia. subst sA.
      apply lookup_insertAtEnd_ne. exact Hne.
    + change (lastOf (blocks sF) (scopebb s)
              = Some (CondBr (VICmpEq idx condVal) body (length (blocks s)))).
      rewrite <- HlA. subst sF. apply lastOf_insertAtEnd_eq. lia.
Qed.

Lemma compareChain_fails cfg condVal cs rest s :
  llvmIdx (caseState (cs_id cs) s) = None \/
  bodyBB (caseState (cs_id cs) s) = None ->
  exists e, compareChain cfg condVal (cs :: rest) s = Aborted e.
Proof.
  intros Hn. cbn [compareChain].
  destruct (llvmIdx (caseState (cs_id cs) s)) as [idx|],
           (bodyBB (caseState (cs_id cs) s)) as [body|];
    try (eexists; reflexivity).
  destruct Hn as [Hn | Hn]; discriminate Hn.
Qed.

Lemma compareChain_chain cfg condVal cases :
  forall s s',
    compareChain cfg condVal cases s = Ok s' ->
    scopeValid s ->
    caseStates s' = caseStates s /\
    length (blocks s) <= length (blocks s') /\
    scopeValid s' /\
    (scopebb s' = scopebb s \/ length (blocks s) <= scopebb s') /\
    (forall b, b < length (blocks s) -> b <> scopebb s ->
               blocks s' !! b = blocks s !! b) /\
    length (caseLabels cases s) = length cases /\
    forall bs stop fallback,
      (forall b, b < length (blocks s') -> b <> scopebb s' ->
                 bs !! b = blocks s' !! b) ->
      stop (scopebb s) = false ->
      (forall b, length (blocks s) <= b -> stop b = false) ->
      (exists t, lastOf bs (scopebb s') = Some (Br t) /\
                 leadsTo bs stop t fallback) ->
      chainFrom bs stop condVal (scopebb s) (caseLabels cases s) fallback.
Proof.
  induction cases as [|cs rest IH]; intros s s' H Hv.
  - apply Ok_inj in H. subst s'.
    split; [reflexivity |]. split; [lia |]. split; [exact Hv |].
    split; [left; reflexivity |]. split; [intros; reflexivity |].
    split; [reflexivity |].
    intros bs stop fallback _ Hs _ Htail. split; [exact Hs | exact Htail].
  - destruct (llvmIdx (caseState (cs_id cs) s)) as [idx|] eqn:Hi;
      [| destruct (compareChain_fails cfg condVal cs rest s (or_introl Hi))
           as (e & E); rewrite E in H; discriminate H].
    destruct (bodyBB (caseState (cs_id cs) s)) as [body|] eqn:Hb;
      [| destruct (compareChain_fails cfg condVal cs rest s (or_intror Hb))
           as (e & E); rewrite E in H; discriminate H].
    destruct (compareChain_step cfg condVal cs rest s s' idx body Hi Hb Hv H)
      as (s2 & target & H2 & Hcs2 & Hsc2 & Hl2 & Hfr2 & Hlast & Htgt).
    assert (Hv2 : scopeValid s2) by (unfold scopeValid; lia).
    destruct (IH s2 s' H2 Hv2)
      as (Hcs & Hlen & Hv' & Hpos & Hfr & Hll & Hchain).
    unfold scopeValid in Hv.
    assert (Hpos' : length (blocks s) <= scopebb s')
      by (destruct Hpos; lia).
    split; [congruence |]. split; [lia |]. split; [exact Hv' |].
    split; [right; exact Hpos' |]. split; [| split].
    + intros b Hlt Hne. rewrite Hfr by lia. apply Hfr2; assumption.
    + cbn [caseLabels omap list_omap]. fold (caseLabels rest s).
      rewrite Hi, Hb. cbn [length].
      rewrite <- (caseLabels_ext rest s s2) by exact Hcs2.
      rewrite Hll. reflexivity.
    + intros bs stop fallback Hbs Hs Hnew Htail.
      cbn [caseLabels omap list_omap]. fold (caseLabels rest s).
      rewrite Hi, Hb.
      assert (Hcur : lastOf bs (scopebb s)
                     = Some (CondBr (VICmpEq idx condVal) target
                               (length (blocks s)))).
      { rewrite <- Hlast. transitivity (lastOf (blocks s') (scopebb s)).
        - apply lastOf_ext. apply Hbs; lia.
        - apply lastOf_ext. apply Hfr; lia. }
      split; [exact Hs |]. exists target, (length (blocks s)).
      split; [exact Hcur |]. split.
      * destruct Htgt as [-> | [Hrange Hbr]]; [left; reflexivity |].
        right. split; [apply Hnew; lia |].
        rewrite <- Hbr. transitivity (lastOf (blocks s') target).
        -- apply lastOf_ext. apply Hbs; [lia |].
           destruct Hpos as [E | Hge]; lia.
        -- apply lastOf_ext. apply Hfr; lia.
      * rewrite <- (caseLabels_ext rest s s2) by exact Hcs2.
        rewrite <- Hsc2. apply Hchain.
        -- exact Hbs.
        -- apply Hnew. lia.
        -- intros b Hb'. apply Hnew. lia.
        -- exact Htail.
Qed.

Lemma runChain_Br fuel bs eval stop b t :
  stop b = false -> lastOf bs b = Some (Br t) ->
  runChain (S fuel) bs eval stop b = runChain fuel bs eval stop t.
Proof.
  intros Hs Hl. cbn [runChain]. rewrite Hs. unfold lastOf in Hl.
  destruct (bs !! b) as [blk|]; [| discriminate Hl].
  cbn [fmap option_fmap option_map]. rewrite Hl. reflexivity.
Qed.

Lemma emitCompareBranches_run cfg condition cases defbb endbb s s' eval stop :
  emitCompareBranches cfg condition cases defbb endbb s = Ok s' ->
  scopeValid s ->
  stop (scopebb s) = false ->
  (forall b, length (blocks s) <= b -> stop b = false) ->
  stop (default endbb defbb) = true ->
  Forall (fun l => stop (snd l) = true) (caseLabels cases s) ->
  length (caseLabels cases s) = length cases /\
  runChain (2 * length cases + 4) (blocks s') eval stop (scopebb s)
  = Some (firstMatch eval (VExp condition) (caseLabels cases s)
            (default endbb defbb)).
Proof.
  intros H Hv Hcur Hnew Hfb Hbodies. unfold emitCompareBranches in H.
  lazy beta iota zeta delta [BasicBlock_Create toElemDtor] in H.
  set (sA := emit (IExp condition) s) in *.
  assert (HlA : length (blocks sA) = length (blocks s))
    by apply length_blocks_insertAtEnd.
  set (sB := set_blocks
               (fun bs => bs ++ [{| bbName := "checkcase"; bbInstrs := [] |}])
               sA) in *.
  assert (HlB : length (blocks sB) = S (length (blocks s)))
    by (simpl; rewrite length_app, length_alter; simpl; lia).
  set (sC := insertAtEnd (Br (length (blocks sA))) (scopebb sB) sB) in *.
  assert (HlC : length (blocks sC) = S (length (blocks s)))
    by (subst sC; rewrite length_blocks_insertAtEnd; exact HlB).
  unfold scopeValid in Hv.
  assert (HcurC : lastOf (blocks sC) (scopebb s)
                  = Some (Br (length (blocks s)))).
  { rewrite <- HlA. subst sC. apply lastOf_insertAtEnd_eq.
    change (scopebb s < length (blocks sB)). lia. }
  assert (Hsplit : exists sD dj,
             (irs <-- compareChain cfg (VExp condition) cases
                        (setScope (length (blocks sA)) sD) ;;
              Ok (insertAtEnd (Br dj) (scopebb irs) irs)) = Ok s' /\
             caseStates sD = caseStates s /\
             length (blocks s) < length (blocks sD) /\
             lastOf (blocks sD) (scopebb s) = Some (Br (length (blocks s))) /\
             (dj = default endbb defbb \/
              (length (blocks s) < dj < length (blocks sD) /\
               lastOf (blocks sD) dj = Some (Br (default endbb defbb))))).
  { destruct (genInstrProf cfg).
    - set (sC' := set_blocks
                    (fun bs => bs ++ [{| bbName := "defaultcntr";
                                         bbInstrs := [] |}]) sC) in *.
      eexists (insertAtEnd (Br (default endbb defbb)) (length (blocks sC))
                 (hook PGO_emitCounterIncrement
                    (setScope (length (blocks sC)) sC'))),
        (length (blocks sC)).
      assert (HlC' : length (blocks sC') = S (S (length (blocks s))))
        by (subst sC'; simpl; rewrite length_app; simpl;
            change (length (alter _ _ _)) with (length (blocks sC)); lia).
      split; [exact H |]. split; [reflexivity |].
      split; [rewrite length_blocks_insertAtEnd;
              change (length (blocks s) < length (blocks sC')); lia |].
      split.
      + rewrite <- HcurC. apply lastOf_ext.
        rewrite lookup_insertAtEnd_ne by lia.
        change (blocks sC' !! scopebb s = blocks sC !! scopebb s).
        apply lookup_app_l. lia.
      + right. split.
        * rewrite length_blocks_insertAtEnd.
          change (length (blocks s) < length (blocks sC)
                  < length (blocks sC')). lia.
        * apply lastOf_insertAtEnd_eq.
          change (length (blocks sC) < length (blocks sC')). lia.
    - exists sC, (default endbb defbb).
      split; [exact H |]. split; [reflexivity |]. split; [lia |].
      split; [exact HcurC | left; reflexivity]. }
  clear H. destruct Hsplit as (sD & dj & H & HcsD & HlD & HcurD & Hdj).
  inv_bind H. rename irs into sG. apply Ok_inj in H. subst s'.
  set (sE := setScope (length (blocks sA)) sD) in *.
  assert (HvE : scopeValid sE)
    by (unfold scopeValid; change (length (blocks sA) < length (blocks sD));
        lia).
  destruct (compareChain_chain cfg (VExp condition) cases sE sG Hstep HvE)
    as (Hcs & Hlen & HvG & Hpos & Hfr & Hll & Hchain).
  change (scopebb sE) with (length (blocks sA)) in *.
  change (length (blocks sE)) with (length (blocks sD)) in *.
  change (blocks sE) with (blocks sD) in *.
  rewrite HlA in *.
  assert (HposG : length (blocks s) <= scopebb sG) by (destruct Hpos; lia).
  assert (Hlab : caseLabels cases sE = caseLabels cases s)
    by (apply caseLabels_ext; exact HcsD).
  rewrite Hlab in *.
  split; [exact Hll |].
  replace (2 * length cases + 4) with (S (2 * length cases + 3)) by lia.
  rewrite (runChain_Br _ _ _ _ _ (length (blocks s)) Hcur).
  - apply runChain_chainFrom; [exact Hfb | exact Hbodies | | lia].
    apply Hchain.
    + intros b Hlt Hne. apply lookup_insertAtEnd_ne. exact Hne.
    + apply Hnew. lia.
    + intros b Hb. apply Hnew. lia.
    + exists dj. split; [apply lastOf_insertAtEnd_eq; exact HvG |].
      destruct Hdj as [-> | [Hrange Hbr]]; [left; reflexivity |].
      right. split; [apply Hnew; lia |].
      rewrite <- Hbr. transitivity (lastOf (blocks sG) dj).
      * apply lastOf_ext. apply lookup_insertAtEnd_ne.
        destruct Hpos as [E | Hge]; lia.
      * apply lastOf_ext. apply Hfr; lia.
  - rewrite <- HcurD. transitivity (lastOf (blocks sG) (scopebb s)).
    + apply lastOf_ext. apply lookup_insertAtEnd_ne. lia.
    + apply lastOf_ext. apply Hfr; lia.
Qed.

Lemma length_switchCases cases s sc :
  switchCases cases s = Ok sc -> length sc = length cases.
Proof.
  revert sc. induction cases as [|cs cases IH]; intros sc H;
    cbn [switchCases] in H.
  - apply Ok_inj in H. subst sc. reflexivity.
  - destruct (isaConstantInt _); [| discriminate H].
    destruct (bodyBB _); [| discriminate H].
    inv_bind H. apply Ok_inj in H. subst sc. simpl.
    rewrite (IH _ Hstep). reflexivity.
Qed.

Lemma length_switchCasesInstr cases :
  forall s r, switchCasesInstr cases s = Ok r -> length (fst r) = length cases.
Proof.
  induction cases as [|cs cases IH]; intros s r H;
    cbn [switchCasesInstr] in H.
  - apply Ok_inj in H. subst r. reflexivity.
  - lazy beta iota zeta delta [BasicBlock_Create] in H.
    destruct (isaConstantInt _); [| discriminate H].
    destruct (bodyBB _); [| discriminate H].
    inv_bind H. apply Ok_inj in H. subst r. simpl.
    rewrite (IH _ _ Hstep). reflexivity.
Qed.

(** The controlling value of the switch instruction is computed in the
    current block. *)
Lemma switchCondition_keeps condition (isintegral : bool) ty cases s
    (r : LLValue * IRState) :
  (if isintegral then Ok (toElemDtor condition s)
   else
     caseArray <-- buildCaseArray 0 cases ;;
     r0 <-- assignIndices 0 (sortCases caseArray) cases s ;;
     call_string_switch_runtime (VStringTable (fst r0)) ty condition (snd r0))
  = Ok r ->
  scopebb (snd r) = scopebb s /\
  length (blocks (snd r)) = length (blocks s).
Proof.
  intros H. destruct isintegral.
  - apply Ok_inj in H. subst r. split; [reflexivity |].
    apply length_blocks_insertAtEnd.
  - inv_bind H. inv_bind H.
    apply assignIndices_SameGraph in Hstep0.
    destruct Hstep0 as (Eb & Es & _).
    unfold call_string_switch_runtime in H. inv_bind H.
    apply Ok_inj in H. subst r. split.
    + rewrite <- Es. reflexivity.
    + rewrite <- Eb. simpl. rewrite !length_alter. reflexivity.
Qed.

Lemma emitSwitchInst_last cfg condition isintegral ty cases defbb endbb
    s s' :
  emitSwitchInst cfg condition isintegral ty cases defbb endbb s = Ok s' ->
  scopeValid s ->
  exists cv d sc,
    lastOf (blocks s') (scopebb s) = Some (Switch cv d sc) /\
    length sc = length cases /\
    (genInstrProf cfg = false -> d = default endbb defbb).
Proof.
  intros H Hv. unfold emitSwitchInst in H. inv_bind H.
  destruct (switchCondition_keeps _ _ _ _ _ _ Hstep) as (Hs1 & Hl1).
  clear Hstep. destruct irs as [condVal s1]. cbn [fst snd] in *.
  inv_bind H. apply Ok_inj in H. subst s'.
  unfold scopeValid in Hv.
  destruct (genInstrProf cfg); cbn [negb] in Hstep.
  - lazy beta iota zeta delta [BasicBlock_Create] in Hstep.
    inv_bind Hstep. rename irs0 into r. apply Ok_inj in Hstep. subst irs.
    pose proof (length_switchCasesInstr _ _ _ Hstep0) as Hlen.
    apply switchCasesInstr_Grows in Hstep0. destruct Hstep0 as (G & _).
    assert (Hlt : scopebb s1 < length (blocks (snd r))).
    { eapply Nat.lt_le_trans; [| exact G]. simpl.
      rewrite length_alter, length_app. simpl. lia. }
    exists condVal, (length (blocks s1)), (fst r).
    split; [| split; [exact Hlen | discriminate]].
    rewrite <- Hs1.
    exact (lastOf_insertAtEnd_eq
             (Switch condVal (length (blocks s1)) (fst r)) (scopebb s1)
             (snd r) Hlt).
  - inv_bind Hstep. rename irs0 into sc. apply Ok_inj in Hstep. subst irs.
    pose proof (length_switchCases _ _ _ Hstep0) as Hlen.
    assert (Hlt : scopebb s1 < length (blocks s1)) by lia.
    exists condVal, (default endbb defbb), sc.
    split; [| split; [exact Hlen | reflexivity]].
    rewrite <- Hs1.
    exact (lastOf_insertAtEnd_eq
             (Switch condVal (default endbb defbb) sc) (scopebb s1) s1 Hlt).
Qed.

(** ** Case and default statements *)

Lemma caseState_set_bodyBB_eq id b s :
  caseState id (set_bodyBB id b s)
  = {| bodyBB := b; llvmIdx := llvmIdx (caseState id s) |}.
Proof.
  unfold caseState, set_bodyBB. simpl. rewrite lookup_insert_eq. reflexivity.
Qed.

Lemma caseState_set_bodyBB_ne id id' b s :
  id' <> id -> caseState id' (set_bodyBB id b s) = caseState id' s.
Proof.
  intros Hne. unfold caseState, set_bodyBB. simpl.
  rewrite lookup_insert_ne by congruence. reflexivity.
Qed.

(** The branch a case or default statement adds to the block registered
    for it so far. *)
Lemma link_step (nbb : BB) (obb : option BB) s :
  let Y := match obb with
           | Some bb =>
               if blockTerminated s bb then s
               else insertAtEnd (Br nbb) bb s
           | None => s
           end in
  scopebb Y = scopebb s /\ length (blocks Y) = length (blocks s) /\
  caseStates Y = caseStates s /\
  (forall bb, obb = Some bb -> bb < length (blocks s) ->
              blockTerminated s bb = false ->
              lastOf (blocks Y) bb = Some (Br nbb)) /\
  (scopereturned s = false ->
   scopereturned Y = false \/
   lastOf (blocks Y) (scopebb s) = Some (Br nbb)).
Proof.
  destruct obb as [bb|]; cbn zeta.
  - destruct (blockTerminated s bb) eqn:Ht.
    + repeat split; auto. intros b [= <-] _ Hb. congruence.
    + split; [reflexivity |]. split.
      { unfold insertAtEnd. simpl. apply length_alter. }
      split; [reflexivity |]. split.
      * intros b [= <-] Hlt _. apply lastOf_insertAtEnd_eq. exact Hlt.
      * intros Hr.
        destruct (Nat.eq_dec bb (scopebb s)) as [-> | Hne].
        -- destruct (Nat.lt_ge_cases (scopebb s) (length (blocks s)))
             as [Hlt | Hge].
           ++ right. apply lastOf_insertAtEnd_eq. exact Hlt.
           ++ left. unfold scopereturned, blockTerminated, insertAtEnd.
              simpl. rewrite list_lookup_alter_eq.
              rewrite (lookup_ge_None_2 _ _ Hge). reflexivity.
        -- left. unfold scopereturned.
           change (scopebb (insertAtEnd (Br nbb) bb s)) with (scopebb s).
           rewrite (blockTerminated_ext s (insertAtEnd (Br nbb) bb s));
             [exact Hr |].
           apply blockInstrs_insertAtEnd_ne. exact Hne.
  - repeat split; auto. intros bb [=].
Qed.

Lemma branchIfOpen_keeps_link t s b :
  lastOf (blocks s) b = Some (Br t) ->
  lastOf (blocks (branchIfOpen t s)) b = Some (Br t).
Proof.
  intros Hl. unfold branchIfOpen.
  destruct (scopereturned s) eqn:Hr; [exact Hl |].
  destruct (Nat.eq_dec b (scopebb s)) as [-> | Hne].
  - exfalso.
    assert (blockTerminated s (scopebb s) = true) as Ht.
    { apply blockTerminated_spec. exists (Br t).
      rewrite <- lastOf_blockInstrs. split; [exact Hl | reflexivity]. }
    unfold scopereturned in Hr. congruence.
  - rewrite <- Hl. apply lastOf_ext. unfold insertAtEnd. simpl.
    apply list_lookup_alter_ne. congruence.
Qed.

Lemma branchIfOpen_links t s :
  scopeValid s ->
  scopereturned s = false \/ lastOf (blocks s) (scopebb s) = Some (Br t) ->
  lastOf (blocks (branchIfOpen t s)) (scopebb s) = Some (Br t).
Proof.
  intros Hv [Hr | Hl].
  - unfold branchIfOpen. rewrite Hr. apply lastOf_insertAtEnd_eq. exact Hv.
  - apply branchIfOpen_keeps_link. exact Hl.
Qed.

Lemma caseStates_branchIfOpen t s :
  caseStates (branchIfOpen t s) = caseStates s.
Proof. unfold branchIfOpen. destruct (scopereturned s); reflexivity. Qed.

Lemma caseState_ext id s s' :
  caseStates s' = caseStates s -> caseState id s' = caseState id s.
Proof. unfold caseState. intros ->. reflexivity. Qed.

Lemma scopereturned_ext s s' :
  scopebb s' = scopebb s -> blocks s' = blocks s ->
  scopereturned s' = scopereturned s.
Proof.
  unfold scopereturned, blockTerminated. intros -> ->. reflexivity.
Qed.

Lemma scopereturned_Create name s :
  scopereturned (snd (BasicBlock_Create name s)) = scopereturned s.
Proof.
  unfold scopereturned. apply blockTerminated_ext. apply blockInstrs_Create.
Qed.

Lemma blockTerminated_Create name s b :
  blockTerminated (snd (BasicBlock_Create name s)) b = blockTerminated s b.
Proof. apply blockTerminated_ext. apply blockInstrs_Create. Qed.

Lemma lookup_branchIfOpen_ne t s b :
  b <> scopebb s -> blocks (branchIfOpen t s) !! b = blocks s !! b.
Proof.
  intros Hne. unfold branchIfOpen. destruct (scopereturned s); [reflexivity |].
  unfold insertAtEnd. simpl. apply list_lookup_alter_ne. congruence.
Qed.

Lemma lookup_link_step_ne (nbb : BB) (obb : option BB) s b :
  obb <> Some b ->
  blocks match obb with
         | Some bb =>
             if blockTerminated s bb then s else insertAtEnd (Br nbb) bb s
         | None => s
         end !! b
  = blocks s !! b.
Proof.
  intros Hne. destruct obb as [bb|]; [| reflexivity].
  destruct (blockTerminated s bb); [reflexivity |].
  unfold insertAtEnd. simpl. apply list_lookup_alter_ne. congruence.
Qed.

Lemma default_entry stmt (gototarget : bool) bb irs :
  bodyBB (caseState stmt irs) = Some bb ->
  let n0 := length (blocks irs) in
  let s1 := snd (BasicBlock_Create "default" (hook PGO_setCurrentStmt irs)) in
  let Y := match Some bb with
           | Some bb =>
               if blockTerminated s1 bb then s1
               else insertAtEnd (Br n0) bb s1
           | None => s1
           end in
  let Z := set_bodyBB stmt (Some n0) Y in
  let E0 := hook COV_LinecountInc
              (hook DBG_EmitBlockStart (setScope n0 (branchIfOpen n0 Z))) in
  let E := if gototarget then hook PGO_emitCounterIncrement E0 else E0 in
  forall h : Lower,
    visit_DefaultStatement stmt gototarget h irs
    = (irs <-- h E ;; Ok (hook DBG_EmitBlockEnd irs)).
Proof.
  intros Hb n0 s1 Y Z E0 E h. unfold visit_DefaultStatement.
  change (caseState stmt (hook PGO_setCurrentStmt irs))
    with (caseState stmt irs).
  rewrite Hb. reflexivity.
Qed.

Lemma evalRuntimeLabels_length cases s :
  length (blocks (snd (evalRuntimeLabels cases s))) = length (blocks s).
Proof.
  unfold evalRuntimeLabels. generalize true as u. revert s.
  induction cases as [|cs cases IH]; intros s u; simpl; [reflexivity |].
  destruct (isRuntimeLabel (cs_exp cs)); [| apply IH].
  match goal with |- context [fold_left ?f cases (?u1, ?s1)] =>
    etransitivity; [exact (IH s1 u1) |] end.
  red_all. apply length_alter.
Qed.

(** The parts of the lowering of a switch statement: the checks of the
    scratch state, the body, the strategy and the reset of the scratch
    state. *)
Lemma switch_parts cfg stmt condition isintegral ty cases sdefault irs :
  let n0 := length (blocks irs) in
  let endbb := n0 + 1 in
  let defbb := match sdefault with Some _ => Some (n0 + 2) | None => None end in
  let s0 := hook COV_LinecountInc
              (hook DBG_EmitStopPoint (hook PGO_setCurrentStmt irs)) in
  let s1 := snd (evalRuntimeLabels cases s0) in
  let s2 := hook PGO_emitCounterIncrement
              (setScope endbb
                 (snd (BasicBlock_Create "switchend"
                         (snd (BasicBlock_Create "switchbody" s1))))) in
  let s3 := match sdefault with
            | Some d =>
                set_bodyBB d (Some (n0 + 2))
                  (snd (BasicBlock_Create "default" s2))
            | None => s2
            end in
  forall body : Lower,
    visit_SwitchStatement cfg stmt condition isintegral ty cases sdefault
      body irs
    = (s_in <--
         (_ <-- assert (forallb (fun cs => caseIsReset (cs_id cs) s0) cases)
                  "cs->bodyBB == nullptr && cs->llvmIdx == nullptr" ;;
          _ <-- assert
                  match sdefault with
                  | Some d => bool_decide (bodyBB (caseState d s0) = None)
                  | None => true
                  end "stmt->sdefault->bodyBB == nullptr" ;;
          Ok (pushBreakTarget stmt endbb (setScope n0 s3))) ;;
       s_b <-- body s_in ;;
       s_post <--
         (if forallb isConstantLabel cases
          then emitSwitchInst cfg condition isintegral ty cases defbb endbb
                 (setScope (scopebb irs)
                    (branchIfOpen endbb (popBreakTarget s_b)))
          else emitCompareBranches cfg condition cases defbb endbb
                 (setScope (scopebb irs)
                    (branchIfOpen endbb (popBreakTarget s_b)))) ;;
       Ok (let s := foldr (fun cs => resetCase (cs_id cs))
                      (setScope endbb s_post) cases in
           match sdefault with
           | Some d => set_bodyBB d None s
           | None => s
           end)).
Proof.
  intros n0 endbb defbb s0 s1 s2 s3.
  intros body. unfold visit_SwitchStatement. cbv zeta. fold s0.
    destruct (assert (forallb (fun cs => caseIsReset (cs_id cs) s0) cases) _)
      as [u1|]; [| reflexivity].
    cbn [bind].
    destruct (assert match sdefault with
                     | Some d => bool_decide (bodyBB (caseState d s0) = None)
                     | None => true
                     end _) as [u2|]; [| reflexivity].
    cbn [bind].
    pose proof (evalRuntimeLabels_flag cases s0) as Hflag.
    pose proof (evalRuntimeLabels_length cases s0) as Hlen.
    change (length (blocks s0)) with n0 in Hlen.
    fold s1 in Hlen. subst s1.
    destruct (evalRuntimeLabels cases s0) as [u s1]. cbn [fst snd] in *.
    subst u.
    subst s3 s2.
    lazy beta iota zeta delta [BasicBlock_Create]. cbn [fst snd].
    assert (E_end : length (blocks (set_blocks
                                      (fun bs => bs ++ [{| bbName := "switchbody";
                                                           bbInstrs := [] |}])
                                      s1)) = endbb).
    { simpl. rewrite length_app, Hlen. reflexivity. }
    rewrite !E_end, !Hlen.
    change (scopebb s0) with (scopebb irs).
    destruct sdefault as [d|].
    - lazy beta iota zeta delta [BasicBlock_Create]. cbn [fst snd].
      assert (E_def : length (blocks (hook PGO_emitCounterIncrement
                        (setScope endbb
                           (set_blocks
                              (fun bs => bs ++ [{| bbName := "switchend";
                                                   bbInstrs := [] |}])
                              (set_blocks
                                 (fun bs => bs ++ [{| bbName := "switchbody";
                                                      bbInstrs := [] |}])
                                 s1))))) = n0 + 2).
      { simpl. rewrite !length_app, Hlen. simpl. lia. }
      rewrite !E_def. reflexivity.
    - reflexivity.
Qed.

(** The state in which the body of a switch is lowered. *)
Lemma switch_entry_facts stmt cases sdefault irs :
  let n0 := length (blocks irs) in
  let endbb := n0 + 1 in
  let fallback := match sdefault with Some _ => n0 + 2 | None => n0 + 1 end in
  let s0 := hook COV_LinecountInc
              (hook DBG_EmitStopPoint (hook PGO_setCurrentStmt irs)) in
  let s1 := snd (evalRuntimeLabels cases s0) in
  let s2 := hook PGO_emitCounterIncrement
              (setScope endbb
                 (snd (BasicBlock_Create "switchend"
                         (snd (BasicBlock_Create "switchbody" s1))))) in
  let s3 := match sdefault with
            | Some d =>
                set_bodyBB d (Some (n0 + 2))
                  (snd (BasicBlock_Create "default" s2))
            | None => s2
            end in
  let s_in := pushBreakTarget stmt endbb (setScope n0 s3) in
  scopebb s_in = n0 /\
  length (blocks s_in) = S fallback /\
  (forall b, n0 <= b -> blockInstrs s_in b = []) /\
  loopTargets s_in
  = {| targetStatement := stmt; continueBlock := None;
       breakBlock := endbb;
       cleanupScope := length (cleanupScopes irs) |} :: loopTargets irs /\
  cleanupScopes s_in = cleanupScopes irs /\
  match sdefault with
  | Some d => bodyBB (caseState d s_in) = Some fallback
  | None => True
  end.
Proof.
  intros n0 endbb fallback s0 s1 s2 s3 s_in.
  pose proof (evalRuntimeLabels_length cases s0) as Hlen.
  change (length (blocks s0)) with n0 in Hlen. fold s1 in Hlen.
  destruct (evalRuntimeLabels_Grows cases s0) as [(_ & G1 & _ & G3) G4].
  fold s1 in G1, G3, G4.
  split; [reflexivity |].
  assert (Hb : exists news,
             blocks s3 = blocks s1 ++ news /\
             length news = S fallback - n0 /\
             Forall (fun b => bbInstrs b = []) news).
  { subst s3 s2 fallback endbb. destruct sdefault as [d|].
    - exists [{| bbName := "switchbody"; bbInstrs := [] |};
              {| bbName := "switchend"; bbInstrs := [] |};
              {| bbName := "default"; bbInstrs := [] |}].
      split; [simpl; rewrite <- !app_assoc; reflexivity |].
      split; [simpl; lia | repeat constructor].
    - exists [{| bbName := "switchbody"; bbInstrs := [] |};
              {| bbName := "switchend"; bbInstrs := [] |}].
      split; [simpl; rewrite <- !app_assoc; reflexivity |].
      split; [simpl; lia | repeat constructor]. }
  destruct Hb as (news & Hb & Hn & Hnews).
  assert (Hfb : n0 < S fallback)
    by (subst fallback endbb; destruct sdefault; lia).
  split.
  { change (length (blocks s3) = S fallback).
    rewrite Hb, length_app, Hlen, Hn. lia. }
  split.
  { intros b Hge. unfold blockInstrs.
    change (blocks s_in) with (blocks s3).
    rewrite Hb, lookup_app_r by (rewrite Hlen; exact Hge).
    destruct (news !! (b - length (blocks s1))) as [blk|] eqn:E;
      [| reflexivity].
    exact (Forall_lookup_1 _ _ _ _ Hnews E). }
  assert (Hcs : cleanupScopes s3 = cleanupScopes irs).
  { subst s3 s2. destruct sdefault; simpl; rewrite G1; reflexivity. }
  split.
  { subst s_in. unfold pushBreakTarget, currentCleanupScope.
    cbn [loopTargets set_loopTargets].
    change (cleanupScopes (setScope n0 s3)) with (cleanupScopes s3).
    rewrite Hcs. f_equal.
    subst s3 s2. destruct sdefault; simpl; rewrite G3; reflexivity. }
  split; [exact Hcs |].
  subst s_in s3. destruct sdefault as [d|]; [| exact I].
  change (caseState d (pushBreakTarget stmt endbb
                         (setScope n0
                            (set_bodyBB d (Some (n0 + 2))
                               (snd (BasicBlock_Create "default" s2))))))
    with (caseState d (set_bodyBB d (Some (n0 + 2))
                         (snd (BasicBlock_Create "default" s2)))).
  rewrite caseState_set_bodyBB_eq. reflexivity.
Qed.

(** C5: a switch statement with [n0] blocks in the function before; the
    end block is [n0+1] and the fallback block is [n0+2], the block
    registered for the default, when the switch has a default, and the
    end block when it has none. The lowering is, in this order: a part
    [A] that checks and evaluates the labels and creates the blocks; the
    body, once, in the new block [n0] with the break target of the switch
    pushed and the fallback block registered for the default; and then,
    with the block the statement started in current again, the switch
    instruction when every case label is a compile-time constant, the
    chain of comparisons when some label is none; the end block is current
    at the end. The switch instruction ends the block the statement
    started in and has one entry per case, and the fallback block as its
    default. The chain, run from the block the statement started in, ends
    in the body of the first case, in source order, whose label equals the
    controlling value, and in the fallback block when no label does. The
    default statement, lowered while the fallback block is registered for
    it and open, makes that block end by branching to the new block in
    which its own statement is lowered: what falls back reaches the body
    of the default. *)
Theorem C5_switch_strategy cfg stmt condition isintegral ty cases sdefault irs :
  let n0 := length (blocks irs) in
  let endbb := n0 + 1 in
  let defbb := match sdefault with Some _ => Some (n0 + 2) | None => None end in
  let fallback := match sdefault with Some _ => n0 + 2 | None => n0 + 1 end in
  exists (A : Result IRState) (pre finish : IRState -> IRState),
    (forall body : Lower,
       visit_SwitchStatement cfg stmt condition isintegral ty cases sdefault
         body irs
       = (s_in <-- A ;;
          s_b <-- body s_in ;;
          s_post <--
            (if forallb isConstantLabel cases
             then emitSwitchInst cfg condition isintegral ty cases defbb endbb
                    (pre s_b)
             else emitCompareBranches cfg condition cases defbb endbb
                    (pre s_b)) ;;
          Ok (finish s_post))) /\
    (forallb (fun cs => caseIsReset (cs_id cs) irs) cases = true ->
     match sdefault with
     | Some d => bodyBB (caseState d irs) = None
     | None => True
     end ->
     exists s_in, A = Ok s_in) /\
    (forall s_in,
       A = Ok s_in ->
       scopebb s_in = n0 /\
       length (blocks s_in) = S fallback /\
       (forall b, n0 <= b -> blockInstrs s_in b = []) /\
       head (loopTargets s_in)
       = Some {| targetStatement := stmt; continueBlock := None;
                 breakBlock := endbb;
                 cleanupScope := length (cleanupScopes irs) |} /\
       match sdefault with
       | Some d => bodyBB (caseState d s_in) = Some fallback
       | None => True
       end) /\
    (forall s,
       scopebb (pre s) = scopebb irs /\
       length (blocks (pre s)) = length (blocks s) /\
       caseStates (pre s) = caseStates s) /\
    (forall s, blocks (finish s) = blocks s /\ scopebb (finish s) = endbb) /\
    (forall s s_post,
       scopebb irs < length (blocks s) ->
       emitSwitchInst cfg condition isintegral ty cases defbb endbb (pre s)
       = Ok s_post ->
       exists cv d sc,
         lastOf (blocks s_post) (scopebb irs) = Some (Switch cv d sc) /\
         length sc = length cases /\
         (genInstrProf cfg = false -> d = fallback)) /\
    (forall s s_post,
       scopebb irs < length (blocks s) ->
       emitCompareBranches cfg condition cases defbb endbb (pre s)
       = Ok s_post ->
       forall eval stop,
         stop (scopebb irs) = false ->
         (forall b, length (blocks s) <= b -> stop b = false) ->
         stop fallback = true ->
         Forall (fun l => stop (snd l) = true) (caseLabels cases s) ->
         length (caseLabels cases s) = length cases /\
         runChain (2 * length cases + 4) (blocks s_post) eval stop
           (scopebb irs)
         = Some (firstMatch eval (VExp condition) (caseLabels cases s)
                   fallback)) /\
    (forall d gototarget s,
       sdefault = Some d ->
       bodyBB (caseState d s) = Some fallback ->
       fallback < length (blocks s) ->
       blockTerminated s fallback = false ->
       exists entry,
         (forall h : Lower,
            visit_DefaultStatement d gototarget h s
            = (s' <-- h entry ;; Ok (hook DBG_EmitBlockEnd s'))) /\
         scopebb entry = length (blocks s) /\
         lastOf (blocks entry) fallback = Some (Br (length (blocks s)))).
Proof.
  intros n0 endbb defbb fallback.
  set (s0 := hook COV_LinecountInc
               (hook DBG_EmitStopPoint (hook PGO_setCurrentStmt irs))).
  set (s1 := snd (evalRuntimeLabels cases s0)).
  set (s2 := hook PGO_emitCounterIncrement
               (setScope endbb
                  (snd (BasicBlock_Create "switchend"
                          (snd (BasicBlock_Create "switchbody" s1)))))).
  set (s3 := match sdefault with
             | Some d =>
                 set_bodyBB d (Some (n0 + 2))
                   (snd (BasicBlock_Create "default" s2))
             | None => s2
             end).
  exists (_ <-- assert (forallb (fun cs => caseIsReset (cs_id cs) s0) cases)
                  "cs->bodyBB == nullptr && cs->llvmIdx == nullptr" ;;
          _ <-- assert
                  match sdefault with
                  | Some d => bool_decide (bodyBB (caseState d s0) = None)
                  | None => true
                  end "stmt->sdefault->bodyBB == nullptr" ;;
          Ok (pushBreakTarget stmt endbb (setScope n0 s3))),
    (fun s_b => setScope (scopebb irs) (branchIfOpen endbb (popBreakTarget s_b))),
    (fun s_post =>
       let s := foldr (fun cs => resetCase (cs_id cs)) (setScope endbb s_post)
                  cases in
       match sdefault with
       | Some d => set_bodyBB d None s
       | None => s
       end).
  split.
  { exact (switch_parts cfg stmt condition isintegral ty cases sdefault
             irs). }
  split.
  { intros Hc Hd. eexists.
    change (forallb (fun cs => caseIsReset (cs_id cs) s0) cases)
      with (forallb (fun cs => caseIsReset (cs_id cs) irs) cases).
    rewrite Hc. cbn [assert bind].
    change (caseState ?d s0) with (caseState d irs).
    destruct sdefault as [d|]; [rewrite Hd, bool_decide_eq_true_2 by reflexivity |];
      reflexivity. }
  split.
  { intros s_in HA. do 2 inv_bind HA. apply Ok_inj in HA. subst s_in.
    destruct (switch_entry_facts stmt cases sdefault irs)
      as (F1 & F2 & F3 & F4 & _ & F6).
    split; [exact F1 |]. split; [exact F2 |]. split; [exact F3 |].
    split; [| exact F6].
    etransitivity; [exact (f_equal head F4) | reflexivity]. }
  split.
  { intros s. split; [reflexivity |]. split.
    - unfold branchIfOpen. destruct (scopereturned (popBreakTarget s));
        [reflexivity |]. simpl. apply length_alter.
    - etransitivity;
        [exact (caseStates_branchIfOpen endbb (popBreakTarget s)) |
         reflexivity]. }
  split.
  { intros s. cbv zeta.
    destruct (resetCases_SameGraph cases (setScope endbb s)) as (R1 & R2 & _).
    destruct sdefault; (split; [exact R1 | exact R2]). }
  assert (Hpre : forall s,
            scopebb irs < length (blocks s) ->
            scopeValid (setScope (scopebb irs)
                          (branchIfOpen endbb (popBreakTarget s)))).
  { intros s Hlt. unfold scopeValid, branchIfOpen.
    destruct (scopereturned (popBreakTarget s)); simpl;
      rewrite ?length_alter; exact Hlt. }
  assert (Hfb : default endbb defbb = fallback)
    by (subst defbb fallback; destruct sdefault; reflexivity).
  split.
  { intros s s_post Hlt H.
    destruct (emitSwitchInst_last _ _ _ _ _ _ _ _ _ H (Hpre s Hlt))
      as (cv & d & sc & L1 & L2 & L3).
    exists cv, d, sc. split; [exact L1 |]. split; [exact L2 |].
    rewrite <- Hfb. exact L3. }
  split.
  { intros s s_post Hlt H eval stop Hcur Hnew Hstop Hbodies.
    assert (Hcl : caseLabels cases
                    (setScope (scopebb irs)
                       (branchIfOpen endbb (popBreakTarget s)))
                  = caseLabels cases s).
    { apply caseLabels_ext. etransitivity;
        [exact (caseStates_branchIfOpen endbb (popBreakTarget s)) |
         reflexivity]. }
    rewrite <- Hcl, <- Hfb.
    apply (emitCompareBranches_run _ _ _ _ _ _ _ eval stop H (Hpre s Hlt)).
    - exact Hcur.
    - intros b Hb. apply Hnew.
      unfold branchIfOpen in Hb.
      destruct (scopereturned (popBreakTarget s)); simpl in Hb;
        rewrite ?length_alter in Hb; exact Hb.
    - rewrite Hfb. exact Hstop.
    - rewrite Hcl. exact Hbodies. }
  intros d gototarget s Hsd Hb Hlt Hopen.
  pose proof (default_entry d gototarget fallback s Hb) as Heq.
  cbv zeta in Heq.
  eexists. split; [exact Heq |].
  set (t1 := snd (BasicBlock_Create "default" (hook PGO_setCurrentStmt s))).
  pose proof (link_step (length (blocks s)) (Some fallback) t1)
    as (L1 & L2 & L3 & L4 & _).
  cbn zeta in L1, L2, L3, L4.
  split; [destruct gototarget; reflexivity |].
  assert (HY : lastOf (blocks
                         (if blockTerminated t1 fallback then t1
                          else insertAtEnd (Br (length (blocks s))) fallback t1))
                 fallback = Some (Br (length (blocks s)))).
  { apply L4; [reflexivity | |].
    - subst t1. simpl. rewrite length_app. simpl. lia.
    - subst t1. rewrite blockTerminated_Create. exact Hopen. }
  destruct gototarget;
    exact (branchIfOpen_keeps_link (length (blocks s))
             (set_bodyBB d (Some (length (blocks s)))
                (if blockTerminated t1 fallback then t1
                 else insertAtEnd (Br (length (blocks s))) fallback t1))
             fallback HY).
Qed.

Lemma C5_switch_strategy_witness :
  exists irs',
    Statement_toIR exampleConfig defaultSwitchExample initialState = Ok irs' /\
    scopebb irs' = 2 /\
    map bbInstrs (blocks irs')
    = [[IExp (VarExp (Some {| vd_init := None; vd_isConst := false |}));
        IExp (OtherExp 0 false); Br 6];
       [Br 4];
       [];
       [Br 5];
       [IExp (OtherExp 5 false); Br 5];
       [IExp (OtherExp 7 false); Br 2];
       [ICmp (VExp (VarExp (Some {| vd_init := None; vd_isConst := false |})))
          (VExp (OtherExp 0 false));
        CondBr
          (VICmpEq
             (VExp (VarExp (Some {| vd_init := None; vd_isConst := false |})))
             (VExp (OtherExp 0 false))) 4 7];
       [Br 3]].
Proof.
  destruct (C5_switch_strategy exampleConfig 1 (OtherExp 0 false) true Tother
              [{| cs_id := 10;
                  cs_exp := VarExp (Some {| vd_init := None;
                                            vd_isConst := false |}) |}]
              (Some 12) initialState)
    as (A & pre & finish & Heq & _ & _ & _ & Hfin & _).
  destruct (Statement_toIR exampleConfig defaultSwitchExample initialState)
    as [irs'|] eqn:E; [| vm_compute in E; discriminate E].
  exists irs'. split; [reflexivity |]. split.
  - change (Statement_toIR exampleConfig defaultSwitchExample initialState)
      with (visit_SwitchStatement exampleConfig 1 (OtherExp 0 false) true
              Tother
              [{| cs_id := 10;
                  cs_exp := VarExp (Some {| vd_init := None;
                                            vd_isConst := false |}) |}]
              (Some 12)
              (Statement_toIR exampleConfig
                 (CompoundStatement
                    [Some (CaseStatement 10
                             (VarExp (Some {| vd_init := None;
                                              vd_isConst := false |}))
                             false (ExpStatement (Some (OtherExp 5 false))));
                     Some (DefaultStatement 12 false
                             (ExpStatement (Some (OtherExp 7 false))))]))
              initialState) in E.
    rewrite Heq in E. do 3 inv_bind E. apply Ok_inj in E. subst irs'.
    exact (proj2 (Hfin _)).
  - vm_compute in E. apply Ok_inj in E. subst irs'. reflexivity.
Defined.

(** ** String switches *)

Lemma StringExp_compare_refl l : StringExp_compare l l = Eq.
Proof.
  induction l as [|x l IH]; simpl; [reflexivity |].
  rewrite Z.compare_refl. exact IH.
Qed.












Lemma caseState_set_llvmIdx_eq id v s :
  caseState id (set_llvmIdx id v s)
  = {| bodyBB := bodyBB (caseState id s); llvmIdx := v |}.
Proof.
  unfold caseState, set_llvmIdx. simpl. rewrite lookup_insert_eq. reflexivity.
Qed.

Lemma caseState_set_llvmIdx_ne id id' v s :
  id' <> id -> caseState id' (set_llvmIdx id v s) = caseState id' s.
Proof.
  intros Hne. unfold caseState, set_llvmIdx. simpl.
  rewrite lookup_insert_ne by congruence. reflexivity.
Qed.







Lemma switchCases_ext cases s s' :
  caseStates s' = caseStates s -> switchCases cases s' = switchCases cases s.
Proof.
  intros E. induction cases as [|c cases IH]; [reflexivity |].
  cbn [switchCases]. unfold caseState in *. rewrite E, IH. reflexivity.
Qed.





(** * Further properties of the lowering *)

(** X1: whatever statement is lowered, a successful lowering leaves the
    stacks of pending cleanups, of active catch regions and of loop and
    break targets as they were, only adds blocks, and keeps the current
    block an existing one. *)
Theorem lowering_restores_scope_stacks cfg s irs irs' :
  Statement_toIR cfg s irs = Ok irs' ->
  cleanupScopes irs' = cleanupScopes irs /\
  catchScopes irs' = catchScopes irs /\
  loopTargets irs' = loopTargets irs /\
  length (blocks irs) <= length (blocks irs') /\
  (scopeValid irs -> scopeValid irs').
Proof.
  intros H. destruct (Statement_toIR_Balanced cfg s irs irs' H).
  repeat split; assumption.
Qed.

Lemma lowering_restores_scope_stacks_witness :
  exists irs',
    Statement_toIR exampleConfig runtimeSwitchExample initialState = Ok irs' /\
    loopTargets irs' = [] /\ cleanupScopes irs' = [].
Proof.
  destruct (Statement_toIR exampleConfig runtimeSwitchExample initialState)
    as [irs'|] eqn:E; [| vm_compute in E; discriminate E].
  destruct (lowering_restores_scope_stacks exampleConfig runtimeSwitchExample
              initialState irs' E) as (Hc & _ & Hl & _).
  exists irs'. split; [reflexivity |]. split; [exact Hl | exact Hc].
Defined.

(** ** Assertions of the lowering *)

Lemma scopereturned_true_valid s : scopereturned s = true -> scopeValid s.
Proof.
  unfold scopereturned, blockTerminated, scopeValid. intros H.
  destruct (blocks s !! scopebb s) eqn:E; [| discriminate H].
  exact (lookup_lt_Some _ _ _ E).
Qed.

Ltac still_returned Hr :=
  match goal with
  | |- bind (assert (negb (scopereturned ?x)) _) _ = _ =>
      replace (scopereturned x) with true; [reflexivity |]
  end;
  let Hv := fresh "Hv" in
  pose proof (scopereturned_true_valid _ Hr) as Hv;
  symmetry; rewrite <- Hr; unfold scopereturned, blockTerminated;
  red_all; rewrite !lookup_app_l by (lens; lia); reflexivity.

(** X4: do-while, for, goto default and goto case insist on an open
    block. Lowered while the current block is already terminated, each of
    them stops on the assertion that it is not, whatever the rest of the
    statement is. *)
Theorem jumps_and_loops_assert_open_block stmt irs :
  scopereturned irs = true ->
  (forall condition body,
     visit_DoStatement stmt condition body irs
     = Aborted (AssertionFailed "!irs->scopereturned()")) /\
  (forall condition increment body,
     visit_ForStatement stmt None condition increment body irs
     = Aborted (AssertionFailed "!irs->scopereturned()")) /\
  (forall sdefault,
     visit_GotoDefaultStatement sdefault irs
     = Aborted (AssertionFailed "!irs->scopereturned()")) /\
  (forall cs,
     visit_GotoCaseStatement cs irs
     = Aborted (AssertionFailed "!irs->scopereturned()")).
Proof.
  intros Hr. repeat split.
  - intros condition body. unfold visit_DoStatement.
    lazy beta iota zeta delta [BasicBlock_Create].
    still_returned Hr.
  - intros condition increment body. unfold visit_ForStatement.
    lazy beta iota zeta delta [BasicBlock_Create acceptOpt].
    rewrite (bind_Ok_l _ _ _ eq_refl).
    still_returned Hr.
  - intros sdefault. unfold visit_GotoDefaultStatement.
    change (scopereturned (hook _ (hook _ (hook _ irs))))
      with (scopereturned irs).
    rewrite Hr. reflexivity.
  - intros cs. unfold visit_GotoCaseStatement.
    change (scopereturned (hook _ (hook _ (hook _ irs))))
      with (scopereturned irs).
    rewrite Hr. reflexivity.
Qed.

Lemma jumps_and_loops_assert_open_block_witness :
  visit_GotoCaseStatement 3 (emit RetVoid initialState)
  = Aborted (AssertionFailed "!irs->scopereturned()").
Proof.
  apply (jumps_and_loops_assert_open_block 0 (emit RetVoid initialState)).
  vm_compute. reflexivity.
Defined.

(** X5: a default statement and a goto default rely on the block the
    enclosing switch registered for the default. Lowered in a state where
    no block is registered, the default statement stops on the assertion
    that there is one, and so does a goto default in an open block. *)
Theorem default_needs_the_block_of_its_switch d irs :
  bodyBB (caseState d irs) = None ->
  (forall gototarget statement,
     visit_DefaultStatement d gototarget statement irs
     = Aborted (AssertionFailed "stmt->bodyBB")) /\
  (scopereturned irs = false ->
   visit_GotoDefaultStatement d irs
   = Aborted (AssertionFailed "stmt->sw->sdefault->bodyBB")).
Proof.
  intros Hd. split.
  - intros gototarget statement. unfold visit_DefaultStatement.
    change (caseState d (hook PGO_setCurrentStmt irs)) with (caseState d irs).
    rewrite Hd. reflexivity.
  - intros Hr. unfold visit_GotoDefaultStatement.
    change (scopereturned (hook _ (hook _ (hook _ irs))))
      with (scopereturned irs).
    rewrite Hr.
    change (caseState d (hook _ (hook _ (hook _ irs))))
      with (caseState d irs).
    rewrite Hd. reflexivity.
Qed.

Lemma default_needs_the_block_of_its_switch_witness :
  visit_DefaultStatement 0 false (fun s => Ok s) initialState
  = Aborted (AssertionFailed "stmt->bodyBB").
Proof.
  apply (default_needs_the_block_of_its_switch 0 initialState).
  reflexivity.
Defined.

(** ** The scratch state of a switch *)

Lemma caseIsReset_resetCase id id' s :
  caseIsReset id' (resetCase id s)
  = bool_decide (id' = id) || caseIsReset id' s.
Proof.
  unfold caseIsReset, resetCase.
  destruct (bool_decide_reflect (id' = id)) as [-> | Hne].
  - rewrite caseState_set_llvmIdx_eq, caseState_set_bodyBB_eq. reflexivity.
  - rewrite caseState_set_llvmIdx_ne, caseState_set_bodyBB_ne by exact Hne.
    reflexivity.
Qed.

Lemma resetCases_reset (cases : list CaseRef) s :
  forallb (fun cs => caseIsReset (cs_id cs)
                       (foldr (fun cs => resetCase (cs_id cs)) s cases))
    cases = true.
Proof.
  apply forallb_forall. intros c Hc.
  induction cases as [|c0 cases IH]; [destruct Hc |].
  cbn [foldr]. rewrite caseIsReset_resetCase.
  destruct Hc as [-> | Hc].
  - rewrite bool_decide_eq_true_2 by reflexivity. reflexivity.
  - rewrite (IH Hc). apply orb_true_r.
Qed.

Lemma caseIsReset_set_bodyBB_None id d s :
  caseIsReset id s = true -> caseIsReset id (set_bodyBB d None s) = true.
Proof.
  unfold caseIsReset. intros H. apply andb_prop in H. destruct H as [H1 H2].
  destruct (Nat.eq_dec id d) as [-> | Hne].
  - rewrite caseState_set_bodyBB_eq. simpl. rewrite H2. reflexivity.
  - rewrite caseState_set_bodyBB_ne by exact Hne. rewrite H1, H2. reflexivity.
Qed.

(** X6: a switch statement can be lowered again. A lowering that
    succeeds found the scratch state of every case and of the default
    reset (no body block, no index), and leaves it reset again, whatever
    the case and default statements of the body stored there in between. *)
Theorem switch_resets_its_scratch_state cfg stmt condition isintegral ty
    cases sdefault (body : Lower) irs irs' :
  visit_SwitchStatement cfg stmt condition isintegral ty cases sdefault body
    irs = Ok irs' ->
  (forallb (fun cs => caseIsReset (cs_id cs) irs) cases = true /\
   forall d, sdefault = Some d -> bodyBB (caseState d irs) = None) /\
  (forallb (fun cs => caseIsReset (cs_id cs) irs') cases = true /\
   forall d, sdefault = Some d -> bodyBB (caseState d irs') = None).
Proof.
  intros H. unfold visit_SwitchStatement in H.
  apply bind_Ok in H. destruct H as (u1 & A1 & H).
  apply bind_Ok in H. destruct H as (u2 & A2 & H).
  destruct u1, u2. apply assert_Ok in A1. apply assert_Ok in A2.
  split.
  { split; [exact A1 |]. intros d ->. apply bool_decide_eq_true_1 in A2.
    exact A2. }
  clear A1 A2.
  destruct (evalRuntimeLabels cases _) as [useSwitchInst s1].
  lazy beta iota zeta delta [BasicBlock_Create] in H.
  destruct sdefault as [d|];
    lazy beta iota zeta delta [BasicBlock_Create] in H;
    apply bind_Ok in H; destruct H as (s_b & _ & H);
    apply bind_Ok in H; destruct H as (s_post & _ & H);
    apply Ok_inj in H; subst irs'.
  - split.
    + apply forallb_forall. intros c Hc.
      apply caseIsReset_set_bodyBB_None.
      match goal with |- context [foldr ?f ?x cases] =>
        pose proof (resetCases_reset cases x) as R end.
      rewrite forallb_forall in R. exact (R c Hc).
    + intros d' [= <-]. rewrite caseState_set_bodyBB_eq. reflexivity.
  - split; [| intros d [=]].
    apply resetCases_reset.
Qed.

Lemma switch_resets_its_scratch_state_witness :
  exists irs',
    Statement_toIR exampleConfig runtimeSwitchExample initialState = Ok irs' /\
    caseIsReset 10 irs' = true.
Proof.
  destruct (Statement_toIR exampleConfig runtimeSwitchExample initialState)
    as [irs'|] eqn:E; [| vm_compute in E; discriminate E].
  pose proof E as E'. unfold runtimeSwitchExample in E'.
  change (visit_SwitchStatement exampleConfig 1 (OtherExp 0 false) true
            Tother
            [{| cs_id := 10;
                cs_exp :=
                  VarExp (Some {| vd_init := None; vd_isConst := false |}) |};
             {| cs_id := 11; cs_exp := IntegerExp 1 |}]
            None
            (Statement_toIR exampleConfig
               (CompoundStatement
                  [Some (CaseStatement 10
                           (VarExp
                              (Some {| vd_init := None;
                                       vd_isConst := false |}))
                           false (ExpStatement (Some (OtherExp 5 false))));
                   Some (CaseStatement 11 (IntegerExp 1) false
                           (ExpStatement (Some (OtherExp 6 false))))]))
            initialState = Ok irs') in E'.
  destruct (switch_resets_its_scratch_state _ _ _ _ _ _ _ _ _ _ E')
    as (_ & R & _).
  exists irs'. split; [reflexivity |].
  cbn [forallb cs_id] in R. apply andb_prop in R. exact (proj1 R).
Defined.

(** ** try/catch of the funclet scheme *)

Lemma lookup_snoc_eq {A} (l : list A) (x : A) i :
  i = length l -> (l ++ [x]) !! i = Some x.
Proof.
  intros ->. rewrite lookup_app_r by lia. rewrite Nat.sub_diag. reflexivity.
Qed.

Lemma lookup_alter_at {A} (f : A -> A) (l : list A) i j :
  i = j -> alter f i l !! j = f <$> l !! j.
Proof. intros ->. apply list_lookup_alter_eq. Qed.

(** Looking a block up in a block list written as it was built. *)
Ltac look :=
  repeat first
    [ rewrite list_lookup_alter_ne by (lens; lia)
    | rewrite lookup_alter_at by (lens; lia)
    | rewrite lookup_snoc_eq by (lens; lia)
    | rewrite lookup_app_l by (lens; lia) ].

Ltac decided :=
  repeat (rewrite bool_decide_eq_true_2;
          [| first [reflexivity | lia | do 2 f_equal; lia]]);
  reflexivity.

Lemma emitCatchBodiesMSVC_app endbb csb pre x post : forall s,
  emitCatchBodiesMSVC endbb csb (pre ++ x :: post) s
  = (s1 <-- emitCatchBodiesMSVC endbb csb pre s ;;
     s2 <-- emitCatchBodyMSVC endbb csb (fst x) (snd x) s1 ;;
     emitCatchBodiesMSVC endbb csb post s2).
Proof.
  induction pre as [|[c0 h0] pre IH]; intros s.
  - destruct x as [cx hx]. reflexivity.
  - cbn [app emitCatchBodiesMSVC].
    destruct (emitCatchBodyMSVC endbb csb c0 h0 s) as [s0|]; [| reflexivity].
    cbn [bind]. apply IH.
Qed.

(** X7: a try/catch of the funclet scheme (MSVC) whose catch number
    [length pre] is [c] with the handler [h], the catches [pre] before it
    and [post] after it, [n] catches in all. With [n0] blocks before the
    statement, the end block is [n0] and the dispatch block [n0+1]. The
    lowering is, in this order: a part [P] that depends on neither [h] nor
    the try body, creates the dispatch block with the catch switch and
    lowers the catches before [c]; the handler [h], once; a part [Q] that
    lowers the catches after [c] and registers one single catch region for
    all the catches, the dispatch block, which names no class; the try
    body, once; and one pop of the catch regions. Before the first catch
    the dispatch block holds the catch switch and nothing else, with room
    for [n] handlers and none added, unwinding to the caller unless a
    cleanup or a catch region is pending. The handler is entered after
    two blocks are created: the catch block, which holds the catch pad,
    the copy of the exception object when the variable of the catch is
    referred to from nested functions, and the return from the funclet
    into the second block, which is current and holds the call entering
    the catch; the catch block is added to the handlers of the catch
    switch behind the ones it has, so the handlers are in source order;
    and the catch regions are those of the enclosing statements. *)
Theorem funclet_try_catch cfg (pre post : list (Catch * option Lower))
    (c : Catch) irs :
  useMSVCEH cfg = true ->
  Forall (fun x => BalancedOpt (snd x)) pre ->
  Forall (fun x => BalancedOpt (snd x)) post ->
  let outer := catchScopes irs in
  let n0 := length (blocks irs) in
  let dispatch := n0 + 1 in
  let n := length pre + S (length post) in
  let unwindto :=
    negb (Nat.eqb (length (cleanupScopes irs)) 0)
    || negb (Nat.eqb (length (catchScopes irs)) 0) in
  exists (s0 : IRState) (P : Result IRState) (enter : IRState -> IRState)
         (Q : IRState -> Result IRState),
    (forall h body : Lower,
       visit_TryCatchStatement cfg body (pre ++ (c, Some h) :: post) irs
       = (s <-- P ;;
          s' <-- h (enter s) ;;
          t <-- Q s' ;;
          s_b <-- body t ;;
          s_p <-- popCatches 1 (branchIfOpen n0 (hook DBG_EmitBlockEnd s_b)) ;;
          Ok (hook PGO_emitCounterIncrement (setScope n0 s_p)))) /\
    (length (blocks s0) = n0 + 2 /\
     blockInstrs s0 dispatch = [CatchSwitch unwindto n []] /\
     catchScopes s0 = outer) /\
    (pre = [] -> P = Ok s0) /\
    (forall s, P = Ok s -> Grows s0 s) /\
    (forall s,
       let catchBB := length (blocks s) in
       scopebb (enter s) = S catchBB /\
       length (blocks (enter s)) = catchBB + 2 /\
       catchScopes (enter s) = catchScopes s /\
       (dispatch < catchBB ->
        blockInstrs (enter s) catchBB
        = [ICatchPad dispatch (if c_hasVar c then 0 else 64)]
          ++ (if c_hasVar c && c_nestedrefs c
              then [IOther "copy exnObj"] else [])
          ++ [CatchRet dispatch (S catchBB)] /\
        blockInstrs (enter s) (S catchBB)
        = [ICall "_d_eh_enter_catch" [VCatchPad dispatch] (catchScopes s)
             (cleanupScopes s)] /\
        (forall u k hs,
           blockInstrs s dispatch = [CatchSwitch u k hs] ->
           blockInstrs (enter s) dispatch
           = [CatchSwitch u k (hs ++ [catchBB])]))) /\
    (forall s' t,
       Q s' = Ok t ->
       scopebb t = scopebb irs /\
       catchScopes t
       = {| classInfoPtr := None; bodyBlock := dispatch |} :: catchScopes s').
Proof.
  intros Hm Hpre Hpost outer n0 dispatch n unwindto.
  set (s0 := insertAtEnd (CatchSwitch unwindto n []) dispatch
               (snd (BasicBlock_Create "catch.dispatch"
                       (snd (BasicBlock_Create "try.success.or.caught"
                               (hook DBG_EmitStopPoint
                                  (hook PGO_setCurrentStmt irs))))))).
  set (enter := fun s : IRState =>
         emitBeginCatchMSVCEH c dispatch
           (hook PGO_emitCounterIncrement
              (hook DBG_EmitBlockStart
                 (setScope (length (blocks s))
                    (snd (BasicBlock_Create "catch" s)))))).
  exists s0, (emitCatchBodiesMSVC n0 dispatch pre s0), enter,
    (fun s' =>
       s3 <-- emitCatchBodiesMSVC n0 dispatch post
                (hook DBG_EmitBlockEnd
                   (if scopereturned s' then s' else emit (Br n0) s')) ;;
       Ok (hook DBG_EmitBlockStart
             (setScope (scopebb irs) (pushCatch None dispatch s3)))).
  split; [| split; [| split; [| split; [| split]]]].
  - intros h body. unfold visit_TryCatchStatement. rewrite Hm.
    lazy beta iota zeta delta [BasicBlock_Create]. cbn [fst snd].
    assert (Hlen : length (pre ++ (c, Some h) :: post) = n)
      by (rewrite length_app; reflexivity).
    rewrite Hlen.
    assert (Hd : length (blocks (set_blocks
                   (fun bs => bs ++ [{| bbName := "try.success.or.caught";
                                        bbInstrs := [] |}])
                   (hook DBG_EmitStopPoint (hook PGO_setCurrentStmt irs))))
                 = dispatch).
    { simpl. rewrite length_app. reflexivity. }
    rewrite !Hd.
    change (length (blocks (hook DBG_EmitStopPoint
                              (hook PGO_setCurrentStmt irs))))
      with n0.
    match goal with |- context [emitCatchBodiesMSVC n0 dispatch _ ?s] =>
      change s with s0 end.
    rewrite emitCatchBodiesMSVC_app. cbn [fst snd].
    destruct (emitCatchBodiesMSVC n0 dispatch pre s0) as [s1|];
      [| reflexivity].
    cbn [bind]. subst enter. unfold emitCatchBodyMSVC at 1.
    lazy beta iota zeta delta [BasicBlock_Create]. cbn [fst snd acceptOpt].
    match goal with |- context [h ?e] =>
      destruct (h e) as [s'|]; [| reflexivity] end.
    cbn [bind].
    match goal with |- context [emitCatchBodiesMSVC n0 dispatch post ?s2] =>
      destruct (emitCatchBodiesMSVC n0 dispatch post s2) as [s3|];
        [| reflexivity] end.
    reflexivity.
  - subst s0 dispatch. split; [red_all; lens; lia |]. split.
    + unfold blockInstrs. red_all. look. reflexivity.
    + reflexivity.
  - intros ->. reflexivity.
  - intros s H. exact (emitCatchBodiesMSVC_Grows _ _ _ _ _ Hpre H).
  - intros s catchBB. subst enter catchBB. cbv beta.
    unfold emitBeginCatchMSVCEH.
    lazy beta iota zeta delta [BasicBlock_Create]. cbn [fst snd].
    split; [destruct (c_hasVar c), (c_nestedrefs c); red_all; lens; lia |].
    split; [destruct (c_hasVar c), (c_nestedrefs c); red_all; lens; lia |].
    split; [destruct (c_hasVar c), (c_nestedrefs c); reflexivity |].
    intros Hlt. split; [| split].
    + destruct (c_hasVar c), (c_nestedrefs c); cbn [andb];
        unfold blockInstrs; red_all; lens; look;
        cbn [fmap option_fmap option_map appendInstr bbInstrs bbName app map];
        rewrite Nat.add_1_r; reflexivity.
    + destruct (c_hasVar c), (c_nestedrefs c); cbn [andb];
        unfold blockInstrs; red_all; lens; look;
        cbn [fmap option_fmap option_map appendInstr bbInstrs bbName app map];
        reflexivity.
    + intros u k hs Hsw. unfold blockInstrs in Hsw |- *.
      destruct (blocks s !! dispatch) as [blk|] eqn:Eb;
        [| discriminate Hsw].
      destruct (c_hasVar c), (c_nestedrefs c); cbn [andb];
        red_all; lens; look; rewrite Eb;
        cbn [fmap option_fmap option_map appendInstr bbInstrs bbName app map];
        rewrite Hsw; reflexivity.
  - intros s' t H. inv_bind H. apply Ok_inj in H. subst t.
    split; [reflexivity |].
    apply (emitCatchBodiesMSVC_Grows _ _ _ _ _ Hpost) in Hstep.
    destruct Hstep as (_ & _ & Hcs & _).
    change (catchScopes (hook DBG_EmitBlockStart
                           (setScope (scopebb irs)
                              (pushCatch None dispatch irs0))))
      with ({| classInfoPtr := None; bodyBlock := dispatch |}
              :: catchScopes irs0).
    rewrite Hcs. destruct (scopereturned s'); reflexivity.
Qed.

Lemma funclet_try_catch_witness :
  exists (s0 : IRState) (enter : IRState -> IRState),
    length (blocks s0) = 3 /\
    scopebb (enter s0) = 4 /\
    blockInstrs (enter s0) 2 = [CatchSwitch false 1 [3]] /\
    blockInstrs (enter s0) 3 = [ICatchPad 2 64; CatchRet 2 4].
Proof.
  destruct (funclet_try_catch funcletConfig [] []
              {| c_type := 1; c_hasVar := false; c_nestedrefs := false |}
              initialState eq_refl ltac:(constructor) ltac:(constructor))
    as (s0 & P & enter & Q & _ & (H1 & H2 & _) & _ & _ & Hent & _).
  destruct (Hent s0) as (E1 & _ & _ & E4).
  rewrite H1 in E1, E4.
  destruct (E4 ltac:(simpl; lia)) as (E5 & _ & E6).
  exists s0, enter. split; [exact H1 |]. split; [exact E1 |].
  split; [exact (E6 _ _ _ H2) | exact E5].
Defined.

(** ** Case and default statements *)

(** The state in which the statement of a case is entered. *)
Lemma case_entry stmt exp (gototarget : bool) irs :
  let n0 := length (blocks irs) in
  let s1 := snd (BasicBlock_Create "case" (hook PGO_setCurrentStmt irs)) in
  let Y := match bodyBB (caseState stmt s1) with
           | Some bb =>
               if blockTerminated s1 bb then s1
               else insertAtEnd (Br n0) bb s1
           | None => s1
           end in
  let Z := set_bodyBB stmt (Some n0) Y in
  let W := match llvmIdx (caseState stmt Z) with
           | None => set_llvmIdx stmt (isaConstantInt (toConstElem exp)) Z
           | Some _ => Z
           end in
  let E0 := hook COV_LinecountInc
              (hook DBG_EmitBlockStart (setScope n0 (branchIfOpen n0 W))) in
  let E := if gototarget then hook PGO_emitCounterIncrement E0 else E0 in
  forall h : Lower,
    visit_CaseStatement stmt exp gototarget h irs
    = (irs <-- h E ;; Ok (hook DBG_EmitBlockEnd irs)).
Proof. intros n0 s1 Y Z W E0 E h. reflexivity. Qed.

Lemma case_entry_facts stmt exp (gototarget : bool) irs :
  let n0 := length (blocks irs) in
  let s1 := snd (BasicBlock_Create "case" (hook PGO_setCurrentStmt irs)) in
  let Y := match bodyBB (caseState stmt s1) with
           | Some bb =>
               if blockTerminated s1 bb then s1
               else insertAtEnd (Br n0) bb s1
           | None => s1
           end in
  let Z := set_bodyBB stmt (Some n0) Y in
  let W := match llvmIdx (caseState stmt Z) with
           | None => set_llvmIdx stmt (isaConstantInt (toConstElem exp)) Z
           | Some _ => Z
           end in
  let E0 := hook COV_LinecountInc
              (hook DBG_EmitBlockStart (setScope n0 (branchIfOpen n0 W))) in
  let E := if gototarget then hook PGO_emitCounterIncrement E0 else E0 in
  scopebb E = n0 /\
  bodyBB (caseState stmt E) = Some n0 /\
  llvmIdx (caseState stmt E)
  = match llvmIdx (caseState stmt irs) with
    | Some v => Some v
    | None => isaConstantInt (toConstElem exp)
    end /\
  (scopeValid irs -> scopereturned irs = false ->
   lastOf (blocks E) (scopebb irs) = Some (Br n0)) /\
  (forall bb, bodyBB (caseState stmt irs) = Some bb -> bb < n0 ->
              blockTerminated irs bb = false ->
              lastOf (blocks E) bb = Some (Br n0)) /\
  (forall b, b < n0 -> b <> scopebb irs ->
             bodyBB (caseState stmt irs) <> Some b ->
             blocks E !! b = blocks irs !! b).
Proof.
  intros n0 s1 Y Z W E0 E.
  pose proof (link_step n0 (bodyBB (caseState stmt s1)) s1)
    as (L1 & L2 & L3 & L4 & L5).
  cbn zeta in L1, L2, L3, L4, L5. fold Y in L1, L2, L3, L4, L5.
  assert (HW : scopebb W = scopebb Y /\ blocks W = blocks Y).
  { subst W. destruct (llvmIdx (caseState stmt Z)); split; reflexivity. }
  destruct HW as (W1 & W2).
  assert (HE : scopebb E = n0 /\ blocks E = blocks (branchIfOpen n0 W) /\
               caseStates E = caseStates W).
  { subst E E0. destruct gototarget;
      (split; [reflexivity |]; split; [reflexivity |];
       exact (caseStates_branchIfOpen n0 W)). }
  destruct HE as (E1 & E2 & E3).
  assert (HZ : caseState stmt Z
               = {| bodyBB := Some n0; llvmIdx := llvmIdx (caseState stmt irs) |}).
  { subst Z. rewrite caseState_set_bodyBB_eq.
    rewrite (caseState_ext stmt s1 Y L3). reflexivity. }
  assert (Hs1 : length (blocks s1) = S n0).
  { subst s1 n0. simpl. rewrite length_app. simpl. lia. }
  split; [exact E1 |].
  rewrite (caseState_ext stmt W E E3).
  split; [| split; [| split; [| split]]].
  - subst W. rewrite HZ. cbn [llvmIdx].
    destruct (llvmIdx (caseState stmt irs)).
    + rewrite HZ. reflexivity.
    + rewrite caseState_set_llvmIdx_eq, HZ. reflexivity.
  - subst W. rewrite HZ. cbn [llvmIdx].
    destruct (llvmIdx (caseState stmt irs)).
    + rewrite HZ. reflexivity.
    + rewrite caseState_set_llvmIdx_eq. reflexivity.
  - intros Hv Hr. rewrite E2.
    change (scopebb irs) with (scopebb s1). rewrite <- L1, <- W1.
    apply branchIfOpen_links.
    + unfold scopeValid. rewrite W1, W2, L1, L2, Hs1.
      change (scopebb s1) with (scopebb irs). unfold scopeValid in Hv.
      subst n0. lia.
    + assert (Hr1 : scopereturned s1 = false).
      { subst s1. rewrite scopereturned_Create. exact Hr. }
      destruct (L5 Hr1) as [Ho | Hl].
      * left. rewrite (scopereturned_ext Y W W1 W2). exact Ho.
      * right. rewrite W1, W2, L1. exact Hl.
  - intros bb Hbb Hlt Hopen. rewrite E2.
    apply branchIfOpen_keeps_link. rewrite W2.
    apply L4.
    + exact Hbb.
    + rewrite Hs1. lia.
    + subst s1. rewrite blockTerminated_Create. exact Hopen.
  - intros b Hlt Hne Hnb. rewrite E2.
    rewrite lookup_branchIfOpen_ne
      by (rewrite W1, L1; exact Hne).
    rewrite W2. subst Y.
    rewrite lookup_link_step_ne by exact Hnb.
    subst s1. simpl. apply lookup_app_l. exact Hlt.
Qed.

(** X8: the state in which the statement of a case is lowered. The
    lowering of a case statement is the lowering of its statement, once,
    in the state [entry], followed by the end of the lexical block. With
    [n0] blocks before the case statement, [entry] has the new block [n0]
    current and registered as the body of the case; the value of the case
    in the switch instruction is the one stored for it if there is one
    (the index of a string case) and the constant of its label otherwise.
    When the case statement is met in an open block, that block ends by
    branching to the new block, so that the code before the case falls
    through into it; and an open block that was registered for the case
    before, as a goto case ahead of the case does, ends by branching to
    the new block. The other blocks are as they were. *)
Theorem case_statement_entry stmt exp gototarget irs :
  let n0 := length (blocks irs) in
  exists entry,
    (forall h : Lower,
       visit_CaseStatement stmt exp gototarget h irs
       = (s' <-- h entry ;; Ok (hook DBG_EmitBlockEnd s'))) /\
    scopebb entry = n0 /\
    bodyBB (caseState stmt entry) = Some n0 /\
    llvmIdx (caseState stmt entry)
    = match llvmIdx (caseState stmt irs) with
      | Some v => Some v
      | None => isaConstantInt (toConstElem exp)
      end /\
    (scopeValid irs -> scopereturned irs = false ->
     lastOf (blocks entry) (scopebb irs) = Some (Br n0)) /\
    (forall bb,
       bodyBB (caseState stmt irs) = Some bb -> bb < n0 ->
       blockTerminated irs bb = false ->
       lastOf (blocks entry) bb = Some (Br n0)) /\
    (forall b,
       b < n0 -> b <> scopebb irs ->
       bodyBB (caseState stmt irs) <> Some b ->
       blocks entry !! b = blocks irs !! b).
Proof.
  intros n0.
  pose proof (case_entry stmt exp gototarget irs) as Heq.
  pose proof (case_entry_facts stmt exp gototarget irs) as Hf.
  cbv zeta in Heq, Hf.
  eexists. split; [exact Heq |]. exact Hf.
Qed.

Lemma case_statement_entry_witness :
  exists entry,
    visit_CaseStatement 10 (IntegerExp 1) false (fun s => Ok s) initialState
    = Ok (hook DBG_EmitBlockEnd entry) /\
    scopebb entry = 1 /\
    lastOf (blocks entry) 0 = Some (Br 1).
Proof.
  destruct (case_statement_entry 10 (IntegerExp 1) false initialState)
    as (entry & Heq & Hs & _ & _ & Hl & _).
  exists entry. split; [exact (Heq (fun s => Ok s)) |].
  split; [exact Hs |].
  apply Hl; [vm_compute; lia | reflexivity].
Defined.

(** X9: the state in which the statement of a default is lowered. The
    enclosing switch registered a block [bb] for the default, the one its
    switch instruction or comparison chain falls back to. The lowering of
    the default statement is the lowering of its statement, once, in the
    state [entry], followed by the end of the lexical block. With [n0]
    blocks before the default statement, [entry] has the new block [n0]
    current, and the new block takes the place of [bb] as the block
    registered for the default; [bb], if it is still open, ends by
    branching to the new block: what falls back to the default reaches
    the statement of the default. When the default statement is met in an
    open block, that block ends by branching to the new block as well. *)
Theorem default_statement_entry stmt gototarget bb irs :
  bodyBB (caseState stmt irs) = Some bb ->
  let n0 := length (blocks irs) in
  exists entry,
    (forall h : Lower,
       visit_DefaultStatement stmt gototarget h irs
       = (s' <-- h entry ;; Ok (hook DBG_EmitBlockEnd s'))) /\
    scopebb entry = n0 /\
    bodyBB (caseState stmt entry) = Some n0 /\
    llvmIdx (caseState stmt entry) = llvmIdx (caseState stmt irs) /\
    (bb < n0 -> blockTerminated irs bb = false ->
     lastOf (blocks entry) bb = Some (Br n0)) /\
    (scopeValid irs -> scopereturned irs = false ->
     lastOf (blocks entry) (scopebb irs) = Some (Br n0)).
Proof.
  intros Hb n0.
  pose proof (default_entry stmt gototarget bb irs Hb) as Heq.
  cbv zeta in Heq.
  eexists. split; [exact Heq |].
  match goal with |- scopebb ?E = _ /\ _ => set (entry := E) end.
  set (s1 := snd (BasicBlock_Create "default" (hook PGO_setCurrentStmt irs))).
  pose proof (link_step n0 (Some bb) s1) as (L1 & L2 & L3 & L4 & L5).
  cbn zeta in L1, L2, L3, L4, L5.
  set (Y := if blockTerminated s1 bb then s1
            else insertAtEnd (Br n0) bb s1) in *.
  assert (Hs1 : length (blocks s1) = S n0).
  { subst s1 n0. simpl. rewrite length_app. simpl. lia. }
  set (Z := set_bodyBB stmt (Some n0) Y).
  assert (HE : scopebb entry = n0 /\
               blocks entry = blocks (branchIfOpen n0 Z) /\
               caseStates entry = caseStates Z).
  { subst entry. destruct gototarget;
      (split; [reflexivity |]; split; [reflexivity |];
       exact (caseStates_branchIfOpen n0 Z)). }
  destruct HE as (E1 & E2 & E3).
  split; [exact E1 |].
  rewrite (caseState_ext stmt Z entry E3).
  split; [subst Z; rewrite caseState_set_bodyBB_eq; reflexivity |].
  split.
  { subst Z. rewrite caseState_set_bodyBB_eq. cbn [llvmIdx].
    rewrite (caseState_ext stmt s1 Y L3). reflexivity. }
  split.
  - intros Hlt Hopen. rewrite E2.
    apply branchIfOpen_keeps_link.
    apply L4; [reflexivity | rewrite Hs1; lia |].
    subst s1. rewrite blockTerminated_Create. exact Hopen.
  - intros Hv Hr. rewrite E2.
    change (scopebb irs) with (scopebb s1). rewrite <- L1.
    change (scopebb Y) with (scopebb Z).
    apply branchIfOpen_links.
    + unfold scopeValid.
      change (scopebb Z) with (scopebb Y). change (blocks Z) with (blocks Y).
      rewrite L1, L2, Hs1.
      change (scopebb s1) with (scopebb irs). unfold scopeValid in Hv.
      subst n0. lia.
    + assert (Hr1 : scopereturned s1 = false).
      { subst s1. rewrite scopereturned_Create. exact Hr. }
      destruct (L5 Hr1) as [Ho | Hl].
      * left. exact Ho.
      * right. change (scopebb Z) with (scopebb Y). rewrite L1. exact Hl.
Qed.

Lemma default_statement_entry_witness :
  exists entry,
    visit_DefaultStatement 7 false (fun s => Ok s)
      (set_bodyBB 7 (Some 0) initialState)
    = Ok (hook DBG_EmitBlockEnd entry) /\
    scopebb entry = 1 /\
    lastOf (blocks entry) 0 = Some (Br 1).
Proof.
  destruct (default_statement_entry 7 false 0
              (set_bodyBB 7 (Some 0) initialState) eq_refl)
    as (entry & Heq & Hs & _ & _ & Hl & _).
  exists entry. split; [exact (Heq (fun s => Ok s)) |].
  split; [exact Hs |].
  apply Hl; [vm_compute; lia | reflexivity].
Defined.

(** The state after a goto case lowered ahead of its case. *)
Lemma goto_case_ahead cs irs :
  scopeValid irs -> scopereturned irs = false ->
  bodyBB (caseState cs irs) = None ->
  let n0 := length (blocks irs) in
  exists s1,
    visit_GotoCaseStatement cs irs = Ok s1 /\
    length (blocks s1) = n0 + 2 /\ scopebb s1 = n0 + 1 /\
    bodyBB (caseState cs s1) = Some n0 /\
    llvmIdx (caseState cs s1) = llvmIdx (caseState cs irs) /\
    blockTerminated s1 n0 = false /\
    lastOf (blocks s1) (scopebb irs) = Some (Br n0).
Proof.
  intros Hv Hr Hb n0. unfold visit_GotoCaseStatement.
  change (scopereturned (hook _ (hook _ (hook _ irs))))
    with (scopereturned irs).
  rewrite Hr.
  change (caseState cs (hook COV_LinecountInc
                          (hook DBG_EmitStopPoint
                             (hook PGO_setCurrentStmt irs))))
    with (caseState cs irs).
  rewrite Hb.
  lazy beta iota zeta delta [BasicBlock_Create bind assert negb].
  eexists. split; [reflexivity |].
  unfold scopeValid in Hv. subst n0.
  split; [red_all; lens; lia |].
  split; [red_all; lens; lia |].
  split.
  { unfold caseState. red_all. rewrite lookup_insert_eq. reflexivity. }
  split.
  { unfold caseState. red_all. rewrite lookup_insert_eq. reflexivity. }
  split.
  { unfold blockTerminated. red_all. look. reflexivity. }
  unfold lastOf. red_all. look.
  destruct (lookup_lt_is_Some_2 _ _ Hv) as [b0 Hb0]. rewrite Hb0.
  cbn [fmap option_fmap option_map appendInstr bbInstrs].
  apply last_snoc.
Qed.

(** X10: a goto case lowered ahead of its case. With [n0] blocks before
    the goto, lowered in an open block, the goto branches to a new block
    [n0], which it registers for the case and leaves open, and continues
    in another new block [n0+1]. When the case statement itself is lowered
    next, its statement is lowered, once, in the state [entry], whose
    current block is the new block [n0+2]; block [n0] ends by branching
    there, and the block the goto was lowered in still ends by branching
    to block [n0]: the goto reaches the case through block [n0]. *)
Theorem goto_case_ahead_of_its_case cs irs :
  scopeValid irs -> scopereturned irs = false ->
  bodyBB (caseState cs irs) = None ->
  let n0 := length (blocks irs) in
  exists s1,
    visit_GotoCaseStatement cs irs = Ok s1 /\
    length (blocks s1) = n0 + 2 /\ scopebb s1 = n0 + 1 /\
    bodyBB (caseState cs s1) = Some n0 /\
    blockTerminated s1 n0 = false /\
    lastOf (blocks s1) (scopebb irs) = Some (Br n0) /\
    (forall exp gototarget,
       exists entry,
         (forall h : Lower,
            visit_CaseStatement cs exp gototarget h s1
            = (s' <-- h entry ;; Ok (hook DBG_EmitBlockEnd s'))) /\
         scopebb entry = n0 + 2 /\
         bodyBB (caseState cs entry) = Some (n0 + 2) /\
         lastOf (blocks entry) n0 = Some (Br (n0 + 2)) /\
         lastOf (blocks entry) (scopebb irs) = Some (Br n0)).
Proof.
  intros Hv Hr Hb n0.
  destruct (goto_case_ahead cs irs Hv Hr Hb)
    as (s1 & E & G1 & G2 & G3 & _ & G5 & G6).
  fold n0 in G1, G2, G3, G5, G6.
  exists s1. split; [exact E |]. split; [exact G1 |]. split; [exact G2 |].
  split; [exact G3 |]. split; [exact G5 |]. split; [exact G6 |].
  intros exp gototarget.
  pose proof (case_entry cs exp gototarget s1) as Heq.
  pose proof (case_entry_facts cs exp gototarget s1)
    as (F1 & F2 & _ & _ & F5 & F6).
  cbv zeta in Heq, F1, F2, F5, F6.
  eexists. split; [exact Heq |].
  unfold scopeValid in Hv. fold n0 in Hv.
  rewrite <- G1.
  split; [exact F1 |]. split; [exact F2 |]. split.
  - apply (F5 n0 G3); [lia | exact G5].
  - rewrite <- G6. apply lastOf_ext. apply F6.
    + lia.
    + lia.
    + rewrite G3. intros [= Heq']. lia.
Qed.

Lemma goto_case_ahead_of_its_case_witness :
  exists s1,
    visit_GotoCaseStatement 10 initialState = Ok s1 /\
    scopebb s1 = 2 /\
    lastOf (blocks s1) 0 = Some (Br 1).
Proof.
  destruct (goto_case_ahead_of_its_case 10 initialState)
    as (s1 & E & _ & G2 & _ & _ & G6 & _).
  - vm_compute. lia.
  - reflexivity.
  - reflexivity.
  - exists s1. split; [exact E |]. split; [exact G2 | exact G6].
Defined.

(** ** The value of a return statement *)

Lemma blockInstrs_emit_at i s b :
  scopebb s = b -> b < length (blocks s) ->
  blockInstrs (emit i s) b = blockInstrs s b ++ [i].
Proof. intros <- Hlt. apply blockInstrs_insertAtEnd_eq. exact Hlt. Qed.

(** The code appended to the block [b] that stays current. *)
Ltac emitted_at b :=
  apply emittedIn_app;
  repeat first
    [ rewrite blockInstrs_setScope
    | rewrite blockInstrs_Create
    | rewrite blockInstrs_hook
    | rewrite (blockInstrs_emit_at _ _ b)
        by first [reflexivity | red_all; lens; lia] ];
  rewrite <- ?app_assoc; reflexivity.

(** X11: what a return statement returns. Lowered in an existing block
    while no cleanup is pending. A return without expression returns, in
    the main function, the null value of the return type, and asserts in
    any other function that the function returns void. In a function that
    returns through the sret pointer the lowering asserts that the function
    does not return by reference, that it has the sret argument, and that
    the ABI does not rewrite it; a return with an expression then ends the
    block with a void return, so no value is returned in a register, after
    the code that builds the value in place or, when that cannot be done,
    after the code of the expression, followed, unless the value already
    lives at the sret pointer, by the store to the sret pointer and then,
    unless the function uses NRVO or the expression is the result variable,
    by the postblit call. In a function that returns a value the code of
    the expression and, unless the function returns by reference, the
    postblit call are followed by the return of the value: the value of the
    expression when it has the return type; the value loaded from it when
    it is a pointer of another type and the function returns a struct or a
    static array; and when the type still differs from the return type, the
    null value in the main function and the value cast to the return type
    elsewhere. *)
Theorem return_statement_value cfg linnum irs :
  scopeValid irs -> cleanupScopes irs = [] ->
  (retTypeIsVoid cfg = false ->
   if isMainFunc cfg
   then exists irs',
          visit_ReturnStatement cfg None linnum irs = Ok irs' /\
          emittedIn irs irs' (scopebb irs) = [Ret VNullValue]
   else visit_ReturnStatement cfg None linnum irs
        = Aborted (AssertionFailed "llFunc->getReturnType() == void")) /\
  (retTypeIsVoid cfg = true ->
   forall e,
     if funcIsRef cfg
     then visit_ReturnStatement cfg (Some e) linnum irs
          = Aborted (AssertionFailed "!f->type->isref")
     else if negb (hasSretArg cfg)
     then visit_ReturnStatement cfg (Some e) linnum irs
          = Aborted (AssertionFailed "sretPointer")
     else if sretRewrite cfg
     then visit_ReturnStatement cfg (Some e) linnum irs
          = Aborted (AssertionFailed
                       "ABI shouldn't have to rewrite sret returns")
     else exists irs',
            visit_ReturnStatement cfg (Some e) linnum irs = Ok irs' /\
            emittedIn irs irs' (scopebb irs)
            = (if fst (toInPlaceConstruction e irs) then [IInPlace e]
               else
                 IExp e
                 :: (if isSretLVal cfg e then []
                     else
                       ISretStore e
                       :: (if negb (nrvo cfg)
                              && negb match e with
                                      | VarExp _ => isResultVar cfg e
                                      | _ => false
                                      end
                           then [IPostblit e] else [])))
              ++ [RetVoid]) /\
  (retTypeIsVoid cfg = false ->
   forall e,
     exists irs',
       visit_ReturnStatement cfg (Some e) linnum irs = Ok irs' /\
       emittedIn irs irs' (scopebb irs)
       = IExp e :: (if funcIsRef cfg then [] else [IPostblit e])
           ++ [Ret match putRetType cfg e with
                   | TyReturn => VExp e
                   | TyPointer toReturn =>
                       if retInMemoryOnly cfg then
                         if toReturn then VLoad (VExp e)
                         else if isMainFunc cfg then VNullValue
                              else VBitCast (VLoad (VExp e))
                       else if isMainFunc cfg then VNullValue
                            else VBitCast (VExp e)
                   | TyOther =>
                       if isMainFunc cfg then VNullValue
                       else VBitCast (VExp e)
                   end]).
Proof.
  intros Hv Hc. unfold scopeValid in Hv. split; [| split].
  - intros Hvoid. unfold visit_ReturnStatement, returnValueOf.
    rewrite Hvoid. destruct (isMainFunc cfg) eqn:Hmain.
    + cbn [bool_decide orb]. rewrite orb_true_r.
      unfold loadForReturn, castForReturn.
      rewrite bool_decide_eq_true_2 by reflexivity.
      rewrite (bind_Ok_l _ _ _ eq_refl). cbn [fst snd].
      rewrite emitReturn_direct by exact Hc.
      eexists. split; [reflexivity |].
      destruct (fdIsMain cfg && Nat.eqb linnum 0); emitted_at (scopebb irs).
    + rewrite orb_false_r.
      rewrite bool_decide_eq_false_2 by (intros [x Hx]; discriminate Hx).
      reflexivity.
  - intros Hvoid e. unfold visit_ReturnStatement, returnValueOf.
    rewrite Hvoid.
    rewrite bool_decide_eq_true_2 by (eexists; reflexivity).
    cbn [orb]. destruct (funcIsRef cfg) eqn:Href; [reflexivity |].
    cbn [negb assert bind].
    destruct (hasSretArg cfg); [| reflexivity].
    cbn [negb assert bind].
    destruct (sretRewrite cfg); [reflexivity |].
    cbn [negb assert bind].
    unfold toInPlaceConstruction.
    destruct e as [z | str | var | | id [|]];
      lazy beta iota zeta delta [toElemDtor];
      try rewrite (bool_decide_eq_false_2 (_ <> _))
        by (intros H; apply H; reflexivity);
      cbn [bind fst snd];
      try (destruct (isSretLVal cfg _); cbn [negb];
           [| destruct (negb (nrvo cfg) && _)]);
      cbn [bind fst snd];
      rewrite emitReturn_direct by exact Hc;
      (eexists; split; [reflexivity |]);
      emitted_at (scopebb irs).
  - intros Hvoid e. unfold visit_ReturnStatement, returnValueOf.
    rewrite Hvoid.
    rewrite bool_decide_eq_true_2 by (eexists; reflexivity).
    cbn [orb]. lazy beta iota zeta delta [toElemDtor].
    unfold loadForReturn, castForReturn.
    destruct (putRetType cfg e) as [| [|] |];
      destruct (retInMemoryOnly cfg), (isMainFunc cfg), (funcIsRef cfg);
      cbn [bind fst snd bool_decide decide_rel];
      rewrite ?bool_decide_eq_true_2 by reflexivity;
      rewrite ?bool_decide_eq_false_2 by discriminate;
      cbn [bind fst snd];
      rewrite emitReturn_direct by exact Hc;
      (eexists; split; [reflexivity |]);
      destruct (fdIsMain cfg && Nat.eqb linnum 0); emitted_at (scopebb irs).
Qed.

Lemma return_statement_value_witness :
  exists irs',
    visit_ReturnStatement mainConfig (Some NullExp) 1 initialState = Ok irs' /\
    emittedIn initialState irs' 0
    = [IExp NullExp; IPostblit NullExp; Ret VNullValue].
Proof.
  destruct (return_statement_value mainConfig 1 initialState) as (_ & _ & H).
  - vm_compute. lia.
  - reflexivity.
  - exact (H eq_refl NullExp).
Defined.

(** ** Labels of inline assembly *)

(** X12: a label inside a block of inline assembly. While an asm block
    is being collected the label statement creates no block and registers
    no label target: the blocks, the current block, the label targets and
    the recorded forward gotos are the ones before, and the label is added
    to the labels of the asm block. *)
Theorem label_inside_asm_block ident labels irs :
  asmBlock irs = Some labels ->
  exists irs',
    visit_LabelStatement ident None irs = Ok irs' /\
    blocks irs' = blocks irs /\ scopebb irs' = scopebb irs /\
    labelTargets irs' = labelTargets irs /\
    gotoJumps irs' = gotoJumps irs /\
    asmBlock irs' = Some (ident :: labels) /\
    (forall h : Lower,
       visit_LabelStatement ident (Some h) irs
       = h irs').
Proof.
  intros Ha. unfold visit_LabelStatement.
  change (asmBlock (hook PGO_setCurrentStmt irs)) with (asmBlock irs).
  rewrite Ha. eexists. split; [reflexivity |].
  repeat split; reflexivity.
Qed.

Lemma label_inside_asm_block_witness :
  exists irs',
    visit_LabelStatement "L1" None (set_asmBlock (Some []) initialState)
    = Ok irs' /\
    blocks irs' = blocks initialState.
Proof.
  destruct (label_inside_asm_block "L1" []
              (set_asmBlock (Some []) initialState) eq_refl)
    as (irs' & H & Hb & _).
  exists irs'. split; [exact H | exact Hb].
Defined.

(** ** If statements *)

(** X13: the blocks of an if statement, lowered in an existing block with
    [n0] blocks in the function before. With an else, the lowering is: the
    if body, once, in the state [entry]; then the else body, once, in the
    state [mid] makes of what the if body left; then [finish]. Without an
    else it is the if body in [entry], then [finish]. In [entry] the new,
    empty block [n0] is current, and the block the statement started in
    ends with the conditional branch on the value of the condition: to
    block [n0] if it holds and, if it does not, to the else block [n0+2],
    or to the end block [n0+1] when there is no else. [mid] makes the else
    block [n0+2] current, and [finish] the end block [n0+1]; before that,
    each of them appends the branch to the end block to the block the body
    before it left current when that block is open, and leaves the blocks
    alone when it is terminated. *)
Theorem if_statement_blocks hasMatch condition irs :
  scopeValid irs ->
  let n0 := length (blocks irs) in
  (exists (entry : IRState) (mid finish : IRState -> IRState),
     (forall hi he : Lower,
        visit_IfStatement hasMatch condition (Some hi) (Some he) irs
        = (s1 <-- hi entry ;; s2 <-- he (mid s1) ;; Ok (finish s2))) /\
     scopebb entry = n0 /\
     length (blocks entry) = n0 + 3 /\
     blockInstrs entry n0 = [] /\
     lastOf (blocks entry) (scopebb irs)
     = Some (CondBr (VExp condition) n0 (n0 + 2)) /\
     (forall s,
        scopebb (mid s) = n0 + 2 /\
        (scopeValid s -> scopereturned s = false ->
         lastOf (blocks (mid s)) (scopebb s) = Some (Br (n0 + 1))) /\
        (scopereturned s = true -> blocks (mid s) = blocks s)) /\
     (forall s,
        scopebb (finish s) = n0 + 1 /\
        (scopeValid s -> scopereturned s = false ->
         lastOf (blocks (finish s)) (scopebb s) = Some (Br (n0 + 1))) /\
        (scopereturned s = true -> blocks (finish s) = blocks s))) /\
  (exists (entry : IRState) (finish : IRState -> IRState),
     (forall hi : Lower,
        visit_IfStatement hasMatch condition (Some hi) None irs
        = (s1 <-- hi entry ;; Ok (finish s1))) /\
     scopebb entry = n0 /\
     length (blocks entry) = n0 + 2 /\
     blockInstrs entry n0 = [] /\
     lastOf (blocks entry) (scopebb irs)
     = Some (CondBr (VExp condition) n0 (n0 + 1)) /\
     (forall s,
        scopebb (finish s) = n0 + 1 /\
        (scopeValid s -> scopereturned s = false ->
         lastOf (blocks (finish s)) (scopebb s) = Some (Br (n0 + 1))) /\
        (scopereturned s = true -> blocks (finish s) = blocks s))).
Proof.
  intros Hv n0. unfold scopeValid in Hv.
  set (s_h := hook COV_LinecountInc
                (hook DBG_EmitBlockStart (hook PGO_setCurrentStmt irs))).
  set (s_c := emit (IExp condition)
                (if hasMatch then emit (IVarDecl "match") s_h else s_h)).
  set (s_end := snd (BasicBlock_Create "endif"
                       (snd (BasicBlock_Create "if" s_c)))).
  assert (Hc : length (blocks s_c) = n0 /\ scopebb s_c = scopebb irs).
  { subst s_c s_h. destruct hasMatch; (split; [red_all; lens; lia | reflexivity]). }
  destruct Hc as (Hc1 & Hc2).
  assert (Hend : forall t s,
            scopebb (setScope t (hook DBG_EmitBlockEnd
                                   (hook DBG_EmitBlockEnd (branchIfOpen (n0 + 1) s))))
            = t).
  { reflexivity. }
  assert (Hlink : forall s,
            (scopeValid s -> scopereturned s = false ->
             lastOf (blocks (branchIfOpen (n0 + 1) s)) (scopebb s)
             = Some (Br (n0 + 1))) /\
            (scopereturned s = true ->
             blocks (branchIfOpen (n0 + 1) s) = blocks s)).
  { intros s. split.
    - intros Hvs Hr. apply branchIfOpen_links; [exact Hvs | left; exact Hr].
    - intros Hr. unfold branchIfOpen. rewrite Hr. reflexivity. }
  split.
  - exists (hook PGO_emitCounterIncrement
              (hook DBG_EmitBlockStart
                 (setScope n0
                    (hook PGO_branchWeights
                       (insertAtEnd (CondBr (VExp condition) n0 (n0 + 2))
                          (scopebb irs)
                          (snd (BasicBlock_Create "else" s_end))))))),
      (fun s => hook DBG_EmitBlockStart
                  (setScope (n0 + 2)
                     (branchIfOpen (n0 + 1) (hook DBG_EmitBlockEnd s)))),
      (fun s => setScope (n0 + 1)
                  (hook DBG_EmitBlockEnd
                     (hook DBG_EmitBlockEnd (branchIfOpen (n0 + 1) s)))).
    split.
    { intros hi he. unfold visit_IfStatement.
      lazy beta iota zeta delta [toElemDtor]. cbn [fst snd].
      fold s_h. fold s_c. subst s_end.
      lazy beta iota zeta delta [BasicBlock_Create]. cbn [fst snd].
      repeat change (scopebb (set_blocks ?f ?s)) with (scopebb s).
      rewrite Hc2.
      assert (E2 : length (blocks (set_blocks
                     (fun bs => bs ++ [{| bbName := "if"; bbInstrs := [] |}])
                     s_c)) = n0 + 1).
      { etransitivity; [exact (length_Create "if" s_c) |].
        rewrite Hc1. lia. }
      assert (E3 : length (blocks (set_blocks
                     (fun bs => bs ++ [{| bbName := "endif"; bbInstrs := [] |}])
                     (set_blocks
                        (fun bs => bs ++ [{| bbName := "if"; bbInstrs := [] |}])
                        s_c))) = n0 + 2).
      { etransitivity;
          [exact (length_Create "endif" (snd (BasicBlock_Create "if" s_c))) |].
        rewrite (length_Create "if" s_c), Hc1. lia. }
      rewrite !E3, !E2, !Hc1.
      match goal with |- context [hi ?e] =>
        destruct (hi e) as [s1|]; [| reflexivity] end.
      cbn [bind].
      match goal with |- context [he ?e] =>
        destruct (he e) as [s2|]; reflexivity end. }
    assert (HX : forall X,
              length (blocks X) = n0 + 3 ->
              blockInstrs X n0 = [] ->
              let entry :=
                hook PGO_emitCounterIncrement
                  (hook DBG_EmitBlockStart
                     (setScope n0
                        (hook PGO_branchWeights
                           (insertAtEnd (CondBr (VExp condition) n0 (n0 + 2))
                              (scopebb irs) X)))) in
              scopebb entry = n0 /\
              length (blocks entry) = n0 + 3 /\
              blockInstrs entry n0 = [] /\
              lastOf (blocks entry) (scopebb irs)
              = Some (CondBr (VExp condition) n0 (n0 + 2))).
    { intros X HL HB entry. subst entry.
      split; [reflexivity |]. split.
      { change (length (blocks (insertAtEnd
                                  (CondBr (VExp condition) n0 (n0 + 2))
                                  (scopebb irs) X)) = n0 + 3).
        rewrite length_blocks_insertAtEnd. exact HL. }
      split.
      { change (blockInstrs (insertAtEnd (CondBr (VExp condition) n0 (n0 + 2))
                               (scopebb irs) X) n0 = []).
        rewrite blockInstrs_insertAtEnd_ne by (subst n0; lia). exact HB. }
      change (lastOf (blocks (insertAtEnd (CondBr (VExp condition) n0 (n0 + 2))
                                (scopebb irs) X)) (scopebb irs)
              = Some (CondBr (VExp condition) n0 (n0 + 2))).
      apply lastOf_insertAtEnd_eq. rewrite HL. subst n0. lia. }
    destruct (HX (snd (BasicBlock_Create "else" s_end)))
      as (A1 & A2 & A3 & A4).
    { subst s_end. rewrite !length_Create, Hc1. lia. }
    { subst s_end.
      rewrite !blockInstrs_Create_old
        by (rewrite ?length_Create, Hc1; lia).
      rewrite <- Hc1. apply blockInstrs_Create_new. }
    split; [exact A1 |]. split; [exact A2 |]. split; [exact A3 |].
    split; [exact A4 |].
    split.
    + intros s. split; [reflexivity |]. split.
      * intros Hvs Hr. exact (proj1 (Hlink (hook DBG_EmitBlockEnd s)) Hvs Hr).
      * intros Hr. exact (proj2 (Hlink (hook DBG_EmitBlockEnd s)) Hr).
    + intros s. split; [reflexivity |]. split.
      * intros Hvs Hr. exact (proj1 (Hlink s) Hvs Hr).
      * intros Hr. exact (proj2 (Hlink s) Hr).
  - exists (hook PGO_emitCounterIncrement
              (hook DBG_EmitBlockStart
                 (setScope n0
                    (hook PGO_branchWeights
                       (insertAtEnd (CondBr (VExp condition) n0 (n0 + 1))
                          (scopebb irs) s_end))))),
      (fun s => setScope (n0 + 1)
                  (hook DBG_EmitBlockEnd
                     (branchIfOpen (n0 + 1) (hook DBG_EmitBlockEnd s)))).
    split.
    { intros hi. unfold visit_IfStatement.
      lazy beta iota zeta delta [toElemDtor]. cbn [fst snd].
      fold s_h. fold s_c. subst s_end.
      lazy beta iota zeta delta [BasicBlock_Create]. cbn [fst snd].
      repeat change (scopebb (set_blocks ?f ?s)) with (scopebb s).
      rewrite Hc2.
      assert (E2 : length (blocks (set_blocks
                     (fun bs => bs ++ [{| bbName := "if"; bbInstrs := [] |}])
                     s_c)) = n0 + 1).
      { etransitivity; [exact (length_Create "if" s_c) |].
        rewrite Hc1. lia. }
      rewrite !E2, !Hc1.
      match goal with |- context [hi ?e] =>
        destruct (hi e) as [s1|]; reflexivity end. }
    split; [reflexivity |]. split.
    { change (length (blocks (insertAtEnd (CondBr (VExp condition) n0 (n0 + 1))
                                (scopebb irs) s_end)) = n0 + 2).
      rewrite length_blocks_insertAtEnd. subst s_end.
      rewrite !length_Create, Hc1. lia. }
    split.
    { change (blockInstrs (insertAtEnd (CondBr (VExp condition) n0 (n0 + 1))
                             (scopebb irs) s_end) n0 = []).
      rewrite blockInstrs_insertAtEnd_ne by (subst n0; lia).
      subst s_end.
      rewrite blockInstrs_Create_old by (rewrite ?length_Create, Hc1; lia).
      rewrite <- Hc1. apply blockInstrs_Create_new. }
    split.
    { change (lastOf (blocks (insertAtEnd (CondBr (VExp condition) n0 (n0 + 1))
                                (scopebb irs) s_end)) (scopebb irs)
              = Some (CondBr (VExp condition) n0 (n0 + 1))).
      apply lastOf_insertAtEnd_eq. subst s_end.
      rewrite !length_Create, Hc1. subst n0. lia. }
    intros s. split; [reflexivity |]. split.
    + intros Hvs Hr. exact (proj1 (Hlink (hook DBG_EmitBlockEnd s)) Hvs Hr).
    + intros Hr. exact (proj2 (Hlink (hook DBG_EmitBlockEnd s)) Hr).
Qed.

Lemma if_statement_blocks_witness :
  exists (entry : IRState) (finish : IRState -> IRState),
    visit_IfStatement false (OtherExp 0 false) (Some (fun s => Ok s)) None
      initialState
    = Ok (finish entry) /\
    scopebb entry = 1 /\
    lastOf (blocks entry) 0 = Some (CondBr (VExp (OtherExp 0 false)) 1 2) /\
    scopebb (finish entry) = 2.
Proof.
  destruct (if_statement_blocks false (OtherExp 0 false) initialState)
    as (_ & entry & finish & Heq & Hs & _ & _ & Hl & Hf).
  - vm_compute. lia.
  - exists entry, finish. split; [exact (Heq (fun s => Ok s)) |].
    split; [exact Hs |]. split; [exact Hl |]. exact (proj1 (Hf entry)).
Defined.

(** ** Compound statements *)

Lemma acceptAll_app l1 l2 s :
  acceptAll (l1 ++ l2) s = (s1 <-- acceptAll l1 s ;; acceptAll l2 s1).
Proof.
  revert s. induction l1 as [|[h|] l1 IH]; intros s; cbn [acceptAll app].
  - reflexivity.
  - destruct (h s) as [s1|a]; [exact (IH s1) | reflexivity].
  - exact (IH s).
Qed.

Lemma acceptAll_omit l s :
  acceptAll (map Some (omap id l)) s = acceptAll l s.
Proof.
  revert s. induction l as [|[h|] l IH]; intros s; cbn; [reflexivity | |].
  - destruct (h s) as [s1|a]; [exact (IH s1) | reflexivity].
  - exact (IH s).
Qed.

(** X14: a compound statement lowers its statements in order. Its null
    entries are skipped: the compound of the statements that are there is
    lowered to the same. The statements behind a part that was lowered with
    success are lowered from the state this part left, and when a part ends
    the lowering, the statements behind it are not lowered at all. *)
Theorem compound_statement_sequences cfg ss1 ss2 irs :
  Statement_toIR cfg (CompoundStatement (map Some (omap id ss1))) irs
  = Statement_toIR cfg (CompoundStatement ss1) irs /\
  match Statement_toIR cfg (CompoundStatement ss1) irs with
  | Ok irs1 =>
      Statement_toIR cfg (CompoundStatement (ss1 ++ ss2)) irs
      = acceptAll (map (option_map (Statement_toIR cfg)) ss2) irs1
  | Aborted a =>
      Statement_toIR cfg (CompoundStatement (ss1 ++ ss2)) irs = Aborted a
  end.
Proof.
  cbn [Statement_toIR]. unfold visit_CompoundStatement. split.
  - rewrite <- (acceptAll_omit (map (option_map (Statement_toIR cfg)) ss1)).
    f_equal. clear. induction ss1 as [|[s|] ss1 IH]; cbn; [reflexivity | |].
    + f_equal. exact IH.
    + exact IH.
  - rewrite map_app, acceptAll_app.
    destruct (acceptAll _ _); reflexivity.
Qed.

(** ** The path of the executable *)

(** X15: the protocol of the executable path. Before the path is
    initialised every query stops on its assertion. Initialising stores the
    path of the main executable; when this path is not empty, initialising
    again stops on the assertion, the path is handed out as stored, the
    binary directory is its parent, a suffix is appended to the binary
    directory, and the base directory is the parent of the binary
    directory, unless that one is empty, which stops on the assertion. *)
Theorem exe_path_protocol (getMainExecutable parent_path : string -> string)
    (append : string -> string -> string) arg0 :
  let exePath := getMainExecutable arg0 in
  exe_path.initialize getMainExecutable arg0 "" = Ok exePath /\
  exe_path.getExePath "" = Aborted (AssertionFailed "!exePath.empty()") /\
  exe_path.getBinDir parent_path ""
  = Aborted (AssertionFailed "!exePath.empty()") /\
  exe_path.getBaseDir parent_path ""
  = Aborted (AssertionFailed "!exePath.empty()") /\
  (forall suffix,
     exe_path.prependBinDir parent_path append suffix ""
     = Aborted (AssertionFailed "!exePath.empty()")) /\
  (exePath <> "" ->
   (forall arg1,
      exe_path.initialize getMainExecutable arg1 exePath
      = Aborted (AssertionFailed "exePath.empty()")) /\
   exe_path.getExePath exePath = Ok exePath /\
   exe_path.getBinDir parent_path exePath = Ok (parent_path exePath) /\
   (forall suffix,
      exe_path.prependBinDir parent_path append suffix exePath
      = Ok (append (parent_path exePath) suffix)) /\
   exe_path.getBaseDir parent_path exePath
   = if exe_path.empty (parent_path exePath)
     then Aborted (AssertionFailed "!binDir.empty()")
     else Ok (parent_path (parent_path exePath))).
Proof.
  intros exePath. repeat split; try reflexivity.
  - intros arg1. unfold exe_path.initialize, exe_path.empty.
    rewrite bool_decide_eq_false_2 by exact H. reflexivity.
  - unfold exe_path.getExePath, exe_path.empty.
    rewrite bool_decide_eq_false_2 by exact H. reflexivity.
  - unfold exe_path.getBinDir, exe_path.empty.
    rewrite bool_decide_eq_false_2 by exact H. reflexivity.
  - intros suffix.
    unfold exe_path.prependBinDir, exe_path.getBinDir, exe_path.empty.
    rewrite bool_decide_eq_false_2 by exact H. reflexivity.
  - unfold exe_path.getBaseDir, exe_path.getBinDir.
    unfold exe_path.empty at 1.
    rewrite bool_decide_eq_false_2 by exact H. cbn [negb assert bind].
    destruct (exe_path.empty (parent_path exePath)); reflexivity.
Qed.

Lemma exe_path_protocol_witness :
  exe_path.getBaseDir (fun s => String.substring 0 (String.length s - 4) s)
    "/opt/ldc/bin/ldc"
  = Ok "/opt/ldc".
Proof.
  destruct (exe_path_protocol (fun _ => "/opt/ldc/bin/ldc")
              (fun s => String.substring 0 (String.length s - 4) s)
              (fun a b => a +:+ b) "ldc")
    as (_ & _ & _ & _ & _ & H).
  destruct H as (_ & _ & _ & _ & H).
  - discriminate.
  - exact H.
Defined.

(** ** The body of a switch *)

(** X16: the state in which the body of a switch is lowered. When the
    scratch state of the cases and of the default is reset, as the switch
    asserts, the lowering of the switch is the lowering of its body, once,
    in the state [s_in], followed by a part [K] that does not depend on
    the body. With [n0] blocks before the statement, [s_in] has the new,
    empty block [n0] current and the switch as innermost target: a break
    target to the end block [n0+1], recorded at the cleanup depth of the
    entry, that is no continue target; when there is a default, block
    [n0+2] is registered for it. A break without label lowered there emits
    nothing but the branch to the end block, and a continue without label
    that is lowered with success leads to the continue block of a target
    of the enclosing statements. When [K] succeeds, the end block is
    current, the target of the switch is popped, and the pending cleanups
    are those the body left. *)
Theorem switch_body_entry cfg stmt condition isintegral ty cases sdefault
    irs :
  forallb (fun cs => caseIsReset (cs_id cs) irs) cases = true ->
  match sdefault with
  | Some d => bodyBB (caseState d irs) = None
  | None => True
  end ->
  let n0 := length (blocks irs) in
  exists (s_in : IRState) (K : IRState -> Result IRState),
    (forall body : Lower,
       visit_SwitchStatement cfg stmt condition isintegral ty cases sdefault
         body irs
       = (s_b <-- body s_in ;; K s_b)) /\
    scopebb s_in = n0 /\
    blockInstrs s_in n0 = [] /\
    loopTargets s_in
    = {| targetStatement := stmt; continueBlock := None;
         breakBlock := n0 + 1;
         cleanupScope := length (cleanupScopes irs) |} :: loopTargets irs /\
    cleanupScopes s_in = cleanupScopes irs /\
    match sdefault with
    | Some d => bodyBB (caseState d s_in) = Some (n0 + 2)
    | None => True
    end /\
    (exists s',
       visit_BreakStatement None s_in = Ok s' /\
       emittedIn s_in s' n0 = [Br (n0 + 1)]) /\
    (forall s',
       visit_ContinueStatement None s_in = Ok s' ->
       exists t c,
         In t (loopTargets irs) /\ continueBlock t = Some c /\
         emittedIn s_in s' n0
         = chainHead (cleanupsAbove (cleanupScope t) s_in) c
             (length (blocks s_in))) /\
    (forall s_b s',
       K s_b = Ok s' ->
       scopebb s' = n0 + 1 /\
       loopTargets s' = tail (loopTargets s_b) /\
       cleanupScopes s' = cleanupScopes s_b).
Proof.
  intros Hc Hd n0.
  pose proof (switch_parts cfg stmt condition isintegral ty cases sdefault
                irs) as Heq.
  pose proof (switch_entry_facts stmt cases sdefault irs)
    as (F1 & F2 & F3 & F4 & F5 & F6).
  cbv zeta in Heq, F1, F2, F3, F4, F5, F6. fold n0 in Heq, F1, F2, F3, F4, F5, F6.
  match type of F1 with scopebb ?E = _ => set (s_in := E) in * end.
  exists s_in,
    (fun s_b =>
       s_post <--
         (if forallb isConstantLabel cases
          then emitSwitchInst cfg condition isintegral ty cases
                 match sdefault with Some _ => Some (n0 + 2) | None => None end
                 (n0 + 1)
                 (setScope (scopebb irs)
                    (branchIfOpen (n0 + 1) (popBreakTarget s_b)))
          else emitCompareBranches cfg condition cases
                 match sdefault with Some _ => Some (n0 + 2) | None => None end
                 (n0 + 1)
                 (setScope (scopebb irs)
                    (branchIfOpen (n0 + 1) (popBreakTarget s_b)))) ;;
       Ok (let s := foldr (fun cs => resetCase (cs_id cs))
                      (setScope (n0 + 1) s_post) cases in
           match sdefault with
           | Some d => set_bodyBB d None s
           | None => s
           end)).
  split.
  { intros body. rewrite Heq.
    change (forallb (fun cs => caseIsReset (cs_id cs)
                                 (hook COV_LinecountInc
                                    (hook DBG_EmitStopPoint
                                       (hook PGO_setCurrentStmt irs)))) cases)
      with (forallb (fun cs => caseIsReset (cs_id cs) irs) cases).
    rewrite Hc. cbn [assert bind].
    destruct sdefault as [d|].
    - change (caseState d (hook COV_LinecountInc
                             (hook DBG_EmitStopPoint
                                (hook PGO_setCurrentStmt irs))))
        with (caseState d irs).
      rewrite Hd, bool_decide_eq_true_2 by reflexivity. reflexivity.
    - reflexivity. }
  assert (Hvin : scopeValid s_in).
  { unfold scopeValid. rewrite F1, F2. destruct sdefault; lia. }
  assert (Hopen : scopereturned s_in = false).
  { unfold scopereturned. rewrite F1.
    apply blockTerminated_false_spec. intros j Hj.
    rewrite (F3 n0 (le_n _)) in Hj. discriminate Hj. }
  split; [exact F1 |]. split; [exact (F3 n0 (le_n _)) |].
  split; [exact F4 |]. split; [exact F5 |].
  split; [destruct sdefault; exact F6 |].
  split.
  { rewrite <- F1. eexists. split.
    - unfold visit_BreakStatement.
      change (scopereturned (hook PGO_setCurrentStmt s_in))
        with (scopereturned s_in).
      rewrite Hopen. unfold breakToClosest.
      change (loopTargets (hook COV_LinecountInc
                (hook DBG_EmitStopPoint (hook PGO_setCurrentStmt s_in))))
        with (loopTargets s_in).
      rewrite F4. reflexivity.
    - set (t0 := hook COV_LinecountInc
                   (hook DBG_EmitStopPoint (hook PGO_setCurrentStmt s_in))).
      cbn [breakBlock cleanupScope].
      rewrite <- F5.
      change (emittedIn t0
                (setScope
                   (length (blocks (runCleanups (length (cleanupScopes t0))
                                      (n0 + 1) t0)))
                   (snd (BasicBlock_Create "afterbreak"
                           (runCleanups (length (cleanupScopes t0))
                              (n0 + 1) t0))))
                (scopebb t0) = [Br (n0 + 1)]).
      rewrite jump_emitted by exact Hvin.
      rewrite cleanupsAbove_top. reflexivity. }
  split.
  { intros s' E. rewrite <- F1.
    destruct (visit_ContinueStatement_spec None s_in s' Hvin E)
      as (t & c & Hin & Hct & _ & Hem & _).
    exists t, c. split; [| split; [exact Hct | exact Hem]].
    rewrite F4 in Hin. destruct Hin as [<- | Hin]; [| exact Hin].
    discriminate Hct. }
  intros s_b s' HK. inv_bind HK. apply Ok_inj in HK. subst s'.
  cbv zeta.
  match goal with |- context [foldr ?f ?x cases] =>
    destruct (resetCases_SameGraph cases x) as (_ & R2 & R3 & _ & R5) end.
  assert (G : Grows (setScope (scopebb irs)
                       (branchIfOpen (n0 + 1) (popBreakTarget s_b))) irs0).
  { destruct (forallb isConstantLabel cases).
    - exact (emitSwitchInst_Grows _ _ _ _ _ _ _ _ _ Hstep).
    - exact (emitCompareBranches_Grows _ _ _ _ _ _ _ Hstep). }
  destruct G as (_ & G2 & _ & G4).
  assert (Hb : loopTargets
                 (setScope (scopebb irs)
                    (branchIfOpen (n0 + 1) (popBreakTarget s_b)))
               = tail (loopTargets s_b) /\
               cleanupScopes
                 (setScope (scopebb irs)
                    (branchIfOpen (n0 + 1) (popBreakTarget s_b)))
               = cleanupScopes s_b).
  { unfold branchIfOpen.
    destruct (scopereturned (popBreakTarget s_b)); split; reflexivity. }
  destruct Hb as (Hb1 & Hb2).
  destruct sdefault;
    (split; [exact R2 |]; split;
     [etransitivity; [exact R5 |]; etransitivity; [exact G4 | exact Hb1]
     | etransitivity; [exact R3 |]; etransitivity; [exact G2 | exact Hb2]]).
Qed.

Lemma switch_body_entry_witness :
  exists (s_in s' : IRState),
    scopebb s_in = 1 /\
    visit_BreakStatement None s_in = Ok s' /\
    emittedIn s_in s' 1 = [Br 2].
Proof.
  destruct (switch_body_entry exampleConfig 1 (OtherExp 0 false) true Tother
              [] None initialState eq_refl I)
    as (s_in & K & _ & Hs & _ & _ & _ & _ & (s' & Hb & He) & _).
  exists s_in, s'. split; [exact Hs |]. split; [exact Hb | exact He].
Defined.

(** ** The instrumented switch instruction *)

Lemma switchCasesInstr_spec cases :
  forall s r,
    switchCasesInstr cases s = Ok r ->
    exists sc,
      switchCases cases s = Ok sc /\
      fst r = imap (fun i p => (fst p, length (blocks s) + i)) sc /\
      length (blocks (snd r)) = length (blocks s) + length cases /\
      caseStates (snd r) = caseStates s /\
      (forall b, b < length (blocks s) ->
                 blocks (snd r) !! b = blocks s !! b) /\
      (forall i v body,
         sc !! i = Some (v, body) ->
         blockInstrs (snd r) (length (blocks s) + i) = [Br body]) /\
      hooks (snd r)
      = replicate (length cases) PGO_emitCounterIncrement ++ hooks s.
Proof.
  induction cases as [|cs cases IH]; intros s r H;
    cbn [switchCasesInstr] in H.
  - apply Ok_inj in H. subst r. exists []. cbn [fst snd length replicate app].
    repeat split; try reflexivity.
    + lia.
    + intros i v body Hi. discriminate Hi.
  - lazy beta iota zeta delta [BasicBlock_Create] in H.
    destruct (isaConstantInt _) as [v|] eqn:Ev; [| discriminate H].
    destruct (bodyBB _) as [bb|] eqn:Eb; [| discriminate H].
    change (isaConstantInt (llvmIdx (caseState (cs_id cs) s)) = Some v) in Ev.
    change (bodyBB (caseState (cs_id cs) s) = Some bb) in Eb.
    apply bind_Ok in H. destruct H as (r1 & Hr1 & H).
    apply Ok_inj in H. subst r.
    match type of Hr1 with switchCasesInstr _ ?x = _ => set (s1 := x) in * end.
    destruct (IH s1 r1 Hr1) as (sc1 & Hsc & Hf & Hlen & Hcs & Hold & Hnew & Hh).
    assert (L1 : length (blocks s1) = S (length (blocks s))).
    { subst s1. red_all. lens. lia. }
    assert (C1 : caseStates s1 = caseStates s) by reflexivity.
    exists ((v, bb) :: sc1). cbn [fst snd].
    split.
    { cbn [switchCases]. rewrite Ev, Eb.
      rewrite <- (switchCases_ext cases s s1 C1), Hsc. reflexivity. }
    split.
    { cbn [imap fst]. rewrite Nat.add_0_r. f_equal. rewrite Hf.
      apply imap_ext. intros i p _. unfold compose. rewrite L1.
      f_equal. lia. }
    split; [cbn [length]; rewrite Hlen, L1; lia |].
    split; [rewrite Hcs; exact C1 |].
    split.
    { intros b Hb. rewrite Hold by lia. subst s1. red_all.
      rewrite list_lookup_alter_ne by (lens; lia).
      apply lookup_app_l. exact Hb. }
    split.
    { intros [|i] v0 body Hi.
      - cbn in Hi. injection Hi as <- <-. rewrite Nat.add_0_r.
        unfold blockInstrs. rewrite Hold by lia.
        subst s1. red_all. look. reflexivity.
      - cbn in Hi. rewrite <- (Hnew i v0 body Hi). f_equal. lia. }
    rewrite Hh. cbn [length replicate].
    change (hooks s1) with (PGO_emitCounterIncrement :: hooks s).
    generalize (hooks s) as l. generalize (length cases) as n.
    induction n as [|n IHn]; intros l; cbn; [reflexivity |].
    f_equal. apply IHn.
Qed.

(** X17: the switch instruction under profile instrumentation. When the
    table strategy is chosen for an integral switch while instrumentation
    is on, with [n0] blocks before the switch instruction is emitted: the
    instruction ends the block that is current, its default is the new
    counter block [n0], which holds nothing but the branch to the default
    block (the end block when there is no default), and its case at
    position [i] has the value the plain strategy gives it and leads to the
    new counter block [n0+1+i], which holds nothing but the branch to the
    body of that case. One counter increment is emitted per case and one
    for the default. *)
Theorem instrumented_switch cfg condition ty cases defbb endbb s s' :
  genInstrProf cfg = true -> scopeValid s ->
  emitSwitchInst cfg condition true ty cases defbb endbb s = Ok s' ->
  let n0 := length (blocks s) in
  exists sc,
    switchCases cases s = Ok sc /\
    lastOf (blocks s') (scopebb s)
    = Some (Switch (VExp condition) n0
              (imap (fun i p => (fst p, n0 + 1 + i)) sc)) /\
    blockInstrs s' n0 = [Br (default endbb defbb)] /\
    (forall i v body,
       sc !! i = Some (v, body) -> blockInstrs s' (n0 + 1 + i) = [Br body]) /\
    hooks s'
    = PGO_branchWeights
        :: replicate (S (length cases)) PGO_emitCounterIncrement ++ hooks s.
Proof.
  intros Hprof Hv H n0. unfold emitSwitchInst in H. rewrite Hprof in H.
  cbn [negb bind] in H.
  lazy beta iota zeta delta [BasicBlock_Create toElemDtor] in H.
  apply bind_Ok in H. destruct H as (s2 & H & E).
  apply Ok_inj in E. subst s'.
  apply bind_Ok in H. destruct H as (r & Hr & E).
  apply Ok_inj in E. subst s2.
  match type of Hr with switchCasesInstr _ ?x = _ => set (s1 := x) in * end.
  destruct (switchCasesInstr_spec cases s1 r Hr)
    as (sc & Hsc & Hf & Hlen & Hcs & Hold & Hnew & Hh).
  unfold scopeValid in Hv.
  assert (L1 : length (blocks s1) = n0 + 1).
  { subst s1 n0. red_all. lens. lia. }
  assert (C1 : caseStates s1 = caseStates s) by reflexivity.
  assert (L0 : length (blocks (emit (IExp condition) s)) = n0)
    by apply length_blocks_insertAtEnd.
  assert (Hne : scopebb s <> n0) by (subst n0; lia).
  assert (Hne' : forall i, scopebb s <> n0 + 1 + i) by (subst n0; lia).
  exists sc.
  split; [rewrite <- (switchCases_ext cases s s1 C1); exact Hsc |].
  split.
  { change (scopebb (insertAtEnd (IExp condition) (scopebb s) s))
      with (scopebb s).
    rewrite Hf. rewrite L1, L0.
    match goal with
    | |- lastOf (blocks (hook _ ?x)) _ = _ =>
        change (lastOf (blocks x) (scopebb s)
                = Some (Switch (VExp condition) n0
                          (imap (fun i p => (fst p, n0 + 1 + i)) sc)))
    end.
    apply lastOf_insertAtEnd_eq. rewrite Hlen, L1. subst n0. lia. }
  split.
  { rewrite blockInstrs_hook, blockInstrs_insertAtEnd_ne
      by exact Hne.
    unfold blockInstrs. rewrite Hold by (rewrite L1; lia).
    subst s1 n0. red_all. look. reflexivity. }
  split.
  { intros i v body Hi.
    rewrite blockInstrs_hook, blockInstrs_insertAtEnd_ne
      by exact (Hne' i).
    rewrite <- L1. exact (Hnew i v body Hi). }
  change (hooks (hook PGO_branchWeights ?x)) with (PGO_branchWeights :: hooks x).
  cbn [hook hooks]. f_equal.
  change (hooks (insertAtEnd _ _ (snd r))) with (hooks (snd r)).
  rewrite Hh. cbn [replicate].
  change (hooks s1) with (PGO_emitCounterIncrement :: hooks s).
  generalize (hooks s) as l. generalize (length cases) as n.
  induction n as [|n IHn]; intros l; cbn; [reflexivity |].
  f_equal. apply IHn.
Qed.

Lemma instrumented_switch_witness :
  exists s',
    emitSwitchInst
      profiledConfig
      (OtherExp 0 false) true Tother
      [{| cs_id := 11; cs_exp := IntegerExp 1 |}] None 0
      (set_llvmIdx 11 (Some (VConstInt 1))
         (set_bodyBB 11 (Some 0) initialState))
    = Ok s' /\
    blockInstrs s' 1 = [Br 0] /\ blockInstrs s' 2 = [Br 0].
Proof.
  destruct (emitSwitchInst
              profiledConfig
              (OtherExp 0 false) true Tother
              [{| cs_id := 11; cs_exp := IntegerExp 1 |}] None 0
              (set_llvmIdx 11 (Some (VConstInt 1))
                 (set_bodyBB 11 (Some 0) initialState)))
    as [s'|] eqn:E; [| vm_compute in E; discriminate E].
  pose proof E as E'.
  apply instrumented_switch in E';
    [| reflexivity | vm_compute; lia].
  destruct E' as (sc & Hsc & _ & Hd & Hc & _).
  exists s'. split; [reflexivity |]. split; [exact Hd |].
  vm_compute in Hsc. apply Ok_inj in Hsc. subst sc.
  exact (Hc 0 (VConstInt 1) 0 eq_refl).
Defined.

(** ** The control flow of loops *)

(** The last instruction of a block of a block list written as it was
    built, where [Hv] bounds the block the statement started in. *)
Ltac last_of Hv :=
  unfold lastOf; red_all; lens; look;
  try (destruct (lookup_lt_is_Some_2 _ _ Hv) as [b0 Hb0]; rewrite Hb0);
  cbn [fmap option_fmap option_map appendInstr bbInstrs bbName app];
  rewrite ?app_assoc, ?last_snoc; cbn [last];
  first [ reflexivity
        | apply f_equal; apply f_equal; lia
        | apply f_equal; apply f_equal2; lia ].

(** The last instruction of a block that the lowering appended to last. *)
Ltac appended_last :=
  unfold lastOf; red_all; lens;
  rewrite lookup_alter_at by lia;
  match goal with
  | |- context [?l !! ?j] =>
      let b0 := fresh "b0" in
      let Hb0 := fresh "Hb0" in
      destruct (lookup_lt_is_Some_2 l j) as [b0 Hb0];
      [lens; lia | rewrite Hb0]
  end;
  cbn [fmap option_fmap option_map appendInstr bbInstrs bbName];
  rewrite last_snoc;
  first [ reflexivity
        | apply f_equal; apply f_equal; lia
        | apply f_equal; apply f_equal2; lia ].

Lemma branchIfOpen_after_emit t i s :
  isTerminator i = false -> scopeValid s ->
  branchIfOpen t (emit i s) = insertAtEnd (Br t) (scopebb s) (emit i s).
Proof.
  intros Hi Hv. unfold branchIfOpen.
  assert (Hr : scopereturned (emit i s) = false).
  { apply blockTerminated_false_spec. intros j Hj.
    change (scopebb (emit i s)) with (scopebb s) in Hj.
    rewrite (blockInstrs_emit_at i s (scopebb s) eq_refl Hv) in Hj.
    rewrite last_snoc in Hj. injection Hj as <-. exact Hi. }
  rewrite Hr. reflexivity.
Qed.

Ltac open_branch :=
  repeat match goal with
         | H : context [branchIfOpen ?t ?s] |- _ =>
             let bs := fresh "bs" in
             let E := fresh "E" in
             let L := fresh "L" in
             destruct (branchIfOpen_ex t s) as (bs & E & L);
             rewrite E in *; clear E
         | |- context [branchIfOpen ?t ?s] =>
             let bs := fresh "bs" in
             let E := fresh "E" in
             let L := fresh "L" in
             destruct (branchIfOpen_ex t s) as (bs & E & L);
             rewrite E in *; clear E
         end.

(** X19: the back edge and the exit of a loop. With [n0] blocks before
    the statement, when the body never drops a block and the lowering
    succeeds: a do-while loop leaves its end block [n0+2] current and its
    condition block [n0+1] ends with the conditional branch on the value
    of the condition, back to the body block [n0] or out to the end block;
    a for loop with an increment leaves its end block [n0+3] current and
    its increment block [n0+2] ends by branching back to the condition
    block [n0]; a foreach and a foreach over a range leave the end block
    [n0+3] current and the block [n0+2] that steps the key ends by
    branching back to the condition block [n0]; a while loop leaves its
    end block [n0+2] current. *)
Theorem loop_back_edges stmt (body : option Lower) irs irs' :
  BalancedOpt body ->
  let n0 := length (blocks irs) in
  (forall condition,
     visit_DoStatement stmt condition body irs = Ok irs' ->
     scopebb irs' = n0 + 2 /\
     lastOf (blocks irs') (n0 + 1)
     = Some (CondBr (VExp condition) n0 (n0 + 2))) /\
  (forall condition increment,
     visit_ForStatement stmt None condition (Some increment) body irs
     = Ok irs' ->
     scopebb irs' = n0 + 3 /\
     lastOf (blocks irs') (n0 + 2) = Some (Br n0)) /\
  (forall op hasKey valueIsRef aggr,
     visit_ForeachStatement stmt op hasKey valueIsRef aggr body irs
     = Ok irs' ->
     scopebb irs' = n0 + 3 /\
     lastOf (blocks irs') (n0 + 2) = Some (Br n0)) /\
  (forall op lwr upr,
     visit_ForeachRangeStatement stmt op lwr upr body irs = Ok irs' ->
     scopebb irs' = n0 + 3 /\
     lastOf (blocks irs') (n0 + 2) = Some (Br n0)) /\
  (forall condition,
     visit_WhileStatement stmt condition body irs = Ok irs' ->
     scopebb irs' = n0 + 2).
Proof.
  intros HB n0. subst n0.
  assert (HA : Balanced (acceptOpt body)) by (apply acceptOpt_Balanced; exact HB).
  split; [| split; [| split; [| split]]].
  - intros condition H. unfold visit_DoStatement in H.
    lazy beta iota zeta delta [BasicBlock_Create toElemDtor] in H.
    apply bind_Ok in H. destruct H as (u & _ & H).
    apply bind_Ok in H. destruct H as (s_out & Hb & H).
    apply Ok_inj in H. subst irs'.
    pose proof (HA _ _ Hb) as [B1 _ _ _ _].
    split; [red_all; lens; lia |].
    appended_last.
  - intros condition increment H. unfold visit_ForStatement in H.
    lazy beta iota zeta delta [BasicBlock_Create toElemDtor acceptOpt] in H.
    apply bind_Ok in H. destruct H as (s1 & E1 & H).
    apply Ok_inj in E1. subst s1.
    apply bind_Ok in H. destruct H as (u & _ & H).
    destruct condition as [c|];
      lazy beta iota zeta delta [BasicBlock_Create toElemDtor fst snd] in H;
      apply bind_Ok in H; destruct H as (u' & _ & H);
      apply bind_Ok in H; destruct H as (s_out & Hb & H);
      apply Ok_inj in H; subst irs';
      pose proof (HA _ _ Hb) as [B1 _ _ _ _];
      (rewrite branchIfOpen_after_emit;
       [| reflexivity
        | unfold scopeValid; open_branch; red_all; lens; lia ]);
      open_branch;
      (split; [red_all; lens; lia | appended_last]).
  - intros op hasKey valueIsRef aggr H. unfold visit_ForeachStatement in H.
    lazy beta iota zeta delta [BasicBlock_Create toElemDtor] in H.
    apply bind_Ok in H. destruct H as (s_out & Hb & H).
    apply Ok_inj in H. subst irs'.
    pose proof (HA _ _ Hb) as [B1 _ _ _ _].
    open_branch.
    destruct op, hasKey, valueIsRef;
      (split; [red_all; lens; lia | appended_last]).
  - intros op lwr upr H. unfold visit_ForeachRangeStatement in H.
    lazy beta iota zeta delta [BasicBlock_Create toElemDtor] in H.
    apply bind_Ok in H. destruct H as (s_out & Hb & H).
    apply Ok_inj in H. subst irs'.
    pose proof (HA _ _ Hb) as [B1 _ _ _ _].
    open_branch.
    destruct op; (split; [red_all; lens; lia | appended_last]).
  - intros condition H. unfold visit_WhileStatement in H.
    lazy beta iota zeta delta [BasicBlock_Create toElemDtor] in H.
    apply bind_Ok in H. destruct H as (s_out & Hb & H).
    apply Ok_inj in H. subst irs'.
    red_all. lens. lia.
Qed.

Lemma loop_back_edges_witness :
  exists irs',
    visit_DoStatement 7 (OtherExp 0 false) (Some (fun s => Ok s)) initialState
    = Ok irs' /\
    lastOf (blocks irs') 2 = Some (CondBr (VExp (OtherExp 0 false)) 1 3).
Proof.
  destruct (visit_DoStatement 7 (OtherExp 0 false) (Some (fun s => Ok s))
              initialState) as [irs'|] eqn:E;
    [| vm_compute in E; discriminate E].
  destruct (loop_back_edges 7 (Some (fun s => Ok s)) initialState irs')
    as (H & _).
  - intros h [= <-] s s' Hs. apply Ok_inj in Hs. subst s'.
    apply Preserves_refl.
  - destruct (H _ E) as (_ & HL).
    exists irs'. split; [reflexivity | exact HL].
Defined.

(** ** Loops register their targets *)

Lemma target_intro s t rest stmt cont brk depth rest' :
  loopTargets s = t :: rest ->
  targetStatement t = stmt ->
  continueBlock t = Some cont ->
  breakBlock t = brk ->
  cleanupScope t = depth ->
  rest = rest' ->
  loopTargets s
  = {| targetStatement := stmt; continueBlock := Some cont;
       breakBlock := brk; cleanupScope := depth |} :: rest'.
Proof.
  intros -> <- Hc <- <- <-. destruct t as [a c b d]. simpl in *.
  subst c. reflexivity.
Qed.

(** The loop target on top of the targets of a state written as it was
    built. *)
Ltac target_side :=
  red_all; cbn [targetStatement continueBlock breakBlock cleanupScope];
  lens; first [lia | apply (f_equal Some); lia | reflexivity].

Ltac targeted :=
  eapply target_intro; [ red_all; reflexivity | target_side .. ].

Lemma loopTargets_branchIfOpen t s :
  loopTargets (branchIfOpen t s) = loopTargets s.
Proof. unfold branchIfOpen. destruct (scopereturned s); reflexivity. Qed.

(** An assertion of an open block that holds. *)
Ltac open_here Hr :=
  match goal with
  | |- context [assert (negb (scopereturned ?x)) ?m] =>
      let Ha := fresh "Ha" in
      assert (Ha : scopereturned x = false);
      [| rewrite Ha; cbn [negb assert bind] ]
  end.

(** X2: the loop targets and the headers of while, do-while and for,
    lowered in an existing block with [n0] blocks in the function before.
    The lowering of each of them is the lowering of its body, once (not at
    all when there is none), in the state [entry], followed by a part [K]
    that does not depend on the body and makes the end block current and
    pops the target of the loop. For a while loop, [entry] has block
    [n0+1] current and the target of the loop on top, with continue
    leading to the condition block [n0] and break to the end block [n0+2],
    recorded at the cleanup depth of the entry; the block the statement
    started in ends by branching to the condition block, and that one ends
    with the conditional branch on the value of the condition to the body
    or to the end block. For a do-while loop, which asserts an open block,
    [entry] has block [n0] current, to which the block the statement
    started in branches, continue leads to the condition block [n0+1] and
    break to [n0+2]. For a for loop without initialisation, which asserts
    an open block, [entry] has block [n0+1] current, continue leads to the
    increment block [n0+2] and break to the end block [n0+3]; the block
    the statement started in ends by branching to the condition block
    [n0], which ends with the conditional branch, on the value of the
    condition or on the constant true when there is none, to the body or
    to the end block. *)
Theorem loops_register_their_targets stmt irs :
  scopeValid irs ->
  let n0 := length (blocks irs) in
  let target cont brk :=
    {| targetStatement := stmt; continueBlock := Some cont;
       breakBlock := brk; cleanupScope := length (cleanupScopes irs) |} in
  (forall condition,
     exists (entry : IRState) (K : IRState -> IRState),
       (forall body : option Lower,
          visit_WhileStatement stmt condition body irs
          = (s <-- acceptOpt body entry ;; Ok (K s))) /\
       scopebb entry = n0 + 1 /\
       loopTargets entry = target n0 (n0 + 2) :: loopTargets irs /\
       lastOf (blocks entry) (scopebb irs) = Some (Br n0) /\
       lastOf (blocks entry) n0
       = Some (CondBr (VExp condition) (n0 + 1) (n0 + 2)) /\
       (forall s,
          scopebb (K s) = n0 + 2 /\
          loopTargets (K s) = tail (loopTargets s))) /\
  (scopereturned irs = false ->
   forall condition,
     exists (entry : IRState) (K : IRState -> IRState),
       (forall body : option Lower,
          visit_DoStatement stmt condition body irs
          = (s <-- acceptOpt body entry ;; Ok (K s))) /\
       scopebb entry = n0 /\
       loopTargets entry = target (n0 + 1) (n0 + 2) :: loopTargets irs /\
       lastOf (blocks entry) (scopebb irs) = Some (Br n0) /\
       (forall s,
          scopebb (K s) = n0 + 2 /\
          loopTargets (K s) = tail (loopTargets s))) /\
  (scopereturned irs = false ->
   forall condition increment,
     exists (entry : IRState) (K : IRState -> IRState),
       (forall body : option Lower,
          visit_ForStatement stmt None condition increment body irs
          = (s <-- acceptOpt body entry ;; Ok (K s))) /\
       scopebb entry = n0 + 1 /\
       loopTargets entry = target (n0 + 2) (n0 + 3) :: loopTargets irs /\
       lastOf (blocks entry) (scopebb irs) = Some (Br n0) /\
       lastOf (blocks entry) n0
       = Some (CondBr match condition with
                      | Some c => VExp c
                      | None => VBoolTrue
                      end (n0 + 1) (n0 + 3)) /\
       (forall s,
          scopebb (K s) = n0 + 3 /\
          loopTargets (K s) = tail (loopTargets s))).
Proof.
  intros Hv n0 target. unfold scopeValid in Hv. subst n0 target.
  split; [| split].
  - intros condition. eexists. eexists. split.
    { intros body. unfold visit_WhileStatement.
      lazy beta iota zeta delta [BasicBlock_Create toElemDtor].
      reflexivity. }
    split; [red_all; lens; lia |].
    split; [targeted |].
    split; [last_of Hv |].
    split; [last_of Hv |].
    intros s. split; [red_all; lens; lia |].
    unfold branchIfOpen. destruct (scopereturned _); reflexivity.
  - intros Hr condition. eexists. eexists. split.
    { intros body. unfold visit_DoStatement.
      lazy beta iota zeta delta [BasicBlock_Create toElemDtor].
      open_here Hr.
      { rewrite <- Hr. unfold scopereturned.
        apply blockTerminated_ext. intros.
        unfold blockInstrs. red_all. look. reflexivity. }
      reflexivity. }
    split; [red_all; lens; lia |].
    split; [targeted |].
    split; [last_of Hv |].
    intros s. split; [red_all; lens; lia | reflexivity].
  - intros Hr condition increment.
    destruct condition as [c|]; eexists; eexists;
      (split; [| split; [| split; [| split; [| split]]]]).
    all: try (intros body; unfold visit_ForStatement;
      lazy beta iota zeta delta [BasicBlock_Create toElemDtor];
      match goal with |- context [acceptOpt None ?s] =>
        change (acceptOpt None s) with (Ok s) end;
      rewrite (bind_Ok_l _ _ _ eq_refl);
      open_here Hr;
      [ rewrite <- Hr; unfold scopereturned;
        apply blockTerminated_ext; intros;
        unfold blockInstrs; red_all; look; reflexivity |];
      open_here Hr;
      [ unfold scopereturned, blockTerminated; red_all; lens; look;
        reflexivity |];
      reflexivity).
    all: try solve [red_all; lens; lia | targeted | last_of Hv].
    all: intros s; (split; [red_all; lens; lia |]).
    all: match goal with |- context [popLoopTarget ?Y] =>
           transitivity (tail (loopTargets Y)); [reflexivity |] end.
    all: f_equal; rewrite loopTargets_branchIfOpen.
    all: destruct increment;
      match goal with |- context [branchIfOpen ?t ?x] =>
        change (loopTargets (branchIfOpen t x) = loopTargets x) end;
      apply loopTargets_branchIfOpen.
Qed.

Lemma loops_register_their_targets_witness :
  exists (entry : IRState) (K : IRState -> IRState),
    visit_WhileStatement 7 (OtherExp 0 false) (Some (fun s => Ok s))
      initialState
    = Ok (K entry) /\
    scopebb entry = 2 /\
    lastOf (blocks entry) 0 = Some (Br 1) /\
    lastOf (blocks entry) 1 = Some (CondBr (VExp (OtherExp 0 false)) 2 3) /\
    scopebb (K entry) = 3.
Proof.
  destruct (loops_register_their_targets 7 initialState) as (H & _).
  - vm_compute. lia.
  - destruct (H (OtherExp 0 false))
      as (entry & K & Heq & Hs & _ & Hl & Hc & HK).
    exists entry, K. split; [exact (Heq (Some (fun s => Ok s))) |].
    split; [exact Hs |]. split; [exact Hl |]. split; [exact Hc |].
    exact (proj1 (HK entry)).
Defined.

(** X3: the loop targets and the headers of foreach and of foreach over a
    range, forwards and in reverse, lowered in an existing block with [n0]
    blocks in the function before. The lowering is the lowering of the
    body, once (not at all when there is none), in the state [entry],
    followed by a part [K] that does not depend on the body and makes the
    end block [n0+3] current and pops the target of the loop. [entry] has
    block [n0+1] current and the target of the loop on top, with continue
    leading to the block [n0+2] that steps the key and break to the end
    block, recorded at the cleanup depth of the entry; the block the
    statement started in ends by branching to the condition block [n0],
    and that one ends with the conditional branch to the body or to the
    end block. *)
Theorem foreach_loops_register_their_targets stmt op irs :
  scopeValid irs ->
  let n0 := length (blocks irs) in
  let target :=
    {| targetStatement := stmt; continueBlock := Some (n0 + 2);
       breakBlock := n0 + 3; cleanupScope := length (cleanupScopes irs) |} in
  (forall hasKey valueIsRef aggr,
     exists (entry : IRState) (K : IRState -> IRState),
       (forall body : option Lower,
          visit_ForeachStatement stmt op hasKey valueIsRef aggr body irs
          = (s <-- acceptOpt body entry ;; Ok (K s))) /\
       scopebb entry = n0 + 1 /\
       loopTargets entry = target :: loopTargets irs /\
       lastOf (blocks entry) (scopebb irs) = Some (Br n0) /\
       lastOf (blocks entry) n0
       = Some (CondBr (VOther "done") (n0 + 1) (n0 + 3)) /\
       (forall s,
          scopebb (K s) = n0 + 3 /\
          loopTargets (K s) = tail (loopTargets s))) /\
  (forall lwr upr,
     exists (entry : IRState) (K : IRState -> IRState),
       (forall body : option Lower,
          visit_ForeachRangeStatement stmt op lwr upr body irs
          = (s <-- acceptOpt body entry ;; Ok (K s))) /\
       scopebb entry = n0 + 1 /\
       loopTargets entry = target :: loopTargets irs /\
       lastOf (blocks entry) (scopebb irs) = Some (Br n0) /\
       lastOf (blocks entry) n0
       = Some (CondBr (VOther "cond") (n0 + 1) (n0 + 3)) /\
       (forall s,
          scopebb (K s) = n0 + 3 /\
          loopTargets (K s) = tail (loopTargets s))).
Proof.
  intros Hv n0 target. unfold scopeValid in Hv. subst n0 target.
  split.
  - intros hasKey valueIsRef aggr.
    destruct op, hasKey, valueIsRef; eexists; eexists;
      (split; [| split; [| split; [| split; [| split]]]]).
    all: try (intros body; unfold visit_ForeachStatement;
              lazy beta iota zeta delta [BasicBlock_Create toElemDtor];
              reflexivity).
    all: try solve [red_all; lens; lia | targeted | last_of Hv].
    all: intros s; (split; [red_all; lens; lia |]).
    all: match goal with |- context [branchIfOpen ?t ?x] =>
           transitivity (loopTargets (branchIfOpen t x));
           [reflexivity | rewrite loopTargets_branchIfOpen; reflexivity]
         end.
  - intros lwr upr.
    destruct op; eexists; eexists;
      (split; [| split; [| split; [| split; [| split]]]]).
    all: try (intros body; unfold visit_ForeachRangeStatement;
              lazy beta iota zeta delta [BasicBlock_Create toElemDtor];
              reflexivity).
    all: try solve [red_all; lens; lia | targeted | last_of Hv].
    all: intros s; (split; [red_all; lens; lia |]).
    all: match goal with |- context [branchIfOpen ?t ?x] =>
           transitivity (loopTargets (branchIfOpen t x));
           [reflexivity | rewrite loopTargets_branchIfOpen; reflexivity]
         end.
Qed.

Lemma foreach_loops_register_their_targets_witness :
  exists (entry : IRState) (K : IRState -> IRState),
    visit_ForeachRangeStatement 7 TOKforeach (OtherExp 0 false)
      (OtherExp 1 false) (Some (fun s => Ok s)) initialState
    = Ok (K entry) /\
    scopebb entry = 2 /\
    lastOf (blocks entry) 1 = Some (CondBr (VOther "cond") 2 4) /\
    scopebb (K entry) = 4.
Proof.
  destruct (foreach_loops_register_their_targets 7 TOKforeach initialState)
    as (_ & H).
  - vm_compute. lia.
  - destruct (H (OtherExp 0 false) (OtherExp 1 false))
      as (entry & K & Heq & Hs & _ & _ & Hc & HK).
    exists entry, K. split; [exact (Heq (Some (fun s => Ok s))) |].
    split; [exact Hs |]. split; [exact Hc |].
    exact (proj1 (HK entry)).
Defined.

(** ** The headers of loops *)

(** The code of a block of a block list written as it was built. *)
Ltac code_of :=
  unfold blockInstrs; red_all; lens; look;
  cbn [fmap option_fmap option_map appendInstr bbInstrs bbName app];
  rewrite <- ?Nat.add_assoc; cbn [Nat.add]; reflexivity.

(** The code appended to the block the statement started in, where [Hv]
    bounds that block. *)
Ltac appended_to Hv :=
  apply emittedIn_app; unfold blockInstrs; red_all; lens; look;
  destruct (lookup_lt_is_Some_2 _ _ Hv) as [b0 Hb0]; rewrite Hb0;
  cbn [fmap option_fmap option_map appendInstr bbInstrs bbName app];
  rewrite <- ?app_assoc; cbn [app];
  rewrite <- ?Nat.add_assoc; cbn [Nat.add]; reflexivity.

(** X18: the code of the header of a loop, lowered in an existing block
    with [n0] blocks in the function before; [entry] is the state in which
    the body is lowered, once (not at all when there is none), and [K]
    what follows it. For a while loop, the block the statement started in
    has received the branch to the condition block [n0] and nothing else,
    the condition block holds the code of the condition and the
    conditional branch on its value to the body block [n0+1] or to the end
    block [n0+2], and the body block and the end block are empty. For a
    for loop without initialisation, which asserts an open block, the same
    holds with the end block [n0+3], where a missing condition emits no
    code and branches on the constant true, and the body block and the
    increment block [n0+2] are empty. For a foreach over a range the block
    the statement started in has received the code of the bounds, the
    declaration and the store of the key and the branch to the condition
    block, which loads and compares the key and branches to the body block
    [n0+1] or to the end block [n0+3]; the body block holds the decrement
    of the key when the loop runs in reverse. For a foreach the block the
    statement started in has received the declarations of the key and,
    unless it is a reference, of the value, the code of the aggregate, the
    store of the key and the branch to the condition block, which loads
    and compares the key (and, in reverse, decrements and stores it) and
    branches to the body block or to the end block; the body block loads
    the key, addresses the element and binds the value. *)
Theorem loop_headers stmt irs :
  scopeValid irs ->
  let n0 := length (blocks irs) in
  (forall condition,
     exists (entry : IRState) (K : IRState -> IRState),
       (forall body : option Lower,
          visit_WhileStatement stmt condition body irs
          = (s <-- acceptOpt body entry ;; Ok (K s))) /\
       emittedIn irs entry (scopebb irs) = [Br n0] /\
       blockInstrs entry n0
       = [IExp condition; CondBr (VExp condition) (n0 + 1) (n0 + 2)] /\
       blockInstrs entry (n0 + 1) = [] /\
       blockInstrs entry (n0 + 2) = []) /\
  (scopereturned irs = false ->
   forall condition increment,
     exists (entry : IRState) (K : IRState -> IRState),
       (forall body : option Lower,
          visit_ForStatement stmt None condition increment body irs
          = (s <-- acceptOpt body entry ;; Ok (K s))) /\
       emittedIn irs entry (scopebb irs) = [Br n0] /\
       blockInstrs entry n0
       = match condition with
         | Some c => [IExp c; CondBr (VExp c) (n0 + 1) (n0 + 3)]
         | None => [CondBr VBoolTrue (n0 + 1) (n0 + 3)]
         end /\
       blockInstrs entry (n0 + 1) = [] /\
       blockInstrs entry (n0 + 2) = []) /\
  (forall op lwr upr,
     exists (entry : IRState) (K : IRState -> IRState),
       (forall body : option Lower,
          visit_ForeachRangeStatement stmt op lwr upr body irs
          = (s <-- acceptOpt body entry ;; Ok (K s))) /\
       emittedIn irs entry (scopebb irs)
       = [IExp lwr; IExp upr; IVarDecl "key"; IOther "store key"; Br n0] /\
       blockInstrs entry n0
       = [IOther "load key"; IOther "icmp";
          CondBr (VOther "cond") (n0 + 1) (n0 + 3)] /\
       blockInstrs entry (n0 + 1)
       = match op with
         | TOKforeach_reverse => [IOther "decrement key"]
         | TOKforeach => []
         end) /\
  (forall op hasKey valueIsRef aggr,
     exists (entry : IRState) (K : IRState -> IRState),
       (forall body : option Lower,
          visit_ForeachStatement stmt op hasKey valueIsRef aggr body irs
          = (s <-- acceptOpt body entry ;; Ok (K s))) /\
       emittedIn irs entry (scopebb irs)
       = IVarDecl (if hasKey then "key" else "foreachkey")
         :: (if valueIsRef then [] else [IVarDecl "value"])
         ++ [IExp aggr; IOther "store key"; Br n0] /\
       blockInstrs entry n0
       = IOther "load key"
         :: match op with
            | TOKforeach => [IOther "icmp ult"]
            | TOKforeach_reverse =>
                [IOther "icmp ugt"; IOther "sub"; IOther "store key"]
            end
         ++ [CondBr (VOther "done") (n0 + 1) (n0 + 3)] /\
       blockInstrs entry (n0 + 1)
       = [IOther "load key"; IOther "gep";
          if valueIsRef then IVarDecl "value" else IOther "assign value"]).
Proof.
  intros Hv n0. unfold scopeValid in Hv. subst n0.
  split; [| split; [| split]].
  - intros condition. eexists. eexists. split.
    { intros body. unfold visit_WhileStatement.
      lazy beta iota zeta delta [BasicBlock_Create toElemDtor].
      reflexivity. }
    split; [appended_to Hv |].
    split; [code_of |].
    split; code_of.
  - intros Hr condition increment.
    destruct condition as [c|]; eexists; eexists;
      (split; [| split; [| split; [| split]]]).
    all: try (intros body; unfold visit_ForStatement;
      lazy beta iota zeta delta [BasicBlock_Create toElemDtor];
      match goal with |- context [acceptOpt None ?s] =>
        change (acceptOpt None s) with (Ok s) end;
      rewrite (bind_Ok_l _ _ _ eq_refl);
      open_here Hr;
      [ rewrite <- Hr; unfold scopereturned;
        apply blockTerminated_ext; intros;
        unfold blockInstrs; red_all; look; reflexivity |];
      open_here Hr;
      [ unfold scopereturned, blockTerminated; red_all; lens; look;
        reflexivity |];
      reflexivity).
    all: first [appended_to Hv | code_of].
  - intros op lwr upr.
    destruct op; eexists; eexists; (split; [| split; [| split]]).
    all: try (intros body; unfold visit_ForeachRangeStatement;
              lazy beta iota zeta delta [BasicBlock_Create toElemDtor];
              reflexivity).
    all: first [appended_to Hv | code_of].
  - intros op hasKey valueIsRef aggr.
    destruct op, hasKey, valueIsRef; eexists; eexists;
      (split; [| split; [| split]]).
    all: try (intros body; unfold visit_ForeachStatement;
              lazy beta iota zeta delta [BasicBlock_Create toElemDtor];
              reflexivity).
    all: first [appended_to Hv | code_of].
Qed.

Lemma loop_headers_witness :
  exists (entry : IRState) (K : IRState -> IRState),
    visit_WhileStatement 7 (OtherExp 0 false) (Some (fun s => Ok s))
      initialState
    = Ok (K entry) /\
    emittedIn initialState entry 0 = [Br 1] /\
    blockInstrs entry 1
    = [IExp (OtherExp 0 false); CondBr (VExp (OtherExp 0 false)) 2 3].
Proof.
  destruct (loop_headers 7 initialState) as (H & _).
  - vm_compute. lia.
  - destruct (H (OtherExp 0 false)) as (entry & K & Heq & He & Hc & _).
    exists entry, K. split; [exact (Heq (Some (fun s => Ok s))) |].
    split; [exact He | exact Hc].
Defined.
